(** * Smart Media Sampler: a shallow embedding of [Smart_Media_Sampler.py]

    The development has three parts. The first follows the layout of
    [MediaFileSelector]: text utilities and the two Python number parsers
    the size parser relies on, [parse_size], the media entries with
    [get_media_metadata] and [apply_filters], the selection policies, and
    the file-system operations (scan, copy, selection log, undo, the whole
    operation with its dry run). The second holds the vocabulary of the
    properties, the third the properties and their proofs.

    Modelling conventions.
    - Python [int] is [Z]; a [str] is a [string] of ASCII characters.
    - A [pathlib.Path] is the list of its components below the root.
    - A dictionary whose iteration order matters is an association list in
      insertion order; a [set] is a [gset].
    - An uncaught exception is the [Raise] constructor of [result].
    - [float] values are binary64: the decimal literal is rounded to
      nearest-even on 53 bits, written out on [Z].
    - The file system is a finite map from paths to nodes, threaded through
      the operations; a computation keeps the state it reached when it
      raises.
    - What comes from outside (dates, randomness, the clock, the order in
      which futures complete) is a field of [Environment]. In
      [scan_parallel] and [copy_files_parallel] the tasks of a thread pool
      run one after the other, in the order [as_completed] yields them;
      where a property depends on how the workers of the copy interleave,
      it is stated on the pool itself ([pool_run]), whose steps follow any
      schedule. *)

From Stdlib Require Import ZArith Ascii String List Lia Bool.
From stdpp Require Import base option list gmap strings pretty sorting.

Local Open Scope string_scope.
Local Open Scope Z_scope.
Local Open Scope list_scope.

(** ** Exceptions *)

Inductive exn : Type :=
  | ValueError
  | OverflowError
  | ZeroDivisionError
  | KeyError
  | OSError.

Inductive result (A : Type) : Type :=
  | Ok (a : A)
  | Raise (e : exn).
Arguments Ok {A} a.
Arguments Raise {A} e.

(** Sequencing that propagates an exception: [x ← r; k]. *)
#[global] Instance result_bind : MBind result := fun A B k r =>
  match r with
  | Ok a => k a
  | Raise e => Raise e
  end.
#[global] Instance result_ret : MRet result := fun A a => Ok a.

#[global] Instance exn_eq_dec : EqDecision exn.
Proof. solve_decision. Defined.

(** ** Text utilities: [str.upper], [str.lower], [str.strip], [str.endswith] *)

Module Text.

Definition chars (s : string) : list ascii := list_ascii_of_string s.
Definition text (l : list ascii) : string := string_of_list_ascii l.

Definition code (c : ascii) : N := N_of_ascii c.

Definition is_lower (c : ascii) : bool := ((97 <=? code c) && (code c <=? 122))%N.
Definition is_upper (c : ascii) : bool := ((65 <=? code c) && (code c <=? 90))%N.
Definition is_digit (c : ascii) : bool := ((48 <=? code c) && (code c <=? 57))%N.

(** [str.isspace] on the ASCII range: TAB..CR, FS..US and the blank. *)
Definition is_space (c : ascii) : bool :=
  (((9 <=? code c) && (code c <=? 13)) || ((28 <=? code c) && (code c <=? 32)))%N.

Definition upper_char (c : ascii) : ascii :=
  if is_lower c then ascii_of_N (code c - 32) else c.
Definition lower_char (c : ascii) : ascii :=
  if is_upper c then ascii_of_N (code c + 32) else c.

Definition upper_chars (l : list ascii) : list ascii := map upper_char l.
Definition lower_chars (l : list ascii) : list ascii := map lower_char l.

Fixpoint lstrip (l : list ascii) : list ascii :=
  match l with
  | c :: l' => if is_space c then lstrip l' else l
  | [] => []
  end.

Definition strip_chars (l : list ascii) : list ascii :=
  rev (lstrip (rev (lstrip l))).

Definition upper (s : string) : string := text (upper_chars (chars s)).
Definition lower (s : string) : string := text (lower_chars (chars s)).
Definition strip (s : string) : string := text (strip_chars (chars s)).

(** [l.endswith(suf)] *)
Definition endswith (l suf : list ascii) : bool :=
  bool_decide (drop (length l - length suf)%nat l = suf).

(** [l[:-len(suf)]] for a non-empty [suf] *)
Definition chop (l suf : list ascii) : list ascii :=
  take (length l - length suf)%nat l.

Definition digit_value (c : ascii) : Z := Z.of_N (code c) - 48.

End Text.

(** ** Python's numeric literals

    [digitpart ::= digit (["_"] digit)*], shared by [int(str)] and
    [float(str)]. *)

Module Literal.
Import Text.

Definition underscore : ascii := "_"%char.

(** Reads the longest [digitpart] continuation: the digits read and the
    unread rest. *)
Fixpoint digits_tail (l : list ascii) : list Z * list ascii :=
  match l with
  | c :: l' =>
      if is_digit c then
        let '(ds, r) := digits_tail l' in (digit_value c :: ds, r)
      else if bool_decide (c = underscore) then
        match l' with
        | c2 :: l'' =>
            if is_digit c2 then
              let '(ds, r) := digits_tail l'' in (digit_value c2 :: ds, r)
            else ([], l)
        | [] => ([], l)
        end
      else ([], l)
  | [] => ([], [])
  end.

(** A [digitpart] at the head of [l], if there is one. *)
Definition digitpart (l : list ascii) : option (list Z * list ascii) :=
  match l with
  | c :: l' =>
      if is_digit c then
        let '(ds, r) := digits_tail l' in Some (digit_value c :: ds, r)
      else None
  | [] => None
  end.

Definition number_of (ds : list Z) : Z :=
  fold_left (fun acc d => 10 * acc + d) ds 0.

(** An optional sign: [true] for a leading minus. *)
Definition sign (l : list ascii) : bool * list ascii :=
  match l with
  | c :: l' =>
      if bool_decide (c = "-"%char) then (true, l')
      else if bool_decide (c = "+"%char) then (false, l')
      else (false, l)
  | [] => (false, [])
  end.

(** [int(s)] in base ten: [None] is [ValueError]. *)
Definition pyint (s : list ascii) : option Z :=
  let '(neg, l) := sign (strip_chars s) in
  match digitpart l with
  | Some (ds, []) => Some (if neg then - number_of ds else number_of ds)
  | _ => None
  end.

(** *** binary64 *)

Inductive float : Type :=
  | FNan
  | FInf (neg : bool)
  | FFinite (neg : bool) (m e : Z).   (* m * 2^e, 0 <= m *)

Definition round_half_even (p q : Z) : Z :=
  let d := p / q in
  let r := p mod q in
  if 2 * r <? q then d
  else if q <? 2 * r then d + 1
  else if Z.even d then d else d + 1.

(** [p / (q * 2^e)] as a pair numerator, denominator. *)
Definition scaled (p q e : Z) : Z * Z :=
  if 0 <=? e then (p, q * 2 ^ e) else (p * 2 ^ (- e), q).

Definition reaches (p q e : Z) : bool :=
  let '(n, d) := scaled p q e in 2 ^ 52 * d <=? n.

(** The positive rational [p/q] rounded to binary64, to nearest, ties to
    even; [None] when the result is infinite. *)
Definition binary64 (p q : Z) : option (Z * Z) :=
  let e0 := Z.log2 p - Z.log2 q - 52 in
  let e1 := if reaches p q (e0 + 1) then e0 + 1
            else if reaches p q e0 then e0 else e0 - 1 in
  let e := Z.max e1 (-1074) in
  let '(n, d) := scaled p q e in
  let m := round_half_even n d in
  if (971 <? e) || ((e =? 971) && (2 ^ 53 <=? m)) then None
  else Some (m, e).

Definition decimal (neg : bool) (m e10 : Z) : float :=
  if m =? 0 then FFinite neg 0 0
  else
    let r := if 0 <=? e10 then binary64 (m * 10 ^ e10) 1
             else binary64 m (10 ^ (- e10)) in
    match r with
    | Some (m2, e2) => FFinite neg m2 e2
    | None => FInf neg
    end.

Definition exponent (l : list ascii) : option (Z * list ascii) :=
  match l with
  | c :: l' =>
      if bool_decide (c = "E"%char) then
        let '(neg, l1) := sign l' in
        match digitpart l1 with
        | Some (ds, r) => Some (if neg then - number_of ds else number_of ds, r)
        | None => None
        end
      else None
  | [] => Some (0, [])
  end.

(** [number ::= [digitpart] "." digitpart | digitpart ["."]] *)
Definition number (l : list ascii) : option (list Z * list Z * list ascii) :=
  match digitpart l with
  | Some (ip, r) =>
      match r with
      | c :: r' =>
          if bool_decide (c = "."%char) then
            match digitpart r' with
            | Some (fp, r2) => Some (ip, fp, r2)
            | None => Some (ip, [], r')
            end
          else Some (ip, [], r)
      | [] => Some (ip, [], [])
      end
  | None =>
      match l with
      | c :: l' =>
          if bool_decide (c = "."%char) then
            match digitpart l' with
            | Some (fp, r2) => Some ([], fp, r2)
            | None => None
            end
          else None
      | [] => None
      end
  end.

(** [float(s)]: [None] is [ValueError]. Letters are matched without
    regard to case, as CPython does. *)
Definition pyfloat (s : list ascii) : option float :=
  let '(neg, l) := sign (upper_chars (strip_chars s)) in
  if bool_decide (l = chars "INF") || bool_decide (l = chars "INFINITY")
  then Some (FInf neg)
  else if bool_decide (l = chars "NAN") then Some FNan
  else
    match number l with
    | Some (ip, fp, r) =>
        match r with
        | [] => Some (decimal neg (number_of (ip ++ fp)) (- Z.of_nat (length fp)))
        | _ :: _ =>
            match exponent r with
            | Some (e, []) =>
                Some (decimal neg (number_of (ip ++ fp)) (e - Z.of_nat (length fp)))
            | _ => None
            end
        end
    | None => None
    end.

(** [x * k] for a positive [int] [k] below [2^53], whose conversion to
    binary64 is exact: the exact product, rounded. *)
Definition fmul_int (x : float) (k : Z) : float :=
  match x with
  | FFinite neg m e =>
      if m =? 0 then x
      else
        let r := if 0 <=? e then binary64 (m * k * 2 ^ e) 1
                 else binary64 (m * k) (2 ^ (- e)) in
        match r with
        | Some (m2, e2) => FFinite neg m2 e2
        | None => FInf neg
        end
  | _ => x
  end.

(** [int(x)]: truncation; [OverflowError] on an infinity, [ValueError]
    on a NaN. *)
Definition int_of_float (x : float) : result Z :=
  match x with
  | FNan => Raise ValueError
  | FInf _ => Raise OverflowError
  | FFinite neg m e =>
      let a := if 0 <=? e then m * 2 ^ e else m / 2 ^ (- e) in
      Ok (if neg then - a else a)
  end.

End Literal.

(** ** [parse_size] *)

Section ParseSize.
Import Text Literal.

(** The [multipliers] dictionary, in insertion order, which is the order
    of [multipliers.items()]. *)
Definition multipliers : list (string * Z) :=
  [("B", 1); ("KB", 1024); ("MB", 1024 ^ 2); ("GB", 1024 ^ 3); ("TB", 1024 ^ 4)].

(** How the [for] loop over the suffixes ends: by [return] (or an
    exception that is not a [ValueError]), or by leaving the loop, be it
    through [break] or by exhausting the table. *)
Inductive loop_exit : Type :=
  | Returned (r : result Z)
  | Fallthrough.

Fixpoint try_suffixes (size_str : list ascii) (table : list (string * Z)) : loop_exit :=
  match table with
  | [] => Fallthrough
  | (suffix, multiplier) :: table' =>
      if endswith size_str (chars suffix) then
        match pyfloat (chop size_str (chars suffix)) with
        | None => Fallthrough
        | Some number =>
            match int_of_float (fmul_int number multiplier) with
            | Raise ValueError => Fallthrough
            | r => Returned r
            end
        end
      else try_suffixes size_str table'
  end.

(** The three ways [parse_size] ends. [Invalid] is the branch that prints
    the "Invalid size format" warning and returns [0]. *)
Inductive size_outcome : Type :=
  | Parsed (bytes : Z)
  | Invalid
  | Failed (e : exn).

Definition parse_size_outcome (size_str : string) : size_outcome :=
  let size_str := strip_chars (upper_chars (chars size_str)) in
  match try_suffixes size_str multipliers with
  | Returned (Ok n) => Parsed n
  | Returned (Raise e) => Failed e
  | Fallthrough =>
      match pyint size_str with
      | Some n => Parsed n
      | None => Invalid
      end
  end.

Definition parse_size (size_str : string) : result Z :=
  match parse_size_outcome size_str with
  | Parsed n => Ok n
  | Invalid => Ok 0
  | Failed e => Raise e
  end.

End ParseSize.

(** ** Paths

    A [pathlib.Path] is the list of its components below the root. *)

Module Path.
Import Text.

Abbreviation t := (list string).

(** [p.name] *)
Definition name (p : t) : string := List.last p "".

(** [p.parent]; the root is its own parent. *)
Definition parent (p : t) : t := removelast p.

(** [p / child]; joining the empty string leaves the path as it is. *)
Definition join (p : t) (child : string) : t :=
  if bool_decide (child = "") then p else (p ++ [child])%list.

(** [s.rfind('.')], counted from the end: the number of characters after
    the last dot, if there is a dot. *)
Fixpoint after_last_dot (l : list ascii) : option nat :=
  match l with
  | [] => None
  | c :: l' =>
      match after_last_dot l' with
      | Some k => Some k
      | None => if bool_decide (c = "."%char) then Some (length l') else None
      end
  end.

(** The index [i] of the last dot when [0 < i < len(name) - 1]. *)
Definition suffix_index (l : list ascii) : option nat :=
  match after_last_dot l with
  | Some k =>
      let i := (length l - S k)%nat in
      if bool_decide (0 < i)%nat && bool_decide (i < length l - 1)%nat
      then Some i else None
  | None => None
  end.

(** [p.suffix] *)
Definition suffix (p : t) : string :=
  let l := chars (name p) in
  match suffix_index l with
  | Some i => text (drop i l)
  | None => ""
  end.

(** [p.stem] *)
Definition stem (p : t) : string :=
  let l := chars (name p) in
  match suffix_index l with
  | Some i => text (take i l)
  | None => name p
  end.

End Path.

(** ** Media entries *)

Inductive media_type : Type :=
  | image
  | video
  | other
  | unknown.

#[global] Instance media_type_eq_dec : EqDecision media_type.
Proof. solve_decision. Defined.

(** The string stored under the ['type'] key. *)
Definition type_name (m : media_type) : string :=
  match m with
  | image => "image"
  | video => "video"
  | other => "other"
  | unknown => "unknown"
  end.

(** The [file_info] dictionary built by the scan. *)
Record entry : Type := Entry {
  path : Path.t;
  size : Z;
  created : Z;
  modified : Z;
  extension : string;
  type : media_type
}.

#[global] Instance entry_eq_dec : EqDecision entry.
Proof. solve_decision. Defined.

(** [self.media_extensions] *)
Definition media_extensions : list string :=
  [".jpg"; ".jpeg"; ".png"; ".gif"; ".mp4"; ".bmp"; ".tiff"; ".webp";
   ".mov"; ".avi"; ".mkv"; ".webm"; ".m4v"; ".flv";
   ".svg"; ".ico"; ".heic"; ".heif"].

Definition member (x : string) (l : list string) : bool := bool_decide (x ∈ l).

(** [get_media_metadata]: the ['type'] it assigns. No operation inside its
    [try] block can raise on a [Path], so the [except] branch that assigns
    ['unknown'] is never taken. *)
Definition get_media_metadata (file_path : Path.t) : media_type :=
  let ext := Text.lower (Path.suffix file_path) in
  if member ext [".jpg"; ".jpeg"; ".png"; ".bmp"; ".tiff"; ".webp"] then image
  else if member ext [".mp4"; ".mov"; ".avi"; ".mkv"; ".webm"; ".m4v"; ".flv"] then video
  else other.

(** The test of the scan loop: [file_path.suffix.lower() in self.media_extensions]. *)
Definition is_media (file_path : Path.t) : bool :=
  member (Text.lower (Path.suffix file_path)) media_extensions.

(** ** [apply_filters] *)

(** The [filters] dictionary: a key that is absent is [None]. *)
Record filters : Type := Filters {
  min_size : option string;
  max_size : option string;
  date_from : option string;
  date_to : option string;
  file_types : option (list string);
  media_types : option (list string)
}.

Definition no_filters : filters := Filters None None None None None None.

(** [key in filters and filters[key]]: present and truthy. *)
Definition given_str (o : option string) : option string :=
  match o with
  | Some s => if bool_decide (s = "") then None else Some s
  | None => None
  end.

Definition given_list (o : option (list string)) : option (list string) :=
  match o with
  | Some l => match l with [] => None | _ => Some l end
  | None => None
  end.

(** [not filters] for a dictionary: it has no key. *)
Definition is_empty_dict (fl : filters) : bool :=
  match min_size fl, max_size fl, date_from fl, date_to fl, file_types fl, media_types fl with
  | None, None, None, None, None, None => true
  | _, _, _, _, _, _ => false
  end.

(** ** The file system

    What a file holds: the bytes of a media file, identified by a number,
    or one of the three documents the program serialises. *)

(** [get_file_stats]'s dictionary. *)
Record stats : Type := Stats {
  types : list (string * nat);
  stats_total_size : Z;
  count : nat
}.

Inductive payload : Type :=
  | Media (content : Z)
  | ResumeJson (total_files : nat) (copied_files : list Path.t) (timestamp : Z)
  | LogJson (timestamp : Z) (destination : Path.t) (total_selected : nat)
            (files : list Path.t) (st : stats) (filters_applied : filters)
  | CachePickle (cached_files : list entry).

Record file_node : Type := FileNode {
  st_size : Z;
  st_ctime : Z;
  st_mtime : Z;
  data : payload
}.

Inductive node : Type :=
  | Dir (mtime : Z)
  | File (f : file_node).

(** A state of the file system maps the paths that exist to their nodes;
    it lists the root directory [[]]. *)
Abbreviation fs := (gmap Path.t node).

(** ** The environment

    What the program takes from outside: the date parser, the random
    source, the clock, the length of a serialised document, and the order
    in which the futures of a thread pool complete. *)
Class Environment (rng : Type) : Type := {
  (** [datetime.strptime(s, '%Y-%m-%d')] as a timestamp; [None] is the
      [ValueError] on a string that is not a date. *)
  strptime : string -> option Z;
  (** [random.shuffle] and [random.sample], threading the generator. *)
  random_shuffle : rng -> list entry -> list entry * rng;
  random_sample : rng -> list entry -> nat -> list entry * rng;
  (** The time stamped on what is written. *)
  now : Z;
  serialized_size : payload -> Z;
  (** [as_completed]: the futures in the order they finish. *)
  as_completed : forall A : Type, list A -> list A
}.
Arguments as_completed {rng _ A} _.

(** [strptime] with its exception. *)
Definition parse_date {rng : Type} `{!Environment rng} (s : string) : result Z :=
  match strptime s with
  | Some d => Ok d
  | None => Raise ValueError
  end.

(** What is assumed of the environment: [random.sample] returns as many
    entries as asked, and every future submitted to a pool completes. *)
Class EnvironmentLaws (rng : Type) `{!Environment rng} : Prop := {
  sample_length : forall g l k,
    (k <= length l)%nat -> length (fst (random_sample g l k)) = k;
  as_completed_perm : forall (A : Type) (l : list A), as_completed l ≡ₚ l
}.

Section Filters.

Context {rng : Type} `{!Environment rng}.

Definition by_min_size (fl : filters) (files : list entry) : result (list entry) :=
  match given_str (min_size fl) with
  | Some s =>
      min_bytes ← parse_size s;
      Ok (List.filter (fun f => min_bytes <=? size f) files)
  | None => Ok files
  end.

Definition by_max_size (fl : filters) (files : list entry) : result (list entry) :=
  match given_str (max_size fl) with
  | Some s =>
      max_bytes ← parse_size s;
      Ok (List.filter (fun f => size f <=? max_bytes) files)
  | None => Ok files
  end.

Definition by_date_from (fl : filters) (files : list entry) : result (list entry) :=
  match given_str (date_from fl) with
  | Some s =>
      from_date ← parse_date s;
      Ok (List.filter (fun f => from_date <=? modified f) files)
  | None => Ok files
  end.

Definition by_date_to (fl : filters) (files : list entry) : result (list entry) :=
  match given_str (date_to fl) with
  | Some s =>
      to_date ← parse_date s;
      Ok (List.filter (fun f => modified f <=? to_date) files)
  | None => Ok files
  end.

Definition by_file_types (fl : filters) (files : list entry) : list entry :=
  match given_list (file_types fl) with
  | Some allowed_types => List.filter (fun f => member (extension f) allowed_types) files
  | None => files
  end.

Definition by_media_types (fl : filters) (files : list entry) : list entry :=
  match given_list (media_types fl) with
  | Some allowed_media => List.filter (fun f => member (type_name (type f)) allowed_media) files
  | None => files
  end.

Definition apply_filters (files_data : list entry) (filters : option filters)
  : result (list entry) :=
  match filters with
  | None => Ok files_data
  | Some fl =>
      if is_empty_dict fl then Ok files_data
      else
        l1 ← by_min_size fl files_data;
        l2 ← by_max_size fl l1;
        l3 ← by_date_from fl l2;
        l4 ← by_date_to fl l3;
        Ok (by_media_types fl (by_file_types fl l4))
  end.

End Filters.

(** ** Selection by total size *)

(** [folder_groups[key].append(f)] on a [defaultdict(list)], which keeps
    its keys in order of first insertion. *)
Fixpoint group_append (key : Path.t) (f : entry) (groups : list (Path.t * list entry))
  : list (Path.t * list entry) :=
  match groups with
  | [] => [(key, [f])]
  | (k, fs) :: groups' =>
      if bool_decide (k = key) then (k, (fs ++ [f])%list) :: groups'
      else (k, fs) :: group_append key f groups'
  end.

Definition folder_groups (files_data : list entry) : list (Path.t * list entry) :=
  fold_left (fun groups f => group_append (Path.parent (path f)) f groups) files_data [].

(** [sorted(files, key=lambda x: x['size'])]: a stable sort. *)
Fixpoint insert_by_size (f : entry) (l : list entry) : list entry :=
  match l with
  | [] => [f]
  | g :: l' => if size f <=? size g then f :: g :: l' else g :: insert_by_size f l'
  end.

Definition sorted_by_size (files : list entry) : list entry :=
  fold_right insert_by_size [] files.

(** The greedy loop shared by both branches: an entry is added when it
    fits, and the loop is left as soon as the running total reaches the
    limit. *)
Fixpoint greedy (limit running : Z) (files : list entry) : list entry :=
  match files with
  | [] => []
  | f :: files' =>
      let fits := running + size f <=? limit in
      let running' := if fits then running + size f else running in
      let picked := if fits then [f] else [] in
      if limit <=? running' then picked
      else (picked ++ greedy limit running' files')%list
  end.

Definition total_size (files : list entry) : Z :=
  fold_right (fun f acc => size f + acc) 0 files.

(** [a // b] on an [int] divisor that may be zero. *)
Definition floordiv (a b : Z) : result Z :=
  if b =? 0 then Raise ZeroDivisionError else Ok (a / b).

Section Selection.

Context {rng : Type} `{!Environment rng}.

(** [random.sample(population, k)] raises [ValueError] when [k] is
    negative or exceeds the population. *)
Definition sample (g : rng) (population : list entry) (k : Z)
  : result (list entry * rng) :=
  if (k <? 0) || (Z.of_nat (length population) <? k) then Raise ValueError
  else Ok (random_sample g population (Z.to_nat k)).

Definition select_balanced_size (target_bytes : Z) (files_data : list entry)
  : result (list entry) :=
  let groups := folder_groups files_data in
  size_per_folder ← floordiv target_bytes (Z.of_nat (length groups));
  Ok (concat (map (fun '(_, files) => greedy size_per_folder 0 (sorted_by_size files))
                  groups)).

Definition select_by_total_size (g : rng) (files_data : list entry)
    (target_size_str : string) (balanced : bool) : result (list entry * rng) :=
  target_bytes ← parse_size target_size_str;
  if balanced then
    selected_files ← select_balanced_size target_bytes files_data;
    Ok (selected_files, g)
  else
    let '(shuffled_files, g') := random_shuffle g files_data in
    Ok (greedy target_bytes 0 shuffled_files, g').

End Selection.

(** ** Selection by count *)

Section CountSelection.

Context {rng : Type} `{!Environment rng}.

(** The loop over [folder_files.items()]: what each folder contributes,
    in dictionary order. A folder without files contributes nothing and
    leaves [remaining] as it is. *)
Fixpoint balanced_pass (g : rng) (files_per_folder remaining : Z)
    (folder_files : list (Path.t * list entry)) : result (list (list entry) * rng) :=
  match folder_files with
  | [] => Ok ([], g)
  | (_, files) :: folder_files' =>
      match files with
      | [] =>
          '(picks, g') ← balanced_pass g files_per_folder remaining folder_files';
          Ok ([] :: picks, g')
      | _ :: _ =>
          let take := Z.min (files_per_folder + (if 0 <? remaining then 1 else 0))
                            (Z.of_nat (length files)) in
          '(picked, g1) ← sample g files take;
          let remaining' := if 0 <? remaining then remaining - 1 else remaining in
          '(picks, g2) ← balanced_pass g1 files_per_folder remaining' folder_files';
          Ok (picked :: picks, g2)
      end
  end.

(** The top-up: [random.sample] over the entries not selected yet. *)
Definition top_up (g : rng) (num_files : Z) (all_files_data selected_files : list entry)
  : result (list entry * rng) :=
  if Z.of_nat (length selected_files) <? num_files then
    let remaining_files :=
      List.filter (fun f => negb (bool_decide (f ∈ selected_files))) all_files_data in
    match remaining_files with
    | [] => Ok (selected_files, g)
    | _ :: _ =>
        '(additional, g') ←
          sample g remaining_files
            (Z.min (num_files - Z.of_nat (length selected_files))
                   (Z.of_nat (length remaining_files)));
        Ok ((selected_files ++ additional)%list, g')
    end
  else Ok (selected_files, g).

(** [num_files] after the clamp to what is available. *)
Definition clamp_count (num_files : Z) (all_files_data : list entry) : Z :=
  if Z.of_nat (length all_files_data) <? num_files
  then Z.of_nat (length all_files_data) else num_files.

(** The [else] branch of "Selection logic": selection by count.
    [source_count] is [len(source_folders)]. *)
Definition select_by_count (g : rng) (num_files : Z) (balanced : bool)
    (source_count : nat) (folder_files : list (Path.t * list entry))
    (all_files_data : list entry) : result (list entry * rng) :=
  let num_files := clamp_count num_files all_files_data in
  if balanced && (0 <? Z.of_nat source_count) then
    let files_per_folder := num_files / Z.of_nat source_count in
    let remaining := num_files mod Z.of_nat source_count in
    '(picks, g1) ← balanced_pass g files_per_folder remaining folder_files;
    top_up g1 num_files all_files_data (concat picks)
  else sample g all_files_data num_files.

End CountSelection.

(** ** Operations on the file system

    A computation takes a state of the file system and yields a value or
    an exception, with the state it leaves behind in both cases. *)

Definition io (A : Type) : Type := fs -> result A * fs.

#[global] Instance io_ret : MRet io := fun A a σ => (Ok a, σ).
#[global] Instance io_bind : MBind io := fun A B k m σ =>
  match m σ with
  | (Ok a, σ') => k a σ'
  | (Raise e, σ') => (Raise e, σ')
  end.

Definition raise {A : Type} (e : exn) : io A := fun σ => (Raise e, σ).
Definition get_fs : io fs := fun σ => (Ok σ, σ).
Definition lift {A : Type} (r : result A) : io A := fun σ => (r, σ).

(** [try: m  except Exception: h] *)
Definition try_except {A : Type} (m : io A) (h : exn -> io A) : io A := fun σ =>
  match m σ with
  | (Ok a, σ') => (Ok a, σ')
  | (Raise e, σ') => h e σ'
  end.

Definition cache_name : string := ".media_cache.pkl".
Definition log_name : string := "selection_log.json".
Definition resume_name : string := "operation_resume.json".

Section FileSystem.

Context {rng : Type} `{!Environment rng}.

Definition exists_ (σ : fs) (p : Path.t) : bool := bool_decide (is_Some (σ !! p)).

Definition is_dir (σ : fs) (p : Path.t) : bool :=
  match σ !! p with Some (Dir _) => true | _ => false end.

Definition is_file (σ : fs) (p : Path.t) : bool :=
  match σ !! p with Some (File _) => true | _ => false end.

(** Adding or removing an entry of a directory stamps the directory. *)
Definition touch_parent (p : Path.t) (σ : fs) : fs :=
  match σ !! Path.parent p with
  | Some (Dir _) => <[Path.parent p := Dir now]> σ
  | _ => σ
  end.

Definition create (p : Path.t) (n : node) (σ : fs) : fs :=
  <[p := n]> (touch_parent p σ).

(** [Path.mkdir(parents=True, exist_ok=True)], walking down from [base]
    through the components [rest]. *)
Fixpoint makedirs (base : Path.t) (rest : list string) (σ : fs) : result unit * fs :=
  match rest with
  | [] => (Ok tt, σ)
  | c :: rest' =>
      let q := (base ++ [c])%list in
      match σ !! q with
      | Some (Dir _) => makedirs q rest' σ
      | Some (File _) => (Raise OSError, σ)
      | None => makedirs q rest' (create q (Dir now) σ)
      end
  end.

Definition mkdir_parents (p : Path.t) : io unit := makedirs [] p.

(** [Path.mkdir(exist_ok=True)] *)
Definition mkdir_exist_ok (p : Path.t) : io unit := fun σ =>
  match σ !! p with
  | Some (Dir _) => (Ok tt, σ)
  | Some (File _) => (Raise OSError, σ)
  | None =>
      if is_dir σ (Path.parent p) then (Ok tt, create p (Dir now) σ)
      else (Raise OSError, σ)
  end.

(** [open(p, 'w')] followed by the dump of a document. *)
Definition write_file (p : Path.t) (d : payload) : io unit := fun σ =>
  let f := File (FileNode (serialized_size d) now now d) in
  match σ !! p with
  | Some (Dir _) => (Raise OSError, σ)
  | Some (File _) => (Ok tt, <[p := f]> σ)
  | None =>
      if is_dir σ (Path.parent p) then (Ok tt, create p f σ)
      else (Raise OSError, σ)
  end.

(** [shutil.copy2(src, dst)]: contents and times are carried over; a
    destination that is a directory receives the file under its own
    name; copying a file onto itself is an error. *)
Definition copy2 (src dst : Path.t) : io unit := fun σ =>
  match σ !! src with
  | Some (File f) =>
      let dst := if is_dir σ dst then Path.join dst (Path.name src) else dst in
      let copy := File (FileNode (st_size f) now (st_mtime f) (data f)) in
      if bool_decide (dst = src) then (Raise OSError, σ)
      else
        match σ !! dst with
        | Some (Dir _) => (Raise OSError, σ)
        | Some (File _) => (Ok tt, <[dst := copy]> σ)
        | None =>
            if is_dir σ (Path.parent dst) then (Ok tt, create dst copy σ)
            else (Raise OSError, σ)
        end
  | _ => (Raise OSError, σ)
  end.

(** [Path.unlink()] *)
Definition unlink (p : Path.t) : io unit := fun σ =>
  match σ !! p with
  | Some (File _) => (Ok tt, touch_parent p (delete p σ))
  | _ => (Raise OSError, σ)
  end.

(** [folder.rglob('*')] restricted to regular files: the files strictly
    below [folder], in the order of the map. *)
Definition rglob_files (σ : fs) (folder : Path.t) : list (Path.t * file_node) :=
  omap (fun '(p, n) =>
          match n with
          | File f =>
              if bool_decide (folder `prefix_of` p) && negb (bool_decide (p = folder))
              then Some (p, f) else None
          | Dir _ => None
          end)
       (map_to_list σ).

End FileSystem.

(** ** Scanning: [collect_media_files_optimized] *)

Section Scan.

Context {rng : Type} `{!Environment rng}.

Definition node_mtime (n : node) : Z :=
  match n with
  | Dir m => m
  | File f => st_mtime f
  end.

(** The [file_info] of a file found by the walk. *)
Definition file_info (file_path : Path.t) (f : file_node) : entry :=
  Entry file_path (st_size f) (st_ctime f) (st_mtime f)
        (Text.lower (Path.suffix file_path)) (get_media_metadata file_path).

(** The cache branch: [Some] is the [return] inside the [try]; [None]
    is every way of falling through to the fresh scan, the bare [except]
    included (it also swallows an exception of [apply_filters]). *)
Definition read_cache (σ : fs) (folder : Path.t) (filters : option filters)
  : option (list entry) :=
  match σ !! Path.join folder cache_name, σ !! folder with
  | Some c, Some d =>
      if node_mtime d <? node_mtime c then
        match c with
        | File f =>
            match data f with
            | CachePickle cached_files =>
                match apply_filters cached_files filters with
                | Ok l => Some l
                | Raise _ => None
                end
            | _ => None
            end
        | Dir _ => None
        end
      else None
  | _, _ => None
  end.

Definition walk (σ : fs) (folder : Path.t) : list entry :=
  map (fun '(p, f) => file_info p f)
      (List.filter (fun '(p, _) => is_media p) (rglob_files σ folder)).

Definition collect_media_files_optimized (folder : Path.t)
    (filters : option filters) (use_cache : bool) : io (list entry) := fun σ =>
  if negb (is_dir σ folder) then (Ok [], σ)
  else
    match (if use_cache then read_cache σ folder filters else None) with
    | Some l => (Ok l, σ)
    | None =>
        let files_data := walk σ folder in
        let σ' :=
          if use_cache then
            snd (try_except (write_file (Path.join folder cache_name)
                                        (CachePickle files_data))
                            (fun _ => mret tt) σ)
          else σ in
        (apply_filters files_data filters, σ')
    end.

End Scan.

(** ** [get_file_stats] *)

Fixpoint bump (ext : string) (types : list (string * nat)) : list (string * nat) :=
  match types with
  | [] => [(ext, 1%nat)]
  | (e, n) :: types' =>
      if bool_decide (e = ext) then (e, S n) :: types' else (e, n) :: bump ext types'
  end.

Definition get_file_stats (files_list : list entry) : stats :=
  fold_left (fun st f =>
               Stats (bump (extension f) (types st))
                     (stats_total_size st + size f) (count st))
            files_list (Stats [] 0 (length files_list)).

(** ** The resume ledger and the copy engine *)

Section Copy.

Context {rng : Type} `{!Environment rng}.

(** [save_operation_state]: a failure to write is reported on the
    console and otherwise ignored. *)
Definition save_operation_state (state : payload) (resume_file : Path.t) : io unit :=
  try_except (write_file resume_file state) (fun _ => mret tt).

(** [load_operation_state]: the JSON document at [resume_file], or
    [None] when there is no readable JSON there. *)
Definition load_operation_state (σ : fs) (resume_file : Path.t) : option payload :=
  match σ !! resume_file with
  | Some (File f) =>
      match data f with
      | ResumeJson _ _ _ | LogJson _ _ _ _ _ _ => Some (data f)
      | _ => None
      end
  | _ => None
  end.

(** [state.get('copied_files', [])] *)
Definition state_copied_files (state : payload) : list Path.t :=
  match state with
  | ResumeJson _ copied_files _ => copied_files
  | _ => []
  end.

(** [log_data.get('files', [])] *)
Definition log_files (log_data : payload) : list Path.t :=
  match log_data with
  | LogJson _ _ _ files _ _ => files
  | _ => []
  end.

(** The path [get_destination_path] returns; [None] for the subfolder
    when the structure is not preserved or the parent has no name. *)
Definition dest_subfolder (file_path dest_path : Path.t) (preserve_structure : bool)
    (all_selected_files : list entry) : option Path.t :=
  if preserve_structure then
    match List.find (fun f => bool_decide (path f = file_path)) all_selected_files with
    | Some f =>
        let source_folder := Path.name (Path.parent (path f)) in
        if bool_decide (source_folder = "") then None
        else Some (Path.join dest_path source_folder)
    | None => None
    end
  else None.

Definition destination_of (file_path dest_path : Path.t) (preserve_structure : bool)
    (all_selected_files : list entry) : Path.t :=
  match dest_subfolder file_path dest_path preserve_structure all_selected_files with
  | Some sub => Path.join sub (Path.name file_path)
  | None => Path.join dest_path (Path.name file_path)
  end.

(** [get_destination_path]: it creates the subfolder it resolves to. *)
Definition get_destination_path (file_path dest_path : Path.t)
    (preserve_structure : bool) (all_selected_files : list entry) : io Path.t :=
  match dest_subfolder file_path dest_path preserve_structure all_selected_files with
  | Some sub => _ ← mkdir_exist_ok sub; mret (Path.join sub (Path.name file_path))
  | None => mret (Path.join dest_path (Path.name file_path))
  end.

(** [original_dest.parent / f"{stem}_{counter}{suffix}"] *)
Definition numbered (original_dest : Path.t) (counter : nat) : Path.t :=
  Path.join (Path.parent original_dest)
    (Path.stem original_dest +:+ "_" +:+ pretty counter +:+ Path.suffix original_dest).

(** The [while dest_file.exists()] loop, with [fuel] iterations at most;
    [None] when the fuel runs out. *)
Fixpoint unused_name (σ : fs) (original_dest : Path.t) (fuel counter : nat)
    (dest_file : Path.t) : option Path.t :=
  if exists_ σ dest_file then
    match fuel with
    | O => None
    | S fuel' =>
        unused_name σ original_dest fuel' (S counter) (numbered original_dest counter)
    end
  else Some dest_file.

(** The loop of [copy_single_file] from [counter = 1]. One more
    iteration than there are paths in the file system always suffices
    (see [resolve_conflict_total]). *)
Definition resolve_conflict (σ : fs) (dest_file : Path.t) : option Path.t :=
  unused_name σ dest_file (S (base.size σ)) 1 dest_file.

(** [copy_single_file]: [Some dest_file] on success, [None] for the
    error message. *)
Definition copy_single_file (file_path dest_path : Path.t) (preserve_structure : bool)
    (selected_files : list entry) : io (option Path.t) :=
  try_except
    (dest_file ← get_destination_path file_path dest_path preserve_structure selected_files;
     _ ← mkdir_parents (Path.parent dest_file);
     σ ← get_fs;
     match resolve_conflict σ dest_file with
     | Some dest_file =>
         _ ← copy2 file_path dest_file;
         mret (Some dest_file)
     | None => raise OSError
     end)
    (fun _ => mret None).

(** "Filter out already copied files" *)
Fixpoint remaining_files (copied_files : gset Path.t) (dest_path : Path.t)
    (preserve_structure : bool) (selected_files todo : list entry) : io (list entry) :=
  match todo with
  | [] => mret []
  | file_data :: todo' =>
      dest_file ← get_destination_path (path file_data) dest_path
                    preserve_structure selected_files;
      σ ← get_fs;
      rest ← remaining_files copied_files dest_path preserve_structure selected_files todo';
      if negb (bool_decide (dest_file ∈ copied_files)) && negb (exists_ σ dest_file)
      then mret (file_data :: rest) else mret rest
  end.

(** What the loop over the completed futures carries. *)
Record progress : Type := Progress {
  copied_files : gset Path.t;
  copied_count : nat;
  errors : list Path.t
}.

Definition checkpoint (resume_file : option Path.t) (total : nat) (pr : progress)
  : io unit :=
  match resume_file with
  | Some r => save_operation_state (ResumeJson total (elements (copied_files pr)) now) r
  | None => mret tt
  end.

(** The loop [for i, future in enumerate(as_completed(...), 1)]. *)
Fixpoint copy_loop (dest_path : Path.t) (preserve_structure : bool)
    (resume_file : option Path.t) (selected_files : list entry) (n_remaining : nat)
    (i : nat) (pr : progress) (futures : list entry) : io progress :=
  match futures with
  | [] => mret pr
  | file_data :: futures' =>
      r ← copy_single_file (path file_data) dest_path preserve_structure selected_files;
      let pr' :=
        match r with
        | Some dest_file =>
            Progress ({[dest_file]} ∪ copied_files pr) (S (copied_count pr)) (errors pr)
        | None =>
            Progress (copied_files pr) (copied_count pr)
                     (errors pr ++ [path file_data])%list
        end in
      _ ← (if bool_decide (i mod 10 = 0)%nat || bool_decide (i = n_remaining)
           then checkpoint resume_file (length selected_files) pr'
           else mret tt);
      copy_loop dest_path preserve_structure resume_file selected_files n_remaining
                (S i) pr' futures'
  end.

(** The ledger loaded when the engine starts. *)
Definition load_ledger (σ : fs) (resume_file : option Path.t) : gset Path.t :=
  match resume_file with
  | Some r =>
      if exists_ σ r then
        match load_operation_state σ r with
        | Some state => list_to_set (state_copied_files state)
        | None => ∅
        end
      else ∅
  | None => ∅
  end.

(** [copy_files_parallel]: the copies run one after the other in the
    order [as_completed] gives; it returns [copied_count] and the
    sources that failed. *)
Definition copy_files_parallel (selected_files : list entry) (dest_path : Path.t)
    (preserve_structure : bool) (resume_file : option Path.t)
  : io (nat * list Path.t) :=
  _ ← mkdir_parents dest_path;
  σ ← get_fs;
  let ledger := load_ledger σ resume_file in
  todo ← remaining_files ledger dest_path preserve_structure selected_files selected_files;
  match todo with
  | [] => mret (length selected_files, [])
  | _ :: _ =>
      pr ← copy_loop dest_path preserve_structure resume_file selected_files
             (length todo) 1 (Progress ledger (base.size ledger) []) (as_completed todo);
      mret (copied_count pr, errors pr)
  end.

End Copy.

(** ** The selection log, undo, and the whole operation *)

Section Operation.

Context {rng : Type} `{!Environment rng}.

(** [save_selection_log]: the ['files'] of the log are the ['path'] of
    the selected entries. *)
Definition save_selection_log (selected_files : list entry) (destination_folder : Path.t)
    (st : stats) (filters : option filters) : io unit :=
  let log_data :=
    LogJson now destination_folder (length selected_files)
            (map path selected_files) st (default no_filters filters) in
  try_except (write_file (Path.join destination_folder log_name) log_data)
             (fun _ => mret tt).

(** The loop of [undo_last_operation] over the listed files. *)
Fixpoint delete_listed (files : list Path.t) : io unit :=
  match files with
  | [] => mret tt
  | dest_file :: files' =>
      σ ← get_fs;
      _ ← (if exists_ σ dest_file
           then try_except (unlink dest_file) (fun _ => mret tt)
           else mret tt);
      delete_listed files'
  end.

(** [undo_last_operation] *)
Definition undo_last_operation (destination_folder : Path.t) : io bool :=
  let log_file := Path.join destination_folder log_name in
  σ ← get_fs;
  if negb (exists_ σ log_file) then mret false
  else
    match load_operation_state σ log_file with
    | Some log_data =>
        _ ← delete_listed (log_files log_data);
        _ ← try_except (unlink log_file) (fun _ => mret tt);
        mret true
    | None => mret false
    end.

(** [folder_files[folder] = files] on a dictionary in insertion order. *)
Fixpoint dict_set (folder : Path.t) (files : list entry)
    (folder_files : list (Path.t * list entry)) : list (Path.t * list entry) :=
  match folder_files with
  | [] => [(folder, files)]
  | (k, v) :: folder_files' =>
      if bool_decide (k = folder) then (k, files) :: folder_files'
      else (k, v) :: dict_set folder files folder_files'
  end.

Definition dict_get (folder : Path.t) (folder_files : list (Path.t * list entry))
  : result (list entry) :=
  match List.find (fun '(k, _) => bool_decide (k = folder)) folder_files with
  | Some (_, files) => Ok files
  | None => Raise KeyError
  end.

(** What the scanning loops build. *)
Record scanned : Type := Scanned {
  folder_files : list (Path.t * list entry);
  all_files_data : list entry
}.

(** The scan of several folders on a thread pool: a folder whose scan
    raises is reported and left out. *)
Fixpoint scan_parallel (filters : option filters) (use_cache : bool)
    (futures : list Path.t) (acc : scanned) : io scanned :=
  match futures with
  | [] => mret acc
  | folder :: futures' =>
      acc' ← try_except
               (files ← collect_media_files_optimized folder filters use_cache;
                mret (Scanned (dict_set folder files (folder_files acc))
                              (all_files_data acc ++ files)%list))
               (fun _ => mret acc);
      scan_parallel filters use_cache futures' acc'
  end.

(** The inline scan: an exception leaves the operation. *)
Fixpoint scan_inline (filters : option filters) (use_cache : bool)
    (source_folders : list Path.t) (acc : scanned) : io scanned :=
  match source_folders with
  | [] => mret acc
  | folder :: source_folders' =>
      files ← collect_media_files_optimized folder filters use_cache;
      scan_inline filters use_cache source_folders'
        (Scanned (dict_set folder files (folder_files acc))
                 (all_files_data acc ++ files)%list)
  end.

Definition scan_all (source_folders : list Path.t) (filters : option filters)
    (use_cache : bool) : io scanned :=
  if bool_decide (1 < length source_folders)%nat
  then scan_parallel filters use_cache (as_completed source_folders) (Scanned [] [])
  else scan_inline filters use_cache source_folders (Scanned [] []).

(** "Display folder statistics": the loop reads [folder_files[folder]]
    for every source folder. *)
Fixpoint display_statistics (source_folders : list Path.t)
    (folder_files : list (Path.t * list entry)) : result unit :=
  match source_folders with
  | [] => Ok tt
  | folder :: source_folders' =>
      _ ← dict_get folder folder_files;
      display_statistics source_folders' folder_files
  end.

(** "Selection logic". A [target_size] that is [None] or empty selects
    by count. *)
Definition select (g : rng) (sc : scanned) (source_folders : list Path.t)
    (num_files : Z) (target_size : option string) (balanced : bool)
  : result (list entry) :=
  match given_str target_size with
  | Some target_size =>
      r ← select_by_total_size g (all_files_data sc) target_size balanced;
      Ok (fst r)
  | None =>
      r ← select_by_count g num_files balanced (length source_folders)
            (folder_files sc) (all_files_data sc);
      Ok (fst r)
  end.

(** The parameters of [randomly_select_and_copy_files]. *)
Record config : Type := Config {
  source_folders : list Path.t;
  destination_folder : Path.t;
  num_files : Z;
  target_size : option string;
  balanced : bool;
  dry_run : bool;
  preserve_structure : bool;
  cfg_filters : option filters;
  resume_file : option Path.t;
  use_cache : bool
}.

(** Everything after the destination folder is known to exist. *)
Definition select_and_copy (g : rng) (c : config) : io nat :=
  let dest_path := destination_folder c in
  let resume_file := default (Path.join dest_path resume_name) (resume_file c) in
  sc ← scan_all (source_folders c) (cfg_filters c) (use_cache c);
  _ ← lift (display_statistics (source_folders c) (folder_files sc));
  match all_files_data sc with
  | [] => mret O
  | _ :: _ =>
      selected_files ← lift (select g sc (source_folders c) (num_files c)
                                    (target_size c) (balanced c));
      let selection_stats := get_file_stats selected_files in
      if dry_run c then mret (length selected_files)
      else
        '(copied_count, errors) ←
          copy_files_parallel selected_files dest_path (preserve_structure c)
                              (Some resume_file);
        _ ← save_selection_log selected_files dest_path selection_stats (cfg_filters c);
        σ ← get_fs;
        _ ← (if exists_ σ resume_file && bool_decide (errors = [])
             then try_except (unlink resume_file) (fun _ => mret tt)
             else mret tt);
        mret copied_count
  end.

(** [randomly_select_and_copy_files] *)
Definition randomly_select_and_copy_files (g : rng) (c : config) : io nat := fun σ =>
  if negb (exists_ σ (destination_folder c)) && negb (dry_run c) then
    match mkdir_parents (destination_folder c) σ with
    | (Ok _, σ') => select_and_copy g c σ'
    | (Raise _, σ') => (Ok O, σ')
    end
  else select_and_copy g c σ.

End Operation.
(** ** The thread pool of [copy_files_parallel]

    [copy_files_parallel] submits one call of [copy_single_file] for
    every entry of the work list to a [ThreadPoolExecutor] and takes the
    results in the main thread as they complete. The workers share the
    file system: between the test [dest_file.exists()] of one worker and
    its [shutil.copy2], the other workers and the main thread move.

    A call of [copy_single_file] is cut at the places where it looks at
    the file system or changes it; what lies between two cuts is one
    step. A schedule says whose step comes next. *)

(** Where a call of [copy_single_file] stands. *)
Inductive task : Type :=
  (** submitted; no worker has taken it *)
  | Queued
  (** [get_destination_path] has returned [dest_file] *)
  | Resolved (dest_file : Path.t)
  (** at the head of [while dest_file.exists()] *)
  | Looking (original_dest : Path.t) (counter : nat) (dest_file : Path.t)
  (** the loop is left; [shutil.copy2] comes next *)
  | Writing (dest_file : Path.t)
  (** the future holds [(dest_file, None)] or [(None, error)] *)
  | Finished (r : option Path.t)
  (** the main thread has taken the result *)
  | Collected (r : option Path.t).

(** A worker is busy with the task. *)
Definition is_running (t : task) : bool :=
  match t with
  | Resolved _ | Looking _ _ _ | Writing _ => true
  | Queued | Finished _ | Collected _ => false
  end.

Definition is_queued (t : task) : bool :=
  match t with Queued => true | _ => false end.

Definition is_collected (t : task) : bool :=
  match t with Collected _ => true | _ => false end.

(** The file system, the futures in the order they were submitted, and
    the variables of the main thread: [copied_files], [copied_count] and
    [errors], and how many results it has taken. *)
Record pool : Type := Pool {
  pool_fs : fs;
  pool_tasks : list (entry * task);
  pool_progress : progress;
  pool_taken : nat
}.

Section Pool.

Context {rng : Type} `{!Environment rng}.

Variables (dest_path : Path.t) (preserve_structure : bool)
          (resume_file : option Path.t) (selected_files : list entry)
          (max_workers : nat).

(** The [try] of [copy_single_file]: an exception ends the call with
    [(None, error)]. *)
Definition settle {A : Type} (r : result A * fs) (k : A -> task) : task * fs :=
  match r with
  | (Ok a, σ) => (k a, σ)
  | (Raise _, σ) => (Finished None, σ)
  end.

(** One step of the worker that runs [copy_single_file] on [file_path]. *)
Definition worker_step (file_path : Path.t) (t : task) (σ : fs) : option (task * fs) :=
  match t with
  | Queued =>
      Some (settle (get_destination_path file_path dest_path preserve_structure
                      selected_files σ)
                   Resolved)
  | Resolved dest_file =>
      Some (settle (mkdir_parents (Path.parent dest_file) σ)
                   (fun _ => Looking dest_file 1 dest_file))
  | Looking original_dest counter dest_file =>
      Some (if exists_ σ dest_file
            then Looking original_dest (S counter) (numbered original_dest counter)
            else Writing dest_file,
            σ)
  | Writing dest_file =>
      Some (settle (copy2 file_path dest_file σ) (fun _ => Finished (Some dest_file)))
  | Finished _ | Collected _ => None
  end.

(** The body of [for i, future in enumerate(as_completed(...), 1)] for
    the result [r] of the future of [file_path]. *)
Definition collect_result (n_remaining i : nat) (pr : progress) (file_path : Path.t)
    (r : option Path.t) : io progress :=
  let pr' :=
    match r with
    | Some dest_file =>
        Progress ({[dest_file]} ∪ copied_files pr) (S (copied_count pr)) (errors pr)
    | None =>
        Progress (copied_files pr) (copied_count pr) (errors pr ++ [file_path])%list
    end in
  _ ← (if bool_decide (i mod 10 = 0)%nat || bool_decide (i = n_remaining)
       then checkpoint resume_file (length selected_files) pr'
       else mret tt);
  mret pr'.

(** A worker of the pool is idle. *)
Definition free_worker (tasks : list (entry * task)) : bool :=
  bool_decide (length (List.filter (fun et => is_running et.2) tasks) < max_workers)%nat.

(** The step of the future [k]: a queued call is taken by an idle
    worker, a running call makes its next step, a finished one is taken
    by the main thread. [None] when the future cannot move. *)
Definition pool_exec (k : nat) (p : pool) : option pool :=
  match pool_tasks p !! k with
  | Some (e, Finished r) =>
      match collect_result (length (pool_tasks p)) (S (pool_taken p)) (pool_progress p)
                           (path e) r (pool_fs p) with
      | (Ok pr, σ) =>
          Some (Pool σ (<[k := (e, Collected r)]> (pool_tasks p)) pr (S (pool_taken p)))
      | (Raise _, _) => None
      end
  | Some (e, t) =>
      if is_queued t && negb (free_worker (pool_tasks p)) then None
      else
        match worker_step (path e) t (pool_fs p) with
        | Some (t', σ) =>
            Some (Pool σ (<[k := (e, t')]> (pool_tasks p)) (pool_progress p) (pool_taken p))
        | None => None
        end
  | None => None
  end.

(** A schedule names the future that moves, step by step. *)
Fixpoint pool_run (schedule : list nat) (p : pool) : option pool :=
  match schedule with
  | [] => Some p
  | k :: schedule' =>
      match pool_exec k p with
      | Some p' => pool_run schedule' p'
      | None => None
      end
  end.

(** The pool when the work list has been submitted. *)
Definition pool_start (σ : fs) (ledger : gset Path.t) (todo : list entry) : pool :=
  Pool σ (map (fun e => (e, Queued)) todo) (Progress ledger (base.size ledger) []) 0.

(** The [with] block is left when every result has been taken. *)
Definition pool_done (p : pool) : bool :=
  forallb (fun et => is_collected et.2) (pool_tasks p).

(** [copy_files_parallel] on the pool, under a schedule; [None] when the
    schedule cannot be followed or does not take every future to its
    end. *)
Definition copy_files_pool (schedule : list nat)
  : fs -> option (result (nat * list Path.t) * fs) := fun σ0 =>
  match mkdir_parents dest_path σ0 with
  | (Raise e, σ) => Some (Raise e, σ)
  | (Ok _, σ) =>
      let ledger := load_ledger σ resume_file in
      match remaining_files ledger dest_path preserve_structure selected_files
                            selected_files σ with
      | (Raise e, σ') => Some (Raise e, σ')
      | (Ok [], σ') => Some (Ok (length selected_files, []), σ')
      | (Ok (file_data :: todo), σ') =>
          match pool_run schedule (pool_start σ' ledger (file_data :: todo)) with
          | Some p =>
              if pool_done p
              then Some (Ok (copied_count (pool_progress p), errors (pool_progress p)),
                         pool_fs p)
              else None
          | None => None
          end
      end
  end.

End Pool.
(** ** [format_size] *)

Section FormatSize.

Import Literal.

(** What [size_bytes] holds while the loop runs: the [int] it was given,
    or the [float] a division has left. *)
Inductive size_value : Type :=
  | IntN (n : Z)
  | FloatN (x : float).

(** [float(n)] for an [int]: rounded to nearest, ties to even, with
    [OverflowError] beyond the range of binary64. *)
Definition float_of_int (n : Z) : result float :=
  if n =? 0 then Ok (FFinite false 0 0)
  else
    match binary64 (Z.abs n) 1 with
    | Some (m, e) => Ok (FFinite (n <? 0) m e)
    | None => Raise OverflowError
    end.

(** [x / 1024.0]: the exact quotient, rounded. *)
Definition fdiv_1024 (x : float) : float :=
  match x with
  | FFinite neg m e =>
      if m =? 0 then x
      else
        let r := if 10 <=? e then binary64 (m * 2 ^ (e - 10)) 1
                 else binary64 m (2 ^ (10 - e)) in
        match r with
        | Some (m2, e2) => FFinite neg m2 e2
        | None => FInf neg
        end
  | _ => x
  end.

(** [x < 1024.0] *)
Definition flt_1024 (x : float) : bool :=
  match x with
  | FNan => false
  | FInf neg => neg
  | FFinite neg m e =>
      if neg then true
      else if 0 <=? e then m * 2 ^ e <? 1024 else m <? 1024 * 2 ^ (- e)
  end.

(** [size_bytes < 1024.0]: an [int] is compared with a [float] exactly. *)
Definition lt_1024 (v : size_value) : bool :=
  match v with
  | IntN n => n <? 1024
  | FloatN x => flt_1024 x
  end.

(** [size_bytes /= 1024.0]: an [int] is converted first. *)
Definition div_1024 (v : size_value) : result float :=
  match v with
  | IntN n => x ← float_of_int n; Ok (fdiv_1024 x)
  | FloatN x => Ok (fdiv_1024 x)
  end.

(** A number of tenths, written with one decimal. *)
Definition one_decimal (tenths : Z) : string :=
  pretty (Z.to_N (tenths / 10)) +:+ "." +:+ pretty (Z.to_N (tenths mod 10)).

(** [f"{x:.1f}"] for a [float]: the exact value rounded to one decimal,
    ties to even. *)
Definition format_float_1f (x : float) : string :=
  match x with
  | FNan => "nan"
  | FInf neg => if neg then "-inf" else "inf"
  | FFinite neg m e =>
      let tenths := if 0 <=? e then 10 * m * 2 ^ e
                    else round_half_even (10 * m) (2 ^ (- e)) in
      (if neg then "-" else "") +:+ one_decimal tenths
  end.

(** [f"{size_bytes:.1f}"]: an [int] is formatted as the [float] it
    converts to. *)
Definition format_1f (v : size_value) : result string :=
  match v with
  | IntN n => x ← float_of_int n; Ok (format_float_1f x)
  | FloatN x => Ok (format_float_1f x)
  end.

(** The loop over the units, and the [return] after it. *)
Fixpoint format_loop (v : size_value) (units : list string) : result string :=
  match units with
  | [] => s ← format_1f v; Ok (s +:+ " TB")
  | unit :: units' =>
      if lt_1024 v then s ← format_1f v; Ok (s +:+ " " +:+ unit)
      else x ← div_1024 v; format_loop (FloatN x) units'
  end.

Definition format_size (size_bytes : Z) : result string :=
  format_loop (IntN size_bytes) ["B"; "KB"; "MB"; "GB"].

End FormatSize.


(** * Specification vocabulary

    The predicates and measures the properties below are stated with, the
    claims of the specification that the code does not meet, written out,
    and the concrete inputs of the examples. *)

(** ** Numeric literals *)

(** The characters a decimal literal is made of, letters in upper case. *)
Definition numeric (c : ascii) : bool :=
  Text.is_digit c || bool_decide (c ∈ ["_"; "."; "E"; "+"; "-"]%char).

(** Reading [l] up to its rest [r] took numeric characters only. *)
Definition consumed (l r : list ascii) : Prop :=
  exists pre, l = pre ++ r /\ Forall (fun c => numeric c = true) pre.

(** ** Selection *)

(** The entry lies directly in the folder [key]. *)
Definition in_folder (key : Path.t) (f : entry) : bool :=
  bool_decide (Path.parent (path f) = key).

(** [Some l] for a list that is not empty. *)
Definition inhabited_list (l : list entry) : option (list entry) :=
  match l with
  | [] => None
  | _ :: _ => Some l
  end.

(** The groups as a map from folder to entries. *)
Definition group_map (groups : list (Path.t * list entry)) : gmap Path.t (list entry) :=
  list_to_map groups.

(** [groups] is what [folder_groups] builds from the entries [seen]: one
    group per parent folder, holding that folder's entries in order. *)
Definition grouped (groups : list (Path.t * list entry)) (seen : list entry) : Prop :=
  NoDup groups.*1 /\
  forall key, group_map groups !! key
              = inhabited_list (List.filter (in_folder key) seen).

(** The order of [sorted(files, key=lambda x: x['size'])]. *)
Definition by_size (f g : entry) : Prop := size f <= size g.

(** What C6 says the code computes.
    Modelled from the claim's words: the share is the target divided by the
    number of source directories, and each source directory's own pool is
    sorted by size and added greedily up to that share. *)
Definition spec_select_balanced_size (target : Z)
    (source_dirs : list (Path.t * list entry)) : list entry :=
  let share := target / Z.of_nat (length source_dirs) in
  concat (map (fun d => greedy share 0 (sorted_by_size d.2)) source_dirs).

(** How many of the selected entries come from a folder's pool. *)
Definition contribution (files selected : list entry) : nat :=
  length (List.filter (fun f => bool_decide (f ∈ files)) selected).

(** How many folders contributed more than the floor. *)
Definition above (base : Z) (picks : list (list entry)) : Z :=
  Z.of_nat (length (List.filter (fun picked => base <? Z.of_nat (length picked)) picks)).

(** What a folder contributes to the first pass: the floor, or the
    floor plus one, capped by what the folder holds. *)
Definition capped (base : Z) (files picked : list entry) : Prop :=
  Z.of_nat (length picked) = Z.min base (Z.of_nat (length files)) \/
  Z.of_nat (length picked) = Z.min (base + 1) (Z.of_nat (length files)).

(** ** States of the file system *)

Section StateVocabulary.

Context {rng : Type} `{!Environment rng}.

(** One step of change at [p]: nothing, a file written at [p], or the
    stamp of the directory above. *)
Definition wrote_file (p : Path.t) (σ σ' : fs) : Prop :=
  forall q,
    σ' !! q = σ !! q \/
    (q = p /\ is_file σ' q = true) \/
    (q = Path.parent p /\ is_dir σ q = true /\ is_dir σ' q = true).

(** What a scan of the folders [srcs] may change: the cache file of one
    of them, and the stamp of the folder that receives it. *)
Definition scan_frame (srcs : list Path.t) (σ σ' : fs) : Prop :=
  forall p,
    σ' !! p = σ !! p \/
    (exists folder, folder ∈ srcs /\ p = Path.join folder cache_name /\ is_file σ' p = true) \/
    (p ∈ srcs /\ is_dir σ p = true /\ is_dir σ' p = true).

(** [σ'] extends [σ]: every file of [σ] is in [σ'] as it was, and every
    directory of [σ] is a directory of [σ']. *)
Definition extends (σ σ' : fs) : Prop :=
  forall p,
    match σ !! p with
    | Some (File f) => σ' !! p = Some (File f)
    | Some (Dir _) => is_dir σ' p = true
    | None => True
    end.

(** [σ'] keeps what [σ] has: directories stay directories and files stay
    files, though a file may have been rewritten. *)
Definition persists (σ σ' : fs) : Prop :=
  forall p, (is_dir σ p = true -> is_dir σ' p = true) /\
            (is_file σ p = true -> is_file σ' p = true).

(** Every file of [σ'] is a file of [σ], as it is. *)
Definition no_new_file (σ σ' : fs) : Prop :=
  forall p f, σ' !! p = Some (File f) -> σ !! p = Some (File f).

(** Every directory on the way from [base] down to [base ++ rest] is
    there. *)
Fixpoint dirs_ready (σ : fs) (base : Path.t) (rest : list string) : Prop :=
  match rest with
  | [] => True
  | c :: rest' =>
      is_dir σ (base ++ [c]) = true /\ dirs_ready σ (base ++ [c]) rest'
  end.

(** The subfolder [get_destination_path] would create is there. *)
Definition subfolder_ready (σ : fs) (file_path dest_path : Path.t)
    (preserve_structure : bool) (selected_files : list entry) : Prop :=
  match dest_subfolder file_path dest_path preserve_structure selected_files with
  | Some sub => is_dir σ sub = true
  | None => True
  end.

(** The name tried at [counter]. *)
Definition numbered_name (original_dest : Path.t) (counter : nat) : string :=
  Path.stem original_dest +:+ "_" +:+ pretty counter +:+ Path.suffix original_dest.

(** The node [copy2] writes for a source node. *)
Definition copy_of (f : file_node) : node :=
  File (FileNode (st_size f) now (st_mtime f) (data f)).

End StateVocabulary.

(** The resolved destination of an entry. *)
Abbreviation dest_of dest_path preserve selected e :=
  (destination_of (path e) dest_path preserve selected).

(** Nothing stands in the way of copying the entry: its source is a
    file, and the directory its copy goes to is there. *)
Definition copy_ready {rng : Type} `{!Environment rng} (σ : fs) (dest_path : Path.t)
    (preserve : bool) (selected : list entry) (e : entry) : Prop :=
  is_file σ (path e) = true /\
  subfolder_ready σ (path e) dest_path preserve selected /\
  dirs_ready σ [] (Path.parent (dest_of dest_path preserve selected e)) /\
  is_dir σ (Path.parent (dest_of dest_path preserve selected e)) = true.

(** ** Examples *)

(** A concrete environment for the examples: no randomness (a sample is a
    prefix), a fixed clock, futures completing in submission order. *)
Module Examples.

#[export] Instance env : Environment unit := {|
  strptime := fun _ => None;
  random_shuffle := fun g l => (l, g);
  random_sample := fun g l k => (take k l, g);
  now := 100;
  serialized_size := fun _ => 0;
  as_completed := fun A l => l
|}.

#[export] Instance env_laws : EnvironmentLaws unit.
Proof.
  split.
  - intros g l k Hk. simpl. rewrite length_take. lia.
  - intros A l. reflexivity.
Qed.

Definition jpg (parent : Path.t) (name : string) (bytes : Z) : entry :=
  Entry (Path.join parent name) bytes 1 2 ".jpg" image.

Definition media (bytes : Z) : node := File (FileNode bytes 1 2 (Media bytes)).

End Examples.

Module ResumeExample.

Import Examples.

Definition σ0 : fs :=
  {[ [] := Dir 0; ["src"] := Dir 5; ["src"; "a.jpg"] := media 7;
     ["src"; "sub"] := Dir 5; ["src"; "sub"; "a.jpg"] := media 9 ]}.

Definition selected : list entry :=
  [Entry ["src"; "a.jpg"] 7 1 2 ".jpg" image;
   Entry ["src"; "sub"; "a.jpg"] 9 1 2 ".jpg" image].

Definition resume : option Path.t := Some ["dst"; resume_name].

Definition first_run : result (nat * list Path.t) * fs :=
  copy_files_parallel selected ["dst"] false resume σ0.

End ResumeExample.

Module CollisionExample.

Import Examples.

(** A destination that already holds an [a.jpg]. *)
Definition σ0 : fs :=
  {[ [] := Dir 0; ["src"] := Dir 5; ["src"; "a.jpg"] := media 7;
     ["dst"] := Dir 5; ["dst"; "a.jpg"] := media 99 ]}.

Definition selected : list entry := [Entry ["src"; "a.jpg"] 7 1 2 ".jpg" image].

(** An empty destination, and two sources named [a.jpg]. *)
Definition σ2 : fs :=
  {[ [] := Dir 0; ["src"] := Dir 5; ["src"; "a.jpg"] := media 7;
     ["src"; "sub"] := Dir 5; ["src"; "sub"; "a.jpg"] := media 9; ["dst"] := Dir 5 ]}.

End CollisionExample.

Module UndoExample.

Import Examples.

Definition σ0 : fs :=
  {[ [] := Dir 0; ["src"] := Dir 5; ["src"; "a.jpg"] := media 7;
     ["src"; "sub"] := Dir 5; ["src"; "sub"; "a.jpg"] := media 9 ]}.

Definition cfg : config :=
  Config [["src"]] ["dst"] 2 None false false false None None true.

Definition run : result nat * fs := randomly_select_and_copy_files tt cfg σ0.

Definition undo : result bool * fs := undo_last_operation ["dst"] (snd run).

End UndoExample.
(** ** Statistics *)

(** [types.get(ext, 0)] on the dictionary of counts. *)
Fixpoint types_get (ext : string) (types : list (string * nat)) : nat :=
  match types with
  | [] => O
  | (e, n) :: types' => if bool_decide (e = ext) then n else types_get ext types'
  end.

(** How many of the entries have the extension. *)
Definition extension_count (ext : string) (files : list entry) : nat :=
  length (List.filter (fun f => bool_decide (extension f = ext)) files).

(** ** Deletion *)

(** From [σ] to [σ'] files were removed at most: the directories are the
    same, and a file of [σ'] is a file of [σ], unchanged. *)
Definition only_removes (σ σ' : fs) : Prop :=
  (forall q, is_dir σ' q = is_dir σ q) /\
  (forall q f, σ' !! q = Some (File f) -> σ !! q = Some (File f)).

(** ** Files that are kept *)

(** Every file of [σ] is in [σ'] as it was, the file at [except] apart. *)
Definition keeps_files (except : option Path.t) (σ σ' : fs) : Prop :=
  forall p f, Some p <> except -> σ !! p = Some (File f) -> σ' !! p = Some (File f).

(** ** Units *)

(** The largest of the five units a size reaches. *)
Definition unit_index (n : Z) : Z :=
  if n <? 1024 then 0
  else if n <? 1024 ^ 2 then 1
  else if n <? 1024 ^ 3 then 2
  else if n <? 1024 ^ 4 then 3
  else 4.

Definition unit_name (k : Z) : string :=
  if k =? 0 then "B"
  else if k =? 1 then "KB"
  else if k =? 2 then "MB"
  else if k =? 3 then "GB"
  else "TB".

(** What the scanning loops keep: every entry collected has the property
    [P], and every list in the dictionary is part of the list of all
    entries. *)
Definition pool_inv (P : entry -> Prop) (acc : scanned) : Prop :=
  (forall e, e ∈ all_files_data acc -> P e) /\
  (forall k v e, (k, v) ∈ folder_files acc -> e ∈ v -> e ∈ all_files_data acc).

(** ** What a folder contributes *)

(** The entries a scan without the cache gets from one folder: what
    [apply_filters] leaves of the walk; nothing from what is not a
    directory, and nothing when [apply_filters] raises. *)
Definition fresh_entries {rng : Type} `{!Environment rng}
    (filters : option filters) (σ : fs) (folder : Path.t) : list entry :=
  if is_dir σ folder then
    match apply_filters (walk σ folder) filters with
    | Ok files => files
    | Raise _ => []
    end
  else [].

(** ** The pool *)

Section PoolVocabulary.

Context {rng : Type} `{!Environment rng}.

(** The [j]-th name the conflict loop tries: the resolved destination,
    then the names numbered from 1. *)
Definition candidate (original_dest : Path.t) (j : nat) : Path.t :=
  match j with
  | O => original_dest
  | S _ => numbered original_dest j
  end.

(** What the future of a task holds for a destination. *)
Definition task_result (t : task) : option Path.t :=
  match t with
  | Finished r | Collected r => r
  | _ => None
  end.

(** [d] is a name the loop tries for [dest], every name it tries before
    [d] is in use in [σ], and [d] was not there in [σ0]. *)
Definition first_unused (σ0 σ : fs) (dest d : Path.t) : Prop :=
  exists j,
    d = candidate dest j /\
    (forall i, (i < j)%nat -> exists_ σ (candidate dest i) = true) /\
    σ0 !! d = None.

(** What holds of a task wherever it stands, for the pool started in
    [σ0] and now in [σ]. *)
Definition task_ok (σ0 σ : fs) (dest : Path.t) (t : task) : Prop :=
  match t with
  | Queued => True
  | Resolved d => d = dest
  | Looking original_dest counter d =>
      original_dest = dest /\ (1 <= counter)%nat /\ d = candidate dest (counter - 1) /\
      forall i, (i < counter - 1)%nat -> exists_ σ (candidate dest i) = true
  | Writing d => first_unused σ0 σ dest d
  | Finished r | Collected r =>
      match r with
      | Some d => first_unused σ0 σ dest d /\ exists_ σ d = true
      | None => True
      end
  end.

(** Every path of [σ] but the root lies in something that is there. *)
Definition rooted (σ : fs) : Prop :=
  forall q, q <> [] -> is_Some (σ !! q) -> is_Some (σ !! Path.parent q).

(** What every schedule keeps, from the file system [σ0] the pool
    started in: what was there is there, the files as they were (the
    resume file apart), and every task is where its steps put it. *)
Definition pool_ok (dest_path : Path.t) (preserve_structure : bool)
    (resume_file : option Path.t) (selected_files : list entry)
    (σ0 : fs) (p : pool) : Prop :=
  persists σ0 (pool_fs p) /\
  keeps_files resume_file σ0 (pool_fs p) /\
  Forall (fun et => task_ok σ0 (pool_fs p)
                      (destination_of (path et.1) dest_path preserve_structure
                                      selected_files)
                      et.2)
         (pool_tasks p).

(** Every file of [σ] was there in [σ0] as it is, or is the resume file,
    or is the copy of a source of the work list as it was in [σ0]. *)
Definition only_copies (resume_file : option Path.t) (todo : list entry)
    (σ0 σ : fs) : Prop :=
  forall q g,
    σ !! q = Some (File g) ->
    σ0 !! q = Some (File g) \/
    Some q = resume_file \/
    exists e f, e ∈ todo /\ σ0 !! path e = Some (File f) /\ File g = copy_of f.

(** How many entries of the file system the call may still add. *)
Definition task_budget (dest : Path.t) (t : task) : nat :=
  match t with
  | Queued => length dest + 2
  | Resolved d => length d + 1
  | Looking _ _ _ | Writing _ => 1
  | Finished _ | Collected _ => 0
  end.

(** A bound on the number of paths the file system will ever hold. *)
Definition pool_bound (dest_path : Path.t) (preserve_structure : bool)
    (resume_file : option Path.t) (selected_files : list entry) (p : pool) : nat :=
  base.size (pool_fs p)
  + (match resume_file with
     | Some r => if exists_ (pool_fs p) r then 0 else 1
     | None => 0
     end)
  + sum_list_with (fun et => task_budget
                              (destination_of (path et.1) dest_path preserve_structure
                                              selected_files)
                              et.2)
                  (pool_tasks p).

(** How many steps a task can still make when the file system never
    holds more than [bound] paths. *)
Definition task_weight (bound : nat) (t : task) : nat :=
  match t with
  | Queued => bound + 7
  | Resolved _ => bound + 6
  | Looking _ counter _ => 3 + (bound + 2 - counter)
  | Writing _ => 2
  | Finished _ => 1
  | Collected _ => 0
  end.

Definition pool_weight (dest_path : Path.t) (preserve_structure : bool)
    (resume_file : option Path.t) (selected_files : list entry) (p : pool) : nat :=
  sum_list_with (fun et => task_weight
                            (pool_bound dest_path preserve_structure resume_file
                                        selected_files p)
                            et.2)
                (pool_tasks p).

End PoolVocabulary.

(** What C3 says for a destination that is already occupied: the file is
    still copied, to a numbered name that was unused, whatever the pool
    and the order of its steps. *)
Definition occupied_destination_claim : Prop :=
  forall (rng : Type) (E : Environment rng) (σ : fs) (selected : list entry)
         (dest_path : Path.t) (resume_file : option Path.t)
         (max_workers : nat) (schedule : list nat)
         (out : result (nat * list Path.t) * fs) (e : entry) (f : file_node),
    e ∈ selected ->
    σ !! path e = Some (File f) ->
    exists_ σ (destination_of (path e) dest_path false selected) = true ->
    copy_files_pool dest_path false resume_file selected max_workers schedule σ
    = Some out ->
    exists j, (1 <= j)%nat /\
      σ !! numbered (destination_of (path e) dest_path false selected) j = None /\
      snd out !! numbered (destination_of (path e) dest_path false selected) j
      = Some (copy_of f).

(** * Properties *)

(** ** The size parser *)

(** C2. [parse_size] walks its suffix table in insertion order, where "B"
    comes first: a string ending in KB, MB, GB or TB matches "B", the
    rest is not a number, the loop is left and the whole string is not an
    integer either, so the result is [0] through the invalid-format branch
    instead of the number times the multiplier. A "B" suffix and a plain
    integer parse as the claim says. *)
Theorem parse_size_binary_suffixes :
  parse_size "10KB" = Ok 0 /\ parse_size_outcome "10KB" = Invalid /\
  parse_size "1.5gb" = Ok 0 /\ parse_size_outcome "1.5gb" = Invalid /\
  parse_size "10MB" = Ok 0 /\ parse_size "2TB" = Ok 0 /\
  parse_size "10B" = Ok 10 /\ parse_size "4096" = Ok 4096.
Proof. vm_compute. repeat split. Qed.

(** ** Media types *)

Lemma member_true (x : string) (l : list string) : member x l = true <-> x ∈ l.
Proof. unfold member. apply bool_decide_eq_true. Qed.

(** The type assigned to each extension the scan retains. *)
Lemma get_media_metadata_by_extension (file_path : Path.t) :
  is_media file_path = true ->
  let ext := Text.lower (Path.suffix file_path) in
  (ext ∈ [".jpg"; ".jpeg"; ".png"; ".bmp"; ".tiff"; ".webp"]
     /\ get_media_metadata file_path = image) \/
  (ext ∈ [".mp4"; ".mov"; ".avi"; ".mkv"; ".webm"; ".m4v"; ".flv"]
     /\ get_media_metadata file_path = video) \/
  (ext ∈ [".gif"; ".svg"; ".ico"; ".heic"; ".heif"]
     /\ get_media_metadata file_path = other).
Proof.
  unfold is_media, get_media_metadata. intros H. cbv zeta.
  apply member_true in H. revert H.
  generalize (Text.lower (Path.suffix file_path)). intros e H.
  unfold media_extensions in H.
  repeat (apply elem_of_cons in H as [-> | H]);
    try (left; split; [set_solver | reflexivity]);
    try (right; left; split; [set_solver | reflexivity]);
    try (right; right; split; [set_solver | reflexivity]).
  inversion H.
Qed.

Lemma get_media_metadata_known (file_path : Path.t) :
  get_media_metadata file_path <> unknown.
Proof.
  unfold get_media_metadata.
  repeat (case (member _ _)); discriminate.
Qed.

(** C7. The scan retains .gif, .svg, .ico, .heic and .heif files, which
    the set of known extensions lists as image formats, and
    [get_media_metadata] gives each of them the type [other]: its image
    test lists six extensions only. *)
Theorem get_media_metadata_unlisted_images :
  Forall (fun name =>
            is_media ["photos"; name] = true /\
            get_media_metadata ["photos"; name] = other)
         ["anim.gif"; "logo.svg"; "site.ico"; "shot.heic"; "shot.HEIF"].
Proof. repeat constructor. Qed.

(** ** Filters *)

Section FilterFacts.

Context {rng : Type} `{!Environment rng}.

Lemma filter_all (P : entry -> bool) (l : list entry) :
  Forall (fun f => P f = true) l -> List.filter P l = l.
Proof.
  induction 1 as [|f l Hf _ IH]; simpl; [reflexivity|].
  rewrite Hf, IH. reflexivity.
Qed.

Lemma parse_size_invalid (s : string) :
  parse_size_outcome s = Invalid -> parse_size s = Ok 0.
Proof. unfold parse_size. intros ->. reflexivity. Qed.

(** A malformed minimum leaves the entries as they are: the bound it
    yields is [0], and no file has a negative size. *)
Lemma by_min_size_malformed (fl : filters) (s : string) (files : list entry) :
  min_size fl = Some s ->
  parse_size_outcome s = Invalid ->
  Forall (fun f => 0 <= size f) files ->
  by_min_size fl files = Ok files.
Proof.
  intros Hmin Hs Hsz. unfold by_min_size. rewrite Hmin. simpl.
  case_bool_decide; [reflexivity|].
  rewrite (parse_size_invalid _ Hs). simpl. f_equal.
  apply filter_all. eapply Forall_impl; [exact Hsz|].
  intros f Hf. simpl in Hf. apply Z.leb_le. exact Hf.
Qed.

(** A malformed maximum keeps the empty files only. *)
Lemma by_max_size_malformed (fl : filters) (s : string) (files : list entry) :
  max_size fl = Some s ->
  s <> "" ->
  parse_size_outcome s = Invalid ->
  by_max_size fl files = Ok (List.filter (fun f => size f <=? 0) files).
Proof.
  intros Hmax Hne Hs. unfold by_max_size. rewrite Hmax. simpl.
  case_bool_decide; [congruence|].
  rewrite (parse_size_invalid _ Hs). reflexivity.
Qed.

End FilterFacts.

(** C9. A malformed maximum size is not treated as absent: [parse_size]
    answers [0] for it and [apply_filters] uses that [0] as the bound, so
    every file that is not empty is dropped, where the same filters
    without the maximum keep it (a malformed minimum does keep it). And a
    size string that reads as an infinite float is a fatal error:
    [int(float('inf'))] raises [OverflowError], which nothing catches. *)
Theorem apply_filters_malformed_max_size (rng : Type) (E : Environment rng) :
  let files := [Examples.jpg ["src"] "a.jpg" 5] in
  parse_size_outcome "abc" = Invalid /\
  apply_filters files (Some (Filters None (Some "abc") None None None None)) = Ok [] /\
  apply_filters files (Some (Filters None None None None None None)) = Ok files /\
  apply_filters files (Some (Filters (Some "abc") None None None None None)) = Ok files /\
  parse_size "infB" = Raise OverflowError /\
  apply_filters files (Some (Filters (Some "infB") None None None None None))
  = Raise OverflowError.
Proof. repeat split. Qed.

(** *** Every KB, MB, GB or TB string is rejected *)

Section ParseSizeFacts.

Import Text Literal.

Lemma chars_app (a b : string) : chars (a +:+ b) = chars a ++ chars b.
Proof. induction a as [|x a IH]; simpl; [reflexivity|]. f_equal. exact IH. Qed.

Lemma chars_text (l : list ascii) : chars (text l) = l.
Proof. apply list_ascii_of_string_of_list_ascii. Qed.

Lemma lstrip_app (l r : list ascii) (x : ascii) :
  is_space x = false -> lstrip (l ++ x :: r) = lstrip l ++ x :: r.
Proof.
  intros Hx. induction l as [|c l IH]; simpl.
  - rewrite Hx. reflexivity.
  - destruct (is_space c); [exact IH|reflexivity].
Qed.

Lemma strip_chars_snoc (l : list ascii) (x : ascii) :
  is_space x = false -> strip_chars (l ++ [x]) = lstrip l ++ [x].
Proof.
  intros Hx. unfold strip_chars. rewrite (lstrip_app l [] x Hx).
  rewrite rev_app_distr. simpl. rewrite Hx.
  change (x :: rev (lstrip l)) with ([x] ++ rev (lstrip l)).
  rewrite rev_app_distr, rev_involutive. reflexivity.
Qed.

Lemma consumed_refl l : consumed l l.
Proof. exists []. split; [reflexivity|constructor]. Qed.

Lemma consumed_cons c l r : numeric c = true -> consumed l r -> consumed (c :: l) r.
Proof.
  intros Hc (pre & -> & Hpre). exists (c :: pre). split; [reflexivity|].
  constructor; assumption.
Qed.

Lemma consumed_trans l1 l2 l3 : consumed l1 l2 -> consumed l2 l3 -> consumed l1 l3.
Proof.
  intros (p1 & -> & H1) (p2 & -> & H2). exists (p1 ++ p2).
  split; [rewrite app_assoc; reflexivity|apply Forall_app; auto].
Qed.

Lemma digit_numeric c : is_digit c = true -> numeric c = true.
Proof. intros H. unfold numeric. rewrite H. reflexivity. Qed.

Lemma digits_tail_consumed (n : nat) :
  forall l ds r, (length l <= n)%nat -> digits_tail l = (ds, r) -> consumed l r.
Proof.
  induction n as [|n IH]; intros l ds r Hlen.
  - destruct l; [|simpl in Hlen; lia]. intros [= <- <-]. apply consumed_refl.
  - destruct l as [|c l]; [intros [= <- <-]; apply consumed_refl|].
    simpl in Hlen. cbn [digits_tail].
    destruct (is_digit c) eqn:Hc.
    + destruct (digits_tail l) as [ds' r'] eqn:Ht. intros [= <- <-].
      apply consumed_cons; [apply digit_numeric, Hc|].
      eapply IH; [|exact Ht]. lia.
    + destruct (bool_decide (c = underscore)) eqn:Hu;
        [|intros [= <- <-]; apply consumed_refl].
      apply bool_decide_eq_true in Hu. subst c.
      destruct l as [|c2 l]; [intros [= <- <-]; apply consumed_refl|].
      destruct (is_digit c2) eqn:Hc2; [|intros [= <- <-]; apply consumed_refl].
      destruct (digits_tail l) as [ds' r'] eqn:Ht. intros [= <- <-].
      apply consumed_cons; [reflexivity|].
      apply consumed_cons; [apply digit_numeric, Hc2|].
      eapply IH; [|exact Ht]. simpl in Hlen. lia.
Qed.

Lemma digitpart_consumed l ds r : digitpart l = Some (ds, r) -> consumed l r.
Proof.
  unfold digitpart. destruct l as [|c l]; [discriminate|].
  destruct (is_digit c) eqn:Hc; [|discriminate].
  destruct (digits_tail l) as [ds' r'] eqn:Ht. intros [= <- <-].
  apply consumed_cons; [apply digit_numeric, Hc|].
  eapply (digits_tail_consumed (length l)); [lia|exact Ht].
Qed.

Lemma sign_consumed l neg l' : sign l = (neg, l') -> consumed l l'.
Proof.
  unfold sign. destruct l as [|c l]; [intros [= <- <-]; apply consumed_refl|].
  destruct (bool_decide (c = "-"%char)) eqn:Hm.
  - apply bool_decide_eq_true in Hm. subst c. intros [= <- <-].
    apply consumed_cons; [reflexivity|apply consumed_refl].
  - destruct (bool_decide (c = "+"%char)) eqn:Hp.
    + apply bool_decide_eq_true in Hp. subst c. intros [= <- <-].
      apply consumed_cons; [reflexivity|apply consumed_refl].
    + intros [= <- <-]. apply consumed_refl.
Qed.

Lemma exponent_consumed l e r : exponent l = Some (e, r) -> consumed l r.
Proof.
  unfold exponent. destruct l as [|c l]; [intros [= <- <-]; apply consumed_refl|].
  destruct (bool_decide (c = "E"%char)) eqn:He; [|discriminate].
  apply bool_decide_eq_true in He. subst c.
  destruct (sign l) as [neg l1] eqn:Hs.
  destruct (digitpart l1) as [[ds r']|] eqn:Hd; [|discriminate].
  intros [= <- <-]. apply consumed_cons; [reflexivity|].
  eapply consumed_trans; [eapply sign_consumed, Hs|eapply digitpart_consumed, Hd].
Qed.

Lemma number_consumed l ip fp r : number l = Some (ip, fp, r) -> consumed l r.
Proof.
  unfold number. destruct (digitpart l) as [[ip' r1]|] eqn:Hd.
  - apply digitpart_consumed in Hd.
    destruct r1 as [|c r1]; [intros [= <- <- <-]; exact Hd|].
    destruct (bool_decide (c = "."%char)) eqn:Hdot; [|intros [= <- <- <-]; exact Hd].
    apply bool_decide_eq_true in Hdot. subst c.
    assert (Hdot : consumed l r1).
    { eapply consumed_trans; [exact Hd|].
      apply consumed_cons; [reflexivity|apply consumed_refl]. }
    destruct (digitpart r1) as [[fp' r2]|] eqn:Hf; intros [= <- <- <-]; [|exact Hdot].
    eapply consumed_trans; [exact Hdot|eapply digitpart_consumed, Hf].
  - destruct l as [|c l]; [discriminate|].
    destruct (bool_decide (c = "."%char)) eqn:Hdot; [|discriminate].
    apply bool_decide_eq_true in Hdot. subst c.
    destruct (digitpart l) as [[fp' r2]|] eqn:Hf; [|discriminate].
    intros [= <- <- <-]. apply consumed_cons; [reflexivity|].
    eapply digitpart_consumed, Hf.
Qed.

Lemma consumed_all_last l q x :
  consumed l [] -> l = q ++ [x] -> numeric x = true.
Proof.
  intros (pre & -> & Hall) Heq. rewrite app_nil_r in Heq. subst pre.
  apply Forall_app in Hall as [_ Hx]. inversion Hx. assumption.
Qed.

Lemma consumed_last l r q x :
  consumed l r -> l = q ++ [x] -> numeric x = false -> exists q', r = q' ++ [x].
Proof.
  intros (pre & -> & Hall) Heq Hx.
  destruct r as [|c r] using rev_ind.
  - exfalso. rewrite app_nil_r in Heq. subst pre.
    apply Forall_app in Hall as [_ Hl]. inversion Hl. congruence.
  - rewrite app_assoc in Heq. apply app_inj_tail in Heq as [_ ->]. eauto.
Qed.

(** A string whose last character, once stripped and in upper case, is
    neither numeric nor the end of "INF", "INFINITY" or "NAN" is not a
    float. *)
Lemma pyfloat_rejects s q x :
  upper_chars (strip_chars s) = q ++ [x] ->
  numeric x = false ->
  x ∉ ["F"; "Y"; "N"]%char ->
  pyfloat s = None.
Proof.
  intros Hs Hx Hword. unfold pyfloat.
  destruct (sign (upper_chars (strip_chars s))) as [neg l] eqn:Hsign.
  destruct (consumed_last _ _ _ _ (sign_consumed _ _ _ Hsign) Hs Hx) as [q' ->].
  destruct (bool_decide (q' ++ [x] = chars "INF")) eqn:H1.
  { exfalso. apply bool_decide_eq_true in H1. apply Hword.
    change (chars "INF") with (["I"; "N"]%char ++ ["F"%char]) in H1.
    apply app_inj_tail in H1 as [_ ->]. set_solver. }
  destruct (bool_decide (q' ++ [x] = chars "INFINITY")) eqn:H2.
  { exfalso. apply bool_decide_eq_true in H2. apply Hword.
    change (chars "INFINITY")
      with (["I"; "N"; "F"; "I"; "N"; "I"; "T"]%char ++ ["Y"%char]) in H2.
    apply app_inj_tail in H2 as [_ ->]. set_solver. }
  destruct (bool_decide (q' ++ [x] = chars "NAN")) eqn:H3.
  { exfalso. apply bool_decide_eq_true in H3. apply Hword.
    change (chars "NAN") with (["N"; "A"]%char ++ ["N"%char]) in H3.
    apply app_inj_tail in H3 as [_ ->]. set_solver. }
  simpl.
  destruct (number (q' ++ [x])) as [[[ip fp] r]|] eqn:Hn; [|reflexivity].
  apply number_consumed in Hn.
  destruct r as [|c r].
  - exfalso. pose proof (consumed_all_last _ _ _ Hn eq_refl). congruence.
  - destruct (exponent (c :: r)) as [[e r']|] eqn:He; [|reflexivity].
    destruct r'; [|reflexivity]. exfalso.
    apply exponent_consumed in He.
    pose proof (consumed_all_last _ _ _ (consumed_trans _ _ _ Hn He) eq_refl). congruence.
Qed.

Lemma pyint_rejects s q x :
  strip_chars s = q ++ [x] -> numeric x = false -> pyint s = None.
Proof.
  intros Hs Hx. unfold pyint.
  destruct (sign (strip_chars s)) as [neg l] eqn:Hsign.
  destruct (digitpart l) as [[ds r]|] eqn:Hd; [|reflexivity].
  destruct r; [|reflexivity]. exfalso.
  pose proof (consumed_trans _ _ _ (sign_consumed _ _ _ Hsign) (digitpart_consumed _ _ _ Hd))
    as Hall.
  pose proof (consumed_all_last _ _ _ Hall Hs). congruence.
Qed.

Lemma upper_chars_app l1 l2 : upper_chars (l1 ++ l2) = upper_chars l1 ++ upper_chars l2.
Proof. apply map_app. Qed.

(** The normalised string ends in [x] then "B", where [x] is a letter
    that ends no number. *)
Lemma parse_size_letter_before_b (l : list ascii) (x : ascii) :
  is_space x = false ->
  upper_char x = x ->
  numeric x = false ->
  x ∉ ["F"; "Y"; "N"]%char ->
  let size_str := strip_chars (l ++ [x; "B"%char]) in
  try_suffixes size_str multipliers = Fallthrough /\ pyint size_str = None.
Proof.
  intros Hsp Hup Hnum Hword size_str.
  assert (Hstr : size_str = (lstrip l ++ [x]) ++ ["B"%char]).
  { subst size_str.
    change (l ++ [x; "B"%char]) with (l ++ [x] ++ ["B"%char]).
    rewrite app_assoc, strip_chars_snoc by reflexivity.
    rewrite (lstrip_app l [] x Hsp). reflexivity. }
  split.
  - unfold multipliers. cbn [try_suffixes].
    assert (Hend : endswith size_str (chars "B") = true).
    { unfold endswith. apply bool_decide_eq_true. rewrite Hstr.
      rewrite length_app. simpl.
      replace (length (lstrip l ++ [x]) + 1 - 1)%nat with (length (lstrip l ++ [x])) by lia.
      apply drop_app_length. }
    rewrite Hend.
    assert (Hchop : chop size_str (chars "B") = lstrip l ++ [x]).
    { unfold chop. rewrite Hstr, length_app. simpl.
      replace (length (lstrip l ++ [x]) + 1 - 1)%nat with (length (lstrip l ++ [x])) by lia.
      apply take_app_length. }
    rewrite Hchop.
    rewrite (pyfloat_rejects (lstrip l ++ [x]) (upper_chars (lstrip (lstrip l))) x);
      [reflexivity| |exact Hnum|exact Hword].
    rewrite strip_chars_snoc by exact Hsp.
    rewrite upper_chars_app. simpl. rewrite Hup. reflexivity.
  - apply (pyint_rejects size_str (lstrip (lstrip l ++ [x])) "B"%char); [|reflexivity].
    rewrite Hstr. apply strip_chars_snoc. reflexivity.
Qed.

(** Whatever precedes it, a suffix KB, MB, GB or TB in any letter case
    sends [parse_size] to the invalid-format branch, and the result is
    [0]. *)
Lemma parse_size_binary_suffix_invalid (number suffix : string) :
  upper suffix ∈ ["KB"; "MB"; "GB"; "TB"] ->
  parse_size_outcome (number +:+ suffix) = Invalid /\
  parse_size (number +:+ suffix) = Ok 0.
Proof.
  intros Hsuffix.
  assert (Hinv : parse_size_outcome (number +:+ suffix) = Invalid).
  { unfold parse_size_outcome. rewrite chars_app, upper_chars_app.
    assert (Hup : exists x, upper_chars (chars suffix) = [x; "B"%char] /\
                    is_space x = false /\ upper_char x = x /\ numeric x = false /\
                    x ∉ ["F"; "Y"; "N"]%char).
    { unfold upper in Hsuffix.
      repeat (apply elem_of_cons in Hsuffix as [Hsuffix|Hsuffix]);
        try (apply (f_equal chars) in Hsuffix; rewrite chars_text in Hsuffix;
             rewrite Hsuffix; eexists; split; [reflexivity|];
             repeat split; try reflexivity;
             intros Hin; repeat (apply elem_of_cons in Hin as [Hin|Hin]; [discriminate|]);
             inversion Hin).
      inversion Hsuffix. }
    destruct Hup as (x & -> & Hsp & Hupx & Hnum & Hword).
    destruct (parse_size_letter_before_b (upper_chars (chars number)) x
                Hsp Hupx Hnum Hword) as [-> ->].
    reflexivity. }
  split; [exact Hinv|]. unfold parse_size. rewrite Hinv. reflexivity.
Qed.

Lemma parse_size_binary_suffix_invalid_witness :
  parse_size ("1.5" +:+ "gb") = Ok 0.
Proof.
  apply (parse_size_binary_suffix_invalid "1.5" "gb").
  vm_compute. apply elem_of_cons. right. apply elem_of_cons. right.
  apply elem_of_cons. left. reflexivity.
Defined.

(** *** A plain integer is read as bytes *)

Lemma digit_not_space c : is_digit c = true -> is_space c = false.
Proof.
  unfold is_digit, is_space. intros [H1 H2]%andb_prop.
  apply N.leb_le in H1, H2.
  destruct (N.leb_spec 9 (code c)), (N.leb_spec (code c) 13),
    (N.leb_spec 28 (code c)), (N.leb_spec (code c) 32); simpl; try reflexivity; lia.
Qed.

Lemma digit_upper c : is_digit c = true -> upper_char c = c.
Proof.
  unfold is_digit, upper_char, is_lower. intros [H1 H2]%andb_prop.
  apply N.leb_le in H1, H2.
  destruct (N.leb_spec 97 (code c)); simpl; [lia|reflexivity].
Qed.

Lemma lstrip_digits l :
  Forall (fun c => is_digit c = true) l -> lstrip l = l.
Proof.
  destruct 1 as [|c l Hc _]; simpl; [reflexivity|].
  rewrite (digit_not_space c Hc). reflexivity.
Qed.

Lemma strip_chars_digits l :
  Forall (fun c => is_digit c = true) l -> strip_chars l = l.
Proof.
  intros H. unfold strip_chars. rewrite (lstrip_digits l H).
  rewrite lstrip_digits by (apply Forall_rev, H). apply rev_involutive.
Qed.

Lemma upper_chars_digits l :
  Forall (fun c => is_digit c = true) l -> upper_chars l = l.
Proof.
  induction 1 as [|c l Hc _ IH]; simpl; [reflexivity|].
  rewrite (digit_upper c Hc). f_equal. exact IH.
Qed.

Lemma digits_tail_digits l :
  Forall (fun c => is_digit c = true) l -> digits_tail l = (map digit_value l, []).
Proof.
  induction 1 as [|c l Hc _ IH]; simpl; [reflexivity|].
  rewrite Hc, IH. reflexivity.
Qed.

Lemma endswith_last l suf x :
  endswith l (suf ++ [x]) = true -> last l = Some x.
Proof.
  unfold endswith. intros H%bool_decide_eq_true.
  rewrite <- (take_drop (length l - length (suf ++ [x])) l), H.
  rewrite app_assoc. apply last_snoc.
Qed.

Lemma try_suffixes_digits l :
  l <> [] -> Forall (fun c => is_digit c = true) l ->
  try_suffixes l multipliers = Fallthrough.
Proof.
  intros Hne Hall.
  assert (Hlast : forall suf, endswith l (suf ++ ["B"%char]) = false).
  { intros suf. destruct (endswith l (suf ++ ["B"%char])) eqn:He; [|reflexivity].
    apply endswith_last in He. apply last_Some in He as [q ->].
    apply Forall_app in Hall as [_ Hb]. inversion Hb. discriminate. }
  assert (H0 : endswith l (chars "B") = false) by apply (Hlast []).
  assert (H1 : endswith l (chars "KB") = false) by apply (Hlast ["K"%char]).
  assert (H2 : endswith l (chars "MB") = false) by apply (Hlast ["M"%char]).
  assert (H3 : endswith l (chars "GB") = false) by apply (Hlast ["G"%char]).
  assert (H4 : endswith l (chars "TB") = false) by apply (Hlast ["T"%char]).
  unfold multipliers. cbn [try_suffixes].
  rewrite H0, H1, H2, H3, H4. reflexivity.
Qed.

(** A string of decimal digits parses as the number it writes. *)
Lemma parse_size_plain_integer (l : list ascii) :
  l <> [] -> Forall (fun c => is_digit c = true) l ->
  parse_size (text l) = Ok (number_of (map digit_value l)).
Proof.
  intros Hne Hall. unfold parse_size, parse_size_outcome.
  rewrite chars_text, (upper_chars_digits l Hall), (strip_chars_digits l Hall).
  rewrite (try_suffixes_digits l Hne Hall).
  unfold pyint. rewrite (strip_chars_digits l Hall).
  destruct l as [|c l]; [congruence|].
  apply Forall_cons in Hall as [Hc Hall].
  assert (Hsign : sign (c :: l) = (false, c :: l)).
  { unfold sign. destruct (bool_decide (c = "-"%char)) eqn:Hm.
    - apply bool_decide_eq_true in Hm. subst c. discriminate Hc.
    - destruct (bool_decide (c = "+"%char)) eqn:Hp; [|reflexivity].
      apply bool_decide_eq_true in Hp. subst c. discriminate Hc. }
  rewrite Hsign. unfold digitpart. rewrite Hc, (digits_tail_digits l Hall). reflexivity.
Qed.

Lemma parse_size_plain_integer_witness : parse_size "4096" = Ok 4096.
Proof.
  apply (parse_size_plain_integer (chars "4096")).
  - discriminate.
  - repeat constructor.
Defined.

End ParseSizeFacts.

(** ** Selection by total size *)

Section SizeSelectionFacts.

(** *** [folder_groups] partitions the entries by parent folder *)

Lemma filter_snoc (P : entry -> bool) (l : list entry) (f : entry) :
  List.filter P (l ++ [f]) = (List.filter P l ++ if P f then [f] else [])%list.
Proof. rewrite List.filter_app. simpl. destruct (P f); reflexivity. Qed.

Lemma group_append_keys key f groups :
  (group_append key f groups).*1 =
  if bool_decide (key ∈ groups.*1) then groups.*1 else (groups.*1 ++ [key])%list.
Proof.
  induction groups as [|[k fs] groups IH]; csimpl.
  - reflexivity.
  - destruct (decide (k = key)) as [->|Hk].
    + rewrite bool_decide_eq_true_2 by reflexivity.
      rewrite bool_decide_eq_true_2 by (apply elem_of_cons; left; reflexivity).
      reflexivity.
    + rewrite (bool_decide_eq_false_2 (k = key)) by exact Hk. csimpl. rewrite IH.
      destruct (decide (key ∈ groups.*1)) as [Hin|Hin].
      * rewrite (bool_decide_eq_true_2 (key ∈ groups.*1)) by exact Hin.
        rewrite bool_decide_eq_true_2 by (apply elem_of_cons; right; exact Hin).
        reflexivity.
      * rewrite (bool_decide_eq_false_2 (key ∈ groups.*1)) by exact Hin.
        rewrite bool_decide_eq_false_2; [reflexivity|].
        intros [?|?]%elem_of_cons; congruence.
Qed.

Lemma group_append_lookup key f groups :
  group_map (group_append key f groups) =
  <[key := (default [] (group_map groups !! key) ++ [f])%list]> (group_map groups).
Proof.
  unfold group_map.
  induction groups as [|[k fs] groups IH]; csimpl.
  - rewrite lookup_empty. reflexivity.
  - destruct (decide (k = key)) as [->|Hk].
    + rewrite bool_decide_eq_true_2 by reflexivity. csimpl.
      rewrite lookup_insert_eq. csimpl. rewrite insert_insert_eq. reflexivity.
    + rewrite bool_decide_eq_false_2 by exact Hk. csimpl.
      rewrite IH. rewrite lookup_insert_ne by exact Hk.
      apply insert_insert_ne. congruence.
Qed.

Lemma grouped_nil : grouped [] [].
Proof. split; [constructor|]. intros key. apply lookup_empty. Qed.

Lemma inhabited_list_snoc (l : list entry) (f : entry) :
  inhabited_list (l ++ [f]) = Some (l ++ [f])%list.
Proof. destruct l; reflexivity. Qed.

Lemma default_inhabited_list (l : list entry) : default [] (inhabited_list l) = l.
Proof. destruct l; reflexivity. Qed.

Lemma group_append_grouped f groups seen :
  grouped groups seen ->
  grouped (group_append (Path.parent (path f)) f groups) (seen ++ [f]).
Proof.
  intros [Hnd Hlook]. split.
  - rewrite group_append_keys. case_bool_decide as Hin; [exact Hnd|].
    apply NoDup_app. split; [exact Hnd|]. split; [|apply NoDup_singleton].
    intros x Hx ->%list_elem_of_singleton. contradiction.
  - intros key. rewrite group_append_lookup, filter_snoc.
    destruct (decide (Path.parent (path f) = key)) as [<-|Hne].
    + rewrite lookup_insert_eq, Hlook, default_inhabited_list.
      replace (in_folder (Path.parent (path f)) f) with true
        by (symmetry; apply bool_decide_eq_true_2; reflexivity).
      symmetry. apply inhabited_list_snoc.
    + rewrite lookup_insert_ne by exact Hne. rewrite Hlook.
      replace (in_folder key f) with false
        by (symmetry; apply bool_decide_eq_false_2; exact Hne).
      rewrite app_nil_r. reflexivity.
Qed.

Lemma fold_groups_grouped files groups seen :
  grouped groups seen ->
  grouped (fold_left (fun groups f => group_append (Path.parent (path f)) f groups)
                     files groups)
          (seen ++ files).
Proof.
  revert groups seen. induction files as [|f files IH]; intros groups seen H; simpl.
  - rewrite app_nil_r. exact H.
  - replace (seen ++ f :: files)%list with ((seen ++ [f]) ++ files)%list
      by (rewrite <- app_assoc; reflexivity).
    apply IH, group_append_grouped, H.
Qed.

Lemma folder_groups_grouped files : grouped (folder_groups files) files.
Proof. apply (fold_groups_grouped files [] []), grouped_nil. Qed.

(** Every group holds the entries of one parent folder, in their order
    in the input, and no group is empty. *)
Lemma folder_groups_partition files key fs :
  (key, fs) ∈ folder_groups files ->
  fs = List.filter (in_folder key) files /\ fs <> [].
Proof.
  intros Hin. destruct (folder_groups_grouped files) as [Hnd Hlook].
  apply (elem_of_list_to_map_1 (M := gmap Path.t)) in Hin; [|exact Hnd].
  fold (group_map (folder_groups files)) in Hin. rewrite Hlook in Hin. destruct (List.filter _ _) as [|x l]; [discriminate|].
  simpl in Hin. injection Hin as <-. split; [reflexivity|discriminate].
Qed.

Lemma folder_groups_nonempty files :
  files <> [] -> (1 <= length (folder_groups files))%nat.
Proof.
  destruct files as [|f files]; [congruence|]. intros _.
  destruct (folder_groups_grouped (f :: files)) as [_ Hlook].
  specialize (Hlook (Path.parent (path f))). simpl in Hlook.
  replace (in_folder (Path.parent (path f)) f) with true in Hlook
    by (symmetry; apply bool_decide_eq_true_2; reflexivity).
  destruct (folder_groups (f :: files)); [|simpl; lia].
  unfold group_map in Hlook. simpl in Hlook. rewrite lookup_empty in Hlook. discriminate.
Qed.

(** *** [sorted] *)

Lemma insert_by_size_perm f l : insert_by_size f l ≡ₚ f :: l.
Proof.
  induction l as [|g l IH]; simpl; [reflexivity|].
  destruct (size f <=? size g); [reflexivity|].
  rewrite IH. apply Permutation_swap.
Qed.

Lemma sorted_by_size_perm l : sorted_by_size l ≡ₚ l.
Proof.
  induction l as [|f l IH]; simpl; [reflexivity|].
  rewrite insert_by_size_perm, IH. reflexivity.
Qed.

Lemma insert_by_size_sorted f l :
  StronglySorted by_size l -> StronglySorted by_size (insert_by_size f l).
Proof.
  induction 1 as [|g l Hs IH Hall]; simpl.
  - repeat constructor.
  - destruct (Z.leb_spec (size f) (size g)) as [Hle|Hgt].
    + constructor; [constructor; assumption|].
      constructor; [exact Hle|].
      eapply Forall_impl; [exact Hall|]. unfold by_size. intros; lia.
    + constructor; [exact IH|].
      rewrite insert_by_size_perm. constructor; [unfold by_size; lia|exact Hall].
Qed.

Lemma sorted_by_size_sorted l : StronglySorted by_size (sorted_by_size l).
Proof.
  induction l as [|f l IH]; simpl; [constructor|].
  apply insert_by_size_sorted, IH.
Qed.

(** *** The greedy loop *)

Lemma total_size_app l1 l2 : total_size (l1 ++ l2) = total_size l1 + total_size l2.
Proof. induction l1 as [|f l1 IH]; simpl; [reflexivity|]. rewrite IH. lia. Qed.

(** The running total never passes the limit. *)
Lemma greedy_within limit running files :
  running <= limit -> running + total_size (greedy limit running files) <= limit.
Proof.
  revert running. induction files as [|f files IH]; intros running Hr; simpl.
  - lia.
  - destruct (Z.leb_spec (running + size f) limit) as [Hfit|Hno].
    + destruct (Z.leb_spec limit (running + size f)).
      * simpl. lia.
      * rewrite total_size_app. simpl.
        specialize (IH (running + size f) Hfit). lia.
    + destruct (Z.leb_spec limit running); simpl; [lia|].
      apply IH, Hr.
Qed.

(** What is picked is picked in the order of the list. *)
Lemma greedy_sublist limit running files :
  greedy limit running files `sublist_of` files.
Proof.
  revert running. induction files as [|f files IH]; intros running; simpl.
  - constructor.
  - destruct (running + size f <=? limit).
    + destruct (limit <=? running + size f); simpl.
      * apply sublist_skip, sublist_nil_l.
      * apply sublist_skip, IH.
    + destruct (limit <=? running); simpl.
      * apply sublist_nil_l.
      * apply sublist_cons, IH.
Qed.

Lemma total_size_concat_le (share : Z) (picks : list (list entry)) :
  Forall (fun l => total_size l <= share) picks ->
  total_size (concat picks) <= Z.of_nat (length picks) * share.
Proof.
  induction 1 as [|l picks Hl _ IH]; simpl; [lia|].
  rewrite total_size_app. lia.
Qed.

End SizeSelectionFacts.

(** C6. Balanced selection by size does not partition the target across
    the given source directories: it groups the entries by the parent
    folder of each file (under a comment that says "Group files by source
    folder"), so one source directory [A] whose files lie in two
    subfolders gets two shares of 5 out of a target of 10 where the claim
    gives it one share of 10, and the 6-byte file the claim selects is left
    out. *)
Theorem select_balanced_size_groups_by_parent_folder :
  let p := Examples.jpg ["A"; "x"] "p.jpg" 6 in
  let q := Examples.jpg ["A"; "y"] "q.jpg" 4 in
  folder_groups [p; q] = [(["A"; "x"], [p]); (["A"; "y"], [q])] /\
  select_balanced_size 10 [p; q] = Ok [q] /\
  spec_select_balanced_size 10 [(["A"], [p; q])] = [q; p].
Proof. vm_compute. repeat split. Qed.

(** In general the code does not compute what C6 describes. *)
Lemma balanced_size_not_per_source_directory :
  ~ (forall (target : Z) (source_dirs : list (Path.t * list entry)),
       select_balanced_size target (concat source_dirs.*2)
       = Ok (spec_select_balanced_size target source_dirs)).
Proof.
  intros H.
  specialize (H 10 [(["A"], [Examples.jpg ["A"; "x"] "p.jpg" 6;
                             Examples.jpg ["A"; "y"] "q.jpg" 4])]).
  vm_compute in H. discriminate H.
Qed.

(** What the code does: it partitions the target evenly across the parent
    folders of the entries. The share is the target divided by the number
    of these folders, each folder's entries are taken in ascending order
    of size while the folder's running total stays at most the share, and
    for a target that is not negative the total selected size is at most
    the target. *)
Lemma select_balanced_size_by_parent_folder (target : Z) (files_data : list entry) :
  files_data <> [] ->
  0 <= target ->
  let groups := folder_groups files_data in
  let share := target / Z.of_nat (length groups) in
  exists selected,
    select_balanced_size target files_data = Ok selected /\
    selected = concat (map (fun gr => greedy share 0 (sorted_by_size gr.2)) groups) /\
    NoDup groups.*1 /\
    Forall (fun gr =>
              gr.2 = List.filter (in_folder gr.1) files_data /\
              StronglySorted by_size (sorted_by_size gr.2) /\
              sorted_by_size gr.2 ≡ₚ gr.2 /\
              greedy share 0 (sorted_by_size gr.2) `sublist_of` sorted_by_size gr.2 /\
              total_size (greedy share 0 (sorted_by_size gr.2)) <= share) groups /\
    total_size selected <= target.
Proof.
  intros Hne Htarget groups share.
  pose proof (folder_groups_nonempty files_data Hne) as Hlen. fold groups in Hlen.
  assert (Hshare : 0 <= share) by (apply Z.div_pos; lia).
  assert (Hsel : select_balanced_size target files_data
                 = Ok (concat (map (fun gr => greedy share 0 (sorted_by_size gr.2)) groups))).
  { unfold select_balanced_size, floordiv. fold groups.
    destruct (Z.eqb_spec (Z.of_nat (length groups)) 0) as [H0|_]; [lia|].
    simpl. do 2 f_equal. apply map_ext. intros [k fs]. reflexivity. }
  eexists. split; [exact Hsel|]. split; [reflexivity|].
  split; [apply folder_groups_grouped|].
  assert (Hbound : forall fs, total_size (greedy share 0 (sorted_by_size fs)) <= share).
  { intros fs. pose proof (greedy_within share 0 (sorted_by_size fs) Hshare). lia. }
  split.
  - apply Forall_forall. intros [k fs] Hin. simpl.
    split; [apply (folder_groups_partition files_data k fs Hin)|].
    split; [apply sorted_by_size_sorted|].
    split; [apply sorted_by_size_perm|].
    split; [apply greedy_sublist|apply Hbound].
  - etransitivity; [apply (total_size_concat_le share)|].
    + apply Forall_forall. intros l [gr [-> _]]%list_elem_of_fmap. apply Hbound.
    + rewrite length_map. subst share.
      pose proof (Z.mul_div_le target (Z.of_nat (length groups))). lia.
Qed.

Lemma select_balanced_size_by_parent_folder_witness :
  exists selected,
    select_balanced_size 10 [Examples.jpg ["A"; "x"] "p.jpg" 6;
                             Examples.jpg ["A"; "y"] "q.jpg" 4] = Ok selected /\
    total_size selected <= 10.
Proof.
  destruct (select_balanced_size_by_parent_folder 10
              [Examples.jpg ["A"; "x"] "p.jpg" 6; Examples.jpg ["A"; "y"] "q.jpg" 4])
    as (selected & Hsel & _ & _ & _ & Htotal).
  - discriminate.
  - lia.
  - exists selected. split; [exact Hsel|exact Htotal].
Defined.

(** ** Balanced selection by count *)

(** C5, as stated, fails: a folder holding fewer entries than the floor
    contributes all it has, and the top-up then takes more than the floor
    plus one from another folder. Here six entries are asked of a folder
    with one entry and a folder with five. *)
Lemma balanced_count_not_floor_or_floor_plus_one :
  ~ (forall (rng : Type) (E : Environment rng) (g : rng) (n : Z)
            (folder_files : list (Path.t * list entry)) (selected : list entry) (g' : rng),
       let all_files_data := concat folder_files.*2 in
       let N := length folder_files in
       0 <= n <= Z.of_nat (length all_files_data) ->
       select_by_count g n true N folder_files all_files_data = Ok (selected, g') ->
       Forall (fun d => Z.of_nat (contribution d.2 selected) = n / Z.of_nat N \/
                        Z.of_nat (contribution d.2 selected) = n / Z.of_nat N + 1)
              folder_files).
Proof.
  intros H.
  pose (A := [Examples.jpg ["A"] "a1.jpg" 1]).
  pose (B := map (fun k => Examples.jpg ["B"] ("b" +:+ pretty k +:+ ".jpg") 1)
                 [1; 2; 3; 4; 5]%nat).
  specialize (H unit Examples.env tt 6 [(["A"], A); (["B"], B)]).
  vm_compute in H.
  specialize (H _ tt ltac:(split; discriminate) eq_refl).
  apply Forall_cons in H as [[H | H] _]; discriminate H.
Qed.

Section CountSelectionFacts.

Context {rng : Type} `{!Environment rng} `{!EnvironmentLaws rng}.

Lemma sample_ok g population k :
  0 <= k <= Z.of_nat (length population) ->
  exists picked g',
    sample g population k = Ok (picked, g') /\ Z.of_nat (length picked) = k.
Proof.
  intros Hk. unfold sample.
  destruct (Z.ltb_spec k 0); [lia|].
  destruct (Z.ltb_spec (Z.of_nat (length population)) k); [lia|]. simpl.
  destruct (random_sample g population (Z.to_nat k)) as [picked g'] eqn:Hs.
  exists picked, g'. split; [reflexivity|].
  pose proof (sample_length g population (Z.to_nat k) ltac:(lia)) as Hlen.
  rewrite Hs in Hlen. simpl in Hlen. lia.
Qed.

Lemma above_cons base picked picks :
  above base (picked :: picks)
  = (if base <? Z.of_nat (length picked) then 1 else 0) + above base picks.
Proof.
  unfold above. simpl. destruct (base <? Z.of_nat (length picked)); simpl; lia.
Qed.

Lemma balanced_pass_bounds g base remaining folder_files :
  0 <= base -> 0 <= remaining ->
  exists picks g',
    balanced_pass g base remaining folder_files = Ok (picks, g') /\
    Forall2 (fun d picked => capped base d.2 picked) folder_files picks /\
    above base picks <= remaining /\
    Z.of_nat (length (concat picks))
      <= base * Z.of_nat (length folder_files) + above base picks.
Proof.
  intros Hbase. revert g remaining.
  induction folder_files as [|[folder files] folder_files IH]; intros g remaining Hrem.
  - exists [], g. split; [reflexivity|]. split; [constructor|].
    unfold above. simpl. lia.
  - destruct files as [|f files].
    + destruct (IH g remaining Hrem) as (picks & g' & Hp & Hall & Habove & Hlen).
      exists ([] :: picks), g'. cbn [balanced_pass]. rewrite Hp.
      split; [reflexivity|]. split.
      * constructor; [|exact Hall]. left. simpl. lia.
      * rewrite above_cons. cbn [concat app length].
        destruct (Z.ltb_spec base (Z.of_nat 0)); lia.
    + set (pool := f :: files) in *.
      set (take := Z.min (base + (if 0 <? remaining then 1 else 0))
                         (Z.of_nat (length pool))).
      assert (Htake : 0 <= take <= Z.of_nat (length pool)).
      { subst take. destruct (0 <? remaining); lia. }
      destruct (sample_ok g pool take Htake) as (picked & g1 & Hs & Hpicked).
      set (remaining' := if 0 <? remaining then remaining - 1 else remaining).
      assert (Hrem' : 0 <= remaining').
      { subst remaining'. destruct (Z.ltb_spec 0 remaining); lia. }
      destruct (IH g1 remaining' Hrem') as (picks & g' & Hp & Hall & Habove & Hlen).
      exists (picked :: picks), g'.
      change (balanced_pass g base remaining ((folder, pool) :: folder_files))
        with ('(picked, g1) ← sample g pool take;
              '(picks, g2) ← balanced_pass g1 base remaining' folder_files;
              Ok (picked :: picks, g2)).
      rewrite Hs. cbn [mbind result_bind]. rewrite Hp. cbn [mbind result_bind].
      split; [reflexivity|]. split.
      * constructor; [|exact Hall]. unfold capped. simpl.
        subst take. destruct (0 <? remaining); [right|left]; rewrite Hpicked; f_equal; lia.
      * rewrite above_cons. cbn [concat]. rewrite length_app.
        change (length ((folder, pool) :: folder_files)) with (S (length folder_files)).
        subst take remaining'.
        destruct (Z.ltb_spec 0 remaining);
          destruct (Z.ltb_spec base (Z.of_nat (length picked))); lia.
Qed.

Lemma top_up_bound g num_files all_files_data selected_files :
  Z.of_nat (length selected_files) <= num_files ->
  exists selected g',
    top_up g num_files all_files_data selected_files = Ok (selected, g') /\
    selected_files `prefix_of` selected /\
    Z.of_nat (length selected) <= num_files.
Proof.
  intros Hlen. unfold top_up.
  destruct (Z.ltb_spec (Z.of_nat (length selected_files)) num_files) as [Hlt|Hge].
  - destruct (List.filter _ all_files_data) as [|r remaining_files] eqn:Hrem.
    + exists selected_files, g. split; [reflexivity|]. split; [reflexivity|exact Hlen].
    + set (pool := r :: remaining_files) in *.
      set (k := Z.min (num_files - Z.of_nat (length selected_files))
                      (Z.of_nat (length pool))).
      destruct (sample_ok g pool k ltac:(lia)) as (additional & g' & Hs & Hk).
      rewrite Hs. cbn [mbind result_bind].
      exists (selected_files ++ additional)%list, g'.
      split; [reflexivity|]. split; [apply prefix_app_r; reflexivity|].
      rewrite length_app. lia.
  - exists selected_files, g. split; [reflexivity|]. split; [reflexivity|exact Hlen].
Qed.

End CountSelectionFacts.

(** C5, amended. For balanced selection by count over [N] source
    directories with a requested count [n] that does not exceed the number
    of available entries, the first pass takes from every directory the
    floor of [n / N] or that floor plus one, capped by what the directory
    holds; the extra entry goes to at most [n mod N] directories; the
    total selected is at most [n], also after the top-up, which adds
    entries from the union without regard to the directory. *)
Theorem select_by_count_balanced_bounds
    (rng : Type) (E : Environment rng) (L : EnvironmentLaws rng) (g : rng) (n : Z)
    (source_count : nat) (folder_files : list (Path.t * list entry))
    (all_files_data : list entry) :
  0 <= n <= Z.of_nat (length all_files_data) ->
  (0 < source_count)%nat ->
  (length folder_files <= source_count)%nat ->
  let base := n / Z.of_nat source_count in
  exists picks g1 selected g2,
    balanced_pass g base (n mod Z.of_nat source_count) folder_files = Ok (picks, g1) /\
    select_by_count g n true source_count folder_files all_files_data = Ok (selected, g2) /\
    Forall2 (fun d picked => capped base d.2 picked) folder_files picks /\
    above base picks <= n mod Z.of_nat source_count /\
    concat picks `prefix_of` selected /\
    Z.of_nat (length selected) <= n.
Proof.
  intros Hn HN Hlen base.
  assert (Hbase : 0 <= base) by (apply Z.div_pos; lia).
  pose proof (Z.mod_pos_bound n (Z.of_nat source_count) ltac:(lia)) as Hmod.
  destruct (balanced_pass_bounds g base (n mod Z.of_nat source_count) folder_files
              Hbase ltac:(lia)) as (picks & g1 & Hp & Hall & Habove & Htotal).
  assert (Hpicks : Z.of_nat (length (concat picks)) <= n).
  { pose proof (Z.div_mod n (Z.of_nat source_count) ltac:(lia)) as Hdm.
    fold base in Hdm. nia. }
  destruct (top_up_bound g1 n all_files_data (concat picks) Hpicks)
    as (selected & g2 & Htop & Hpre & Hsel).
  exists picks, g1, selected, g2.
  split; [exact Hp|]. split.
  - unfold select_by_count, clamp_count.
    destruct (Z.ltb_spec (Z.of_nat (length all_files_data)) n); [lia|].
    destruct (Z.ltb_spec 0 (Z.of_nat source_count)); [|lia].
    cbn [andb]. fold base. rewrite Hp. cbn [mbind result_bind]. exact Htop.
  - auto.
Qed.

Lemma select_by_count_balanced_bounds_witness :
  exists selected g2,
    @select_by_count unit Examples.env tt 2 true 2%nat
      [(["A"], [Examples.jpg ["A"] "a1.jpg" 1; Examples.jpg ["A"] "a2.jpg" 2]);
       (["B"], [Examples.jpg ["B"] "b1.png" 3])]
      [Examples.jpg ["A"] "a1.jpg" 1; Examples.jpg ["A"] "a2.jpg" 2;
       Examples.jpg ["B"] "b1.png" 3] = Ok (selected, g2) /\
    Z.of_nat (length selected) <= 2.
Proof.
  destruct (select_by_count_balanced_bounds unit Examples.env Examples.env_laws tt 2 2
              [(["A"], [Examples.jpg ["A"] "a1.jpg" 1; Examples.jpg ["A"] "a2.jpg" 2]);
               (["B"], [Examples.jpg ["B"] "b1.png" 3])]
              [Examples.jpg ["A"] "a1.jpg" 1; Examples.jpg ["A"] "a2.jpg" 2;
               Examples.jpg ["B"] "b1.png" 3])
    as (picks & g1 & selected & g2 & _ & Hsel & _ & _ & _ & Hlen).
  - simpl. lia.
  - lia.
  - simpl. lia.
  - exists selected, g2. split; [exact Hsel|exact Hlen].
Defined.

(** ** Sequencing in [io] *)

Lemma io_bind_ok {A B : Type} (m : io A) (k : A -> io B) (σ σ' : fs) (a : A) :
  m σ = (Ok a, σ') -> (m ≫= k) σ = k a σ'.
Proof. intros H. unfold mbind, io_bind. rewrite H. reflexivity. Qed.

Lemma io_bind_raise {A B : Type} (m : io A) (k : A -> io B) (σ σ' : fs) (e : exn) :
  m σ = (Raise e, σ') -> (m ≫= k) σ = (Raise e, σ').
Proof. intros H. unfold mbind, io_bind. rewrite H. reflexivity. Qed.

Lemma try_except_ok {A : Type} (m : io A) (h : exn -> io A) (σ σ' : fs) (a : A) :
  m σ = (Ok a, σ') -> try_except m h σ = (Ok a, σ').
Proof. intros H. unfold try_except. rewrite H. reflexivity. Qed.

Lemma try_except_raise {A : Type} (m : io A) (h : exn -> io A) (σ σ' : fs) (e : exn) :
  m σ = (Raise e, σ') -> try_except m h σ = h e σ'.
Proof. intros H. unfold try_except. rewrite H. reflexivity. Qed.

(** ** Where exceptions come from *)

Section ExceptionFacts.

Context {rng : Type} `{!Environment rng}.

Lemma try_suffixes_raises size_str table e :
  try_suffixes size_str table = Returned (Raise e) -> e = OverflowError.
Proof.
  induction table as [|[suffix multiplier] table IH]; simpl; [discriminate|].
  destruct (Text.endswith _ _); [|exact IH].
  destruct (Literal.pyfloat _) as [number|]; [|discriminate].
  destruct (Literal.fmul_int number multiplier) as [|neg|neg m e2]; simpl;
    try discriminate.
  intros [= <-]. reflexivity.
Qed.

Lemma parse_size_raises s e : parse_size s = Raise e -> e = OverflowError.
Proof.
  unfold parse_size, parse_size_outcome.
  destruct (try_suffixes _ _) as [[n|e']|] eqn:Hs.
  - discriminate.
  - intros [= <-]. eapply try_suffixes_raises, Hs.
  - destruct (Literal.pyint _); discriminate.
Qed.

Lemma sample_raises g population k e :
  sample g population k = Raise e -> e = ValueError.
Proof.
  unfold sample. destruct (_ || _); [|discriminate]. intros [= <-]. reflexivity.
Qed.

Lemma balanced_pass_raises g base remaining folder_files e :
  balanced_pass g base remaining folder_files = Raise e -> e = ValueError.
Proof.
  revert g remaining.
  induction folder_files as [|[folder files] folder_files IH]; intros g remaining;
    [discriminate|].
  destruct files as [|f files]; cbn [balanced_pass].
  - destruct (balanced_pass g base remaining folder_files) as [[picks g']|e'] eqn:Hp;
      cbn; [discriminate|].
    intros [= <-]. eapply IH, Hp.
  - destruct (sample g (f :: files) _) as [[picked g1]|e'] eqn:Hs; cbn.
    + destruct (balanced_pass g1 base _ folder_files) as [[picks g']|e''] eqn:Hp;
        cbn; [discriminate|].
      intros [= <-]. eapply IH, Hp.
    + intros [= <-]. eapply sample_raises, Hs.
Qed.

Lemma top_up_raises g num_files all_files_data selected_files e :
  top_up g num_files all_files_data selected_files = Raise e -> e = ValueError.
Proof.
  unfold top_up. destruct (_ <? _); [|discriminate].
  destruct (List.filter _ _) as [|r l]; [discriminate|].
  destruct (sample g (r :: l) _) as [[additional g']|e'] eqn:Hs; cbn; [discriminate|].
  intros [= <-]. eapply sample_raises, Hs.
Qed.

Lemma select_by_count_raises g n balanced source_count folder_files all_files_data e :
  select_by_count g n balanced source_count folder_files all_files_data = Raise e ->
  e = ValueError.
Proof.
  unfold select_by_count. destruct (_ && _).
  - destruct (balanced_pass _ _ _ _) as [[picks g1]|e'] eqn:Hp; cbn.
    + apply top_up_raises.
    + intros [= <-]. eapply balanced_pass_raises, Hp.
  - apply sample_raises.
Qed.

Lemma display_statistics_raises source_folders folder_files e :
  display_statistics source_folders folder_files = Raise e -> e = KeyError.
Proof.
  induction source_folders as [|folder source_folders IH]; simpl; [discriminate|].
  unfold dict_get. destruct (List.find _ _) as [[k files]|]; cbn.
  - exact IH.
  - intros [= <-]. reflexivity.
Qed.

(** Selection never divides by zero once there is an entry. *)
Lemma select_no_zero_division g sc source_folders num_files target_size balanced :
  all_files_data sc <> [] ->
  select g sc source_folders num_files target_size balanced <> Raise ZeroDivisionError.
Proof.
  intros Hne. unfold select.
  destruct (given_str target_size) as [s|].
  - unfold select_by_total_size.
    destruct (parse_size s) as [target_bytes|e] eqn:Hparse; cbn.
    + destruct balanced.
      * unfold select_balanced_size, floordiv.
        pose proof (folder_groups_nonempty _ Hne).
        destruct (Z.eqb_spec (Z.of_nat (length (folder_groups (all_files_data sc)))) 0);
          [lia|]. cbn. discriminate.
      * destruct (random_shuffle g (all_files_data sc)). cbn. discriminate.
    + apply parse_size_raises in Hparse. subst e. discriminate.
  - destruct (select_by_count _ _ _ _ _ _) as [r|e] eqn:Hs; cbn; [discriminate|].
    apply select_by_count_raises in Hs. subst e. discriminate.
Qed.

(** Without an entry the operation returns before it selects. *)
Lemma select_and_copy_nothing_found g c σ sc σ' :
  scan_all (source_folders c) (cfg_filters c) (use_cache c) σ = (Ok sc, σ') ->
  all_files_data sc = [] ->
  select_and_copy g c σ = (Ok O, σ') \/ select_and_copy g c σ = (Raise KeyError, σ').
Proof.
  intros Hscan Hnil. unfold select_and_copy.
  rewrite (io_bind_ok _ _ _ _ _ Hscan).
  destruct (display_statistics (source_folders c) (folder_files sc)) as [[]|e] eqn:Hd.
  - erewrite io_bind_ok by reflexivity.
    rewrite Hnil. left. reflexivity.
  - erewrite io_bind_raise by reflexivity.
    right. apply display_statistics_raises in Hd. subst e. reflexivity.
Qed.

End ExceptionFacts.

(** C10. Balanced selection by size divides the target by the number of
    parent-folder groups of the entries. For a list that is not empty
    there is at least one group and the selection returns; for the empty
    list the division is by zero; and the operation never gets there,
    since it returns when the scan found no entry and selects only
    otherwise. *)
Theorem balanced_size_division_guarded :
  (forall target files_data,
      files_data <> [] ->
      (1 <= length (folder_groups files_data))%nat /\
      floordiv target (Z.of_nat (length (folder_groups files_data)))
      = Ok (target / Z.of_nat (length (folder_groups files_data))) /\
      exists selected, select_balanced_size target files_data = Ok selected) /\
  (forall target, select_balanced_size target [] = Raise ZeroDivisionError) /\
  (forall (rng : Type) (E : Environment rng) g sc source_folders num_files target_size balanced,
      all_files_data sc <> [] ->
      select g sc source_folders num_files target_size balanced <> Raise ZeroDivisionError) /\
  (forall (rng : Type) (E : Environment rng) g c σ sc σ',
      scan_all (source_folders c) (cfg_filters c) (use_cache c) σ = (Ok sc, σ') ->
      all_files_data sc = [] ->
      select_and_copy g c σ = (Ok O, σ') \/ select_and_copy g c σ = (Raise KeyError, σ')).
Proof.
  split; [|split; [|split]].
  - intros target files_data Hne.
    pose proof (folder_groups_nonempty files_data Hne) as Hlen.
    assert (Hdiv : floordiv target (Z.of_nat (length (folder_groups files_data)))
                   = Ok (target / Z.of_nat (length (folder_groups files_data)))).
    { unfold floordiv. destruct (Z.eqb_spec (Z.of_nat (length (folder_groups files_data))) 0);
        [lia|reflexivity]. }
    split; [exact Hlen|]. split; [exact Hdiv|].
    unfold select_balanced_size. rewrite Hdiv. cbn. eexists. reflexivity.
  - intros target. reflexivity.
  - intros rng E. apply select_no_zero_division.
  - intros rng E. apply select_and_copy_nothing_found.
Qed.

Lemma balanced_size_division_guarded_witness :
  (1 <= length (folder_groups [Examples.jpg ["A"] "a.jpg" 3]))%nat /\
  select_and_copy (Environment0 := Examples.env) tt
    (Config [["A"]] ["dst"] 5 (Some "10B") true false false None None false)
    {[ [] := Dir 0; ["A"] := Dir 0 ]}
  = (Ok O, {[ [] := Dir 0; ["A"] := Dir 0 ]}).
Proof.
  destruct balanced_size_division_guarded as (Hgroups & _ & _ & Hcaller).
  split.
  - apply (Hgroups 10 [Examples.jpg ["A"] "a.jpg" 3]). discriminate.
  - destruct (Hcaller unit Examples.env tt
                (Config [["A"]] ["dst"] 5 (Some "10B") true false false None None false)
                {[ [] := Dir 0; ["A"] := Dir 0 ]} (Scanned [(["A"], [])] [])
                {[ [] := Dir 0; ["A"] := Dir 0 ]}) as [H|H].
    + vm_compute. reflexivity.
    + reflexivity.
    + exact H.
    + exfalso. vm_compute in H. discriminate H.
Defined.

(** ** Paths *)

Lemma join_snoc (p : Path.t) (child : string) :
  child <> "" -> Path.join p child = (p ++ [child])%list.
Proof. intros H. unfold Path.join. rewrite bool_decide_eq_false_2 by exact H. reflexivity. Qed.

Lemma parent_join (p : Path.t) (child : string) :
  child <> "" -> Path.parent (Path.join p child) = p.
Proof. intros H. rewrite join_snoc by exact H. apply removelast_last. Qed.

Lemma name_join (p : Path.t) (child : string) :
  child <> "" -> Path.name (Path.join p child) = child.
Proof. intros H. rewrite join_snoc by exact H. apply last_last. Qed.

Lemma join_inj_name (p q : Path.t) (a b : string) :
  a <> "" -> b <> "" -> Path.join p a = Path.join q b -> a = b.
Proof.
  intros Ha Hb H. rewrite <- (name_join p a Ha), <- (name_join q b Hb), H. reflexivity.
Qed.

(** ** What the file-system operations change *)

Section FileSystemFacts.

Context {rng : Type} `{!Environment rng}.

Lemma is_dir_lookup (σ : fs) (p : Path.t) :
  is_dir σ p = true <-> exists m, σ !! p = Some (Dir m).
Proof.
  unfold is_dir. destruct (σ !! p) as [[m|f]|]; split;
    try discriminate; try (intros [m' H]; discriminate); eauto.
Qed.

Lemma is_file_lookup (σ : fs) (p : Path.t) :
  is_file σ p = true <-> exists f, σ !! p = Some (File f).
Proof.
  unfold is_file. destruct (σ !! p) as [[m|f]|]; split;
    try discriminate; try (intros [m' H]; discriminate); eauto.
Qed.

Lemma touch_parent_lookup (p q : Path.t) (σ : fs) :
  touch_parent p σ !! q = σ !! q \/
  (q = Path.parent p /\ is_dir σ q = true /\ touch_parent p σ !! q = Some (Dir now)).
Proof.
  unfold touch_parent. destruct (σ !! Path.parent p) as [[m|f]|] eqn:Hp; auto.
  destruct (decide (q = Path.parent p)) as [->|Hne].
  - right. rewrite lookup_insert_eq. split; [reflexivity|].
    split; [apply is_dir_lookup; eauto|reflexivity].
  - left. apply lookup_insert_ne. congruence.
Qed.

Lemma create_file_wrote (p : Path.t) (f : file_node) (σ : fs) :
  wrote_file p σ (create p (File f) σ).
Proof.
  intros q. unfold create. destruct (decide (q = p)) as [->|Hne].
  - right. left. split; [reflexivity|]. apply is_file_lookup. exists f.
    apply lookup_insert_eq.
  - rewrite lookup_insert_ne by congruence.
    destruct (touch_parent_lookup p q σ) as [H|(Hq & Hd & H)]; [left; exact H|].
    right. right. split; [exact Hq|]. split; [exact Hd|].
    apply is_dir_lookup. exists now. rewrite lookup_insert_ne by congruence. exact H.
Qed.

Lemma write_file_wrote (p : Path.t) (d : payload) (σ : fs) :
  wrote_file p σ (snd (write_file p d σ)).
Proof.
  unfold write_file. destruct (σ !! p) as [[m|f]|] eqn:Hp; simpl.
  - intros q. left. reflexivity.
  - intros q. destruct (decide (q = p)) as [->|Hne].
    + right. left. split; [reflexivity|]. apply is_file_lookup. eexists.
      apply lookup_insert_eq.
    + left. apply lookup_insert_ne. congruence.
  - destruct (is_dir σ (Path.parent p)); simpl.
    + apply create_file_wrote.
    + intros q. left. reflexivity.
Qed.

Lemma try_write_file_wrote (p : Path.t) (d : payload) (σ : fs) :
  wrote_file p σ (snd (try_except (write_file p d) (fun _ => mret tt) σ)).
Proof.
  pose proof (write_file_wrote p d σ) as H. unfold try_except.
  destruct (write_file p d σ) as [[[]|e] σ']; exact H.
Qed.

(** *** The scan writes cache files only *)

Lemma scan_frame_refl srcs σ : scan_frame srcs σ σ.
Proof. intros p. left. reflexivity. Qed.

Lemma file_not_dir (σ : fs) (p : Path.t) : is_file σ p = true -> is_dir σ p = true -> False.
Proof. unfold is_file, is_dir. destruct (σ !! p) as [[m|f]|]; discriminate. Qed.

Lemma scan_frame_trans srcs σ1 σ2 σ3 :
  scan_frame srcs σ1 σ2 -> scan_frame srcs σ2 σ3 -> scan_frame srcs σ1 σ3.
Proof.
  intros H12 H23 p.
  destruct (H23 p) as [Heq|[(folder & Hin & Hp & Hf)|(Hin & Hd2 & Hd3)]].
  - destruct (H12 p) as [Heq'|[(folder & Hin & Hp & Hf)|(Hin & Hd1 & Hd2)]].
    + left. congruence.
    + right. left. exists folder. split; [exact Hin|]. split; [exact Hp|].
      unfold is_file in *. rewrite Heq. exact Hf.
    + right. right. split; [exact Hin|]. split; [exact Hd1|].
      unfold is_dir in *. rewrite Heq. exact Hd2.
  - right. left. exists folder. auto.
  - destruct (H12 p) as [Heq'|[(folder & Hin' & Hp & Hf)|(Hin' & Hd1 & Hd2')]].
    + right. right. split; [exact Hin|]. split; [|exact Hd3].
      unfold is_dir in *. rewrite <- Heq'. exact Hd2.
    + exfalso. eapply file_not_dir; eassumption.
    + right. right. auto.
Qed.

Lemma cache_name_nonempty : cache_name <> "".
Proof. discriminate. Qed.

Lemma collect_scan_frame srcs folder filters use_cache σ :
  folder ∈ srcs ->
  scan_frame srcs σ (snd (collect_media_files_optimized folder filters use_cache σ)).
Proof.
  intros Hin. unfold collect_media_files_optimized.
  destruct (is_dir σ folder) eqn:Hdir; simpl; [|apply scan_frame_refl].
  destruct (if use_cache then read_cache σ folder filters else None);
    simpl; [apply scan_frame_refl|].
  destruct use_cache; [|apply scan_frame_refl].
  pose proof (try_write_file_wrote (Path.join folder cache_name)
                (CachePickle (walk σ folder)) σ) as Hw.
  intros p. destruct (Hw p) as [H|[[-> H]|(-> & H1 & H2)]].
  - left. exact H.
  - right. left. exists folder. auto.
  - right. right. rewrite parent_join in * by apply cache_name_nonempty. auto.
Qed.

Lemma scan_inline_frame srcs filters use_cache folders acc σ :
  folders ⊆ srcs ->
  scan_frame srcs σ (snd (scan_inline filters use_cache folders acc σ)).
Proof.
  revert acc σ. induction folders as [|folder folders IH]; intros acc σ Hsub.
  - apply scan_frame_refl.
  - cbn [scan_inline]. unfold mbind at 1, io_bind.
    pose proof (collect_scan_frame srcs folder filters use_cache σ
                  ltac:(apply Hsub; left)) as Hc.
    destruct (collect_media_files_optimized folder filters use_cache σ) as [[files|e] σ1].
    + eapply scan_frame_trans; [exact Hc|]. apply IH.
      intros x Hx. apply Hsub. right. exact Hx.
    + exact Hc.
Qed.

Lemma scan_parallel_frame srcs filters use_cache folders acc σ :
  folders ⊆ srcs ->
  scan_frame srcs σ (snd (scan_parallel filters use_cache folders acc σ)).
Proof.
  revert acc σ. induction folders as [|folder folders IH]; intros acc σ Hsub.
  - apply scan_frame_refl.
  - cbn [scan_parallel]. unfold mbind at 1, io_bind, try_except.
    unfold mbind at 1, io_bind.
    pose proof (collect_scan_frame srcs folder filters use_cache σ
                  ltac:(apply Hsub; left)) as Hc.
    destruct (collect_media_files_optimized folder filters use_cache σ) as [[files|e] σ1];
      simpl; (eapply scan_frame_trans; [exact Hc|]); apply IH;
      intros x Hx; apply Hsub; right; exact Hx.
Qed.

Lemma scan_all_frame `{!EnvironmentLaws rng} srcs filters use_cache σ :
  scan_frame srcs σ (snd (scan_all srcs filters use_cache σ)).
Proof.
  unfold scan_all. case_bool_decide.
  - apply scan_parallel_frame. intros x Hx.
    rewrite <- (as_completed_perm _ srcs). exact Hx.
  - apply scan_inline_frame. reflexivity.
Qed.

End FileSystemFacts.

(** ** Dry run *)

Section DryRunFacts.

Context {rng : Type} `{!Environment rng}.

(** In a dry run the state left behind is the one the scan left, and the
    number returned is the number of entries selected. *)
Lemma select_and_copy_dry_run g c σ :
  dry_run c = true ->
  let scan := scan_all (source_folders c) (cfg_filters c) (use_cache c) σ in
  snd (select_and_copy g c σ) = snd scan /\
  forall n, fst (select_and_copy g c σ) = Ok n ->
    exists sc, fst scan = Ok sc /\
      ((all_files_data sc = [] /\ n = O) \/
       (all_files_data sc <> [] /\
        exists selected_files,
          select g sc (source_folders c) (num_files c) (target_size c) (balanced c)
          = Ok selected_files /\ n = length selected_files)).
Proof.
  intros Hdry. cbv zeta. unfold select_and_copy, mbind, io_bind, lift.
  destruct (scan_all _ _ _ σ) as [[sc|e] σ1]; simpl; [|split; [reflexivity|discriminate]].
  destruct (display_statistics _ _) as [[]|e]; simpl; [|split; [reflexivity|discriminate]].
  destruct (all_files_data sc) as [|f files] eqn:Hall; simpl.
  - split; [reflexivity|]. intros n [= <-]. exists sc. rewrite Hall. auto.
  - destruct (select g sc _ _ _ _) as [selected_files|e] eqn:Hsel; simpl;
      [|split; [reflexivity|discriminate]].
    rewrite Hdry. simpl. split; [reflexivity|].
    intros n [= <-]. exists sc. split; [reflexivity|]. right.
    rewrite Hall. split; [discriminate|]. exists selected_files. auto.
Qed.

End DryRunFacts.

(** C8. In a dry run the operation scans, filters and selects, and
    returns the number of entries it selected; the only changes to the
    file system are cache files of the source folders (and the stamp of a
    source folder that receives one). No directory is created, so the
    destination stays absent if it was; no file other than a cache file is
    created or changed, so no selection log and no resume file is
    written. *)
Theorem dry_run_writes_cache_only
    (rng : Type) (E : Environment rng) (L : EnvironmentLaws rng) (g : rng) (c : config) (σ : fs) :
  dry_run c = true ->
  let run := randomly_select_and_copy_files g c σ in
  let σ' := snd run in
  scan_frame (source_folders c) σ σ' /\
  (forall p, is_dir σ' p = true -> is_dir σ p = true) /\
  (forall p, is_file σ' p = true -> Path.name p <> cache_name -> σ' !! p = σ !! p) /\
  (exists_ σ (destination_folder c) = false -> is_dir σ' (destination_folder c) = false) /\
  (forall name, name ∈ [log_name; resume_name] ->
     is_file σ' (Path.join (destination_folder c) name) = true ->
     σ' !! Path.join (destination_folder c) name = σ !! Path.join (destination_folder c) name) /\
  (forall n, fst run = Ok n ->
     exists sc, fst (scan_all (source_folders c) (cfg_filters c) (use_cache c) σ) = Ok sc /\
       ((all_files_data sc = [] /\ n = O) \/
        (all_files_data sc <> [] /\
         exists selected_files,
           select g sc (source_folders c) (num_files c) (target_size c) (balanced c)
           = Ok selected_files /\ n = length selected_files))).
Proof.
  intros Hdry run σ'.
  assert (Hrun : run = select_and_copy g c σ).
  { subst run. unfold randomly_select_and_copy_files. rewrite Hdry.
    rewrite andb_false_r. reflexivity. }
  destruct (select_and_copy_dry_run g c σ Hdry) as [Hstate Hcount].
  assert (Hframe : scan_frame (source_folders c) σ σ').
  { subst σ'. rewrite Hrun, Hstate. apply scan_all_frame. }
  assert (Hdirs : forall p, is_dir σ' p = true -> is_dir σ p = true).
  { intros p Hd. destruct (Hframe p) as [Heq|[(folder & _ & _ & Hf)|(_ & H & _)]].
    - unfold is_dir in *. rewrite <- Heq. exact Hd.
    - exfalso. eapply file_not_dir; eassumption.
    - exact H. }
  assert (Hfiles : forall p, is_file σ' p = true -> Path.name p <> cache_name ->
                             σ' !! p = σ !! p).
  { intros p Hf Hname. destruct (Hframe p) as [Heq|[(folder & _ & -> & _)|(_ & _ & Hd)]].
    - exact Heq.
    - exfalso. apply Hname. apply name_join, cache_name_nonempty.
    - exfalso. eapply file_not_dir; eassumption. }
  split; [exact Hframe|]. split; [exact Hdirs|]. split; [exact Hfiles|].
  split; [|split].
  - intros Hno. destruct (is_dir σ' (destination_folder c)) eqn:Hd; [|reflexivity].
    apply Hdirs in Hd. unfold exists_ in Hno. apply bool_decide_eq_false in Hno.
    apply is_dir_lookup in Hd as [m Hm]. exfalso. apply Hno. rewrite Hm. eauto.
  - intros name Hname Hf. apply Hfiles; [exact Hf|].
    assert (Hne : name <> "" /\ name <> cache_name).
    { apply elem_of_cons in Hname as [->|Hname]; [split; discriminate|].
      apply list_elem_of_singleton in Hname as ->. split; discriminate. }
    rewrite name_join by apply Hne. apply Hne.
  - rewrite Hrun. exact Hcount.
Qed.

Lemma dry_run_writes_cache_only_witness :
  let σ : fs := {[ [] := Dir 0; ["src"] := Dir 5;
                   ["src"; "a.jpg"] := Examples.media 7 ]} in
  let c := Config [["src"]] ["dst"] 1 None false true false None None true in
  is_dir (snd (randomly_select_and_copy_files (Environment0 := Examples.env) tt c σ))
         ["dst"] = false.
Proof.
  intros σ c.
  apply (dry_run_writes_cache_only unit Examples.env Examples.env_laws tt c σ).
  - reflexivity.
  - reflexivity.
Defined.

(** ** The copy engine *)

Section CopyFacts.

Context {rng : Type} `{!Environment rng}.

(** *** States that only grow *)

Lemma extends_refl σ : extends σ σ.
Proof.
  intros p. destruct (σ !! p) as [[m|f]|] eqn:Hp; auto.
  apply is_dir_lookup. eauto.
Qed.

Lemma extends_trans σ1 σ2 σ3 : extends σ1 σ2 -> extends σ2 σ3 -> extends σ1 σ3.
Proof.
  intros H12 H23 p. specialize (H12 p). specialize (H23 p).
  destruct (σ1 !! p) as [[m|f]|]; auto.
  - apply is_dir_lookup in H12 as [m' Hm]. rewrite Hm in H23. exact H23.
  - rewrite H12 in H23. exact H23.
Qed.

Lemma extends_is_dir σ σ' p : extends σ σ' -> is_dir σ p = true -> is_dir σ' p = true.
Proof.
  intros H Hd. specialize (H p). apply is_dir_lookup in Hd as [m Hm].
  rewrite Hm in H. exact H.
Qed.

Lemma extends_is_file σ σ' p : extends σ σ' -> is_file σ p = true -> is_file σ' p = true.
Proof.
  intros H Hf. specialize (H p). apply is_file_lookup in Hf as [f Hf].
  rewrite Hf in H. apply is_file_lookup. eauto.
Qed.

Lemma exists_lookup (σ : fs) p : exists_ σ p = true <-> is_Some (σ !! p).
Proof. unfold exists_. apply bool_decide_eq_true. Qed.

Lemma not_exists_lookup (σ : fs) p : exists_ σ p = false <-> σ !! p = None.
Proof.
  unfold exists_. rewrite bool_decide_eq_false. rewrite <- eq_None_not_Some. reflexivity.
Qed.

Lemma exists_cases (σ : fs) p :
  exists_ σ p = true <-> is_dir σ p = true \/ is_file σ p = true.
Proof.
  rewrite exists_lookup. unfold is_dir, is_file.
  destruct (σ !! p) as [[m|f]|]; split.
  - auto.
  - eauto.
  - auto.
  - eauto.
  - intros [x Hx]. discriminate.
  - intros [H|H]; discriminate.
Qed.

Lemma extends_exists σ σ' p : extends σ σ' -> exists_ σ p = true -> exists_ σ' p = true.
Proof.
  intros H. rewrite !exists_cases. intros [Hd|Hf].
  - left. eapply extends_is_dir; eassumption.
  - right. eapply extends_is_file; eassumption.
Qed.

Lemma touch_parent_extends p σ : extends σ (touch_parent p σ).
Proof.
  intros q. destruct (touch_parent_lookup p q σ) as [H|(_ & Hd & H)].
  - rewrite H. destruct (σ !! q) as [[m|f]|] eqn:Hq; auto.
    apply is_dir_lookup. rewrite H. eauto.
  - apply is_dir_lookup in Hd as [m Hm]. rewrite Hm.
    apply is_dir_lookup. eauto.
Qed.

Lemma create_extends p n σ : σ !! p = None -> extends σ (create p n σ).
Proof.
  intros Hp q. unfold create. destruct (decide (q = p)) as [->|Hne].
  - rewrite Hp. exact I.
  - pose proof (touch_parent_extends p σ q) as H.
    destruct (σ !! q) as [[m|f]|]; auto.
    + unfold is_dir in *. rewrite lookup_insert_ne by congruence. exact H.
    + rewrite lookup_insert_ne by congruence. exact H.
Qed.

Lemma create_lookup p n σ : create p n σ !! p = Some n.
Proof. unfold create. apply lookup_insert_eq. Qed.

(** *** [mkdir] *)

Lemma dirs_ready_extends σ σ' base rest :
  extends σ σ' -> dirs_ready σ base rest -> dirs_ready σ' base rest.
Proof.
  intros Hext. revert base. induction rest as [|c rest IH]; intros base; simpl; [auto|].
  intros [Hd Hr]. split; [eapply extends_is_dir; eassumption|apply IH, Hr].
Qed.

Lemma makedirs_extends base rest σ : extends σ (snd (makedirs base rest σ)).
Proof.
  revert base σ. induction rest as [|c rest IH]; intros base σ; simpl.
  - apply extends_refl.
  - destruct (σ !! (base ++ [c])%list) as [[m|f]|] eqn:Hq.
    + apply IH.
    + apply extends_refl.
    + eapply extends_trans; [apply create_extends, Hq|apply IH].
Qed.

Lemma makedirs_ok_ready base rest σ σ' :
  makedirs base rest σ = (Ok tt, σ') -> dirs_ready σ' base rest.
Proof.
  revert base σ. induction rest as [|c rest IH]; intros base σ; simpl; [auto|].
  destruct (σ !! (base ++ [c])%list) as [[m|f]|] eqn:Hq.
  - intros H. split; [|eapply IH, H].
    eapply extends_is_dir.
    + pose proof (makedirs_extends (base ++ [c]) rest σ) as He. rewrite H in He. exact He.
    + apply is_dir_lookup. eauto.
  - discriminate.
  - intros H. split; [|eapply IH, H].
    eapply extends_is_dir.
    + pose proof (makedirs_extends (base ++ [c]) rest (create (base ++ [c]) (Dir now) σ))
        as He. rewrite H in He. exact He.
    + apply is_dir_lookup. exists now. apply create_lookup.
Qed.

Lemma makedirs_ready_id base rest σ :
  dirs_ready σ base rest -> makedirs base rest σ = (Ok tt, σ).
Proof.
  revert base. induction rest as [|c rest IH]; intros base; simpl; [reflexivity|].
  intros [Hd Hr]. apply is_dir_lookup in Hd as [m Hm]. rewrite Hm. apply IH, Hr.
Qed.

Lemma dirs_ready_last σ base rest :
  dirs_ready σ base rest -> rest <> [] -> is_dir σ (base ++ rest)%list = true.
Proof.
  revert base. induction rest as [|c rest IH]; intros base; simpl; [congruence|].
  intros [Hd Hr] _. destruct rest as [|c' rest].
  - exact Hd.
  - replace (base ++ c :: c' :: rest)%list with ((base ++ [c]) ++ c' :: rest)%list
      by (rewrite <- app_assoc; reflexivity).
    apply IH; [exact Hr|discriminate].
Qed.

Lemma mkdir_exist_ok_extends p σ : extends σ (snd (mkdir_exist_ok p σ)).
Proof.
  unfold mkdir_exist_ok. destruct (σ !! p) as [[m|f]|] eqn:Hp; simpl;
    try apply extends_refl.
  destruct (is_dir σ (Path.parent p)); simpl; [apply create_extends, Hp|apply extends_refl].
Qed.

Lemma mkdir_exist_ok_dir p σ σ' :
  mkdir_exist_ok p σ = (Ok tt, σ') -> is_dir σ' p = true.
Proof.
  unfold mkdir_exist_ok. destruct (σ !! p) as [[m|f]|] eqn:Hp.
  - intros [= <-]. apply is_dir_lookup. eauto.
  - discriminate.
  - destruct (is_dir σ (Path.parent p)); [|discriminate].
    intros [= <-]. apply is_dir_lookup. exists now. apply create_lookup.
Qed.

Lemma mkdir_exist_ok_id p σ : is_dir σ p = true -> mkdir_exist_ok p σ = (Ok tt, σ).
Proof.
  intros [m Hm]%is_dir_lookup. unfold mkdir_exist_ok. rewrite Hm. reflexivity.
Qed.

(** *** [get_destination_path] *)

Lemma get_destination_path_extends file_path dest_path preserve selected σ :
  extends σ (snd (get_destination_path file_path dest_path preserve selected σ)).
Proof.
  unfold get_destination_path.
  destruct (dest_subfolder _ _ _ _) as [sub|]; [|apply extends_refl].
  unfold mbind, io_bind. pose proof (mkdir_exist_ok_extends sub σ) as H.
  destruct (mkdir_exist_ok sub σ) as [[[]|e] σ']; exact H.
Qed.

Lemma get_destination_path_ok file_path dest_path preserve selected σ d σ' :
  get_destination_path file_path dest_path preserve selected σ = (Ok d, σ') ->
  d = destination_of file_path dest_path preserve selected /\
  subfolder_ready σ' file_path dest_path preserve selected.
Proof.
  unfold get_destination_path, destination_of, subfolder_ready.
  destruct (dest_subfolder _ _ _ _) as [sub|].
  - unfold mbind, io_bind.
    destruct (mkdir_exist_ok sub σ) as [[[]|e] σ1] eqn:Hm; [|discriminate].
    intros [= <- <-]. split; [reflexivity|]. eapply mkdir_exist_ok_dir, Hm.
  - intros [= <- <-]. auto.
Qed.

Lemma get_destination_path_id file_path dest_path preserve selected σ :
  subfolder_ready σ file_path dest_path preserve selected ->
  get_destination_path file_path dest_path preserve selected σ
  = (Ok (destination_of file_path dest_path preserve selected), σ).
Proof.
  unfold get_destination_path, destination_of, subfolder_ready.
  destruct (dest_subfolder _ _ _ _) as [sub|]; [|reflexivity].
  intros Hd. unfold mbind, io_bind. rewrite (mkdir_exist_ok_id _ _ Hd). reflexivity.
Qed.

Lemma subfolder_ready_extends σ σ' file_path dest_path preserve selected :
  extends σ σ' ->
  subfolder_ready σ file_path dest_path preserve selected ->
  subfolder_ready σ' file_path dest_path preserve selected.
Proof.
  unfold subfolder_ready. destruct (dest_subfolder _ _ _ _); [|auto].
  intros. eapply extends_is_dir; eassumption.
Qed.

(** *** Making directories adds no file *)

Lemma no_new_file_refl σ : no_new_file σ σ.
Proof. intros p f H. exact H. Qed.

Lemma no_new_file_trans σ1 σ2 σ3 :
  no_new_file σ1 σ2 -> no_new_file σ2 σ3 -> no_new_file σ1 σ3.
Proof. intros H12 H23 p f H. apply H12, H23, H. Qed.

Lemma create_dir_no_new_file p m σ : no_new_file σ (create p (Dir m) σ).
Proof.
  intros q f. unfold create. destruct (decide (q = p)) as [->|Hne].
  - rewrite lookup_insert_eq. discriminate.
  - rewrite lookup_insert_ne by congruence.
    destruct (touch_parent_lookup p q σ) as [H|(_ & _ & H)]; rewrite H; [auto|discriminate].
Qed.

Lemma makedirs_no_new_file base rest σ : no_new_file σ (snd (makedirs base rest σ)).
Proof.
  revert base σ. induction rest as [|c rest IH]; intros base σ; simpl.
  - apply no_new_file_refl.
  - destruct (σ !! (base ++ [c])) as [[m|f]|] eqn:Hq.
    + apply IH.
    + apply no_new_file_refl.
    + eapply no_new_file_trans; [apply create_dir_no_new_file|apply IH].
Qed.

Lemma mkdir_exist_ok_no_new_file p σ : no_new_file σ (snd (mkdir_exist_ok p σ)).
Proof.
  unfold mkdir_exist_ok. destruct (σ !! p) as [[m|f]|] eqn:Hp; simpl;
    try apply no_new_file_refl.
  destruct (is_dir σ (Path.parent p)); simpl;
    [apply create_dir_no_new_file|apply no_new_file_refl].
Qed.

Lemma get_destination_path_no_new_file file_path dest_path preserve selected σ :
  no_new_file σ (snd (get_destination_path file_path dest_path preserve selected σ)).
Proof.
  unfold get_destination_path.
  destruct (dest_subfolder _ _ _ _) as [sub|]; [|apply no_new_file_refl].
  unfold mbind, io_bind. pose proof (mkdir_exist_ok_no_new_file sub σ) as H.
  destruct (mkdir_exist_ok sub σ) as [[[]|e] σ']; exact H.
Qed.

End CopyFacts.

(** *** Numbered names *)

Lemma string_length_app (a b : string) :
  String.length (a +:+ b) = (String.length a + String.length b)%nat.
Proof. induction a as [|x a IH]; simpl; [reflexivity|]. rewrite IH. reflexivity. Qed.

Lemma string_app_cancel_r (a b s : string) : a +:+ s = b +:+ s -> a = b.
Proof.
  revert b. induction a as [|x a IH]; intros [|y b] H.
  - reflexivity.
  - apply (f_equal String.length) in H. rewrite !string_length_app in H. simpl in H. lia.
  - apply (f_equal String.length) in H. rewrite !string_length_app in H. simpl in H. lia.
  - simpl in H. injection H as -> H. f_equal. apply IH, H.
Qed.

Lemma string_app_nonempty (a : string) (x : ascii) (b : string) :
  a +:+ String x b <> "".
Proof. destruct a; discriminate. Qed.

Section NameFacts.

Context {rng : Type} `{!Environment rng}.

Lemma numbered_snoc original_dest counter :
  numbered original_dest counter
  = Path.parent original_dest ++ [numbered_name original_dest counter].
Proof.
  unfold numbered. fold (numbered_name original_dest counter).
  apply join_snoc. apply string_app_nonempty.
Qed.

Lemma numbered_inj original_dest : Inj (=) (=) (numbered original_dest).
Proof.
  intros i j H. rewrite !numbered_snoc in H.
  apply app_inj_tail in H as [_ H]. unfold numbered_name in H.
  apply (inj (String.app _)) in H. injection H as H.
  change ("" +:+ pretty i +:+ Path.suffix original_dest)
    with (pretty i +:+ Path.suffix original_dest) in H.
  change ("" +:+ pretty j +:+ Path.suffix original_dest)
    with (pretty j +:+ Path.suffix original_dest) in H.
  apply string_app_cancel_r in H. apply (inj pretty) in H. exact H.
Qed.

Lemma parent_numbered original_dest counter :
  Path.parent (numbered original_dest counter) = Path.parent original_dest.
Proof. rewrite numbered_snoc. apply removelast_last. Qed.

(** *** The conflict loop *)

Lemma unused_name_free σ original_dest fuel counter dest_file d :
  unused_name σ original_dest fuel counter dest_file = Some d -> exists_ σ d = false.
Proof.
  revert counter dest_file. induction fuel as [|fuel IH]; intros counter dest_file; simpl.
  - destruct (exists_ σ dest_file) eqn:He; [discriminate|]. intros [= <-]. exact He.
  - destruct (exists_ σ dest_file) eqn:He; [apply IH|]. intros [= <-]. exact He.
Qed.

(** The name found is the first unused one: either the path tried first,
    or a numbered name all of whose predecessors are taken. *)
Lemma unused_name_first σ original_dest fuel counter dest_file d :
  unused_name σ original_dest fuel counter dest_file = Some d ->
  (d = dest_file /\ exists_ σ dest_file = false) \/
  (exists_ σ dest_file = true /\
   exists j, (counter <= j)%nat /\ d = numbered original_dest j /\
     forall i, (counter <= i < j)%nat -> exists_ σ (numbered original_dest i) = true).
Proof.
  revert counter dest_file. induction fuel as [|fuel IH]; intros counter dest_file; simpl.
  - destruct (exists_ σ dest_file) eqn:He; [discriminate|]. intros [= <-]. auto.
  - destruct (exists_ σ dest_file) eqn:He; [|intros [= <-]; auto].
    intros H. right. split; [reflexivity|].
    destruct (IH _ _ H) as [[-> Hfree]|(Hex & j & Hj & -> & Hall)].
    + exists counter. split; [lia|]. split; [reflexivity|]. intros i Hi. lia.
    + exists j. split; [lia|]. split; [reflexivity|]. intros i Hi.
      destruct (decide (i = counter)) as [->|Hne]; [exact Hex|apply Hall; lia].
Qed.

Lemma unused_name_none σ original_dest fuel counter dest_file :
  unused_name σ original_dest fuel counter dest_file = None ->
  forall i, (counter <= i < counter + fuel)%nat ->
    exists_ σ (numbered original_dest i) = true.
Proof.
  revert counter dest_file. induction fuel as [|fuel IH]; intros counter dest_file; simpl.
  - intros _ i Hi. lia.
  - destruct (exists_ σ dest_file) eqn:He; [|discriminate].
    intros H i Hi. destruct (decide (i = counter)) as [->|Hne].
    + destruct fuel as [|fuel']; simpl in H.
      * destruct (exists_ σ (numbered original_dest counter)); [reflexivity|discriminate].
      * destruct (exists_ σ (numbered original_dest counter)); [reflexivity|discriminate].
    + apply (IH _ _ H). lia.
Qed.

(** The loop always ends: a file system holds finitely many paths and the
    numbered names are pairwise distinct. *)
Lemma resolve_conflict_total σ dest_file :
  exists d, resolve_conflict σ dest_file = Some d.
Proof.
  unfold resolve_conflict.
  destruct (unused_name σ dest_file (S (base.size σ)) 1 dest_file) as [d|] eqn:Hu; [eauto|].
  exfalso. pose proof (unused_name_none _ _ _ _ _ Hu) as Hall.
  set (names := numbered dest_file <$> seq 1 (S (base.size σ))).
  assert (Hnd : NoDup names).
  { apply (NoDup_fmap_2 _ (Inj0 := numbered_inj dest_file)). apply NoDup_seq. }
  assert (Hsub : (list_to_set names : gset Path.t) ⊆ dom σ).
  { intros p Hp. apply elem_of_list_to_set in Hp.
    apply list_elem_of_fmap in Hp as (i & -> & Hi). apply elem_of_seq in Hi.
    apply elem_of_dom. apply exists_lookup. apply Hall. lia. }
  apply subseteq_size in Hsub. rewrite size_list_to_set in Hsub by exact Hnd.
  rewrite size_dom in Hsub. subst names. rewrite length_fmap, length_seq in Hsub. lia.
Qed.

Lemma resolve_conflict_free σ dest_file d :
  resolve_conflict σ dest_file = Some d -> exists_ σ d = false.
Proof. apply unused_name_free. Qed.

Lemma resolve_conflict_first σ dest_file d :
  resolve_conflict σ dest_file = Some d ->
  (d = dest_file /\ exists_ σ dest_file = false) \/
  (exists_ σ dest_file = true /\
   exists j, (1 <= j)%nat /\ d = numbered dest_file j /\
     forall i, (1 <= i < j)%nat -> exists_ σ (numbered dest_file i) = true).
Proof. apply unused_name_first. Qed.

Lemma resolve_conflict_parent σ dest_file d :
  resolve_conflict σ dest_file = Some d -> Path.parent d = Path.parent dest_file.
Proof.
  intros H. destruct (resolve_conflict_first _ _ _ H) as [[-> _]|(_ & j & _ & -> & _)].
  - reflexivity.
  - apply parent_numbered.
Qed.

(** *** [copy2] and [copy_single_file] *)

Lemma copy2_fresh src dst σ :
  exists_ σ dst = false ->
  extends σ (snd (copy2 src dst σ)) /\
  forall σ', copy2 src dst σ = (Ok tt, σ') ->
    exists f, σ !! src = Some (File f) /\ σ' !! dst = Some (copy_of f).
Proof.
  intros Hfree. apply not_exists_lookup in Hfree. unfold copy2.
  destruct (σ !! src) as [[m|f]|] eqn:Hsrc; simpl;
    try (split; [apply extends_refl|discriminate]).
  assert (Hnd : is_dir σ dst = false) by (unfold is_dir; rewrite Hfree; reflexivity).
  rewrite Hnd, Hfree.
  destruct (bool_decide (dst = src)); [split; [apply extends_refl|discriminate]|].
  destruct (is_dir σ (Path.parent dst)); simpl.
  - split; [apply create_extends, Hfree|].
    intros σ' [= <-]. exists f. split; [reflexivity|]. apply create_lookup.
  - split; [apply extends_refl|discriminate].
Qed.

(** What [copy_single_file] does when it reports a destination [d]: [d]
    is the first unused name for the resolved destination, it did not
    exist before, it holds a copy of the source afterwards, and nothing
    that existed was changed. *)
Lemma copy_single_file_spec file_path dest_path preserve selected σ d σ' :
  copy_single_file file_path dest_path preserve selected σ = (Ok (Some d), σ') ->
  let dest_file := destination_of file_path dest_path preserve selected in
  exists σm,
    extends σ σm /\ no_new_file σ σm /\ extends σm σ' /\
    subfolder_ready σm file_path dest_path preserve selected /\
    resolve_conflict σm dest_file = Some d /\
    exists_ σm d = false /\
    exists f, σ !! file_path = Some (File f) /\ σ' !! d = Some (copy_of f).
Proof.
  intros H dest_file. unfold copy_single_file, try_except in H.
  unfold mbind at 1, io_bind in H.
  pose proof (get_destination_path_extends file_path dest_path preserve selected σ) as He1.
  pose proof (get_destination_path_no_new_file file_path dest_path preserve selected σ)
    as Hn1.
  destruct (get_destination_path file_path dest_path preserve selected σ)
    as [[d0|e] σ1] eqn:Hg; [|discriminate H].
  apply get_destination_path_ok in Hg as [-> Hready]. fold dest_file in H.
  unfold mbind at 1, io_bind in H.
  pose proof (makedirs_extends [] (Path.parent dest_file) σ1) as He2.
  pose proof (makedirs_no_new_file [] (Path.parent dest_file) σ1) as Hn2.
  unfold mkdir_parents in H.
  destruct (makedirs [] (Path.parent dest_file) σ1) as [[[]|e] σm] eqn:Hm;
    [|discriminate H].
  simpl in He1, He2, Hn1, Hn2. unfold mbind at 1, io_bind, get_fs in H.
  destruct (resolve_conflict σm dest_file) as [d1|] eqn:Hr; [|discriminate H].
  unfold mbind at 1, io_bind in H.
  pose proof (resolve_conflict_free _ _ _ Hr) as Hfree.
  destruct (copy2_fresh file_path d1 σm Hfree) as [He3 Hcopy].
  destruct (copy2 file_path d1 σm) as [[[]|e] σ2] eqn:Hc; [|discriminate H].
  injection H as <- <-. simpl in He3.
  exists σm. split; [eapply extends_trans; eassumption|].
  split; [eapply no_new_file_trans; eassumption|]. split; [exact He3|].
  split; [eapply subfolder_ready_extends; eassumption|].
  split; [exact Hr|]. split; [exact Hfree|].
  destruct (Hcopy _ eq_refl) as (f & Hsrc & Hdst). exists f. split; [|exact Hdst].
  apply Hn1, Hn2, Hsrc.
Qed.

(** The copy fails only when a directory cannot be made or the source
    cannot be read: the conflict loop always finds a name. *)
Lemma copy_single_file_returns file_path dest_path preserve selected σ f :
  σ !! file_path = Some (File f) ->
  subfolder_ready σ file_path dest_path preserve selected ->
  let dest_file := destination_of file_path dest_path preserve selected in
  dirs_ready σ [] (Path.parent dest_file) ->
  is_dir σ (Path.parent dest_file) = true ->
  exists d σ',
    copy_single_file file_path dest_path preserve selected σ = (Ok (Some d), σ') /\
    resolve_conflict σ dest_file = Some d /\
    σ' = create d (copy_of f) σ.
Proof.
  intros Hsrc Hready dest_file Hdirs Hparent.
  destruct (resolve_conflict_total σ dest_file) as [d Hr].
  exists d, (create d (copy_of f) σ). split; [|split; [exact Hr|reflexivity]].
  unfold copy_single_file, try_except.
  rewrite (io_bind_ok _ _ _ _ _ (get_destination_path_id _ _ _ _ _ Hready)).
  fold dest_file. unfold mkdir_parents.
  rewrite (io_bind_ok _ _ _ _ _ (makedirs_ready_id _ _ _ Hdirs)).
  unfold mbind at 1, io_bind, get_fs. rewrite Hr.
  pose proof (resolve_conflict_free _ _ _ Hr) as Hfree.
  pose proof (resolve_conflict_parent _ _ _ Hr) as Hpar.
  assert (Hc : copy2 file_path d σ = (Ok tt, create d (copy_of f) σ)).
  { unfold copy2. rewrite Hsrc. apply not_exists_lookup in Hfree.
    assert (Hnd : is_dir σ d = false) by (unfold is_dir; rewrite Hfree; reflexivity).
    rewrite Hnd, Hfree, Hpar, Hparent.
    rewrite bool_decide_eq_false_2 by congruence. reflexivity. }
  rewrite (io_bind_ok _ _ _ _ _ Hc). reflexivity.
Qed.

End NameFacts.

(** *** The work list *)

Section WorkListFacts.

Context {rng : Type} `{!Environment rng}.

Lemma persists_refl σ : persists σ σ.
Proof. intros p. auto. Qed.

Lemma persists_trans σ1 σ2 σ3 : persists σ1 σ2 -> persists σ2 σ3 -> persists σ1 σ3.
Proof. intros H12 H23 p. destruct (H12 p), (H23 p). auto. Qed.

Lemma extends_persists σ σ' : extends σ σ' -> persists σ σ'.
Proof.
  intros H p. split; [apply extends_is_dir, H|apply extends_is_file, H].
Qed.

Lemma persists_exists σ σ' p : persists σ σ' -> exists_ σ p = true -> exists_ σ' p = true.
Proof. intros H. rewrite !exists_cases. destruct (H p). intros [|]; auto. Qed.

Lemma dirs_ready_persists σ σ' base rest :
  persists σ σ' -> dirs_ready σ base rest -> dirs_ready σ' base rest.
Proof.
  intros Hp. revert base. induction rest as [|c rest IH]; intros base; simpl; [auto|].
  intros [Hd Hr]. split; [apply Hp, Hd|apply IH, Hr].
Qed.

Lemma subfolder_ready_persists σ σ' file_path dest_path preserve selected :
  persists σ σ' ->
  subfolder_ready σ file_path dest_path preserve selected ->
  subfolder_ready σ' file_path dest_path preserve selected.
Proof.
  unfold subfolder_ready. destruct (dest_subfolder _ _ _ _); [|auto].
  intros Hp. apply Hp.
Qed.

Lemma write_file_persists p d σ : persists σ (snd (write_file p d σ)).
Proof.
  unfold write_file. destruct (σ !! p) as [[m|f]|] eqn:Hp; simpl.
  - apply persists_refl.
  - intros q. unfold is_dir, is_file. destruct (decide (q = p)) as [->|Hne].
    + rewrite lookup_insert_eq, Hp. auto.
    + rewrite lookup_insert_ne by congruence. auto.
  - destruct (is_dir σ (Path.parent p)); simpl; [|apply persists_refl].
    apply extends_persists, create_extends, Hp.
Qed.

Lemma save_operation_state_persists state p σ :
  persists σ (snd (save_operation_state state p σ)).
Proof.
  unfold save_operation_state, try_except.
  pose proof (write_file_persists p state σ) as H.
  destruct (write_file p state σ) as [[[]|e] σ']; exact H.
Qed.

Lemma checkpoint_persists resume_file total pr σ :
  persists σ (snd (checkpoint resume_file total pr σ)).
Proof.
  unfold checkpoint. destruct resume_file as [r|]; [|apply persists_refl].
  apply save_operation_state_persists.
Qed.

Lemma checkpoint_ok resume_file total pr σ :
  fst (checkpoint resume_file total pr σ) = Ok tt.
Proof.
  unfold checkpoint. destruct resume_file as [r|]; [|reflexivity].
  unfold save_operation_state, try_except.
  destruct (write_file r _ σ) as [[[]|e] σ']; reflexivity.
Qed.

(** *** The ledger on disk only grows during a run *)

Lemma load_ledger_extends σ σ' resume_file :
  extends σ σ' -> load_ledger σ resume_file ⊆ load_ledger σ' resume_file.
Proof.
  intros Hext. destruct resume_file as [r|]; simpl; [|reflexivity].
  specialize (Hext r). unfold exists_, load_operation_state.
  destruct (σ !! r) as [[m|f]|] eqn:Hr.
  - rewrite bool_decide_eq_true_2 by eauto. apply empty_subseteq.
  - rewrite Hext. reflexivity.
  - rewrite bool_decide_eq_false_2 by (intros [x Hx]; discriminate).
    apply empty_subseteq.
Qed.

Lemma load_ledger_written σ r total ledger ts f :
  load_ledger (<[r := File (FileNode f ts ts (ResumeJson total (elements ledger) ts))]> σ)
              (Some r) = ledger.
Proof.
  unfold load_ledger, exists_, load_operation_state. rewrite lookup_insert_eq.
  rewrite bool_decide_eq_true_2 by eauto. simpl. apply list_to_set_elements_L.
Qed.

Lemma try_write_file_cases p d σ :
  let σ' := snd (try_except (write_file p d) (fun _ => mret tt) σ) in
  σ' = σ \/ exists σ0, σ' = <[p := File (FileNode (serialized_size d) now now d)]> σ0.
Proof.
  unfold try_except, write_file.
  destruct (σ !! p) as [[m|f]|]; [left; reflexivity|right; eexists; reflexivity|].
  destruct (is_dir σ (Path.parent p)); [right; eexists; reflexivity|left; reflexivity].
Qed.

Lemma checkpoint_ledger (ledger : gset Path.t) resume_file total pr σ :
  ledger ⊆ copied_files pr ->
  ledger ⊆ load_ledger σ resume_file ->
  ledger ⊆ load_ledger (snd (checkpoint resume_file total pr σ)) resume_file.
Proof.
  intros Hsub Hold. destruct resume_file as [r|]; [|exact Hold].
  unfold checkpoint, save_operation_state.
  destruct (try_write_file_cases r
              (ResumeJson total (elements (copied_files pr)) now) σ) as [->|[σ0 ->]].
  - exact Hold.
  - rewrite load_ledger_written. exact Hsub.
Qed.

(** *** [remaining_files] *)

Lemma remaining_files_extends ledger dest_path preserve selected todo σ :
  extends σ (snd (remaining_files ledger dest_path preserve selected todo σ)).
Proof.
  revert σ. induction todo as [|e todo IH]; intros σ; cbn [remaining_files].
  - apply extends_refl.
  - unfold mbind at 1, io_bind.
    pose proof (get_destination_path_extends (path e) dest_path preserve selected σ) as H1.
    destruct (get_destination_path (path e) dest_path preserve selected σ)
      as [[d|x] σ1]; [|exact H1].
    unfold mbind at 1, io_bind, get_fs. unfold mbind at 1, io_bind.
    specialize (IH σ1).
    destruct (remaining_files ledger dest_path preserve selected todo σ1) as [[rest|x] σ2].
    + simpl in *. destruct (_ && _); simpl; eapply extends_trans; eassumption.
    + simpl in *. eapply extends_trans; eassumption.
Qed.

(** An entry is left out of the work list exactly when its resolved
    destination is in the ledger or exists when the entry is examined. *)
Lemma remaining_files_spec ledger dest_path preserve selected todo σ rem σ' :
  remaining_files ledger dest_path preserve selected todo σ = (Ok rem, σ') ->
  (rem `sublist_of` todo) /\
  (forall e, e ∈ todo -> subfolder_ready σ' (path e) dest_path preserve selected) /\
  (forall e, e ∈ todo ->
     e ∈ rem \/ dest_of dest_path preserve selected e ∈ ledger \/
     exists_ σ' (dest_of dest_path preserve selected e) = true) /\
  (forall e, e ∈ rem ->
     (dest_of dest_path preserve selected e ∉ ledger) /\
     exists_ σ (dest_of dest_path preserve selected e) = false).
Proof.
  revert σ rem σ'. induction todo as [|e todo IH]; intros σ rem σ'; cbn [remaining_files].
  - intros [= <- <-]. split; [constructor|].
    split; [|split]; intros e0 He; inversion He.
  - unfold mbind at 1, io_bind.
    pose proof (get_destination_path_extends (path e) dest_path preserve selected σ) as H1.
    destruct (get_destination_path (path e) dest_path preserve selected σ)
      as [[d|x] σ1] eqn:Hg; [|discriminate].
    apply get_destination_path_ok in Hg as [-> Hready]. simpl in H1.
    unfold mbind at 1, io_bind, get_fs. unfold mbind at 1, io_bind.
    pose proof (remaining_files_extends ledger dest_path preserve selected todo σ1) as H2.
    destruct (remaining_files ledger dest_path preserve selected todo σ1)
      as [[rest|x] σ2] eqn:Hrec; [|discriminate].
    simpl in H2. destruct (IH _ _ _ Hrec) as (Hsub & Hsubf & Hall & Hrem).
    assert (Hrem' : forall e', e' ∈ rest ->
              (dest_of dest_path preserve selected e' ∉ ledger) /\
              exists_ σ (dest_of dest_path preserve selected e') = false).
    { intros e' He'. destruct (Hrem e' He') as [Hl Hx]. split; [exact Hl|].
      destruct (exists_ σ _) eqn:Hex; [|reflexivity].
      apply (extends_exists _ _ _ H1) in Hex. congruence. }
    destruct (bool_decide (dest_of dest_path preserve selected e ∈ ledger)) eqn:Hled;
      [|destruct (exists_ σ1 (dest_of dest_path preserve selected e)) eqn:Hex];
      simpl; intros [= <- <-].
    + apply bool_decide_eq_true in Hled.
      split; [apply sublist_cons, Hsub|]. split; [|split].
      * intros e' [->|He']%elem_of_cons; [|auto].
        eapply subfolder_ready_extends; eassumption.
      * intros e' [->|He']%elem_of_cons; [auto|apply Hall, He'].
      * exact Hrem'.
    + split; [apply sublist_cons, Hsub|]. split; [|split].
      * intros e' [->|He']%elem_of_cons; [|auto].
        eapply subfolder_ready_extends; eassumption.
      * intros e' [->|He']%elem_of_cons; [|apply Hall, He'].
        right. right. eapply extends_exists; eassumption.
      * exact Hrem'.
    + apply bool_decide_eq_false in Hled.
      split; [apply sublist_skip, Hsub|]. split; [|split].
      * intros e' [->|He']%elem_of_cons; [|auto].
        eapply subfolder_ready_extends; eassumption.
      * intros e' [->|He']%elem_of_cons; [left; left|].
        destruct (Hall e' He') as [?|?]; [left; right; assumption|auto].
      * intros e' [->|He']%elem_of_cons; [|apply Hrem', He'].
        split; [exact Hled|].
        destruct (exists_ σ _) eqn:Hex'; [|reflexivity].
        apply (extends_exists _ _ _ H1) in Hex'. congruence.
Qed.

(** With every destination accounted for, the work list is empty and
    building it changes nothing. *)
Lemma remaining_files_done ledger dest_path preserve selected todo σ :
  (forall e, e ∈ todo ->
     subfolder_ready σ (path e) dest_path preserve selected /\
     (dest_of dest_path preserve selected e ∈ ledger \/
      exists_ σ (dest_of dest_path preserve selected e) = true)) ->
  remaining_files ledger dest_path preserve selected todo σ = (Ok [], σ).
Proof.
  induction todo as [|e todo IH]; intros Hall; cbn [remaining_files]; [reflexivity|].
  destruct (Hall e ltac:(left)) as [Hready Hdone].
  rewrite (io_bind_ok _ _ _ _ _ (get_destination_path_id _ _ _ _ _ Hready)).
  unfold mbind at 1, io_bind, get_fs.
  rewrite (io_bind_ok _ _ _ _ _ (IH ltac:(intros e' He'; apply Hall; right; exact He'))).
  destruct Hdone as [Hl|Hx].
  - rewrite (bool_decide_eq_true_2 _ Hl). reflexivity.
  - rewrite Hx, andb_false_r. reflexivity.
Qed.

End WorkListFacts.

(** *** The loop over the futures *)

Section CopyLoopFacts.

Context {rng : Type} `{!Environment rng}.

Lemma copy_single_file_extends file_path dest_path preserve selected σ r σ' :
  copy_single_file file_path dest_path preserve selected σ = (r, σ') ->
  extends σ σ' /\ exists o, r = Ok o.
Proof.
  unfold copy_single_file, try_except. unfold mbind at 1, io_bind.
  pose proof (get_destination_path_extends file_path dest_path preserve selected σ) as He1.
  destruct (get_destination_path file_path dest_path preserve selected σ)
    as [[d0|e] σ1]; simpl in He1;
    [|intros [= <- <-]; split; [exact He1|eexists; reflexivity]].
  unfold mbind at 1, io_bind, mkdir_parents.
  pose proof (makedirs_extends [] (Path.parent d0) σ1) as He2.
  destruct (makedirs [] (Path.parent d0) σ1) as [[[]|e] σm]; simpl in He2;
    [|intros [= <- <-]; split; [eapply extends_trans; eassumption|eexists; reflexivity]].
  unfold mbind at 1, io_bind, get_fs.
  destruct (resolve_conflict σm d0) as [d1|] eqn:Hr;
    [|intros [= <- <-]; split; [eapply extends_trans; eassumption|eexists; reflexivity]].
  unfold mbind at 1, io_bind.
  destruct (copy2_fresh file_path d1 σm (resolve_conflict_free _ _ _ Hr)) as [He3 _].
  destruct (copy2 file_path d1 σm) as [[[]|e] σ2]; simpl in He3;
    intros [= <- <-];
    (split; [eapply extends_trans; [eapply extends_trans|]; eassumption
            |eexists; reflexivity]).
Qed.

(** Errors are only added. *)
Lemma copy_loop_errors dest_path preserve resume_file selected n :
  forall futures i pr σ pr' σ',
    copy_loop dest_path preserve resume_file selected n i pr futures σ = (Ok pr', σ') ->
    errors pr `prefix_of` errors pr'.
Proof.
  induction futures as [|e futures IH]; intros i pr σ pr' σ'; cbn [copy_loop].
  - intros [= <- <-]. reflexivity.
  - unfold mbind at 1, io_bind.
    destruct (copy_single_file (path e) dest_path preserve selected σ) as [r σ1] eqn:Hc.
    destruct (copy_single_file_extends _ _ _ _ _ _ _ Hc) as [_ [o ->]].
    unfold mbind at 1, io_bind.
    match goal with |- context [(if ?b then ?m else _) σ1] =>
      destruct ((if b then m else mret tt) σ1) as [[[]|x] σ2]; [|discriminate] end.
    intros Hloop. apply IH in Hloop. destruct o; simpl in Hloop; [exact Hloop|].
    etransitivity; [|exact Hloop]. apply prefix_app_r. reflexivity.
Qed.

(** A run of the loop that ends without an error on record: what was in
    the file system is kept, the ledger on disk still covers [ledger], and
    the resolved destination of every future exists. *)
Lemma copy_loop_complete (ledger : gset Path.t) dest_path preserve resume_file selected n :
  forall futures i pr σ pr' σ',
    copy_loop dest_path preserve resume_file selected n i pr futures σ = (Ok pr', σ') ->
    errors pr' = [] ->
    ledger ⊆ copied_files pr ->
    ledger ⊆ load_ledger σ resume_file ->
    persists σ σ' /\
    ledger ⊆ load_ledger σ' resume_file /\
    forall e, e ∈ futures ->
      exists_ σ' (destination_of (path e) dest_path preserve selected) = true.
Proof.
  induction futures as [|e futures IH]; intros i pr σ pr' σ'; cbn [copy_loop].
  - intros [= <- <-] _ _ Hled. split; [apply persists_refl|]. split; [exact Hled|].
    intros e He. inversion He.
  - intros Hloop Herr Hsub Hled.
    unfold mbind at 1, io_bind in Hloop.
    destruct (copy_single_file (path e) dest_path preserve selected σ) as [r σ1] eqn:Hc.
    destruct (copy_single_file_extends _ _ _ _ _ _ _ Hc) as [Hext [o ->]].
    set (pr1 := match o with
                | Some dest_file =>
                    Progress ({[dest_file]} ∪ copied_files pr) (S (copied_count pr)) (errors pr)
                | None =>
                    Progress (copied_files pr) (copied_count pr) (errors pr ++ [path e])
                end) in *.
    set (save := if bool_decide (i mod 10 = 0)%nat || bool_decide (i = n)
                 then checkpoint resume_file (length selected) pr1
                 else mret tt) in *.
    assert (Hsub1 : ledger ⊆ copied_files pr1).
    { subst pr1. destruct o; simpl; [|exact Hsub].
      transitivity (copied_files pr); [exact Hsub|apply union_subseteq_r]. }
    assert (Hsave : fst (save σ1) = Ok tt /\ persists σ1 (snd (save σ1)) /\
                    ledger ⊆ load_ledger (snd (save σ1)) resume_file).
    { pose proof (load_ledger_extends σ σ1 resume_file Hext) as Hmono.
      subst save. destruct (_ || _).
      - split; [apply checkpoint_ok|]. split; [apply checkpoint_persists|].
        apply checkpoint_ledger; [exact Hsub1|].
        transitivity (load_ledger σ resume_file); assumption.
      - split; [reflexivity|]. split; [apply persists_refl|].
        simpl. transitivity (load_ledger σ resume_file); assumption. }
    destruct Hsave as (Hok & Hpers & Hled2).
    unfold mbind at 1, io_bind in Hloop.
    destruct (save σ1) as [r2 σ2]. simpl in Hok, Hpers, Hled2. subst r2.
    destruct (IH _ _ _ _ _ Hloop Herr Hsub1 Hled2) as (Hpers' & Hled' & Hall).
    assert (Hkeep : persists σ1 σ').
    { eapply persists_trans; eassumption. }
    split; [eapply persists_trans; [apply extends_persists, Hext|exact Hkeep]|].
    split; [exact Hled'|].
    intros e' [->|He']%elem_of_cons; [|apply Hall, He'].
    destruct o as [d|].
    + destruct (copy_single_file_spec _ _ _ _ _ _ _ Hc)
        as (σm & _ & _ & Hext2 & _ & Hr & _ & f & _ & Hd).
      apply (persists_exists σ1 σ' _ Hkeep).
      destruct (resolve_conflict_first _ _ _ Hr) as [[-> _]|[Hex _]].
      * apply exists_lookup. rewrite Hd. eauto.
      * eapply extends_exists; eassumption.
    + exfalso. apply copy_loop_errors in Hloop. subst pr1. simpl in Hloop.
      rewrite Herr in Hloop. apply prefix_nil_inv in Hloop.
      destruct (errors pr); discriminate Hloop.
Qed.

End CopyLoopFacts.

(** *** Copies of files that exist do not fail *)

Section NoErrorFacts.

Context {rng : Type} `{!Environment rng}.

Lemma copy_ready_persists σ σ' dest_path preserve selected e :
  persists σ σ' ->
  copy_ready σ dest_path preserve selected e ->
  copy_ready σ' dest_path preserve selected e.
Proof.
  intros Hp (Hf & Hs & Hd & Hdir).
  split; [apply Hp, Hf|]. split; [eapply subfolder_ready_persists; eassumption|].
  split; [eapply dirs_ready_persists; eassumption|apply Hp, Hdir].
Qed.

Lemma copy_loop_no_errors dest_path preserve resume_file selected n :
  forall futures i pr σ,
    (forall e, e ∈ futures -> copy_ready σ dest_path preserve selected e) ->
    exists pr' σ',
      copy_loop dest_path preserve resume_file selected n i pr futures σ = (Ok pr', σ') /\
      errors pr' = errors pr.
Proof.
  induction futures as [|e futures IH]; intros i pr σ Hready; cbn [copy_loop].
  - exists pr, σ. split; reflexivity.
  - destruct (Hready e ltac:(left)) as (Hf & Hs & Hd & Hdir).
    apply is_file_lookup in Hf as [f Hf].
    destruct (copy_single_file_returns (path e) dest_path preserve selected σ f
                Hf Hs Hd Hdir) as (d & σ1 & Hc & _ & _).
    rewrite (io_bind_ok _ _ _ _ _ Hc).
    destruct (copy_single_file_extends _ _ _ _ _ _ _ Hc) as [Hext _].
    set (pr1 := Progress ({[d]} ∪ copied_files pr) (S (copied_count pr)) (errors pr)).
    set (save := if bool_decide (i mod 10 = 0)%nat || bool_decide (i = n)
                 then checkpoint resume_file (length selected) pr1
                 else mret tt).
    assert (Hsave : fst (save σ1) = Ok tt /\ persists σ1 (snd (save σ1))).
    { subst save. destruct (_ || _).
      - split; [apply checkpoint_ok|apply checkpoint_persists].
      - split; [reflexivity|apply persists_refl]. }
    destruct Hsave as [Hok Hpers]. destruct (save σ1) as [r2 σ2] eqn:Hs2.
    simpl in Hok, Hpers. subst r2. rewrite (io_bind_ok _ _ _ _ _ Hs2).
    destruct (IH (S i) pr1 σ2) as (pr' & σ' & Hloop & Herr).
    { intros e' He'. eapply copy_ready_persists; [|apply Hready; right; exact He'].
      eapply persists_trans; [apply extends_persists, Hext|exact Hpers]. }
    exists pr', σ'. split; [exact Hloop|exact Herr].
Qed.

Lemma dirs_ready_snoc σ base rest c :
  dirs_ready σ base rest -> is_dir σ (base ++ rest ++ [c]) = true ->
  dirs_ready σ base (rest ++ [c]).
Proof.
  revert base. induction rest as [|c' rest IH]; intros base; simpl.
  - intros _ Hd. split; [exact Hd|exact I].
  - intros [Hd Hr] Hlast. split; [exact Hd|]. apply IH; [exact Hr|].
    rewrite <- app_assoc. exact Hlast.
Qed.

Lemma dest_subfolder_snoc file_path dest_path preserve selected sub :
  dest_subfolder file_path dest_path preserve selected = Some sub ->
  exists c, sub = dest_path ++ [c].
Proof.
  unfold dest_subfolder. destruct preserve; [|discriminate].
  destruct (List.find _ selected) as [f|]; [|discriminate].
  case_bool_decide as Hname; [discriminate|].
  intros [= <-]. eexists. apply join_snoc, Hname.
Qed.

(** After the destination is made and the work list is built, every entry
    whose source is a file is ready to be copied. *)
Lemma copy_ready_intro σ dest_path preserve selected e :
  is_dir σ [] = true ->
  dirs_ready σ [] dest_path ->
  is_file σ (path e) = true ->
  Path.name (path e) <> "" ->
  subfolder_ready σ (path e) dest_path preserve selected ->
  copy_ready σ dest_path preserve selected e.
Proof.
  intros Hroot Hdirs Hf Hname Hsub.
  split; [exact Hf|]. split; [exact Hsub|].
  unfold destination_of. unfold subfolder_ready in Hsub.
  destruct (dest_subfolder (path e) dest_path preserve selected) as [sub|] eqn:Hds.
  - rewrite parent_join by exact Hname.
    destruct (dest_subfolder_snoc _ _ _ _ _ Hds) as [c ->].
    split; [|exact Hsub]. apply dirs_ready_snoc; [exact Hdirs|exact Hsub].
  - rewrite parent_join by exact Hname. split; [exact Hdirs|].
    destruct dest_path as [|c dest_path]; [exact Hroot|].
    apply (dirs_ready_last σ [] (c :: dest_path) Hdirs). discriminate.
Qed.

End NoErrorFacts.

(** ** Running the copy twice *)

Section ResumeFacts.

Context {rng : Type} `{!Environment rng} `{!EnvironmentLaws rng}.

(** The state a run without errors leaves behind: the destination and
    every subfolder are there, and every resolved destination is in the
    ledger on disk or exists. *)
Lemma copy_files_parallel_complete selected dest_path preserve resume_file σ n σ1 :
  copy_files_parallel selected dest_path preserve resume_file σ = (Ok (n, []), σ1) ->
  dirs_ready σ1 [] dest_path /\
  forall e, e ∈ selected ->
    subfolder_ready σ1 (path e) dest_path preserve selected /\
    (destination_of (path e) dest_path preserve selected ∈ load_ledger σ1 resume_file \/
     exists_ σ1 (destination_of (path e) dest_path preserve selected) = true).
Proof.
  unfold copy_files_parallel. unfold mbind at 1, io_bind, mkdir_parents.
  destruct (makedirs [] dest_path σ) as [[[]|x] σa] eqn:Hmk; [|discriminate].
  apply makedirs_ok_ready in Hmk.
  unfold mbind at 1, io_bind, get_fs. unfold mbind at 1, io_bind.
  set (ledger := load_ledger σa resume_file).
  pose proof (remaining_files_extends ledger dest_path preserve selected selected σa) as Hext.
  destruct (remaining_files ledger dest_path preserve selected selected σa)
    as [[todo|x] σb] eqn:Hrem; [|discriminate].
  simpl in Hext. destruct (remaining_files_spec _ _ _ _ _ _ _ _ Hrem) as (_ & Hsub & Hall & _).
  pose proof (load_ledger_extends σa σb resume_file Hext) as Hled. fold ledger in Hled.
  destruct todo as [|t todo].
  - intros [= <- <-]. split; [eapply dirs_ready_extends; eassumption|].
    intros e He. split; [apply Hsub, He|].
    destruct (Hall e He) as [Hin|[Hin|Hex]]; [inversion Hin|left; apply Hled, Hin|right; exact Hex].
  - unfold mbind at 1, io_bind.
    destruct (copy_loop dest_path preserve resume_file selected (length (t :: todo)) 1
                (Progress ledger (base.size ledger) []) (as_completed (t :: todo)) σb)
      as [[pr|x] σ'] eqn:Hloop; [|discriminate].
    intros [= <- Herr <-].
    destruct (copy_loop_complete ledger _ _ _ _ _ _ _ _ _ _ _ Hloop Herr
                ltac:(reflexivity) Hled) as (Hpers & Hled' & Hdone).
    split.
    { eapply dirs_ready_persists; [exact Hpers|].
      eapply dirs_ready_extends; eassumption. }
    intros e He. split; [eapply subfolder_ready_persists; [exact Hpers|apply Hsub, He]|].
    destruct (Hall e He) as [Hin|[Hin|Hex]].
    + right. apply Hdone. rewrite (as_completed_perm _ (t :: todo)). exact Hin.
    + left. apply Hled', Hin.
    + right. eapply persists_exists; eassumption.
Qed.

(** A run whose sources are files records no error. *)
Lemma copy_files_parallel_no_errors selected dest_path preserve resume_file σ n errs σ1 :
  is_dir σ [] = true ->
  (forall e, e ∈ selected -> is_file σ (path e) = true /\ Path.name (path e) <> "") ->
  copy_files_parallel selected dest_path preserve resume_file σ = (Ok (n, errs), σ1) ->
  errs = [].
Proof.
  intros Hroot Hsrc. unfold copy_files_parallel. unfold mbind at 1, io_bind, mkdir_parents.
  pose proof (makedirs_extends [] dest_path σ) as Hext0.
  destruct (makedirs [] dest_path σ) as [[[]|x] σa] eqn:Hmk; [|discriminate].
  apply makedirs_ok_ready in Hmk. simpl in Hext0.
  unfold mbind at 1, io_bind, get_fs. unfold mbind at 1, io_bind.
  set (ledger := load_ledger σa resume_file).
  pose proof (remaining_files_extends ledger dest_path preserve selected selected σa) as Hext.
  destruct (remaining_files ledger dest_path preserve selected selected σa)
    as [[todo|x] σb] eqn:Hrem; [|discriminate].
  simpl in Hext. destruct (remaining_files_spec _ _ _ _ _ _ _ _ Hrem) as (Hsl & Hsub & _ & _).
  destruct todo as [|t todo]; [intros [= _ <- _]; reflexivity|].
  assert (Hready : forall e, e ∈ as_completed (t :: todo) ->
                     copy_ready σb dest_path preserve selected e).
  { intros e He. rewrite (as_completed_perm _ (t :: todo)) in He.
    assert (Hsel : e ∈ selected) by (eapply elem_of_sublist; eassumption).
    destruct (Hsrc e Hsel) as [Hf Hname].
    pose proof (extends_trans _ _ _ Hext0 Hext) as Hx.
    apply copy_ready_intro.
    - apply (extends_is_dir σ σb _ Hx Hroot).
    - apply (dirs_ready_extends σa σb _ _ Hext Hmk).
    - apply (extends_is_file σ σb _ Hx Hf).
    - exact Hname.
    - apply Hsub, Hsel. }
  destruct (copy_loop_no_errors dest_path preserve resume_file selected (length (t :: todo))
              (as_completed (t :: todo)) 1 (Progress ledger (base.size ledger) []) σb Hready)
    as (pr & σ' & Hloop & Herr).
  rewrite (io_bind_ok _ _ _ _ _ Hloop). intros [= _ <- _]. exact Herr.
Qed.

End ResumeFacts.

(** C4. After a run of the copy that reported no error, a second run with
    the same entries, destination and resume file copies nothing and
    leaves the file system as it is: its work list is empty, because every
    resolved destination is in the ledger it loads or exists on disk. In
    any run, an entry gets into the work list only if its resolved
    destination is neither in the ledger nor on disk. (A run over entries
    whose files exist reports no error: [copy_files_parallel_no_errors].) *)
Theorem copy_twice_copies_nothing
    (rng : Type) (E : Environment rng) (L : EnvironmentLaws rng)
    (selected : list entry) (dest_path : Path.t) (preserve : bool)
    (resume_file : option Path.t) (σ σ1 : fs) (n : nat) :
  copy_files_parallel selected dest_path preserve resume_file σ = (Ok (n, []), σ1) ->
  copy_files_parallel selected dest_path preserve resume_file σ1
  = (Ok (length selected, []), σ1) /\
  remaining_files (load_ledger σ1 resume_file) dest_path preserve selected selected σ1
  = (Ok [], σ1) /\
  (forall ledger todo σa rem σb,
     remaining_files ledger dest_path preserve selected todo σa = (Ok rem, σb) ->
     forall e, e ∈ rem ->
       (destination_of (path e) dest_path preserve selected ∉ ledger) /\
       exists_ σa (destination_of (path e) dest_path preserve selected) = false).
Proof.
  intros Hrun.
  destruct (copy_files_parallel_complete _ _ _ _ _ _ _ Hrun) as [Hdirs Hall].
  assert (Hnone : remaining_files (load_ledger σ1 resume_file) dest_path preserve
                    selected selected σ1 = (Ok [], σ1)).
  { apply remaining_files_done. exact Hall. }
  split; [|split; [exact Hnone|]].
  - unfold copy_files_parallel, mkdir_parents.
    rewrite (io_bind_ok _ _ _ _ _ (makedirs_ready_id _ _ _ Hdirs)).
    unfold mbind at 1, io_bind, get_fs.
    rewrite (io_bind_ok _ _ _ _ _ Hnone). reflexivity.
  - intros ledger todo σa rem σb Hrem.
    apply (remaining_files_spec _ _ _ _ _ _ _ _ Hrem).
Qed.

Lemma copy_twice_copies_nothing_witness :
  copy_files_parallel (Environment0 := Examples.env) ResumeExample.selected ["dst"] false
    ResumeExample.resume (snd ResumeExample.first_run)
  = (Ok (2%nat, []), snd ResumeExample.first_run).
Proof.
  apply (copy_twice_copies_nothing unit Examples.env Examples.env_laws
           ResumeExample.selected ["dst"] false ResumeExample.resume
           ResumeExample.σ0 (snd ResumeExample.first_run) 2).
  vm_compute. reflexivity.
Defined.


(** When the root is listed and every selected entry is a file with a
    name, as after a scan, a first run that returns has recorded no error,
    and the second run copies nothing. *)
Lemma copy_twice_existing_sources
    (rng : Type) (E : Environment rng) (L : EnvironmentLaws rng)
    (selected : list entry) (dest_path : Path.t) (preserve : bool)
    (resume_file : option Path.t) (σ σ1 : fs) (n : nat) (errs : list Path.t) :
  is_dir σ [] = true ->
  (forall e, e ∈ selected -> is_file σ (path e) = true /\ Path.name (path e) <> "") ->
  copy_files_parallel selected dest_path preserve resume_file σ = (Ok (n, errs), σ1) ->
  errs = [] /\
  copy_files_parallel selected dest_path preserve resume_file σ1
  = (Ok (length selected, []), σ1).
Proof.
  intros Hroot Hsrc Hrun.
  pose proof (copy_files_parallel_no_errors _ _ _ _ _ _ _ _ Hroot Hsrc Hrun) as ->.
  split; [reflexivity|].
  destruct (copy_files_parallel_complete _ _ _ _ _ _ _ Hrun) as [Hdirs Hall].
  unfold copy_files_parallel, mkdir_parents.
  rewrite (io_bind_ok _ _ _ _ _ (makedirs_ready_id _ _ _ Hdirs)).
  unfold mbind at 1, io_bind, get_fs.
  rewrite (io_bind_ok _ _ _ _ _ (remaining_files_done _ _ _ _ _ _ Hall)). reflexivity.
Qed.
(** ** The pool of [copy_files_parallel] *)

Section PoolFileSystem.

Context {rng : Type} `{!Environment rng}.

(** *** Files that are kept *)

Lemma keeps_files_refl except σ : keeps_files except σ σ.
Proof. intros p f _ H. exact H. Qed.

Lemma keeps_files_trans except σ1 σ2 σ3 :
  keeps_files except σ1 σ2 -> keeps_files except σ2 σ3 -> keeps_files except σ1 σ3.
Proof. intros H12 H23 p f Hne Hp. apply H23, H12; assumption. Qed.

Lemma extends_keeps_files except σ σ' : extends σ σ' -> keeps_files except σ σ'.
Proof. intros Hext p f _ Hp. specialize (Hext p). rewrite Hp in Hext. exact Hext. Qed.

(** A checkpoint rewrites the resume file and nothing else. *)
Lemma checkpoint_keeps_files resume_file total pr σ :
  keeps_files resume_file σ (snd (checkpoint resume_file total pr σ)).
Proof.
  unfold checkpoint. destruct resume_file as [r|]; [|apply keeps_files_refl].
  unfold save_operation_state. intros p f Hne Hp.
  destruct (try_write_file_wrote r (ResumeJson total (elements (copied_files pr)) now) σ p)
    as [Heq|[[-> _]|(_ & Hd & _)]].
  - rewrite Heq. exact Hp.
  - congruence.
  - unfold is_dir in Hd. rewrite Hp in Hd. discriminate.
Qed.

Lemma List_filter_none {A : Type} (P : A -> bool) (l : list A) :
  (forall x, x ∈ l -> P x = false) -> List.filter P l = [].
Proof.
  induction l as [|x l IH]; intros Hall; simpl; [reflexivity|].
  rewrite (Hall x) by left. apply IH. intros y Hy. apply Hall. right. exact Hy.
Qed.

(** *** How the file system grows *)

Lemma touch_parent_size (p : Path.t) (σ : fs) : base.size (touch_parent p σ) = base.size σ.
Proof.
  unfold touch_parent. destruct (σ !! Path.parent p) as [[m|f]|] eqn:Hp; try reflexivity.
  apply map_size_insert_Some. rewrite Hp. eauto.
Qed.

Lemma create_size (p : Path.t) (n : node) (σ : fs) : (base.size (create p n σ) <= S (base.size σ))%nat.
Proof.
  unfold create. rewrite map_size_insert.
  destruct (touch_parent p σ !! p); rewrite touch_parent_size; unfold id; lia.
Qed.

Lemma makedirs_size (rest : list string) :
  forall (base : Path.t) (σ : fs), (base.size (snd (makedirs base rest σ)) <= base.size σ + length rest)%nat.
Proof.
  induction rest as [|c rest IH]; intros base σ; cbn [makedirs]; [simpl; lia|].
  destruct (σ !! (base ++ [c])) as [[m|f]|].
  - specialize (IH (base ++ [c]) σ). simpl. lia.
  - simpl. lia.
  - specialize (IH (base ++ [c]) (create (base ++ [c]) (Dir now) σ)).
    pose proof (create_size (base ++ [c]) (Dir now) σ). simpl. lia.
Qed.

Lemma mkdir_exist_ok_size (p : Path.t) (σ : fs) :
  (base.size (snd (mkdir_exist_ok p σ)) <= S (base.size σ))%nat.
Proof.
  unfold mkdir_exist_ok. destruct (σ !! p) as [[m|f]|]; simpl; try lia.
  destruct (is_dir σ (Path.parent p)); simpl; [apply create_size|lia].
Qed.

Lemma get_destination_path_size (file_path dest_path : Path.t) (preserve : bool)
    (selected : list entry) (σ : fs) :
  (base.size (snd (get_destination_path file_path dest_path preserve selected σ))
   <= S (base.size σ))%nat.
Proof.
  unfold get_destination_path. destruct (dest_subfolder _ _ _ _) as [sub|]; [|simpl; lia].
  unfold mbind, io_bind. pose proof (mkdir_exist_ok_size sub σ) as Hs.
  destruct (mkdir_exist_ok sub σ) as [[[]|e] σ']; exact Hs.
Qed.

(** [shutil.copy2] writes one file, at [dst] or, when [dst] is a
    directory, below it; everything else stays. *)
Lemma copy2_effect (src dst : Path.t) (σ : fs) :
  let target := if is_dir σ dst then Path.join dst (Path.name src) else dst in
  persists σ (snd (copy2 src dst σ)) /\
  (forall q f, q <> target -> σ !! q = Some (File f) ->
               snd (copy2 src dst σ) !! q = Some (File f)) /\
  (base.size (snd (copy2 src dst σ)) <= S (base.size σ))%nat /\
  (forall σ', copy2 src dst σ = (Ok tt, σ') -> exists_ σ' dst = true).
Proof.
  intros target. unfold copy2.
  assert (Hsame : persists σ σ /\
                  (forall q f, q <> target -> σ !! q = Some (File f) ->
                               σ !! q = Some (File f)) /\
                  (base.size σ <= S (base.size σ))%nat)
    by (split; [apply persists_refl|split; [auto|lia]]).
  destruct (σ !! src) as [[m|f]|] eqn:Hsrc; cbn [snd];
    try (destruct Hsame as (? & ? & ?); repeat split; auto; discriminate).
  fold target.
  destruct (bool_decide (target = src));
    [destruct Hsame as (? & ? & ?); repeat split; auto; discriminate|].
  destruct (σ !! target) as [[m|g]|] eqn:Ht; cbn [snd].
  - destruct Hsame as (? & ? & ?); repeat split; auto; discriminate.
  - split; [|split; [|split]].
    + intros q. unfold is_dir, is_file. destruct (decide (q = target)) as [->|Hne].
      * rewrite lookup_insert_eq, Ht. auto.
      * rewrite lookup_insert_ne by congruence. auto.
    + intros q f' Hne Hq. rewrite lookup_insert_ne by congruence. exact Hq.
    + rewrite map_size_insert_Some by (rewrite Ht; eauto). lia.
    + intros σ' [= <-]. apply exists_lookup. subst target.
      destruct (is_dir σ dst) eqn:Hd.
      * apply is_dir_lookup in Hd as [m Hm].
        rewrite lookup_insert_ne by (intros Heq; rewrite Heq in Ht; congruence).
        rewrite Hm. eauto.
      * rewrite lookup_insert_eq. eauto.
  - destruct (is_dir σ (Path.parent target)); cbn [snd];
      [|destruct Hsame as (? & ? & ?); repeat split; auto; discriminate].
    pose proof (create_extends target (File (FileNode (st_size f) now (st_mtime f) (data f)))
                  σ Ht) as Hext.
    split; [apply extends_persists, Hext|]. split; [|split].
    + intros q f' _ Hq. specialize (Hext q). rewrite Hq in Hext. exact Hext.
    + apply create_size.
    + intros σ' [= <-]. subst target. destruct (is_dir σ dst) eqn:Hd.
      * apply exists_cases. left. eapply extends_is_dir; eassumption.
      * apply exists_lookup. rewrite create_lookup. eauto.
Qed.

(** A checkpoint adds the resume file at most. *)
Lemma checkpoint_size (r : Path.t) (total : nat) (pr : progress) (σ : fs) :
  let σ' := snd (checkpoint (Some r) total pr σ) in
  (base.size σ' + (if exists_ σ' r then 0 else 1)
   <= base.size σ + (if exists_ σ r then 0 else 1))%nat.
Proof.
  unfold checkpoint, save_operation_state, try_except, write_file. cbv zeta.
  set (doc := File _).
  destruct (σ !! r) as [[m|f]|] eqn:Hr.
  - unfold mret, io_ret. cbn [snd]. lia.
  - cbn [snd].
    assert (He : exists_ σ r = true) by (apply exists_lookup; rewrite Hr; eauto).
    rewrite He, map_size_insert_Some by (rewrite Hr; eauto).
    assert (He' : exists_ (<[r := doc]> σ) r = true)
      by (apply exists_lookup; rewrite lookup_insert_eq; eauto).
    rewrite He'. unfold id. lia.
  - assert (He : exists_ σ r = false) by (apply not_exists_lookup; exact Hr).
    destruct (is_dir σ (Path.parent r)); [cbn [snd]|unfold mret, io_ret; cbn [snd]; lia].
    rewrite He.
    assert (He' : exists_ (create r doc σ) r = true)
      by (apply exists_lookup; rewrite create_lookup; eauto).
    rewrite He'. pose proof (create_size r doc σ). lia.
Qed.

End PoolFileSystem.
Section PoolSteps.

Context {rng : Type} `{!Environment rng}.

Variables (dest_path : Path.t) (preserve_structure : bool)
          (resume_file : option Path.t) (selected_files : list entry)
          (max_workers : nat).

Local Abbreviation dest_of_path file_path :=
  (destination_of file_path dest_path preserve_structure selected_files).
Local Abbreviation step := (worker_step dest_path preserve_structure selected_files).
Local Abbreviation exec := (pool_exec dest_path preserve_structure resume_file selected_files
                            max_workers).
Local Abbreviation run := (pool_run dest_path preserve_structure resume_file selected_files
                          max_workers).
Local Abbreviation ok := (pool_ok dest_path preserve_structure resume_file selected_files).
Local Abbreviation bound := (pool_bound dest_path preserve_structure resume_file selected_files).
Local Abbreviation weight := (pool_weight dest_path preserve_structure resume_file selected_files).
Local Abbreviation collect := (collect_result resume_file selected_files).

(** *** Sums over the futures *)

Lemma sum_list_with_insert {A : Type} (f : A -> nat) (l : list A) (k : nat) (x y : A) :
  l !! k = Some x ->
  (sum_list_with f (<[k := y]> l) + f x = sum_list_with f l + f y)%nat.
Proof.
  revert k. induction l as [|a l IH]; intros [|k]; simpl; try discriminate.
  - intros [= ->]. lia.
  - intros Hk. specialize (IH k Hk). lia.
Qed.

Lemma sum_list_with_le {A : Type} (f g : A -> nat) (l : list A) :
  (forall x, f x <= g x)%nat -> (sum_list_with f l <= sum_list_with g l)%nat.
Proof.
  intros Hle. induction l as [|a l IH]; simpl; [lia|]. specialize (Hle a). lia.
Qed.

(** *** The names the loop tries *)

Lemma candidate_succ (dest : Path.t) (c : nat) :
  (1 <= c)%nat -> candidate dest c = numbered dest c.
Proof. destruct c; [lia|reflexivity]. Qed.

(** The numbered names are pairwise distinct, so only as many of them
    are in use as the file system holds paths. *)
Lemma numbered_in_use (σ : fs) (dest : Path.t) (c : nat) :
  (forall i, (1 <= i < c)%nat -> exists_ σ (numbered dest i) = true) ->
  (c <= S (base.size σ))%nat.
Proof.
  intros Hall.
  set (names := numbered dest <$> seq 1 (c - 1)).
  assert (Hnd : NoDup names).
  { apply (NoDup_fmap_2 _ (Inj0 := numbered_inj dest)). apply NoDup_seq. }
  assert (Hsub : (list_to_set names : gset Path.t) ⊆ dom σ).
  { intros p Hp. apply elem_of_list_to_set in Hp.
    apply list_elem_of_fmap in Hp as (i & -> & Hi). apply elem_of_seq in Hi.
    apply elem_of_dom. apply exists_lookup. apply Hall. lia. }
  apply subseteq_size in Hsub. rewrite size_list_to_set in Hsub by exact Hnd.
  rewrite size_dom in Hsub. subst names. rewrite length_fmap, length_seq in Hsub. lia.
Qed.

Lemma first_unused_persists (σ0 σ σ' : fs) (dest d : Path.t) :
  persists σ σ' -> first_unused σ0 σ dest d -> first_unused σ0 σ' dest d.
Proof.
  intros Hp (j & Hd & Hall & Hnew). exists j. split; [exact Hd|]. split; [|exact Hnew].
  intros i Hi. eapply persists_exists; [exact Hp|]. apply Hall, Hi.
Qed.

Lemma task_ok_persists (σ0 σ σ' : fs) (dest : Path.t) (t : task) :
  persists σ σ' -> task_ok σ0 σ dest t -> task_ok σ0 σ' dest t.
Proof.
  intros Hp. destruct t as [|d|orig c d|d|[d|]|[d|]]; cbn [task_ok]; auto.
  - intros (Ho & Hc & Hd & Hall). repeat split; auto.
    intros i Hi. eapply persists_exists; [exact Hp|]. apply Hall, Hi.
  - apply first_unused_persists, Hp.
  - intros [Hf He]. split; [eapply first_unused_persists; eassumption|].
    eapply persists_exists; eassumption.
  - intros [Hf He]. split; [eapply first_unused_persists; eassumption|].
    eapply persists_exists; eassumption.
Qed.

(** *** One step of a worker *)

Lemma settle_state {A : Type} (r : result A * fs) (k : A -> task) :
  (settle r k).2 = r.2.
Proof. destruct r as [[a|e] σ]; reflexivity. Qed.

(** What a step of a worker keeps: what is there stays, the files that
    were there at the start stay as they were, and the task is where its
    steps put it. *)
Lemma worker_step_ok (σ0 σ σ' : fs) (file_path : Path.t) (t t' : task) :
  rooted σ0 ->
  persists σ0 σ ->
  keeps_files resume_file σ0 σ ->
  task_ok σ0 σ (dest_of_path file_path) t ->
  step file_path t σ = Some (t', σ') ->
  persists σ σ' /\
  keeps_files resume_file σ0 σ' /\
  task_ok σ0 σ' (dest_of_path file_path) t'.
Proof.
  intros Hroot Hp0 Hk0 Hok. destruct t as [|d|orig c d|d|r|r]; cbn [worker_step];
    try discriminate.
  - intros [= Hstep].
    pose proof (get_destination_path_extends file_path dest_path preserve_structure
                  selected_files σ) as Hext.
    destruct (get_destination_path file_path dest_path preserve_structure
                selected_files σ) as [[d|e] σ1] eqn:Hg; cbn [settle snd] in *;
      injection Hstep as <- <-.
    + split; [apply extends_persists, Hext|]. split.
      * eapply keeps_files_trans; [exact Hk0|apply extends_keeps_files, Hext].
      * cbn [task_ok]. apply (get_destination_path_ok _ _ _ _ _ _ _ Hg).
    + split; [apply extends_persists, Hext|]. split; [|exact I].
      eapply keeps_files_trans; [exact Hk0|apply extends_keeps_files, Hext].
  - intros [= Hstep]. cbn [task_ok] in Hok. subst d.
    pose proof (makedirs_extends [] (Path.parent (dest_of_path file_path)) σ) as Hext.
    unfold mkdir_parents in Hstep.
    destruct (makedirs [] (Path.parent (dest_of_path file_path)) σ) as [[[]|e] σ1];
      cbn [settle snd] in *; injection Hstep as <- <-.
    + split; [apply extends_persists, Hext|]. split.
      * eapply keeps_files_trans; [exact Hk0|apply extends_keeps_files, Hext].
      * cbn [task_ok]. repeat split; auto. intros i Hi. lia.
    + split; [apply extends_persists, Hext|]. split; [|exact I].
      eapply keeps_files_trans; [exact Hk0|apply extends_keeps_files, Hext].
  - cbn [task_ok] in Hok. destruct Hok as (-> & Hc & -> & Hall).
    destruct (exists_ σ (candidate (dest_of_path file_path) (c - 1))) eqn:He;
      intros [= <- <-]; (split; [apply persists_refl|]); (split; [exact Hk0|]).
    + cbn [task_ok]. split; [reflexivity|]. split; [lia|]. split.
      * replace (S c - 1)%nat with c by lia. symmetry. apply candidate_succ, Hc.
      * intros i Hi. destruct (decide (i = c - 1)%nat) as [->|Hne]; [exact He|].
        apply Hall. lia.
    + cbn [task_ok]. exists (c - 1)%nat. split; [reflexivity|]. split; [exact Hall|].
      apply not_exists_lookup in He.
      destruct (σ0 !! candidate (dest_of_path file_path) (c - 1)) as [n|] eqn:H0;
        [|reflexivity].
      exfalso. assert (Hex : exists_ σ (candidate (dest_of_path file_path) (c - 1)) = true).
      { eapply persists_exists; [exact Hp0|]. apply exists_lookup. rewrite H0. eauto. }
      apply exists_lookup in Hex. rewrite He in Hex. destruct Hex as [x Hx]. discriminate.
  - intros [= Hstep]. cbn [task_ok] in Hok.
    destruct (copy2_effect file_path d σ) as (Hp & Hframe & _ & Hthere).
    assert (Hkeep : keeps_files resume_file σ0 (copy2 file_path d σ).2).
    { intros q f Hne Hq. apply Hframe; [|apply Hk0; assumption].
      destruct Hok as (j & _ & _ & Hnew). intros ->.
      destruct (is_dir σ d); [|congruence].
      unfold Path.join in Hq. destruct (bool_decide (Path.name file_path = "")); [congruence|].
      assert (Hsome : is_Some (σ0 !! Path.parent (d ++ [Path.name file_path]))).
      { apply Hroot; [intros Hnil; apply app_eq_nil in Hnil as [_ Hnil]; discriminate|].
        rewrite Hq. eauto. }
      unfold Path.parent in Hsome. rewrite removelast_last, Hnew in Hsome.
      destruct Hsome as [x Hx]. discriminate. }
    destruct (copy2 file_path d σ) as [[[]|e] σ1] eqn:Hc; cbn [settle snd] in *;
      injection Hstep as <- <-.
    + split; [exact Hp|]. split; [exact Hkeep|]. cbn [task_ok]. split.
      * eapply first_unused_persists; eassumption.
      * apply Hthere. reflexivity.
    + split; [exact Hp|]. split; [exact Hkeep|exact I].
Qed.

(** What a step of a worker adds to the file system is within the
    budget of its task. *)
Lemma worker_step_budget (σ0 σ σ' : fs) (file_path : Path.t) (t t' : task) :
  task_ok σ0 σ (dest_of_path file_path) t ->
  step file_path t σ = Some (t', σ') ->
  (base.size σ' + task_budget (dest_of_path file_path) t'
   <= base.size σ + task_budget (dest_of_path file_path) t)%nat.
Proof.
  intros Hok. destruct t as [|d|orig c d|d|r|r]; cbn [worker_step]; try discriminate.
  - intros [= Hstep].
    pose proof (get_destination_path_size file_path dest_path preserve_structure
                  selected_files σ) as Hsize.
    destruct (get_destination_path file_path dest_path preserve_structure
                selected_files σ) as [[d|e] σ1] eqn:Hg; cbn [settle snd] in *;
      injection Hstep as <- <-; cbn [task_budget]; [|lia].
    destruct (get_destination_path_ok _ _ _ _ _ _ _ Hg) as [-> _]. lia.
  - intros [= Hstep]. unfold mkdir_parents in Hstep.
    pose proof (makedirs_size (Path.parent d) [] σ) as Hsize.
    assert (Hlen : (length (Path.parent d) <= length d)%nat).
    { unfold Path.parent. destruct d as [|a d] using rev_ind; [simpl; lia|].
      rewrite removelast_last, length_app. lia. }
    destruct (makedirs [] (Path.parent d) σ) as [[[]|e] σ1]; cbn [settle snd] in *;
      injection Hstep as <- <-; cbn [task_budget]; lia.
  - destruct (exists_ σ d); intros [= <- <-]; cbn [task_budget]; lia.
  - intros [= Hstep]. destruct (copy2_effect file_path d σ) as (_ & _ & Hsize & _).
    destruct (copy2 file_path d σ) as [[[]|e] σ1]; cbn [settle snd] in *;
      injection Hstep as <- <-; cbn [task_budget]; lia.
Qed.

(** Every step of a worker brings its task nearer to its end. *)
Lemma worker_step_weight (σ0 σ σ' : fs) (file_path : Path.t) (t t' : task) (b : nat) :
  task_ok σ0 σ (dest_of_path file_path) t ->
  (base.size σ <= b)%nat ->
  step file_path t σ = Some (t', σ') ->
  (task_weight b t' < task_weight b t)%nat.
Proof.
  intros Hok Hb. destruct t as [|d|orig c d|d|r|r]; cbn [worker_step]; try discriminate.
  - intros [= Hstep].
    destruct (get_destination_path file_path dest_path preserve_structure
                selected_files σ) as [[d|e] σ1]; cbn [settle] in Hstep;
      injection Hstep as <- <-; cbn [task_weight]; lia.
  - intros [= Hstep].
    destruct (mkdir_parents (Path.parent d) σ) as [[[]|e] σ1]; cbn [settle] in Hstep;
      injection Hstep as <- <-; cbn [task_weight]; lia.
  - cbn [task_ok] in Hok. destruct Hok as (-> & Hc & -> & Hall).
    destruct (exists_ σ (candidate (dest_of_path file_path) (c - 1))) eqn:He;
      intros [= <- <-]; cbn [task_weight]; [|lia].
    assert (Hle : (c <= S (base.size σ))%nat).
    { apply (numbered_in_use σ (dest_of_path file_path)). intros i Hi.
      rewrite <- candidate_succ by lia.
      destruct (decide (i = c - 1)%nat) as [->|Hne]; [exact He|]. apply Hall. lia. }
    lia.
  - intros [= Hstep].
    destruct (copy2 file_path d σ) as [[[]|e] σ1]; cbn [settle] in Hstep;
      injection Hstep as <- <-; cbn [task_weight]; lia.
Qed.

Lemma task_weight_mono (b b' : nat) (t : task) :
  (b' <= b)%nat -> (task_weight b' t <= task_weight b t)%nat.
Proof. intros Hb. destruct t; cbn [task_weight]; lia. Qed.

(** *** The main thread *)

Lemma collect_result_ok (n i : nat) (pr : progress) (file_path : Path.t)
    (r : option Path.t) (σ : fs) :
  exists pr' σ',
    collect n i pr file_path r σ = (Ok pr', σ') /\
    persists σ σ' /\
    keeps_files resume_file σ σ' /\
    (base.size σ'
     + match resume_file with
       | Some rf => if exists_ σ' rf then 0 else 1
       | None => 0
       end
     <= base.size σ
        + match resume_file with
          | Some rf => if exists_ σ rf then 0 else 1
          | None => 0
          end)%nat.
Proof.
  unfold collect_result. set (pr' := match r with Some _ => _ | None => _ end).
  destruct (bool_decide (i mod 10 = 0)%nat || bool_decide (i = n)).
  - pose proof (checkpoint_ok resume_file (length selected_files) pr' σ) as Hok.
    pose proof (checkpoint_persists resume_file (length selected_files) pr' σ) as Hp.
    pose proof (checkpoint_keeps_files resume_file (length selected_files) pr' σ) as Hk.
    assert (Hsize : (base.size (checkpoint resume_file (length selected_files) pr' σ).2
                     + match resume_file with
                       | Some rf =>
                           if exists_ (checkpoint resume_file (length selected_files) pr' σ).2 rf
                           then 0 else 1
                       | None => 0
                       end
                     <= base.size σ
                        + match resume_file with
                          | Some rf => if exists_ σ rf then 0 else 1
                          | None => 0
                          end)%nat).
    { destruct resume_file as [rf|]; [apply checkpoint_size|simpl; lia]. }
    destruct (checkpoint resume_file (length selected_files) pr' σ) as [res σ'] eqn:Hc.
    cbn [fst snd] in *. subst res. exists pr', σ'.
    split; [|auto]. unfold mbind, io_bind. rewrite Hc. reflexivity.
  - exists pr', σ. split; [reflexivity|]. split; [apply persists_refl|].
    split; [apply keeps_files_refl|lia].
Qed.

(** *** One step of the pool *)

Lemma pool_exec_inv (k : nat) (p p' : pool) :
  exec k p = Some p' ->
  exists e t t',
    pool_tasks p !! k = Some (e, t) /\
    pool_tasks p' = <[k := (e, t')]> (pool_tasks p) /\
    ((step (path e) t (pool_fs p) = Some (t', pool_fs p') /\
      pool_progress p' = pool_progress p /\ pool_taken p' = pool_taken p) \/
     (exists r, t = Finished r /\ t' = Collected r /\
        pool_taken p' = S (pool_taken p) /\
        collect (length (pool_tasks p)) (S (pool_taken p)) (pool_progress p) (path e) r
                (pool_fs p)
        = (Ok (pool_progress p'), pool_fs p'))).
Proof.
  unfold pool_exec. destruct (pool_tasks p !! k) as [[e t]|] eqn:Hk; [|discriminate].
  destruct t as [|d|orig c d|d|r|r].
  5:{ destruct (collect_result _ _ _ _ _ _ _ _) as [[pr|x] σ] eqn:Hc; [|discriminate].
      intros [= <-]. exists e, (Finished r), (Collected r). split; [reflexivity|].
      split; [reflexivity|]. right. exists r. auto. }
  all: destruct (_ && _); [discriminate|].
  all: destruct (worker_step _ _ _ _ _ _) as [[t' σ]|] eqn:Hs; [|discriminate].
  all: intros [= <-]; eexists e, _, t'; split; [reflexivity|];
       split; [reflexivity|]; left; auto.
Qed.

(** A step of the pool keeps what every schedule keeps, cannot raise the
    bound, and brings the pool nearer to its end. *)
Lemma pool_exec_step (σ0 : fs) (k : nat) (p p' : pool) :
  rooted σ0 -> ok σ0 p -> exec k p = Some p' ->
  ok σ0 p' /\ (bound p' <= bound p)%nat /\ (weight p' < weight p)%nat.
Proof.
  intros Hroot (Hp0 & Hk0 & Hall) Hexec.
  destruct (pool_exec_inv k p p' Hexec) as (e & t & t' & Hk & Htasks & Hstep).
  pose proof (proj1 (Forall_lookup _ _) Hall k (e, t) Hk) as Hok. cbn [fst snd] in Hok.
  assert (Hfacts :
    persists (pool_fs p) (pool_fs p') /\
    keeps_files resume_file σ0 (pool_fs p') /\
    task_ok σ0 (pool_fs p') (dest_of_path (path e)) t' /\
    (base.size (pool_fs p')
     + match resume_file with
       | Some rf => if exists_ (pool_fs p') rf then 0 else 1
       | None => 0
       end
     + task_budget (dest_of_path (path e)) t'
     <= base.size (pool_fs p)
        + match resume_file with
          | Some rf => if exists_ (pool_fs p) rf then 0 else 1
          | None => 0
          end
        + task_budget (dest_of_path (path e)) t)%nat /\
    forall b, (base.size (pool_fs p) <= b)%nat ->
              (task_weight b t' < task_weight b t)%nat).
  { destruct Hstep as [(Hs & _ & _)|(r & -> & -> & _ & Hc)].
    - destruct (worker_step_ok σ0 _ _ _ _ _ Hroot Hp0 Hk0 Hok Hs) as (Hp & Hk' & Hok').
      split; [exact Hp|]. split; [exact Hk'|]. split; [exact Hok'|]. split.
      + pose proof (worker_step_budget σ0 _ _ _ _ _ Hok Hs) as Hb.
        destruct resume_file as [rf|]; [|lia].
        destruct (exists_ (pool_fs p) rf) eqn:He.
        * rewrite (persists_exists _ _ _ Hp He). lia.
        * destruct (exists_ (pool_fs p') rf); lia.
      + intros b Hb. eapply worker_step_weight; eassumption.
    - destruct (collect_result_ok (length (pool_tasks p)) (S (pool_taken p))
                  (pool_progress p) (path e) r (pool_fs p))
        as (pr' & σ' & Hc' & Hp & Hk' & Hsize).
      rewrite Hc in Hc'. injection Hc' as <- <-.
      split; [exact Hp|]. split; [eapply keeps_files_trans; eassumption|].
      split; [eapply task_ok_persists; eassumption|]. split.
      + cbn [task_budget]. lia.
      + intros b _. cbn [task_weight]. lia. }
  destruct Hfacts as (Hp & Hk' & Hok' & Hbudget & Hweight).
  assert (Hbound : (bound p' <= bound p)%nat).
  { unfold pool_bound. rewrite Htasks.
    pose proof (sum_list_with_insert
                  (fun et => task_budget (dest_of_path (path et.1)) et.2)
                  (pool_tasks p) k (e, t) (e, t') Hk) as Hsum.
    cbn [fst snd] in Hsum. lia. }
  split; [|split; [exact Hbound|]].
  - split; [eapply persists_trans; eassumption|]. split; [exact Hk'|].
    rewrite Htasks. apply Forall_insert; [|exact Hok'].
    eapply Forall_impl; [exact Hall|]. intros [e0 t0] H0. cbn [fst snd] in *.
    eapply task_ok_persists; eassumption.
  - unfold pool_weight. rewrite Htasks.
    pose proof (sum_list_with_insert (fun et => task_weight (bound p) et.2)
                  (pool_tasks p) k (e, t) (e, t') Hk) as Hsum.
    cbn [fst snd] in Hsum.
    pose proof (sum_list_with_le (fun et : entry * task => task_weight (bound p') et.2)
                  (fun et => task_weight (bound p) et.2)
                  (<[k := (e, t')]> (pool_tasks p))
                  (fun et => task_weight_mono (bound p) (bound p') et.2 Hbound)) as Hle.
    specialize (Hweight (bound p) ltac:(unfold pool_bound; lia)). lia.
Qed.

Lemma pool_ok_start (σ : fs) (ledger : gset Path.t) (todo : list entry) :
  ok σ (pool_start σ ledger todo).
Proof.
  split; [apply persists_refl|]. split; [apply keeps_files_refl|].
  cbn [pool_start pool_tasks]. apply Forall_forall. intros [e t] Hin.
  apply list_elem_of_In, in_map_iff in Hin as (e0 & [= <- <-] & _). exact I.
Qed.

(** *** Every schedule *)

(** A schedule keeps what every step keeps, and it is no longer than the
    weight of the pool it starts from. *)
Lemma pool_run_ok (σ0 : fs) :
  rooted σ0 ->
  forall schedule p p',
    ok σ0 p -> run schedule p = Some p' ->
    ok σ0 p' /\ (length schedule + weight p' <= weight p)%nat.
Proof.
  intros Hroot. induction schedule as [|k schedule IH]; intros p p' Hok; cbn [pool_run].
  - intros [= <-]. split; [exact Hok|simpl; lia].
  - destruct (exec k p) as [p1|] eqn:Hexec; [|discriminate]. intros Hrun.
    destruct (pool_exec_step σ0 k p p1 Hroot Hok Hexec) as (Hok1 & _ & Hw).
    destruct (IH p1 p' Hok1 Hrun) as [Hok' Hlen]. split; [exact Hok'|simpl; lia].
Qed.

Lemma pool_run_app (s1 s2 : list nat) (p : pool) :
  run (s1 ++ s2) p = match run s1 p with Some p1 => run s2 p1 | None => None end.
Proof.
  revert p. induction s1 as [|k s1 IH]; intros p; cbn [pool_run app]; [reflexivity|].
  destruct (exec k p) as [p1|]; [apply IH|reflexivity].
Qed.

(** *** The pool comes to its end *)

(** While a result is not taken, some future can move. *)
Lemma pool_can_move (p : pool) :
  (1 <= max_workers)%nat -> pool_done p = false -> exists k p', exec k p = Some p'.
Proof.
  intros Hw Hdone.
  assert (Hmove : forall k e t,
            pool_tasks p !! k = Some (e, t) ->
            is_collected t = false ->
            (is_queued t = true -> free_worker max_workers (pool_tasks p) = true) ->
            exists p', exec k p = Some p').
  { intros k e t Hk Hc Hq. unfold pool_exec. rewrite Hk.
    destruct t as [|d|orig c d|d|r|r]; try discriminate.
    - rewrite (Hq eq_refl). cbn [is_queued negb andb].
      destruct (worker_step _ _ _ _ _ _) as [[t' σ']|] eqn:Hs; [eauto|discriminate Hs].
    - cbn [is_queued andb].
      destruct (worker_step _ _ _ _ _ _) as [[t' σ']|] eqn:Hs; [eauto|discriminate Hs].
    - cbn [is_queued andb].
      destruct (worker_step _ _ _ _ _ _) as [[t' σ']|] eqn:Hs; [eauto|discriminate Hs].
    - cbn [is_queued andb].
      destruct (worker_step _ _ _ _ _ _) as [[t' σ']|] eqn:Hs; [eauto|discriminate Hs].
    - destruct (collect_result_ok (length (pool_tasks p)) (S (pool_taken p))
                  (pool_progress p) (path e) r (pool_fs p)) as (pr' & σ' & -> & _).
      eauto. }
  destruct (existsb (fun et : entry * task => negb (is_collected et.2) && negb (is_queued et.2))
                    (pool_tasks p)) eqn:Hbusy.
  - apply existsb_exists in Hbusy as ([e t] & Hin & Ht). cbn [snd] in Ht.
    apply andb_true_iff in Ht as [Hc Hq].
    apply negb_true_iff in Hc. apply negb_true_iff in Hq.
    apply list_elem_of_In, list_elem_of_lookup in Hin as [k Hk].
    destruct (Hmove k e t Hk Hc) as [p' Hp']; [congruence|]. eauto.
  - assert (Hidle : forall et, et ∈ pool_tasks p ->
                      is_collected et.2 = true \/ is_queued et.2 = true).
    { intros et Hin. apply list_elem_of_In in Hin.
      destruct (is_collected et.2) eqn:Hc; [auto|]. destruct (is_queued et.2) eqn:Hq; [auto|].
      assert (Hex : existsb (fun et : entry * task =>
                               negb (is_collected et.2) && negb (is_queued et.2))
                            (pool_tasks p) = true).
      { apply existsb_exists. exists et. rewrite Hc, Hq. auto. }
      congruence. }
    assert (Hfree : free_worker max_workers (pool_tasks p) = true).
    { unfold free_worker. apply bool_decide_eq_true.
      replace (List.filter (fun et : entry * task => is_running et.2) (pool_tasks p))
        with ([] : list (entry * task)); [simpl; lia|].
      symmetry. apply List_filter_none. intros et Hin.
      destruct (Hidle et Hin) as [Hc|Hq]; destruct (et.2); try discriminate; reflexivity. }
    unfold pool_done in Hdone.
    assert (Hex : exists et, et ∈ pool_tasks p /\ is_collected et.2 = false).
    { destruct (forallb_forall (fun et : entry * task => is_collected et.2) (pool_tasks p))
        as [_ Hall].
      destruct (existsb (fun et : entry * task => negb (is_collected et.2)) (pool_tasks p))
        eqn:Hsome.
      - apply existsb_exists in Hsome as (et & Hin & Hc). apply negb_true_iff in Hc.
        exists et. split; [apply list_elem_of_In, Hin|exact Hc].
      - rewrite Hall in Hdone; [discriminate|]. intros et Hin.
        destruct (is_collected et.2) eqn:Hc; [reflexivity|].
        assert (Hx : existsb (fun et : entry * task => negb (is_collected et.2))
                             (pool_tasks p) = true)
          by (apply existsb_exists; exists et; rewrite Hc; auto).
        congruence. }
    destruct Hex as ([e t] & Hin & Hc). apply list_elem_of_lookup in Hin as [k Hk].
    destruct (Hmove k e t Hk Hc (fun _ => Hfree)) as [p' Hp']. eauto.
Qed.

(** From wherever a schedule has brought the pool, it can be taken to
    the point where every result is taken. *)
Lemma pool_completes (σ0 : fs) :
  rooted σ0 -> (1 <= max_workers)%nat ->
  forall n p, (weight p <= n)%nat -> ok σ0 p ->
    exists schedule p', run schedule p = Some p' /\ pool_done p' = true.
Proof.
  intros Hroot Hw. induction n as [|n IH]; intros p Hn Hok.
  - destruct (pool_done p) eqn:Hdone; [exists [], p; auto|].
    destruct (pool_can_move p Hw Hdone) as (k & p1 & Hexec).
    destruct (pool_exec_step σ0 k p p1 Hroot Hok Hexec) as (_ & _ & Hlt). lia.
  - destruct (pool_done p) eqn:Hdone; [exists [], p; auto|].
    destruct (pool_can_move p Hw Hdone) as (k & p1 & Hexec).
    destruct (pool_exec_step σ0 k p p1 Hroot Hok Hexec) as (Hok1 & _ & Hlt).
    destruct (IH p1 ltac:(lia) Hok1) as (schedule & p' & Hrun & Hdone').
    exists (k :: schedule), p'. cbn [pool_run]. rewrite Hexec. auto.
Qed.

End PoolSteps.

(** *** What the copies write *)

Section PoolCopies.

Context {rng : Type} `{!Environment rng}.

Variables (dest_path : Path.t) (preserve_structure : bool)
          (resume_file : option Path.t) (selected_files : list entry)
          (max_workers : nat) (todo : list entry) (σ0 : fs).

Hypothesis sources_are_files : forall e,
  e ∈ todo -> is_file σ0 (path e) = true /\ Some (path e) <> resume_file.

Lemma copy2_new_file (src dst : Path.t) (σ : fs) (q : Path.t) (g : file_node) :
  (copy2 src dst σ).2 !! q = Some (File g) ->
  σ !! q = Some (File g) \/ exists f, σ !! src = Some (File f) /\ File g = copy_of f.
Proof.
  unfold copy2. destruct (σ !! src) as [[m|f]|] eqn:Hsrc; cbn [snd]; auto.
  set (target := if is_dir σ dst then Path.join dst (Path.name src) else dst).
  destruct (bool_decide (target = src)); cbn [snd]; auto.
  destruct (σ !! target) as [[m|f']|] eqn:Ht; cbn [snd]; auto.
  - destruct (decide (q = target)) as [->|Hne].
    + rewrite lookup_insert_eq. intros [= <-]. right. exists f. auto.
    + rewrite lookup_insert_ne by congruence. auto.
  - destruct (is_dir σ (Path.parent target)); cbn [snd]; auto.
    unfold create. destruct (decide (q = target)) as [->|Hne].
    + rewrite lookup_insert_eq. intros [= <-]. right. exists f. auto.
    + rewrite lookup_insert_ne by congruence.
      destruct (touch_parent_lookup target q σ) as [->|(_ & _ & ->)]; [auto|discriminate].
Qed.

Lemma worker_step_copies (σ σ' : fs) (e : entry) (t t' : task) :
  e ∈ todo ->
  keeps_files resume_file σ0 σ ->
  only_copies resume_file todo σ0 σ ->
  worker_step dest_path preserve_structure selected_files (path e) t σ = Some (t', σ') ->
  only_copies resume_file todo σ0 σ'.
Proof.
  intros He Hk Hc. destruct t as [|d|orig c d|d|r|r]; cbn [worker_step]; try discriminate.
  - intros [= Hstep].
    pose proof (get_destination_path_no_new_file (path e) dest_path preserve_structure
                  selected_files σ) as Hnew.
    assert (Hσ' : σ' = (get_destination_path (path e) dest_path preserve_structure
                          selected_files σ).2)
      by (rewrite <- (settle_state _ Resolved), Hstep; reflexivity).
    subst σ'. intros q g Hq. apply Hc, Hnew, Hq.
  - intros [= Hstep].
    pose proof (makedirs_no_new_file [] (Path.parent d) σ) as Hnew.
    assert (Hσ' : σ' = (mkdir_parents (Path.parent d) σ).2)
      by (rewrite <- (settle_state _ (fun _ => Looking d 1 d)), Hstep; reflexivity).
    subst σ'. intros q g Hq. apply Hc, Hnew, Hq.
  - destruct (exists_ σ d); intros [= <- <-]; exact Hc.
  - intros [= Hstep].
    assert (Hσ' : σ' = (copy2 (path e) d σ).2)
      by (rewrite <- (settle_state _ (fun _ => Finished (Some d))), Hstep; reflexivity).
    subst σ'. intros q g Hq.
    destruct (copy2_new_file _ _ _ _ _ Hq) as [Hold|(f & Hf & Hg)]; [apply Hc, Hold|].
    right. right. exists e, f. split; [exact He|]. split; [|exact Hg].
    destruct (sources_are_files e He) as [Hfile Hres].
    apply is_file_lookup in Hfile as [f0 Hf0].
    rewrite (Hk (path e) f0 Hres Hf0) in Hf. congruence.
Qed.

Lemma checkpoint_new_file (total : nat) (pr : progress) (σ : fs) (q : Path.t)
    (g : file_node) :
  (checkpoint resume_file total pr σ).2 !! q = Some (File g) ->
  σ !! q = Some (File g) \/ Some q = resume_file.
Proof.
  unfold checkpoint. destruct resume_file as [r|]; [|auto].
  unfold save_operation_state. intros Hq.
  destruct (try_write_file_wrote r (ResumeJson total (elements (copied_files pr)) now) σ q)
    as [Heq|[[-> _]|(_ & _ & Hd)]].
  - rewrite <- Heq. auto.
  - auto.
  - exfalso. unfold is_dir in Hd. rewrite Hq in Hd. discriminate.
Qed.

Lemma pool_exec_copies (k : nat) (p p' : pool) :
  (pool_tasks p).*1 = todo ->
  keeps_files resume_file σ0 (pool_fs p) ->
  only_copies resume_file todo σ0 (pool_fs p) ->
  pool_exec dest_path preserve_structure resume_file selected_files max_workers k p
  = Some p' ->
  (pool_tasks p').*1 = todo /\ only_copies resume_file todo σ0 (pool_fs p').
Proof.
  intros Htodo Hk Hc Hexec.
  destruct (pool_exec_inv _ _ _ _ _ k p p' Hexec) as (e & t & t' & Hlook & Htasks & Hstep).
  assert (He : e ∈ todo).
  { rewrite <- Htodo. apply list_elem_of_fmap. exists (e, t).
    split; [reflexivity|]. eapply list_elem_of_lookup_2, Hlook. }
  split.
  - rewrite Htasks, list_fmap_insert. cbn [fst].
    rewrite list_insert_id; [exact Htodo|]. rewrite list_lookup_fmap, Hlook. reflexivity.
  - destruct Hstep as [(Hs & _ & _)|(r & -> & -> & _ & Hcol)].
    + eapply worker_step_copies; eassumption.
    + unfold collect_result in Hcol.
      destruct (bool_decide _ || bool_decide _).
      * unfold mbind, io_bind in Hcol.
        destruct (checkpoint resume_file (length selected_files) _ (pool_fs p))
          as [[[]|x] σ'] eqn:Hcp; [|discriminate].
        injection Hcol as _ <-. intros q g Hq.
        assert (Hq' : (checkpoint resume_file (length selected_files)
                         (match r with
                          | Some dest_file =>
                              Progress ({[dest_file]} ∪ copied_files (pool_progress p))
                                       (S (copied_count (pool_progress p)))
                                       (errors (pool_progress p))
                          | None =>
                              Progress (copied_files (pool_progress p))
                                       (copied_count (pool_progress p))
                                       (errors (pool_progress p) ++ [path e])
                          end) (pool_fs p)).2 !! q = Some (File g))
          by (rewrite Hcp; exact Hq).
        destruct (checkpoint_new_file _ _ _ _ _ Hq') as [Hold|Hres]; [apply Hc, Hold|auto].
      * injection Hcol as _ <-. exact Hc.
Qed.

Lemma pool_run_copies :
  rooted σ0 ->
  forall schedule p p',
    pool_ok dest_path preserve_structure resume_file selected_files σ0 p ->
    (pool_tasks p).*1 = todo ->
    only_copies resume_file todo σ0 (pool_fs p) ->
    pool_run dest_path preserve_structure resume_file selected_files max_workers
             schedule p = Some p' ->
    only_copies resume_file todo σ0 (pool_fs p').
Proof.
  intros Hroot. induction schedule as [|k schedule IH]; intros p p' Hok Htodo Hc;
    cbn [pool_run].
  - intros [= <-]. exact Hc.
  - destruct (pool_exec _ _ _ _ _ k p) as [p1|] eqn:Hexec; [|discriminate]. intros Hrun.
    destruct (pool_exec_step _ _ _ _ _ σ0 k p p1 Hroot Hok Hexec) as (Hok1 & _).
    destruct (pool_exec_copies k p p1 Htodo (proj1 (proj2 Hok)) Hc Hexec) as [Htodo1 Hc1].
    apply (IH p1 p' Hok1 Htodo1 Hc1 Hrun).
Qed.

End PoolCopies.
(** ** Name collisions *)


Section CollisionFacts.

Context {rng : Type} `{!Environment rng}.

Lemma resolve_conflict_unused σ dest_file :
  exists_ σ dest_file = false -> resolve_conflict σ dest_file = Some dest_file.
Proof. intros H. unfold resolve_conflict. simpl. rewrite H. reflexivity. Qed.

Lemma dest_subfolder_flat file_path dest_path selected :
  dest_subfolder file_path dest_path false selected = None.
Proof. reflexivity. Qed.

End CollisionFacts.



(** ** The selection log and undo *)

Section SelectionLogFacts.

Context {rng : Type} `{!Environment rng}.

(** Whenever [save_selection_log] leaves a file at the log's path, the
    ['files'] in it are the paths of the selected entries. *)
Lemma save_selection_log_files selected_files destination_folder st filters σ :
  let log_file := Path.join destination_folder log_name in
  let σ' := snd (save_selection_log selected_files destination_folder st filters σ) in
  is_file σ' log_file = true ->
  log_files <$> load_operation_state σ' log_file = Some (map path selected_files).
Proof.
  intros log_file σ'. subst σ'. unfold save_selection_log. fold log_file.
  unfold try_except, write_file, is_file, load_operation_state.
  destruct (σ !! log_file) as [[m|f]|] eqn:Hlog; simpl.
  - rewrite Hlog. discriminate.
  - rewrite lookup_insert_eq. reflexivity.
  - destruct (is_dir σ (Path.parent log_file)); simpl.
    + rewrite create_lookup. reflexivity.
    + rewrite Hlog. discriminate.
Qed.

End SelectionLogFacts.

(** C1. The ['files'] of the selection log are the paths of the selected
    source files, not the paths the copy wrote: after a run that copied
    two files into [dst], the log lists the two sources, and undo deletes
    the sources and leaves the copies. *)
Theorem selection_log_lists_source_paths :
  fst UndoExample.run = Ok 2%nat /\
  is_file (snd UndoExample.run) ["dst"; "a.jpg"] = true /\
  is_file (snd UndoExample.run) ["dst"; "a_1.jpg"] = true /\
  log_files <$> load_operation_state (snd UndoExample.run) ["dst"; log_name]
  = Some [["src"; "a.jpg"]; ["src"; "sub"; "a.jpg"]] /\
  fst UndoExample.undo = Ok true /\
  exists_ (snd UndoExample.undo) ["src"; "a.jpg"] = false /\
  exists_ (snd UndoExample.undo) ["src"; "sub"; "a.jpg"] = false /\
  is_file (snd UndoExample.undo) ["dst"; "a.jpg"] = true /\
  is_file (snd UndoExample.undo) ["dst"; "a_1.jpg"] = true.
Proof. vm_compute. repeat split. Qed.

(** ** The folders a scan reports *)

Section ScanCountFacts.

Context {rng : Type} `{!Environment rng}.

Lemma dict_set_length folder files folder_files :
  (length (dict_set folder files folder_files) <= S (length folder_files))%nat.
Proof.
  induction folder_files as [|[k v] folder_files IH]; simpl; [lia|].
  destruct (bool_decide (k = folder)); simpl; lia.
Qed.

Lemma scan_inline_folder_count filters use_cache folders acc σ sc σ' :
  scan_inline filters use_cache folders acc σ = (Ok sc, σ') ->
  (length (folder_files sc) <= length (folder_files acc) + length folders)%nat.
Proof.
  revert acc σ. induction folders as [|folder folders IH]; intros acc σ; cbn [scan_inline].
  - intros [= <- <-]. lia.
  - unfold mbind at 1, io_bind.
    destruct (collect_media_files_optimized folder filters use_cache σ)
      as [[files|e] σ1]; [|discriminate].
    intros H. apply IH in H. cbn [folder_files length] in *.
    pose proof (dict_set_length folder files (folder_files acc)). lia.
Qed.

Lemma scan_parallel_folder_count filters use_cache folders acc σ sc σ' :
  scan_parallel filters use_cache folders acc σ = (Ok sc, σ') ->
  (length (folder_files sc) <= length (folder_files acc) + length folders)%nat.
Proof.
  revert acc σ. induction folders as [|folder folders IH]; intros acc σ; cbn [scan_parallel].
  - intros [= <- <-]. lia.
  - unfold mbind at 1, io_bind, try_except. unfold mbind at 1, io_bind.
    destruct (collect_media_files_optimized folder filters use_cache σ)
      as [[files|e] σ1]; simpl; intros H; apply IH in H; cbn [folder_files length] in *.
    + pose proof (dict_set_length folder files (folder_files acc)). lia.
    + lia.
Qed.

(** The dictionary of scanned folders has at most one key per source
    folder, which is what the balanced selection by count relies on. *)
Lemma scan_all_folder_count `{!EnvironmentLaws rng} source_folders filters use_cache σ sc σ' :
  scan_all source_folders filters use_cache σ = (Ok sc, σ') ->
  (length (folder_files sc) <= length source_folders)%nat.
Proof.
  unfold scan_all. destruct (bool_decide (1 < length source_folders)%nat).
  - intros Hs. apply scan_parallel_folder_count in Hs. simpl in Hs.
    rewrite (Permutation_length (as_completed_perm _ source_folders)) in Hs. exact Hs.
  - intros Hs. apply scan_inline_folder_count in Hs. simpl in Hs. exact Hs.
Qed.

End ScanCountFacts.

(** * Further properties *)

(** ** More on sequencing *)

Lemma io_bind_get {B : Type} (k : fs -> io B) (σ : fs) : (get_fs ≫= k) σ = k σ σ.
Proof. reflexivity. Qed.

(** ** Writing a document makes and removes no directory *)

Lemma try_write_file_is_dir {rng : Type} `{!Environment rng}
    (p : Path.t) (d : payload) (σ : fs) (q : Path.t) :
  is_dir (snd (try_except (write_file p d) (fun _ => mret tt) σ)) q = is_dir σ q.
Proof.
  pose proof (save_operation_state_persists d p σ q) as [Hkeep _].
  pose proof (try_write_file_wrote p d σ q) as Hw.
  unfold save_operation_state in Hkeep.
  set (σ' := snd (try_except _ _ σ)) in *.
  destruct (is_dir σ q) eqn:Hq; [apply Hkeep; reflexivity|].
  destruct (is_dir σ' q) eqn:Hq'; [|reflexivity].
  destruct Hw as [Heq|[[_ Hf]|(_ & Hd & _)]].
  - unfold is_dir in Hq, Hq'. rewrite Heq in Hq'. congruence.
  - exfalso. eapply file_not_dir; eassumption.
  - congruence.
Qed.


(** ** What [apply_filters] keeps *)

Section FilterSemantics.

Context {rng : Type} `{!Environment rng}.

Lemma elem_of_List_filter {A : Type} (P : A -> bool) (l : list A) (x : A) :
  x ∈ List.filter P l <-> x ∈ l /\ P x = true.
Proof. rewrite !list_elem_of_In. apply filter_In. Qed.

Lemma List_filter_sublist {A : Type} (P : A -> bool) (l : list A) :
  List.filter P l `sublist_of` l.
Proof.
  induction l as [|x l IH]; simpl; [constructor|].
  destruct (P x); [apply sublist_skip|apply sublist_cons]; exact IH.
Qed.

Lemma List_filter_all {A : Type} (P : A -> bool) (l : list A) :
  (forall x, x ∈ l -> P x = true) -> List.filter P l = l.
Proof.
  induction l as [|x l IH]; intros Hall; simpl; [reflexivity|].
  rewrite (Hall x) by (left). rewrite IH; [reflexivity|].
  intros y Hy. apply Hall. right. exact Hy.
Qed.

(** The test of one filter: the filter is not given, or its bound is read
    and the entry is within it. *)
Lemma by_min_size_keeps fl files l :
  by_min_size fl files = Ok l ->
  exists P, l = List.filter P files /\
    forall f, P f = true <->
      forall s, given_str (min_size fl) = Some s ->
                exists n, parse_size s = Ok n /\ n <= size f.
Proof.
  unfold by_min_size. destruct (given_str (min_size fl)) as [s|].
  - destruct (parse_size s) as [n|e] eqn:Hn; simpl; [|discriminate].
    intros [= <-]. eexists. split; [reflexivity|].
    intros f. rewrite Z.leb_le. split.
    + intros Hf s' [= <-]. exists n. split; [exact Hn|exact Hf].
    + intros Hf. destruct (Hf s eq_refl) as (n' & Hn' & Hle). congruence.
  - intros [= <-]. exists (fun _ => true). split.
    + symmetry. apply List_filter_all. reflexivity.
    + intros f. split; [discriminate|reflexivity].
Qed.

Lemma by_max_size_keeps fl files l :
  by_max_size fl files = Ok l ->
  exists P, l = List.filter P files /\
    forall f, P f = true <->
      forall s, given_str (max_size fl) = Some s ->
                exists n, parse_size s = Ok n /\ size f <= n.
Proof.
  unfold by_max_size. destruct (given_str (max_size fl)) as [s|].
  - destruct (parse_size s) as [n|e] eqn:Hn; simpl; [|discriminate].
    intros [= <-]. eexists. split; [reflexivity|].
    intros f. rewrite Z.leb_le. split.
    + intros Hf s' [= <-]. exists n. split; [exact Hn|exact Hf].
    + intros Hf. destruct (Hf s eq_refl) as (n' & Hn' & Hle). congruence.
  - intros [= <-]. exists (fun _ => true). split.
    + symmetry. apply List_filter_all. reflexivity.
    + intros f. split; [discriminate|reflexivity].
Qed.

Lemma parse_date_ok s d : parse_date s = Ok d <-> strptime s = Some d.
Proof. unfold parse_date. destruct (strptime s); split; congruence. Qed.

Lemma by_date_from_keeps fl files l :
  by_date_from fl files = Ok l ->
  exists P, l = List.filter P files /\
    forall f, P f = true <->
      forall s, given_str (date_from fl) = Some s ->
                exists d, strptime s = Some d /\ d <= modified f.
Proof.
  unfold by_date_from. destruct (given_str (date_from fl)) as [s|].
  - destruct (parse_date s) as [d|e] eqn:Hd; simpl; [|discriminate].
    apply parse_date_ok in Hd.
    intros [= <-]. eexists. split; [reflexivity|].
    intros f. rewrite Z.leb_le. split.
    + intros Hf s' [= <-]. exists d. split; [exact Hd|exact Hf].
    + intros Hf. destruct (Hf s eq_refl) as (d' & Hd' & Hle). congruence.
  - intros [= <-]. exists (fun _ => true). split.
    + symmetry. apply List_filter_all. reflexivity.
    + intros f. split; [discriminate|reflexivity].
Qed.

Lemma by_date_to_keeps fl files l :
  by_date_to fl files = Ok l ->
  exists P, l = List.filter P files /\
    forall f, P f = true <->
      forall s, given_str (date_to fl) = Some s ->
                exists d, strptime s = Some d /\ modified f <= d.
Proof.
  unfold by_date_to. destruct (given_str (date_to fl)) as [s|].
  - destruct (parse_date s) as [d|e] eqn:Hd; simpl; [|discriminate].
    apply parse_date_ok in Hd.
    intros [= <-]. eexists. split; [reflexivity|].
    intros f. rewrite Z.leb_le. split.
    + intros Hf s' [= <-]. exists d. split; [exact Hd|exact Hf].
    + intros Hf. destruct (Hf s eq_refl) as (d' & Hd' & Hle). congruence.
  - intros [= <-]. exists (fun _ => true). split.
    + symmetry. apply List_filter_all. reflexivity.
    + intros f. split; [discriminate|reflexivity].
Qed.

Lemma by_file_types_keeps fl files :
  exists P, by_file_types fl files = List.filter P files /\
    forall f, P f = true <->
      forall allowed, given_list (file_types fl) = Some allowed -> extension f ∈ allowed.
Proof.
  unfold by_file_types. destruct (given_list (file_types fl)) as [allowed|].
  - eexists. split; [reflexivity|].
    intros f. rewrite member_true. split.
    + intros Hf a [= <-]. exact Hf.
    + intros Hf. apply Hf. reflexivity.
  - exists (fun _ => true). split.
    + symmetry. apply List_filter_all. reflexivity.
    + intros f. split; [discriminate|reflexivity].
Qed.

Lemma by_media_types_keeps fl files :
  exists P, by_media_types fl files = List.filter P files /\
    forall f, P f = true <->
      forall allowed, given_list (media_types fl) = Some allowed ->
                      type_name (type f) ∈ allowed.
Proof.
  unfold by_media_types. destruct (given_list (media_types fl)) as [allowed|].
  - eexists. split; [reflexivity|].
    intros f. rewrite member_true. split.
    + intros Hf a [= <-]. exact Hf.
    + intros Hf. apply Hf. reflexivity.
  - exists (fun _ => true). split.
    + symmetry. apply List_filter_all. reflexivity.
    + intros f. split; [discriminate|reflexivity].
Qed.

Lemma is_empty_dict_given fl :
  is_empty_dict fl = true ->
  given_str (min_size fl) = None /\ given_str (max_size fl) = None /\
  given_str (date_from fl) = None /\ given_str (date_to fl) = None /\
  given_list (file_types fl) = None /\ given_list (media_types fl) = None.
Proof.
  unfold is_empty_dict.
  destruct (min_size fl), (max_size fl), (date_from fl), (date_to fl),
           (file_types fl), (media_types fl); try discriminate.
  intros _. repeat split.
Qed.

End FilterSemantics.

(** [apply_filters], when it returns, keeps exactly the entries that pass
    every filter that is given, in the order they had: an entry is kept
    when its size is within the bounds read by [parse_size], its
    modification time is within the dates read by [strptime], its
    extension is among the file types and its type among the media types.
    A filter that is absent or empty tests nothing, and filtering the
    result again changes nothing. *)
Theorem apply_filters_keeps_what_passes
    (rng : Type) (E : Environment rng) (files kept : list entry) (fl : filters) :
  apply_filters files (Some fl) = Ok kept ->
  kept `sublist_of` files /\
  (forall f, f ∈ kept <->
     f ∈ files /\
     (forall s, given_str (min_size fl) = Some s ->
        exists n, parse_size s = Ok n /\ n <= size f) /\
     (forall s, given_str (max_size fl) = Some s ->
        exists n, parse_size s = Ok n /\ size f <= n) /\
     (forall s, given_str (date_from fl) = Some s ->
        exists d, strptime s = Some d /\ d <= modified f) /\
     (forall s, given_str (date_to fl) = Some s ->
        exists d, strptime s = Some d /\ modified f <= d) /\
     (forall allowed, given_list (file_types fl) = Some allowed ->
        extension f ∈ allowed) /\
     (forall allowed, given_list (media_types fl) = Some allowed ->
        type_name (type f) ∈ allowed)) /\
  apply_filters kept (Some fl) = Ok kept.
Proof.
  unfold apply_filters. destruct (is_empty_dict fl) eqn:Hempty.
  - intros [= <-]. apply is_empty_dict_given in Hempty.
    destruct Hempty as (H1 & H2 & H3 & H4 & H5 & H6).
    split; [reflexivity|]. split; [|reflexivity].
    intros f. rewrite H1, H2, H3, H4, H5, H6. split.
    + intros Hf. repeat split; try exact Hf; discriminate.
    + intros [Hf _]. exact Hf.
  - destruct (by_min_size fl files) as [l1|] eqn:E1; simpl; [|discriminate].
    destruct (by_max_size fl l1) as [l2|] eqn:E2; simpl; [|discriminate].
    destruct (by_date_from fl l2) as [l3|] eqn:E3; simpl; [|discriminate].
    destruct (by_date_to fl l3) as [l4|] eqn:E4; simpl; [|discriminate].
    intros [= <-].
    destruct (by_min_size_keeps _ _ _ E1) as (P1 & -> & HP1).
    destruct (by_max_size_keeps _ _ _ E2) as (P2 & -> & HP2).
    destruct (by_date_from_keeps _ _ _ E3) as (P3 & -> & HP3).
    destruct (by_date_to_keeps _ _ _ E4) as (P4 & -> & HP4).
    destruct (by_file_types_keeps fl
                (List.filter P4 (List.filter P3 (List.filter P2 (List.filter P1 files)))))
      as (P5 & HE5 & HP5).
    destruct (by_media_types_keeps fl
                (by_file_types fl
                   (List.filter P4 (List.filter P3 (List.filter P2 (List.filter P1 files))))))
      as (P6 & HE6 & HP6).
    assert (Hmem : forall f,
      f ∈ by_media_types fl (by_file_types fl
            (List.filter P4 (List.filter P3 (List.filter P2 (List.filter P1 files)))))
      <-> f ∈ files /\ P1 f = true /\ P2 f = true /\ P3 f = true /\ P4 f = true /\
          P5 f = true /\ P6 f = true).
    { intros f. rewrite HE6, HE5. rewrite !elem_of_List_filter. tauto. }
    split; [|split].
    + rewrite HE6, HE5.
      repeat (etransitivity; [apply List_filter_sublist|]). reflexivity.
    + intros f. rewrite Hmem, HP1, HP2, HP3, HP4, HP5, HP6. reflexivity.
    + set (kept := by_media_types fl _) in *.
      assert (S1 : by_min_size fl kept = Ok kept).
      { destruct (by_min_size fl kept) as [l|e] eqn:E1'.
        - destruct (by_min_size_keeps _ _ _ E1') as (Q & -> & HQ). f_equal.
          apply List_filter_all. intros f Hf. apply HQ, HP1, Hmem, Hf.
        - exfalso. revert E1 E1'. unfold by_min_size.
          destruct (given_str (min_size fl)); [|discriminate].
          destruct (parse_size s); simpl; discriminate. }
      assert (S2 : by_max_size fl kept = Ok kept).
      { destruct (by_max_size fl kept) as [l|e] eqn:E2'.
        - destruct (by_max_size_keeps _ _ _ E2') as (Q & -> & HQ). f_equal.
          apply List_filter_all. intros f Hf. apply HQ, HP2, Hmem, Hf.
        - exfalso. revert E2 E2'. unfold by_max_size.
          destruct (given_str (max_size fl)); [|discriminate].
          destruct (parse_size s); simpl; discriminate. }
      assert (S3 : by_date_from fl kept = Ok kept).
      { destruct (by_date_from fl kept) as [l|e] eqn:E3'.
        - destruct (by_date_from_keeps _ _ _ E3') as (Q & -> & HQ). f_equal.
          apply List_filter_all. intros f Hf. apply HQ, HP3, Hmem, Hf.
        - exfalso. revert E3 E3'. unfold by_date_from.
          destruct (given_str (date_from fl)); [|discriminate].
          destruct (parse_date s); simpl; discriminate. }
      assert (S4 : by_date_to fl kept = Ok kept).
      { destruct (by_date_to fl kept) as [l|e] eqn:E4'.
        - destruct (by_date_to_keeps _ _ _ E4') as (Q & -> & HQ). f_equal.
          apply List_filter_all. intros f Hf. apply HQ, HP4, Hmem, Hf.
        - exfalso. revert E4 E4'. unfold by_date_to.
          destruct (given_str (date_to fl)); [|discriminate].
          destruct (parse_date s); simpl; discriminate. }
      rewrite S1. simpl. rewrite S2. simpl. rewrite S3. simpl. rewrite S4. simpl.
      f_equal.
      destruct (by_file_types_keeps fl kept) as (Q5 & -> & HQ5).
      rewrite (List_filter_all Q5 kept)
        by (intros f Hf; apply HQ5, HP5, Hmem, Hf).
      destruct (by_media_types_keeps fl kept) as (Q6 & -> & HQ6).
      apply List_filter_all. intros f Hf. apply HQ6, HP6, Hmem, Hf.
Qed.

Lemma apply_filters_keeps_what_passes_witness :
  let files := [Examples.jpg ["src"] "a.jpg" 5; Examples.jpg ["src"] "b.jpg" 50] in
  let fl := Filters (Some "10") None None None (Some [".jpg"]) None in
  [Examples.jpg ["src"] "b.jpg" 50] `sublist_of` files /\
  apply_filters (Environment0 := Examples.env) [Examples.jpg ["src"] "b.jpg" 50] (Some fl)
  = Ok [Examples.jpg ["src"] "b.jpg" 50].
Proof.
  intros files fl.
  destruct (apply_filters_keeps_what_passes unit Examples.env files
              [Examples.jpg ["src"] "b.jpg" 50] fl) as (Hsub & _ & Hidem).
  - vm_compute. reflexivity.
  - split; [exact Hsub|exact Hidem].
Defined.

(** ** When [apply_filters] raises *)

(** [apply_filters] raises only for a filter value it cannot read, and
    then whatever the entries are: [OverflowError] when a given size
    bound reads as an infinite number, [ValueError] when a given date is
    not a date. When every given bound and date can be read it returns. *)
Theorem apply_filters_raises_on_unreadable_filter
    (rng : Type) (E : Environment rng) (files : list entry)
    (filters : option filters) (e : exn) :
  apply_filters files filters = Raise e ->
  (exists fl s,
     filters = Some fl /\
     ((e = OverflowError /\
       (given_str (min_size fl) = Some s \/ given_str (max_size fl) = Some s) /\
       parse_size s = Raise OverflowError) \/
      (e = ValueError /\
       (given_str (date_from fl) = Some s \/ given_str (date_to fl) = Some s) /\
       strptime s = None))) /\
  forall files', apply_filters files' filters = Raise e.
Proof.
  unfold apply_filters. destruct filters as [fl|]; [|discriminate].
  destruct (is_empty_dict fl); [discriminate|].
  unfold by_min_size, by_max_size, by_date_from, by_date_to, parse_date.
  destruct (given_str (min_size fl)) as [s1|] eqn:G1.
  { destruct (parse_size s1) as [n1|e1] eqn:P1; simpl.
    2:{ intros [= <-]. pose proof (parse_size_raises _ _ P1) as ->.
        split; [|reflexivity].
        exists fl, s1. split; [reflexivity|]. left. auto. }
    destruct (given_str (max_size fl)) as [s2|] eqn:G2.
    { destruct (parse_size s2) as [n2|e2] eqn:P2; simpl.
      2:{ intros [= <-]. pose proof (parse_size_raises _ _ P2) as ->.
          split; [|reflexivity].
          exists fl, s2. split; [reflexivity|]. left. auto. }
      destruct (given_str (date_from fl)) as [s3|] eqn:G3.
      { destruct (strptime s3) as [d3|] eqn:P3; simpl.
        2:{ intros [= <-]. split; [|reflexivity].
            exists fl, s3. split; [reflexivity|]. right. auto. }
        destruct (given_str (date_to fl)) as [s4|] eqn:G4; [|discriminate].
        destruct (strptime s4) as [d4|] eqn:P4; simpl; [discriminate|].
        intros [= <-]. split; [|reflexivity].
        exists fl, s4. split; [reflexivity|]. right. auto. }
      simpl.
      destruct (given_str (date_to fl)) as [s4|] eqn:G4; [|discriminate].
      destruct (strptime s4) as [d4|] eqn:P4; simpl; [discriminate|].
      intros [= <-]. split; [|reflexivity].
      exists fl, s4. split; [reflexivity|]. right. auto. }
    simpl.
    destruct (given_str (date_from fl)) as [s3|] eqn:G3.
    { destruct (strptime s3) as [d3|] eqn:P3; simpl.
      2:{ intros [= <-]. split; [|reflexivity].
          exists fl, s3. split; [reflexivity|]. right. auto. }
      destruct (given_str (date_to fl)) as [s4|] eqn:G4; [|discriminate].
      destruct (strptime s4) as [d4|] eqn:P4; simpl; [discriminate|].
      intros [= <-]. split; [|reflexivity].
      exists fl, s4. split; [reflexivity|]. right. auto. }
    simpl.
    destruct (given_str (date_to fl)) as [s4|] eqn:G4; [|discriminate].
    destruct (strptime s4) as [d4|] eqn:P4; simpl; [discriminate|].
    intros [= <-]. split; [|reflexivity].
    exists fl, s4. split; [reflexivity|]. right. auto. }
  simpl.
  destruct (given_str (max_size fl)) as [s2|] eqn:G2.
  { destruct (parse_size s2) as [n2|e2] eqn:P2; simpl.
    2:{ intros [= <-]. pose proof (parse_size_raises _ _ P2) as ->.
        split; [|reflexivity].
        exists fl, s2. split; [reflexivity|]. left. auto. }
    destruct (given_str (date_from fl)) as [s3|] eqn:G3.
    { destruct (strptime s3) as [d3|] eqn:P3; simpl.
      2:{ intros [= <-]. split; [|reflexivity].
          exists fl, s3. split; [reflexivity|]. right. auto. }
      destruct (given_str (date_to fl)) as [s4|] eqn:G4; [|discriminate].
      destruct (strptime s4) as [d4|] eqn:P4; simpl; [discriminate|].
      intros [= <-]. split; [|reflexivity].
      exists fl, s4. split; [reflexivity|]. right. auto. }
    simpl.
    destruct (given_str (date_to fl)) as [s4|] eqn:G4; [|discriminate].
    destruct (strptime s4) as [d4|] eqn:P4; simpl; [discriminate|].
    intros [= <-]. split; [|reflexivity].
    exists fl, s4. split; [reflexivity|]. right. auto. }
  simpl.
  destruct (given_str (date_from fl)) as [s3|] eqn:G3.
  { destruct (strptime s3) as [d3|] eqn:P3; simpl.
    2:{ intros [= <-]. split; [|reflexivity].
        exists fl, s3. split; [reflexivity|]. right. auto. }
    destruct (given_str (date_to fl)) as [s4|] eqn:G4; [|discriminate].
    destruct (strptime s4) as [d4|] eqn:P4; simpl; [discriminate|].
    intros [= <-]. split; [|reflexivity].
    exists fl, s4. split; [reflexivity|]. right. auto. }
  simpl.
  destruct (given_str (date_to fl)) as [s4|] eqn:G4; [|discriminate].
  destruct (strptime s4) as [d4|] eqn:P4; simpl; [discriminate|].
  intros [= <-]. split; [|reflexivity].
  exists fl, s4. split; [reflexivity|]. right. auto.
Qed.

Lemma apply_filters_raises_on_unreadable_filter_witness :
  apply_filters (Environment0 := Examples.env) [Examples.jpg ["src"] "a.jpg" 5]
    (Some (Filters None None (Some "yesterday") None None None))
  = Raise ValueError.
Proof.
  apply (apply_filters_raises_on_unreadable_filter unit Examples.env []).
  reflexivity.
Defined.

(** ** [get_file_stats] *)

Section StatsFacts.

Lemma bump_get ext x types :
  types_get x (bump ext types)
  = if bool_decide (x = ext) then S (types_get ext types) else types_get x types.
Proof.
  induction types as [|[e n] types IH]; simpl.
  - destruct (decide (x = ext)) as [->|Hne].
    + rewrite !bool_decide_eq_true_2 by reflexivity. reflexivity.
    + rewrite (bool_decide_eq_false_2 (ext = x)) by congruence.
      rewrite (bool_decide_eq_false_2 (x = ext)) by congruence. reflexivity.
  - destruct (decide (e = ext)) as [->|Hne].
    + rewrite (bool_decide_eq_true_2 (ext = ext)) by reflexivity. simpl.
      destruct (decide (x = ext)) as [->|Hx].
      * rewrite !bool_decide_eq_true_2 by reflexivity. reflexivity.
      * rewrite (bool_decide_eq_false_2 (ext = x)) by congruence.
        rewrite (bool_decide_eq_false_2 (x = ext)) by congruence. reflexivity.
    + rewrite (bool_decide_eq_false_2 (e = ext)) by exact Hne. simpl. rewrite IH.
      destruct (decide (e = x)) as [->|Hx].
      * rewrite (bool_decide_eq_true_2 (x = x)) by reflexivity.
        rewrite (bool_decide_eq_false_2 (x = ext)) by exact Hne. reflexivity.
      * rewrite (bool_decide_eq_false_2 (e = x)) by exact Hx. reflexivity.
Qed.

Lemma bump_keys ext x types :
  x ∈ (bump ext types).*1 <-> x = ext \/ x ∈ types.*1.
Proof.
  induction types as [|[e n] types IH]; simpl.
  - rewrite list_elem_of_singleton. rewrite elem_of_nil. tauto.
  - destruct (decide (e = ext)) as [->|Hne].
    + rewrite (bool_decide_eq_true_2 (ext = ext)) by reflexivity. simpl.
      rewrite !elem_of_cons. tauto.
    + rewrite (bool_decide_eq_false_2 (e = ext)) by exact Hne. simpl.
      rewrite !elem_of_cons, IH. tauto.
Qed.

Lemma bump_NoDup ext types : NoDup types.*1 -> NoDup (bump ext types).*1.
Proof.
  induction types as [|[e n] types IH]; simpl; intros Hnd.
  - apply NoDup_singleton.
  - apply NoDup_cons in Hnd as [Hnotin Hnd].
    destruct (decide (e = ext)) as [->|Hne].
    + rewrite (bool_decide_eq_true_2 (ext = ext)) by reflexivity. simpl.
      apply NoDup_cons. split; assumption.
    + rewrite (bool_decide_eq_false_2 (e = ext)) by exact Hne. simpl.
      apply NoDup_cons. split; [|apply IH, Hnd].
      rewrite bump_keys. intros [->|Hin]; [congruence|contradiction].
Qed.

Lemma bump_sum ext types :
  sum_list (bump ext types).*2 = S (sum_list types.*2).
Proof.
  induction types as [|[e n] types IH]; [reflexivity|].
  cbn [bump]. destruct (bool_decide (e = ext)); csimpl; [reflexivity|].
  rewrite IH. lia.
Qed.

Lemma extension_count_snoc ext files f :
  extension_count ext (files ++ [f])
  = (extension_count ext files + (if bool_decide (extension f = ext) then 1 else 0))%nat.
Proof.
  unfold extension_count. rewrite List.filter_app, length_app. simpl.
  destruct (bool_decide (extension f = ext)); reflexivity.
Qed.

Lemma extension_count_pos ext files :
  (0 < extension_count ext files)%nat <-> exists f, f ∈ files /\ extension f = ext.
Proof.
  unfold extension_count. split.
  - intros Hpos.
    destruct (List.filter _ files) as [|f l] eqn:Hfilter; [simpl in Hpos; lia|].
    assert (Hin : In f (List.filter (fun f => bool_decide (extension f = ext)) files))
      by (rewrite Hfilter; left; reflexivity).
    apply filter_In in Hin as [Hin Hext].
    exists f. split; [apply list_elem_of_In, Hin|].
    apply bool_decide_eq_true in Hext. exact Hext.
  - intros (f & Hin & Hext).
    assert (Hf : In f (List.filter (fun f => bool_decide (extension f = ext)) files)).
    { apply filter_In. split; [apply list_elem_of_In, Hin|].
      apply bool_decide_eq_true_2, Hext. }
    destruct (List.filter _ files); [destruct Hf|simpl; lia].
Qed.

Lemma total_size_snoc files f : total_size (files ++ [f]) = total_size files + size f.
Proof. rewrite total_size_app. simpl. lia. Qed.

(** The loop of [get_file_stats] over any prefix of the list, with the
    count it was started with. *)
Lemma get_file_stats_loop files c :
  let st := fold_left (fun st f =>
                         Stats (bump (extension f) (types st))
                               (stats_total_size st + size f) (count st))
                      files (Stats [] 0 c) in
  count st = c /\
  stats_total_size st = total_size files /\
  NoDup (types st).*1 /\
  (forall ext, types_get ext (types st) = extension_count ext files) /\
  (forall ext, ext ∈ (types st).*1 <-> exists f, f ∈ files /\ extension f = ext) /\
  sum_list (types st).*2 = length files.
Proof.
  induction files as [|f files IH] using rev_ind; cbv zeta.
  - simpl. repeat split; try reflexivity; try constructor.
    + intros Hin. inversion Hin.
    + intros (f & Hin & _). inversion Hin.
  - rewrite fold_left_app. simpl.
    cbv zeta in IH. destruct IH as (Hc & Ht & Hnd & Hget & Hkeys & Hsum).
    set (st := fold_left _ files _) in *.
    split; [exact Hc|]. split; [rewrite total_size_snoc, Ht; reflexivity|].
    split; [apply bump_NoDup, Hnd|].
    split; [|split].
    + intros ext. rewrite bump_get, extension_count_snoc, <- !Hget.
      destruct (decide (ext = extension f)) as [->|Hne].
      * rewrite !bool_decide_eq_true_2 by reflexivity. lia.
      * rewrite (bool_decide_eq_false_2 (ext = extension f)) by exact Hne.
        rewrite (bool_decide_eq_false_2 (extension f = ext)) by congruence. lia.
    + intros ext. rewrite bump_keys, Hkeys. split.
      * intros [->|(g & Hg & Hext)].
        -- exists f. split; [apply elem_of_app; right; left|reflexivity].
        -- exists g. split; [apply elem_of_app; left; exact Hg|exact Hext].
      * intros (g & Hg & Hext). apply elem_of_app in Hg as [Hg|Hg].
        -- right. exists g. split; assumption.
        -- apply list_elem_of_singleton in Hg. subst g. left. symmetry. exact Hext.
    + rewrite bump_sum, Hsum, length_app. simpl. lia.
Qed.

End StatsFacts.

(** [get_file_stats] accounts for every entry once: the count is the
    number of entries, the total is the sum of their sizes, the dictionary
    of types has one key for each extension that occurs, holding the number
    of entries with that extension, and these numbers add up to the
    count. *)
Theorem get_file_stats_accounts_for_every_entry (files : list entry) :
  let st := get_file_stats files in
  count st = length files /\
  stats_total_size st = total_size files /\
  NoDup (types st).*1 /\
  (forall ext, types_get ext (types st) = extension_count ext files) /\
  (forall ext, ext ∈ (types st).*1 <-> exists f, f ∈ files /\ extension f = ext) /\
  sum_list (types st).*2 = count st.
Proof.
  cbv zeta. unfold get_file_stats.
  destruct (get_file_stats_loop files (length files)) as (Hc & Ht & Hnd & Hget & Hkeys & Hsum).
  rewrite Hc. repeat split; try assumption; apply Hkeys.
Qed.

(** ** Undo *)

Section UndoFacts.

Context {rng : Type} `{!Environment rng}.

Lemma only_removes_refl σ : only_removes σ σ.
Proof. split; [reflexivity|]. intros q f H. exact H. Qed.

Lemma only_removes_trans σ1 σ2 σ3 :
  only_removes σ1 σ2 -> only_removes σ2 σ3 -> only_removes σ1 σ3.
Proof.
  intros [Hd12 Hf12] [Hd23 Hf23]. split.
  - intros q. rewrite Hd23. apply Hd12.
  - intros q f H. apply Hf12, Hf23, H.
Qed.

Lemma only_removes_is_file σ σ' q :
  only_removes σ σ' -> is_file σ q = false -> is_file σ' q = false.
Proof.
  intros [_ Hf] Hq. destruct (is_file σ' q) eqn:Hq'; [|reflexivity].
  apply is_file_lookup in Hq' as [f Hq']. apply Hf in Hq'.
  unfold is_file in Hq. rewrite Hq' in Hq. discriminate.
Qed.

(** [unlink], with or without success: the path is no file afterwards,
    and every other file stays as it is. *)
Lemma unlink_effect p σ :
  let σ' := snd (unlink p σ) in
  only_removes σ σ' /\
  is_file σ' p = false /\
  forall q f, q <> p -> σ !! q = Some (File f) -> σ' !! q = Some (File f).
Proof.
  cbv zeta. unfold unlink.
  destruct (σ !! p) as [[m|f0]|] eqn:Hp; simpl.
  - split; [apply only_removes_refl|]. split; [|auto].
    unfold is_file. rewrite Hp. reflexivity.
  - assert (Hlook : forall q,
              touch_parent p (delete p σ) !! q = delete p σ !! q \/
              (is_dir (delete p σ) q = true /\
               touch_parent p (delete p σ) !! q = Some (Dir now))).
    { intros q. destruct (touch_parent_lookup p q (delete p σ)) as [H|(_ & H1 & H2)]; auto. }
    split; [split|split].
    + intros q. unfold is_dir at 1. destruct (Hlook q) as [->|[Hd ->]].
      * destruct (decide (q = p)) as [->|Hne].
        -- rewrite lookup_delete_eq. unfold is_dir. rewrite Hp. reflexivity.
        -- rewrite lookup_delete_ne by congruence. reflexivity.
      * symmetry. revert Hd. unfold is_dir.
        destruct (decide (q = p)) as [->|Hne].
        -- rewrite lookup_delete_eq. discriminate.
        -- rewrite lookup_delete_ne by congruence. auto.
    + intros q f. destruct (Hlook q) as [->|[_ ->]]; [|discriminate].
      destruct (decide (q = p)) as [->|Hne].
      * rewrite lookup_delete_eq. discriminate.
      * rewrite lookup_delete_ne by congruence. auto.
    + unfold is_file. destruct (Hlook p) as [->|[_ ->]]; [|reflexivity].
      rewrite lookup_delete_eq. reflexivity.
    + intros q f Hne Hq. destruct (Hlook q) as [->|[Hd _]].
      * rewrite lookup_delete_ne by congruence. exact Hq.
      * exfalso. revert Hd. unfold is_dir.
        rewrite lookup_delete_ne by congruence. rewrite Hq. discriminate.
  - split; [apply only_removes_refl|]. split; [|auto].
    unfold is_file. rewrite Hp. reflexivity.
Qed.

(** The guarded [unlink] of the two loops: an exception is swallowed. *)
Lemma try_unlink_effect p σ :
  exists σ', try_except (unlink p) (fun _ => mret tt) σ = (Ok tt, σ') /\
    only_removes σ σ' /\
    is_file σ' p = false /\
    forall q f, q <> p -> σ !! q = Some (File f) -> σ' !! q = Some (File f).
Proof.
  pose proof (unlink_effect p σ) as H. cbv zeta in H.
  unfold try_except. destruct (unlink p σ) as [[[]|e] σ'] eqn:Hu; simpl in H.
  - exists σ'. split; [reflexivity|exact H].
  - exists σ'. split; [reflexivity|exact H].
Qed.

Lemma delete_listed_effect files σ :
  exists σ', delete_listed files σ = (Ok tt, σ') /\
    only_removes σ σ' /\
    (forall q, q ∈ files -> is_file σ' q = false) /\
    (forall q f, q ∉ files -> σ !! q = Some (File f) -> σ' !! q = Some (File f)).
Proof.
  revert σ. induction files as [|p files IH]; intros σ.
  - exists σ. split; [reflexivity|]. split; [apply only_removes_refl|].
    split; [intros q Hq; inversion Hq|auto].
  - assert (Hstep : exists σ1,
              (if exists_ σ p then try_except (unlink p) (fun _ => mret tt) else mret tt) σ
              = (Ok tt, σ1) /\
              only_removes σ σ1 /\ is_file σ1 p = false /\
              forall q f, q <> p -> σ !! q = Some (File f) -> σ1 !! q = Some (File f)).
    { destruct (exists_ σ p) eqn:Hex; [apply try_unlink_effect|].
      exists σ. split; [reflexivity|]. split; [apply only_removes_refl|]. split; [|auto].
      apply not_exists_lookup in Hex. unfold is_file. rewrite Hex. reflexivity. }
    destruct Hstep as (σ1 & Hrun & Hrem & Hp & Hkeep).
    destruct (IH σ1) as (σ' & Hrest & Hrem' & Hgone & Hkeep').
    exists σ'. split; [|split; [|split]].
    + cbn [delete_listed]. unfold mbind at 1, io_bind, get_fs at 1.
      erewrite io_bind_ok by exact Hrun. exact Hrest.
    + eapply only_removes_trans; eassumption.
    + intros q Hq. apply elem_of_cons in Hq as [->|Hq]; [|apply Hgone, Hq].
      eapply only_removes_is_file; eassumption.
    + intros q f Hq Hf. apply Hkeep'.
      * intros Hin. apply Hq. right. exact Hin.
      * apply Hkeep; [|exact Hf]. intros ->. apply Hq. left.
Qed.

End UndoFacts.

(** [undo_last_operation] never raises and only ever removes files. Without
    a readable log at [<destination>/selection_log.json] it answers [False]
    and changes nothing. With one it answers [True]; afterwards no path
    listed in the log is a file any more, nor is the log itself, every
    other file is as it was, and the directories are the same: none is
    removed, be it listed or left empty. *)
Theorem undo_last_operation_removes_listed_files
    (rng : Type) (E : Environment rng) (destination_folder : Path.t) (σ : fs) :
  let log_file := Path.join destination_folder log_name in
  exists b σ',
    undo_last_operation destination_folder σ = (Ok b, σ') /\
    only_removes σ σ' /\
    match load_operation_state σ log_file with
    | None => b = false /\ σ' = σ
    | Some log_data =>
        b = true /\
        (forall q, q ∈ log_file :: log_files log_data -> is_file σ' q = false) /\
        (forall q f, q ∉ log_file :: log_files log_data ->
                     σ !! q = Some (File f) -> σ' !! q = Some (File f))
    end.
Proof.
  cbv zeta. unfold undo_last_operation.
  set (log_file := Path.join destination_folder log_name).
  unfold mbind at 1, io_bind, get_fs at 1.
  destruct (exists_ σ log_file) eqn:Hex; simpl.
  2:{ exists false, σ. split; [reflexivity|]. split; [apply only_removes_refl|].
      apply not_exists_lookup in Hex. unfold load_operation_state. rewrite Hex. auto. }
  destruct (load_operation_state σ log_file) as [log_data|] eqn:Hload.
  2:{ exists false, σ. split; [reflexivity|]. split; [apply only_removes_refl|]. auto. }
  destruct (delete_listed_effect (log_files log_data) σ)
    as (σ1 & Hrun & Hrem & Hgone & Hkeep).
  destruct (try_unlink_effect log_file σ1) as (σ2 & Hrun2 & Hrem2 & Hlog & Hkeep2).
  exists true, σ2. split; [|split; [|split; [reflexivity|split]]].
  - erewrite io_bind_ok by exact Hrun. erewrite io_bind_ok by exact Hrun2. reflexivity.
  - eapply only_removes_trans; eassumption.
  - intros q Hq. apply elem_of_cons in Hq as [->|Hq]; [exact Hlog|].
    eapply only_removes_is_file; [exact Hrem2|]. apply Hgone, Hq.
  - intros q f Hq Hf. apply Hkeep2.
    + intros ->. apply Hq. left.
    + apply Hkeep; [|exact Hf]. intros Hin. apply Hq. right. exact Hin.
Qed.

(** ** What a fresh scan finds *)

Section WalkFacts.

Context {rng : Type} `{!Environment rng}.

Lemma elem_of_rglob_files (σ : fs) (folder p : Path.t) (f : file_node) :
  (p, f) ∈ rglob_files σ folder <->
  σ !! p = Some (File f) /\ folder `prefix_of` p /\ p <> folder.
Proof.
  unfold rglob_files. rewrite list_elem_of_omap. split.
  - intros ([q n] & Hin & Hsome). apply elem_of_map_to_list in Hin.
    destruct n as [m|f']; [discriminate|].
    destruct (bool_decide (folder `prefix_of` q)) eqn:Hpre; [|discriminate].
    destruct (bool_decide (q = folder)) eqn:Hq; [discriminate|].
    simpl in Hsome. injection Hsome as -> ->.
    apply bool_decide_eq_true in Hpre. apply bool_decide_eq_false in Hq. auto.
  - intros (Hp & Hpre & Hne). exists (p, File f). split.
    + apply elem_of_map_to_list. exact Hp.
    + rewrite (bool_decide_eq_true_2 _ Hpre), (bool_decide_eq_false_2 _ Hne). reflexivity.
Qed.

Lemma rglob_files_paths (σ : fs) (folder : Path.t) :
  (rglob_files σ folder).*1 `sublist_of` (map_to_list σ).*1.
Proof.
  unfold rglob_files. induction (map_to_list σ) as [|[q n] l IH]; [constructor|].
  csimpl. destruct n as [m|f]; [apply sublist_cons, IH|].
  destruct (bool_decide (folder `prefix_of` q) && negb (bool_decide (q = folder))); csimpl.
  - apply sublist_skip, IH.
  - apply sublist_cons, IH.
Qed.

Lemma walk_paths (σ : fs) (folder : Path.t) :
  map path (walk σ folder)
  = (List.filter (fun '(p, _) => is_media p) (rglob_files σ folder)).*1.
Proof.
  unfold walk. induction (List.filter _ _) as [|[p f] l IH]; [reflexivity|].
  csimpl. rewrite IH. reflexivity.
Qed.

Lemma List_filter_fst_sublist {A B : Type} (P : A * B -> bool) (l : list (A * B)) :
  (List.filter P l).*1 `sublist_of` l.*1.
Proof.
  induction l as [|x l IH]; [constructor|]. simpl.
  destruct (P x); csimpl; [apply sublist_skip|apply sublist_cons]; exact IH.
Qed.

Lemma elem_of_walk (σ : fs) (folder : Path.t) (e : entry) :
  e ∈ walk σ folder <->
  exists p f, σ !! p = Some (File f) /\ folder `prefix_of` p /\ p <> folder /\
              is_media p = true /\ e = file_info p f.
Proof.
  unfold walk. rewrite list_elem_of_In, in_map_iff. split.
  - intros ([p f] & <- & Hin). apply filter_In in Hin as [Hin Hmedia].
    apply list_elem_of_In, elem_of_rglob_files in Hin as (Hp & Hpre & Hne).
    exists p, f. auto.
  - intros (p & f & Hp & Hpre & Hne & Hmedia & ->). exists (p, f).
    split; [reflexivity|]. apply filter_In. split; [|exact Hmedia].
    apply list_elem_of_In, elem_of_rglob_files. auto.
Qed.

Lemma walk_NoDup (σ : fs) (folder : Path.t) : NoDup (map path (walk σ folder)).
Proof.
  rewrite walk_paths.
  eapply sublist_NoDup; [apply (NoDup_fst_map_to_list σ)|].
  etransitivity; [apply List_filter_fst_sublist|apply rglob_files_paths].
Qed.

End WalkFacts.

(** A scan that does not use the cache changes nothing and finds the
    media files below the folder, each of them once: an entry is found
    exactly when it describes a regular file somewhere below the folder
    whose lower-cased suffix is a media extension, with the size and the
    times the file has, and what is returned is that list after
    [apply_filters]. A folder that is missing or is not a directory gives
    the empty list. *)
Theorem fresh_scan_finds_the_media_files
    (rng : Type) (E : Environment rng) (folder : Path.t)
    (filters : option filters) (σ : fs) :
  (is_dir σ folder = false ->
   collect_media_files_optimized folder filters false σ = (Ok [], σ)) /\
  (is_dir σ folder = true ->
   collect_media_files_optimized folder filters false σ
   = (apply_filters (walk σ folder) filters, σ)) /\
  (forall e, e ∈ walk σ folder <->
     exists p f, σ !! p = Some (File f) /\ folder `prefix_of` p /\ p <> folder /\
                 is_media p = true /\
                 e = Entry p (st_size f) (st_ctime f) (st_mtime f)
                           (Text.lower (Path.suffix p)) (get_media_metadata p)) /\
  NoDup (map path (walk σ folder)).
Proof.
  split; [|split; [|split]].
  - intros Hd. unfold collect_media_files_optimized. rewrite Hd. reflexivity.
  - intros Hd. unfold collect_media_files_optimized. rewrite Hd. reflexivity.
  - intros e. apply elem_of_walk.
  - apply walk_NoDup.
Qed.

Lemma fresh_scan_finds_the_media_files_witness :
  let σ : fs := {[ [] := Dir 0; ["src"] := Dir 5;
                   ["src"; "a.jpg"] := Examples.media 7;
                   ["src"; "notes.txt"] := Examples.media 3 ]} in
  collect_media_files_optimized (Environment0 := Examples.env) ["src"] None false σ
  = (Ok [Entry ["src"; "a.jpg"] 7 1 2 ".jpg" image], σ).
Proof.
  intros σ.
  destruct (fresh_scan_finds_the_media_files unit Examples.env ["src"] None σ)
    as (_ & Hdir & _).
  rewrite Hdir; reflexivity.
Defined.

(** ** A filter that cannot be read *)

Section UnreadableFilter.

Context {rng : Type} `{!Environment rng}.

(** Whether [apply_filters] raises does not depend on the entries. *)
Lemma apply_filters_raise_any files files' filters e :
  apply_filters files filters = Raise e -> apply_filters files' filters = Raise e.
Proof.
  unfold apply_filters. destruct filters as [fl|]; [|discriminate].
  destruct (is_empty_dict fl); [discriminate|].
  unfold by_min_size, by_max_size, by_date_from, by_date_to.
  destruct (given_str (min_size fl)) as [s1|];
    [destruct (parse_size s1); simpl; [|auto]|simpl];
    (destruct (given_str (max_size fl)) as [s2|];
     [destruct (parse_size s2); simpl; [|auto]|simpl]);
    (destruct (given_str (date_from fl)) as [s3|];
     [destruct (parse_date s3); simpl; [|auto]|simpl]);
    (destruct (given_str (date_to fl)) as [s4|];
     [destruct (parse_date s4); simpl; [|auto]|simpl]);
    discriminate.
Qed.

(** The scan of a directory raises what [apply_filters] raises: the cache
    branch swallows the exception and the fresh scan meets it again. *)
Lemma collect_raises folder filters use_cache σ e :
  is_dir σ folder = true ->
  apply_filters [] filters = Raise e ->
  fst (collect_media_files_optimized folder filters use_cache σ) = Raise e.
Proof.
  intros Hd Hraise. unfold collect_media_files_optimized. rewrite Hd. simpl.
  assert (Hcache : (if use_cache then read_cache σ folder filters else None) = None).
  { destruct use_cache; [|reflexivity]. unfold read_cache.
    destruct (σ !! Path.join folder cache_name) as [c|]; [|reflexivity].
    destruct (σ !! folder) as [d|]; [|reflexivity].
    destruct (node_mtime d <? node_mtime c); [|reflexivity].
    destruct c as [m|f]; [reflexivity|].
    destruct (data f); try reflexivity.
    rewrite (apply_filters_raise_any [] cached_files filters e Hraise). reflexivity. }
  rewrite Hcache. simpl. apply (apply_filters_raise_any [] _ filters e Hraise).
Qed.

(** A scan creates and removes no directory. *)
Lemma collect_is_dir folder filters use_cache σ p :
  is_dir (snd (collect_media_files_optimized folder filters use_cache σ)) p = is_dir σ p.
Proof.
  unfold collect_media_files_optimized.
  destruct (is_dir σ folder); simpl; [|reflexivity].
  destruct (if use_cache then read_cache σ folder filters else None); [reflexivity|].
  simpl. destruct use_cache; [|reflexivity].
  apply try_write_file_is_dir.
Qed.

Lemma dict_set_keys folder files folder_files k :
  k ∈ (dict_set folder files folder_files).*1 <-> k = folder \/ k ∈ folder_files.*1.
Proof.
  induction folder_files as [|[k0 v] ff IH]; simpl.
  - rewrite list_elem_of_singleton, elem_of_nil. tauto.
  - destruct (decide (k0 = folder)) as [->|Hne].
    + rewrite (bool_decide_eq_true_2 (folder = folder)) by reflexivity. csimpl.
      rewrite !elem_of_cons. tauto.
    + rewrite (bool_decide_eq_false_2 (k0 = folder)) by exact Hne. csimpl.
      rewrite !elem_of_cons, IH. tauto.
Qed.

(** On the pool, a folder whose scan raises is left out of the
    dictionary: with a filter that cannot be read, only the folders that
    are no directories get a key. *)
Lemma scan_parallel_unreadable filters use_cache e :
  apply_filters [] filters = Raise e ->
  forall futures acc σ,
  exists sc σ',
    scan_parallel filters use_cache futures acc σ = (Ok sc, σ') /\
    (forall p, is_dir σ' p = is_dir σ p) /\
    forall k, k ∈ (folder_files sc).*1 ->
              k ∈ (folder_files acc).*1 \/ is_dir σ k = false.
Proof.
  intros Hraise. induction futures as [|folder futures IH]; intros acc σ.
  - exists acc, σ. split; [reflexivity|]. split; [reflexivity|]. auto.
  - cbn [scan_parallel].
    pose proof (collect_is_dir folder filters use_cache σ) as Hdirs.
    destruct (is_dir σ folder) eqn:Hd.
    + pose proof (collect_raises folder filters use_cache σ e Hd Hraise) as Hr.
      destruct (collect_media_files_optimized folder filters use_cache σ) as [r σ1] eqn:Hc.
      simpl in Hr, Hdirs. subst r.
      destruct (IH acc σ1) as (sc & σ' & Hrun & Hdirs' & Hkeys).
      exists sc, σ'. split; [|split].
      * erewrite io_bind_ok; [exact Hrun|].
        erewrite try_except_raise; [reflexivity|].
        erewrite io_bind_raise; [reflexivity|exact Hc].
      * intros p. rewrite Hdirs'. apply Hdirs.
      * intros k Hk. destruct (Hkeys k Hk) as [Hin|Hnd]; [left; exact Hin|].
        right. rewrite <- Hdirs. exact Hnd.
    + assert (Hc : collect_media_files_optimized folder filters use_cache σ = (Ok [], σ)).
      { unfold collect_media_files_optimized. rewrite Hd. reflexivity. }
      destruct (IH (Scanned (dict_set folder [] (folder_files acc))
                            (all_files_data acc ++ [])) σ)
        as (sc & σ' & Hrun & Hdirs' & Hkeys).
      exists sc, σ'. split; [|split].
      * erewrite io_bind_ok; [exact Hrun|].
        erewrite try_except_ok; [reflexivity|].
        erewrite io_bind_ok; [reflexivity|exact Hc].
      * exact Hdirs'.
      * intros k Hk. destruct (Hkeys k Hk) as [Hin|Hnd]; [|right; exact Hnd].
        simpl in Hin. apply dict_set_keys in Hin as [->|Hin]; [right; exact Hd|left; exact Hin].
Qed.

Lemma dict_get_ok folder folder_files files :
  dict_get folder folder_files = Ok files -> folder ∈ folder_files.*1.
Proof.
  unfold dict_get.
  destruct (List.find _ folder_files) as [[k v]|] eqn:Hfind; [|discriminate].
  intros _. apply find_some in Hfind as [Hin Hk].
  apply bool_decide_eq_true in Hk. subst k.
  apply list_elem_of_In in Hin. apply list_elem_of_fmap. exists (folder, v). auto.
Qed.

(** The statistics loop reads a key for every source folder. *)
Lemma display_statistics_ok source_folders folder_files :
  display_statistics source_folders folder_files = Ok tt ->
  forall k, k ∈ source_folders -> k ∈ folder_files.*1.
Proof.
  induction source_folders as [|folder l IH]; intros Hok k Hk; [inversion Hk|].
  cbn [display_statistics] in Hok.
  destruct (dict_get folder folder_files) as [files|] eqn:Hget; [|discriminate].
  simpl in Hok. apply elem_of_cons in Hk as [->|Hk].
  - eapply dict_get_ok, Hget.
  - apply IH; assumption.
Qed.

End UnreadableFilter.

(** A filter that [apply_filters] cannot read (a date that is no date, a
    size that reads as infinite) aborts the operation before anything is
    selected. With one source folder the scan runs inline and the
    exception leaves the operation as it is. With several, the scan runs
    on the pool, which reports and drops the exception of each folder; the
    folder is then missing from the dictionary of scanned folders, and the
    statistics loop fails on it with a [KeyError]. *)
Theorem unreadable_filter_aborts_the_operation
    (rng : Type) (E : Environment rng) (g : rng) (c : config) (σ : fs) (e : exn) :
  exists_ σ (destination_folder c) = true ->
  apply_filters [] (cfg_filters c) = Raise e ->
  (forall folder,
     source_folders c = [folder] -> is_dir σ folder = true ->
     fst (randomly_select_and_copy_files g c σ) = Raise e) /\
  (forall folder,
     (1 < length (source_folders c))%nat ->
     folder ∈ source_folders c -> is_dir σ folder = true ->
     fst (randomly_select_and_copy_files g c σ) = Raise KeyError).
Proof.
  intros Hdest Hraise.
  assert (Htop : randomly_select_and_copy_files g c σ = select_and_copy g c σ).
  { unfold randomly_select_and_copy_files. rewrite Hdest. reflexivity. }
  rewrite Htop. unfold select_and_copy. split.
  - intros folder Hsrc Hd.
    pose proof (collect_raises folder (cfg_filters c) (use_cache c) σ e Hd Hraise) as Hr.
    destruct (collect_media_files_optimized folder (cfg_filters c) (use_cache c) σ)
      as [r σ1] eqn:Hc. simpl in Hr. subst r.
    erewrite io_bind_raise; [reflexivity|].
    unfold scan_all. rewrite Hsrc. simpl.
    erewrite io_bind_raise; [reflexivity|exact Hc].
  - intros folder Hlen Hin Hd. unfold scan_all.
    rewrite bool_decide_eq_true_2 by exact Hlen.
    destruct (scan_parallel_unreadable (cfg_filters c) (use_cache c) e Hraise
                (as_completed (source_folders c)) (Scanned [] []) σ)
      as (sc & σ' & Hrun & _ & Hkeys).
    erewrite io_bind_ok by exact Hrun.
    destruct (display_statistics (source_folders c) (folder_files sc)) as [[]|e'] eqn:Hshow.
    + exfalso. pose proof (display_statistics_ok _ _ Hshow folder Hin) as Hkey.
      destruct (Hkeys folder Hkey) as [Hnil|Hnd]; [inversion Hnil|congruence].
    + apply display_statistics_raises in Hshow. subst e'. reflexivity.
Qed.

Lemma unreadable_filter_aborts_the_operation_witness :
  let σ : fs := {[ [] := Dir 0; ["a"] := Dir 5; ["b"] := Dir 5; ["dst"] := Dir 5;
                   ["a"; "x.jpg"] := Examples.media 7 ]} in
  let fl := Filters None None (Some "01/02/2024") None None None in
  fst (randomly_select_and_copy_files (Environment0 := Examples.env) tt
         (Config [["a"]] ["dst"] 1 None false false false (Some fl) None true) σ)
  = Raise ValueError /\
  fst (randomly_select_and_copy_files (Environment0 := Examples.env) tt
         (Config [["a"]; ["b"]] ["dst"] 1 None false false false (Some fl) None true) σ)
  = Raise KeyError.
Proof.
  intros σ fl. split.
  - destruct (unreadable_filter_aborts_the_operation unit Examples.env tt
                (Config [["a"]] ["dst"] 1 None false false false (Some fl) None true)
                σ ValueError) as [Hone _]; [reflexivity|reflexivity|].
    apply (Hone ["a"]); reflexivity.
  - destruct (unreadable_filter_aborts_the_operation unit Examples.env tt
                (Config [["a"]; ["b"]] ["dst"] 1 None false false false (Some fl) None true)
                σ ValueError) as [_ Hmany]; [reflexivity|reflexivity|].
    apply (Hmany ["a"]); [simpl; lia|apply elem_of_cons; left; reflexivity|reflexivity].
Defined.

(** ** Selection without balancing *)

Section GreedyFacts.

(** With a limit of zero the greedy loop stops at the first entry. *)
Lemma greedy_zero files :
  Forall (fun f => 0 <= size f) files ->
  total_size (greedy 0 0 files) = 0 /\ (length (greedy 0 0 files) <= 1)%nat.
Proof.
  destruct files as [|f files]; intros Hall; simpl; [split; [reflexivity|lia]|].
  apply Forall_cons in Hall as [Hf _]. simpl in Hf.
  destruct (Z.leb_spec (0 + size f) 0) as [Hfit|Hno].
  - replace (0 + size f) with 0 by lia. simpl.
    replace (size f) with 0 by lia. split; [reflexivity|lia].
  - simpl. split; [reflexivity|lia].
Qed.

Lemma sorted_by_size_Forall (P : entry -> Prop) files :
  Forall P files -> Forall P (sorted_by_size files).
Proof. intros H. rewrite sorted_by_size_perm. exact H. Qed.

End GreedyFacts.

(** Selection by total size without balancing takes entries in the order
    of the shuffle and never passes the target: for a target that is not
    negative, the sizes of the selected entries add up to the target at
    most. *)
Theorem select_by_total_size_within_target
    (rng : Type) (E : Environment rng) (g : rng) (files_data : list entry)
    (target_size_str : string) (target_bytes : Z) :
  parse_size target_size_str = Ok target_bytes ->
  0 <= target_bytes ->
  exists selected g',
    select_by_total_size g files_data target_size_str false = Ok (selected, g') /\
    selected `sublist_of` (random_shuffle g files_data).1 /\
    g' = (random_shuffle g files_data).2 /\
    total_size selected <= target_bytes.
Proof.
  intros Hparse Hpos. unfold select_by_total_size. rewrite Hparse. simpl.
  destruct (random_shuffle g files_data) as [shuffled g'] eqn:Hshuffle.
  exists (greedy target_bytes 0 shuffled), g'. split; [reflexivity|].
  split; [apply greedy_sublist|]. split; [reflexivity|].
  pose proof (greedy_within target_bytes 0 shuffled Hpos). lia.
Qed.

Lemma select_by_total_size_within_target_witness :
  exists selected g',
    select_by_total_size (Environment0 := Examples.env) tt
      [Examples.jpg ["A"] "p.jpg" 6; Examples.jpg ["A"] "q.jpg" 4;
       Examples.jpg ["A"] "r.jpg" 3] "9B" false = Ok (selected, g') /\
    total_size selected <= 9.
Proof.
  destruct (select_by_total_size_within_target unit Examples.env tt
              [Examples.jpg ["A"] "p.jpg" 6; Examples.jpg ["A"] "q.jpg" 4;
               Examples.jpg ["A"] "r.jpg" 3] "9B" 9)
    as (selected & g' & Hrun & _ & _ & Hle); [reflexivity|lia|].
  exists selected, g'. split; [exact Hrun|exact Hle].
Defined.

(** A target size written with KB, MB, GB or TB is read as [0] bytes, so
    the selection by total size selects nothing of any size: without
    balancing at most one entry, an empty file; with balancing, empty
    files only. *)
Theorem binary_suffix_target_selects_nothing
    (rng : Type) (E : Environment rng) (g : rng) (files_data : list entry)
    (number suffix : string) :
  Text.upper suffix ∈ ["KB"; "MB"; "GB"; "TB"] ->
  Forall (fun f => 0 <= size f) files_data ->
  (random_shuffle g files_data).1 ≡ₚ files_data ->
  (exists selected g',
     select_by_total_size g files_data (number +:+ suffix) false = Ok (selected, g') /\
     total_size selected = 0 /\ (length selected <= 1)%nat) /\
  (files_data <> [] ->
   exists selected,
     select_by_total_size g files_data (number +:+ suffix) true = Ok (selected, g) /\
     total_size selected = 0).
Proof.
  intros Hsuffix Hsizes Hperm.
  destruct (parse_size_binary_suffix_invalid number suffix Hsuffix) as [_ Hzero].
  unfold select_by_total_size. rewrite Hzero. simpl. split.
  - destruct (random_shuffle g files_data) as [shuffled g'] eqn:Hshuffle.
    simpl in Hperm. rewrite <- Hperm in Hsizes.
    exists (greedy 0 0 shuffled), g'. split; [reflexivity|].
    apply greedy_zero, Hsizes.
  - intros Hne. unfold select_balanced_size.
    pose proof (folder_groups_nonempty files_data Hne) as Hlen.
    unfold floordiv.
    destruct (Z.eqb_spec (Z.of_nat (length (folder_groups files_data))) 0) as [H0|_]; [lia|].
    simpl. eexists. split; [reflexivity|].
    rewrite Z.div_0_l by lia.
    assert (Hgroups : Forall (fun gr => Forall (fun f => 0 <= size f) gr.2)
                             (folder_groups files_data)).
    { apply Forall_forall. intros [key fs] Hin.
      apply folder_groups_partition in Hin as [-> _]. simpl.
      apply Forall_forall. intros f Hf.
      apply list_elem_of_In, filter_In in Hf as [Hf _].
      apply list_elem_of_In in Hf.
      rewrite Forall_forall in Hsizes. apply Hsizes, Hf. }
    clear Hlen. induction Hgroups as [|[key fs] groups Hfs _ IH]; [reflexivity|].
    simpl. rewrite total_size_app, IH.
    destruct (greedy_zero (sorted_by_size fs)) as [-> _]; [|reflexivity].
    apply sorted_by_size_Forall, Hfs.
Qed.

Lemma binary_suffix_target_selects_nothing_witness :
  exists selected g',
    select_by_total_size (Environment0 := Examples.env) tt
      [Examples.jpg ["A"] "p.jpg" 6; Examples.jpg ["A"] "q.jpg" 4] ("500" +:+ "MB") false
    = Ok (selected, g') /\
    total_size selected = 0 /\ (length selected <= 1)%nat.
Proof.
  apply (binary_suffix_target_selects_nothing unit Examples.env tt
           [Examples.jpg ["A"] "p.jpg" 6; Examples.jpg ["A"] "q.jpg" 4] "500" "MB").
  - vm_compute. apply elem_of_cons. right. apply elem_of_cons. left. reflexivity.
  - repeat constructor; simpl; lia.
  - reflexivity.
Defined.

(** ** Selection by count without balancing *)

(** Without balancing, the selection by count draws one sample from all
    entries: as many as requested, or all there are when more are
    requested than there are. A negative count makes [random.sample] raise
    [ValueError]. *)
Theorem select_by_count_draws_the_requested_number
    (rng : Type) (E : Environment rng) (L : EnvironmentLaws rng) (g : rng)
    (num_files : Z) (source_count : nat)
    (folder_files : list (Path.t * list entry)) (all_files_data : list entry) :
  let n := Z.min num_files (Z.of_nat (length all_files_data)) in
  (0 <= num_files ->
   select_by_count g num_files false source_count folder_files all_files_data
   = Ok (random_sample g all_files_data (Z.to_nat n)) /\
   Z.of_nat (length (random_sample g all_files_data (Z.to_nat n)).1) = n) /\
  (num_files < 0 ->
   select_by_count g num_files false source_count folder_files all_files_data
   = Raise ValueError).
Proof.
  cbv zeta. unfold select_by_count, clamp_count. simpl.
  set (len := Z.of_nat (length all_files_data)). split.
  - intros Hpos. destruct (Z.ltb_spec len num_files) as [Hlt|Hge].
    + rewrite Z.min_r by lia. unfold sample. fold len.
      destruct (Z.ltb_spec len 0); [lia|].
      rewrite Z.ltb_irrefl. simpl. split; [reflexivity|].
      rewrite (sample_length g all_files_data (Z.to_nat len)) by lia. lia.
    + rewrite Z.min_l by lia. unfold sample. fold len.
      destruct (Z.ltb_spec num_files 0); [lia|].
      destruct (Z.ltb_spec len num_files); [lia|]. simpl. split; [reflexivity|].
      rewrite (sample_length g all_files_data (Z.to_nat num_files)) by lia. lia.
  - intros Hneg. destruct (Z.ltb_spec len num_files) as [Hlt|Hge]; [lia|].
    unfold sample. destruct (Z.ltb_spec num_files 0); [reflexivity|lia].
Qed.

Lemma select_by_count_draws_the_requested_number_witness :
  select_by_count (Environment0 := Examples.env) tt 5 false 1 []
    [Examples.jpg ["A"] "p.jpg" 6; Examples.jpg ["A"] "q.jpg" 4]
  = Ok ([Examples.jpg ["A"] "p.jpg" 6; Examples.jpg ["A"] "q.jpg" 4], tt).
Proof.
  destruct (select_by_count_draws_the_requested_number unit Examples.env
              Examples.env_laws tt 5 1%nat []
              [Examples.jpg ["A"] "p.jpg" 6; Examples.jpg ["A"] "q.jpg" 4]) as [Hrun _].
  destruct Hrun as [Hrun _]; [lia|]. exact Hrun.
Defined.

(** ** What the copy leaves alone, and what it counts *)

Section CopyFrame.

Context {rng : Type} `{!Environment rng}.

(** The loop over the futures always returns; every future ends as a copy
    or as an error; and the files that were there stay as they were. *)
Lemma copy_loop_effect dest_path preserve resume_file selected n :
  forall futures i pr σ,
  exists pr' σ',
    copy_loop dest_path preserve resume_file selected n i pr futures σ = (Ok pr', σ') /\
    keeps_files resume_file σ σ' /\
    persists σ σ' /\
    (copied_count pr' + length (errors pr')
     = copied_count pr + length (errors pr) + length futures)%nat /\
    exists failed, errors pr' = errors pr ++ failed /\
                   failed `sublist_of` map path futures.
Proof.
  induction futures as [|e futures IH]; intros i pr σ; cbn [copy_loop].
  - exists pr, σ. split; [reflexivity|]. split; [apply keeps_files_refl|].
    split; [apply persists_refl|]. split; [simpl; lia|].
    exists []. split; [rewrite app_nil_r; reflexivity|constructor].
  - destruct (copy_single_file (path e) dest_path preserve selected σ) as [r σ1] eqn:Hc.
    destruct (copy_single_file_extends _ _ _ _ _ _ _ Hc) as [Hext [o ->]].
    set (pr1 := match o with
                | Some dest_file =>
                    Progress ({[dest_file]} ∪ copied_files pr) (S (copied_count pr)) (errors pr)
                | None =>
                    Progress (copied_files pr) (copied_count pr) (errors pr ++ [path e])
                end).
    set (save := if bool_decide (i mod 10 = 0)%nat || bool_decide (i = n)
                 then checkpoint resume_file (length selected) pr1 else mret tt).
    assert (Hsave : exists σ2, save σ1 = (Ok tt, σ2) /\
                      keeps_files resume_file σ1 σ2 /\ persists σ1 σ2).
    { unfold save. destruct (_ || _).
      - pose proof (checkpoint_ok resume_file (length selected) pr1 σ1) as Hok.
        pose proof (checkpoint_keeps_files resume_file (length selected) pr1 σ1) as Hk.
        pose proof (checkpoint_persists resume_file (length selected) pr1 σ1) as Hp.
        destruct (checkpoint resume_file (length selected) pr1 σ1) as [r2 σ2].
        simpl in *. subst r2. exists σ2. auto.
      - exists σ1. split; [reflexivity|].
        split; [apply keeps_files_refl|apply persists_refl]. }
    destruct Hsave as (σ2 & Hsave & Hk2 & Hp2).
    destruct (IH (S i) pr1 σ2) as (pr' & σ' & Hloop & Hk & Hp & Hcount & failed & Herr & Hsub).
    exists pr', σ'. split; [|split; [|split; [|split]]].
    + erewrite io_bind_ok by exact Hc. fold pr1. fold save.
      erewrite io_bind_ok by exact Hsave. exact Hloop.
    + eapply keeps_files_trans; [apply extends_keeps_files, Hext|].
      eapply keeps_files_trans; eassumption.
    + eapply persists_trans; [apply extends_persists, Hext|].
      eapply persists_trans; eassumption.
    + rewrite Hcount. unfold pr1. destruct o; simpl; [lia|].
      rewrite length_app. simpl. lia.
    + unfold pr1 in Herr. destruct o; simpl in Herr.
      * exists failed. split; [exact Herr|]. simpl. apply sublist_cons, Hsub.
      * exists (path e :: failed). split.
        -- rewrite Herr, <- app_assoc. reflexivity.
        -- simpl. apply sublist_skip, Hsub.
Qed.

End CopyFrame.

(** Whatever its outcome, the copy leaves every file that existed as it
    was (no source is changed and no file in the destination is
    overwritten, truncated or removed), except the resume file, which it
    rewrites; and every directory stays a directory. *)
Theorem copy_leaves_existing_files_alone
    (rng : Type) (E : Environment rng) (selected_files : list entry)
    (dest_path : Path.t) (preserve_structure : bool) (resume_file : option Path.t)
    (σ : fs) :
  let σ' := snd (copy_files_parallel selected_files dest_path preserve_structure
                                     resume_file σ) in
  (forall p f, Some p <> resume_file -> σ !! p = Some (File f) -> σ' !! p = Some (File f)) /\
  (forall p, is_file σ p = true -> is_file σ' p = true) /\
  (forall p, is_dir σ p = true -> is_dir σ' p = true).
Proof.
  cbv zeta.
  assert (H : keeps_files resume_file σ
                (snd (copy_files_parallel selected_files dest_path preserve_structure
                                          resume_file σ)) /\
              persists σ
                (snd (copy_files_parallel selected_files dest_path preserve_structure
                                          resume_file σ))).
  { unfold copy_files_parallel.
    pose proof (makedirs_extends [] dest_path σ) as He0.
    destruct (mkdir_parents dest_path σ) as [[[]|e0] σ0] eqn:Hmk;
      unfold mkdir_parents in Hmk; rewrite Hmk in He0; simpl in He0.
    2:{ erewrite io_bind_raise by exact Hmk. simpl.
        split; [apply extends_keeps_files|apply extends_persists]; exact He0. }
    erewrite io_bind_ok by exact Hmk.
    rewrite io_bind_get.
    pose proof (remaining_files_extends (load_ledger σ0 resume_file) dest_path
                  preserve_structure selected_files selected_files σ0) as He1.
    destruct (remaining_files (load_ledger σ0 resume_file) dest_path preserve_structure
                selected_files selected_files σ0) as [[todo|e1] σ1] eqn:Hrem;
      simpl in He1; pose proof (extends_trans _ _ _ He0 He1) as He.
    2:{ erewrite io_bind_raise by exact Hrem. simpl.
        split; [apply extends_keeps_files|apply extends_persists]; exact He. }
    erewrite io_bind_ok by exact Hrem.
    destruct todo as [|t todo].
    { simpl. split; [apply extends_keeps_files|apply extends_persists]; exact He. }
    destruct (copy_loop_effect dest_path preserve_structure resume_file selected_files
                (length (t :: todo)) (as_completed (t :: todo)) 1%nat
                (Progress (load_ledger σ0 resume_file)
                          (base.size (load_ledger σ0 resume_file)) []) σ1)
      as (pr' & σ' & Hloop & Hk & Hp & _).
    erewrite io_bind_ok by exact Hloop. simpl. split.
    - eapply keeps_files_trans; [apply extends_keeps_files, He|exact Hk].
    - eapply persists_trans; [apply extends_persists, He|exact Hp]. }
  destruct H as [Hk Hp]. split; [exact Hk|]. split; intros p; apply Hp.
Qed.

(** Once the destination is made and the work list is built, the copy
    returns. With an empty work list it reports every selected entry as
    copied and changes nothing. Otherwise every entry of the work list
    ends as a copy or as an error, none is dropped: the count returned and
    the number of errors add up to the size of the ledger that was loaded
    plus the length of the work list, and the errors are sources of the
    work list. *)
Theorem copy_accounts_for_the_work_list
    (rng : Type) (E : Environment rng) (L : EnvironmentLaws rng)
    (selected_files : list entry) (dest_path : Path.t) (preserve_structure : bool)
    (resume_file : option Path.t) (σ σ0 σ1 : fs) (todo : list entry) :
  mkdir_parents dest_path σ = (Ok tt, σ0) ->
  remaining_files (load_ledger σ0 resume_file) dest_path preserve_structure
                  selected_files selected_files σ0 = (Ok todo, σ1) ->
  exists n errs σ',
    copy_files_parallel selected_files dest_path preserve_structure resume_file σ
    = (Ok (n, errs), σ') /\
    (todo = [] -> n = length selected_files /\ errs = [] /\ σ' = σ1) /\
    (todo <> [] ->
     (n + length errs = base.size (load_ledger σ0 resume_file) + length todo)%nat /\
     errs ⊆ map path todo).
Proof.
  intros Hmk Hrem. unfold copy_files_parallel.
  erewrite io_bind_ok by exact Hmk.
  rewrite io_bind_get.
  erewrite io_bind_ok by exact Hrem.
  destruct todo as [|t todo].
  - exists (length selected_files), [], σ1. split; [reflexivity|].
    split; [auto|congruence].
  - destruct (copy_loop_effect dest_path preserve_structure resume_file selected_files
                (length (t :: todo)) (as_completed (t :: todo)) 1%nat
                (Progress (load_ledger σ0 resume_file)
                          (base.size (load_ledger σ0 resume_file)) []) σ1)
      as (pr' & σ' & Hloop & _ & _ & Hcount & failed & Herr & Hsub).
    exists (copied_count pr'), (errors pr'), σ'. split.
    + erewrite io_bind_ok by exact Hloop. reflexivity.
    + split; [discriminate|]. intros _. simpl in Hcount, Herr. split.
      * rewrite Hcount. rewrite (Permutation_length (as_completed_perm _ (t :: todo))). lia.
      * rewrite Herr. intros x Hx. apply (fun H => elem_of_sublist _ _ _ H Hsub) in Hx.
        rewrite (as_completed_perm _ (t :: todo)) in Hx. exact Hx.
Qed.

Lemma copy_accounts_for_the_work_list_witness :
  exists n errs σ',
    copy_files_parallel (Environment0 := Examples.env) ResumeExample.selected ["dst"] false
      ResumeExample.resume ResumeExample.σ0 = (Ok (n, errs), σ') /\
    (n + length errs = 0 + 2)%nat.
Proof.
  destruct (copy_accounts_for_the_work_list unit Examples.env Examples.env_laws
              ResumeExample.selected ["dst"] false ResumeExample.resume
              ResumeExample.σ0
              (snd (mkdir_parents (Environment0 := Examples.env) ["dst"] ResumeExample.σ0))
              (snd (mkdir_parents (Environment0 := Examples.env) ["dst"] ResumeExample.σ0))
              ResumeExample.selected)
    as (n & errs & σ' & Hrun & _ & Hcount); [reflexivity|vm_compute; reflexivity|].
  exists n, errs, σ'. split; [exact Hrun|].
  destruct Hcount as [Hcount _]; [discriminate|]. exact Hcount.
Defined.

(** ** A numbered name keeps the extension *)

Section SuffixFacts.

Import Text Path.

Lemma text_chars (s : string) : text (chars s) = s.
Proof. apply string_of_list_ascii_of_string. Qed.

Lemma text_app (l1 l2 : list ascii) : text (l1 ++ l2) = text l1 +:+ text l2.
Proof. induction l1 as [|c l1 IH]; simpl; [reflexivity|]. rewrite IH. reflexivity. Qed.

Lemma after_last_dot_none (l : list ascii) :
  after_last_dot l = None <-> "."%char ∉ l.
Proof.
  induction l as [|c l IH]; simpl.
  - split; [intros _ H; inversion H|reflexivity].
  - destruct (after_last_dot l) as [k|].
    + split; [discriminate|]. intros Hnot. exfalso.
      assert (Hl : "."%char ∉ l) by (intros Hin; apply Hnot; right; exact Hin).
      apply IH in Hl. discriminate.
    + destruct (decide (c = "."%char)) as [->|Hne].
      * rewrite bool_decide_eq_true_2 by reflexivity.
        split; [discriminate|]. intros Hnot. exfalso. apply Hnot. left.
      * rewrite bool_decide_eq_false_2 by exact Hne.
        split; [|reflexivity]. intros _ Hin.
        apply elem_of_cons in Hin as [Heq|Hin]; [congruence|].
        apply (proj1 IH); [reflexivity|exact Hin].
Qed.

(** The characters after the last dot hold no dot. *)
Lemma after_last_dot_some (l : list ascii) (k : nat) :
  after_last_dot l = Some k ->
  exists a b, l = a ++ "."%char :: b /\ length b = k /\ "."%char ∉ b.
Proof.
  revert k. induction l as [|c l IH]; intros k; simpl; [discriminate|].
  destruct (after_last_dot l) as [k'|] eqn:Hl.
  - intros [= <-]. destruct (IH k' eq_refl) as (a & b & -> & Hlen & Hb).
    exists (c :: a), b. auto.
  - destruct (bool_decide (c = "."%char)) eqn:Hc; [|discriminate].
    apply bool_decide_eq_true in Hc. subst c. intros [= <-].
    exists [], l. split; [reflexivity|]. split; [reflexivity|].
    apply after_last_dot_none, Hl.
Qed.

Lemma after_last_dot_app (a b : list ascii) :
  "."%char ∉ b -> after_last_dot (a ++ "."%char :: b) = Some (length b).
Proof.
  intros Hb. induction a as [|c a IH]; simpl.
  - rewrite (proj2 (after_last_dot_none b) Hb). reflexivity.
  - rewrite IH. reflexivity.
Qed.

(** A name has a suffix exactly when it reads [a ++ "." ++ b] with [a]
    and [b] not empty and no dot in [b]; the suffix is the dot with [b]. *)
Lemma suffix_index_some (l : list ascii) (i : nat) :
  suffix_index l = Some i ->
  exists a b, l = a ++ "."%char :: b /\ i = length a /\
              a <> [] /\ b <> [] /\ "."%char ∉ b.
Proof.
  unfold suffix_index. destruct (after_last_dot l) as [k|] eqn:Hk; [|discriminate].
  apply after_last_dot_some in Hk as (a & b & -> & <- & Hb).
  rewrite length_app. simpl.
  replace (length a + S (length b) - S (length b))%nat with (length a) by lia.
  destruct (bool_decide (0 < length a)%nat) eqn:H1; [|discriminate].
  destruct (bool_decide (length a < length a + S (length b) - 1)%nat) eqn:H2; [|discriminate].
  apply bool_decide_eq_true in H1, H2. intros [= <-].
  exists a, b. split; [reflexivity|]. split; [reflexivity|].
  split; [|split; [|exact Hb]].
  - intros ->. simpl in H1. lia.
  - intros ->. simpl in H2. lia.
Qed.

Lemma suffix_index_app (a b : list ascii) :
  a <> [] -> b <> [] -> "."%char ∉ b ->
  suffix_index (a ++ "."%char :: b) = Some (length a).
Proof.
  intros Ha Hb Hdot. unfold suffix_index. rewrite (after_last_dot_app a b Hdot).
  rewrite length_app. simpl.
  replace (length a + S (length b) - S (length b))%nat with (length a) by lia.
  rewrite bool_decide_eq_true_2 by (destruct a; [congruence|simpl; lia]).
  rewrite bool_decide_eq_true_2 by (destruct b; [congruence|simpl; lia]).
  reflexivity.
Qed.

(** The numbered name of a destination with a suffix: same suffix, and
    the counter appended to the stem. *)
Lemma numbered_suffix (original_dest : Path.t) (counter : nat) :
  Path.suffix original_dest <> "" ->
  Path.suffix (numbered original_dest counter) = Path.suffix original_dest /\
  Path.stem (numbered original_dest counter)
  = Path.stem original_dest +:+ "_" +:+ pretty counter.
Proof.
  intros Hsuffix.
  assert (Hname : Path.name (numbered original_dest counter)
                  = Path.stem original_dest +:+ "_" +:+ pretty counter
                    +:+ Path.suffix original_dest).
  { unfold numbered. apply name_join, string_app_nonempty. }
  assert (Hparts : exists a b,
            chars (Path.name original_dest) = a ++ "."%char :: b /\
            a <> [] /\ b <> [] /\ ("."%char ∉ b) /\
            Path.suffix original_dest = text ("."%char :: b) /\
            Path.stem original_dest = text a).
  { unfold Path.suffix, Path.stem in *.
    destruct (suffix_index (chars (Path.name original_dest))) as [i|] eqn:Hi;
      [|congruence].
    destruct (suffix_index_some _ _ Hi) as (a & b & Hl & -> & Ha & Hb & Hdot).
    exists a, b. rewrite Hl. repeat split; try assumption.
    - rewrite drop_app_length. reflexivity.
    - rewrite take_app_length. reflexivity. }
  destruct Hparts as (a & b & Hl & Ha & Hb & Hdot & Hsuf & Hstem).
  assert (Hchars : chars (Path.name (numbered original_dest counter))
                   = (a ++ "_"%char :: chars (pretty counter)) ++ "."%char :: b).
  { rewrite Hname, Hsuf, Hstem. rewrite !chars_app, !chars_text.
    rewrite <- app_assoc. reflexivity. }
  assert (Hne : a ++ "_"%char :: chars (pretty counter) <> [])
    by (destruct a; discriminate).
  split.
  - unfold Path.suffix at 1. rewrite Hchars.
    rewrite (suffix_index_app _ b Hne Hb Hdot), drop_app_length. symmetry. exact Hsuf.
  - unfold Path.stem at 1. rewrite Hchars.
    rewrite (suffix_index_app _ b Hne Hb Hdot), take_app_length.
    rewrite text_app, Hstem. simpl. rewrite text_chars. reflexivity.
Qed.

End SuffixFacts.

(** The name the conflict loop tries at a counter keeps the extension of
    the destination it was asked for: for a destination with a suffix, the
    numbered path has the same suffix and the same parent, its stem is the
    old stem with the counter appended, and so it is a media file of the
    same type exactly when the destination is. *)
Theorem numbered_name_keeps_the_extension (original_dest : Path.t) (counter : nat) :
  Path.suffix original_dest <> "" ->
  Path.suffix (numbered original_dest counter) = Path.suffix original_dest /\
  Path.stem (numbered original_dest counter)
  = Path.stem original_dest +:+ "_" +:+ pretty counter /\
  Path.parent (numbered original_dest counter) = Path.parent original_dest /\
  is_media (numbered original_dest counter) = is_media original_dest /\
  get_media_metadata (numbered original_dest counter) = get_media_metadata original_dest.
Proof.
  intros Hsuffix.
  destruct (numbered_suffix original_dest counter Hsuffix) as [Hsame Hstem].
  split; [exact Hsame|]. split; [exact Hstem|]. split; [apply parent_numbered|].
  unfold is_media, get_media_metadata. rewrite Hsame. split; reflexivity.
Qed.

Lemma numbered_name_keeps_the_extension_witness :
  Path.suffix (numbered ["dst"; "a.tar.JPG"] 3) = ".JPG" /\
  Path.stem (numbered ["dst"; "a.tar.JPG"] 3) = "a.tar_3".
Proof.
  destruct (numbered_name_keeps_the_extension ["dst"; "a.tar.JPG"] 3)
    as (Hsuffix & Hstem & _); [discriminate|].
  split; [exact Hsuffix|exact Hstem].
Defined.

(** ** The resume file *)

(** What a checkpoint writes is what a resumed run loads. When the resume
    file can be written (it is a file already, or is missing in a
    directory that exists), the document at its path afterwards is the
    state that was saved, and the ledger loaded from it is the set of
    copied files of the progress; when it cannot (its path is a directory,
    or its directory is missing), the failure is swallowed and nothing
    changes. *)
Theorem checkpoint_is_what_a_resume_loads
    (rng : Type) (E : Environment rng) (resume_file : Path.t) (total : nat)
    (pr : progress) (σ : fs) :
  let σ' := snd (checkpoint (Some resume_file) total pr σ) in
  fst (checkpoint (Some resume_file) total pr σ) = Ok tt /\
  (is_file σ resume_file = true \/
   (exists_ σ resume_file = false /\ is_dir σ (Path.parent resume_file) = true) ->
   load_operation_state σ' resume_file
   = Some (ResumeJson total (elements (copied_files pr)) now) /\
   load_ledger σ' (Some resume_file) = copied_files pr) /\
  (is_dir σ resume_file = true \/
   (exists_ σ resume_file = false /\ is_dir σ (Path.parent resume_file) = false) ->
   σ' = σ).
Proof.
  cbv zeta. split; [apply checkpoint_ok|].
  unfold checkpoint, save_operation_state, try_except, write_file.
  set (doc := ResumeJson total (elements (copied_files pr)) now).
  assert (Hread : forall σ0,
            load_operation_state
              (<[resume_file := File (FileNode (serialized_size doc) now now doc)]> σ0)
              resume_file = Some doc /\
            load_ledger
              (<[resume_file := File (FileNode (serialized_size doc) now now doc)]> σ0)
              (Some resume_file) = copied_files pr).
  { intros σ0. split.
    - unfold load_operation_state. rewrite lookup_insert_eq. reflexivity.
    - apply load_ledger_written. }
  assert (Hfile : is_file σ resume_file
                  = match σ !! resume_file with Some (File _) => true | _ => false end)
    by reflexivity.
  assert (Hdir : is_dir σ resume_file
                 = match σ !! resume_file with Some (Dir _) => true | _ => false end)
    by reflexivity.
  assert (Hex : exists_ σ resume_file
                = match σ !! resume_file with Some _ => true | None => false end).
  { unfold exists_. destruct (σ !! resume_file).
    - apply bool_decide_eq_true_2. eauto.
    - apply bool_decide_eq_false_2. intros [x Hx]. discriminate. }
  rewrite Hfile, Hdir, Hex. clear Hfile Hdir Hex.
  destruct (σ !! resume_file) as [[m|f]|] eqn:Hr; simpl.
  - split; [|reflexivity].
    intros [Hf|[Hex _]]; discriminate.
  - split; [intros _; apply Hread|].
    intros [Hd|[Hex _]]; discriminate.
  - destruct (is_dir σ (Path.parent resume_file)) eqn:Hparent; simpl.
    + split; [intros _; apply Hread|].
      intros [Hd|[_ Hd]]; discriminate.
    + split; [|reflexivity].
      intros [Hf|[_ Hd]]; discriminate.
Qed.

(** ** A dry run without the cache *)

Section NoCacheFacts.

Context {rng : Type} `{!Environment rng}.

Lemma collect_no_cache folder filters σ :
  snd (collect_media_files_optimized folder filters false σ) = σ.
Proof.
  unfold collect_media_files_optimized. destruct (is_dir σ folder); reflexivity.
Qed.

Lemma scan_inline_no_cache filters folders acc σ :
  snd (scan_inline filters false folders acc σ) = σ.
Proof.
  revert acc. induction folders as [|folder folders IH]; intros acc; [reflexivity|].
  cbn [scan_inline].
  pose proof (collect_no_cache folder filters σ) as Hc.
  destruct (collect_media_files_optimized folder filters false σ) as [[files|e] σ1] eqn:Hrun;
    simpl in Hc; subst σ1.
  - erewrite io_bind_ok by exact Hrun. apply IH.
  - erewrite io_bind_raise by exact Hrun. reflexivity.
Qed.

Lemma scan_parallel_no_cache filters folders acc σ :
  snd (scan_parallel filters false folders acc σ) = σ.
Proof.
  revert acc. induction folders as [|folder folders IH]; intros acc; [reflexivity|].
  cbn [scan_parallel].
  pose proof (collect_no_cache folder filters σ) as Hc.
  destruct (collect_media_files_optimized folder filters false σ) as [[files|e] σ1] eqn:Hrun;
    simpl in Hc; subst σ1.
  - erewrite io_bind_ok; [apply IH|].
    erewrite try_except_ok; [reflexivity|].
    erewrite io_bind_ok by exact Hrun. reflexivity.
  - erewrite io_bind_ok; [apply IH|].
    erewrite try_except_raise; [reflexivity|].
    erewrite io_bind_raise by exact Hrun. reflexivity.
Qed.

Lemma scan_all_no_cache source_folders filters σ :
  snd (scan_all source_folders filters false σ) = σ.
Proof.
  unfold scan_all. destruct (bool_decide _);
    [apply scan_parallel_no_cache|apply scan_inline_no_cache].
Qed.

End NoCacheFacts.

(** With the cache switched off, the scan writes nothing, and a dry run
    leaves the file system exactly as it found it, whatever the outcome:
    no cache file, no directory, no log and no resume file. *)
Theorem dry_run_without_cache_changes_nothing
    (rng : Type) (E : Environment rng) (g : rng) (c : config) (σ : fs) :
  use_cache c = false ->
  snd (scan_all (source_folders c) (cfg_filters c) (use_cache c) σ) = σ /\
  (dry_run c = true -> snd (randomly_select_and_copy_files g c σ) = σ).
Proof.
  intros Hcache. rewrite Hcache. split; [apply scan_all_no_cache|].
  intros Hdry. unfold randomly_select_and_copy_files. rewrite Hdry.
  rewrite andb_false_r.
  destruct (select_and_copy_dry_run g c σ Hdry) as [Hstate _].
  rewrite Hstate, Hcache. apply scan_all_no_cache.
Qed.

Lemma dry_run_without_cache_changes_nothing_witness :
  let σ : fs := {[ [] := Dir 0; ["src"] := Dir 5;
                   ["src"; "a.jpg"] := Examples.media 7 ]} in
  snd (randomly_select_and_copy_files (Environment0 := Examples.env) tt
         (Config [["src"]] ["dst"] 1 None false true false None None false) σ) = σ.
Proof.
  intros σ.
  destruct (dry_run_without_cache_changes_nothing unit Examples.env tt
              (Config [["src"]] ["dst"] 1 None false true false None None false) σ)
    as [_ Hdry]; [reflexivity|].
  apply Hdry. reflexivity.
Defined.

(** ** The file-type filter compares lower-cased suffixes *)

Section FileTypeFacts.

Context {rng : Type} `{!Environment rng}.

Lemma lower_char_idem (c : ascii) :
  Text.lower_char (Text.lower_char c) = Text.lower_char c.
Proof. destruct c as [[] [] [] [] [] [] [] []]; reflexivity. Qed.

Lemma lower_idem (s : string) : Text.lower (Text.lower s) = Text.lower s.
Proof.
  unfold Text.lower. rewrite chars_text. f_equal.
  unfold Text.lower_chars. rewrite map_map. apply map_ext. intros c. apply lower_char_idem.
Qed.

(** The entries a scan builds carry their suffix in lower case. *)
Lemma walk_extension_lower (σ : fs) (folder : Path.t) :
  Forall (fun f => Text.lower (extension f) = extension f) (walk σ folder).
Proof.
  apply Forall_forall. intros e He.
  apply elem_of_walk in He as (p & f & _ & _ & _ & _ & ->). simpl. apply lower_idem.
Qed.

End FileTypeFacts.

(** The file-type filter matches the extensions of the entries as they
    are, and a scan records every extension in lower case: an allowed type
    that is not its own lower case (".JPG") matches no scanned entry, so a
    list of such types filters everything out. *)
Theorem file_types_filter_is_case_sensitive
    (rng : Type) (E : Environment rng) (σ : fs) (folder : Path.t)
    (fl : filters) (allowed : list string) (kept : list entry) :
  given_list (file_types fl) = Some allowed ->
  Forall (fun t => Text.lower t <> t) allowed ->
  apply_filters (walk σ folder) (Some fl) = Ok kept ->
  kept = [].
Proof.
  intros Hgiven Hupper. unfold apply_filters.
  assert (Hdict : is_empty_dict fl = false).
  { unfold is_empty_dict. unfold given_list in Hgiven.
    destruct (file_types fl); [|discriminate].
    destruct (min_size fl), (max_size fl), (date_from fl), (date_to fl); reflexivity. }
  rewrite Hdict.
  destruct (by_min_size fl (walk σ folder)) as [l1|] eqn:E1; simpl; [|discriminate].
  destruct (by_max_size fl l1) as [l2|] eqn:E2; simpl; [|discriminate].
  destruct (by_date_from fl l2) as [l3|] eqn:E3; simpl; [|discriminate].
  destruct (by_date_to fl l3) as [l4|] eqn:E4; simpl; [|discriminate].
  intros [= <-].
  destruct (by_min_size_keeps _ _ _ E1) as (P1 & -> & _).
  destruct (by_max_size_keeps _ _ _ E2) as (P2 & -> & _).
  destruct (by_date_from_keeps _ _ _ E3) as (P3 & -> & _).
  destruct (by_date_to_keeps _ _ _ E4) as (P4 & -> & _).
  assert (Hnone : by_file_types fl
            (List.filter P4 (List.filter P3 (List.filter P2 (List.filter P1 (walk σ folder)))))
            = []).
  { unfold by_file_types. rewrite Hgiven. apply List_filter_none.
    intros f Hf. rewrite !elem_of_List_filter in Hf. destruct Hf as [[[[Hf _] _] _] _].
    pose proof (walk_extension_lower σ folder) as Hlow.
    rewrite Forall_forall in Hlow. rewrite Forall_forall in Hupper. specialize (Hlow f Hf).
    destruct (member (extension f) allowed) eqn:Hm; [|reflexivity].
    apply member_true in Hm. exfalso. apply (Hupper _ Hm). exact Hlow. }
  rewrite Hnone. unfold by_media_types. destruct (given_list (media_types fl)); reflexivity.
Qed.

Lemma file_types_filter_is_case_sensitive_witness :
  let σ : fs := {[ [] := Dir 0; ["src"] := Dir 5;
                   ["src"; "a.JPG"] := Examples.media 7 ]} in
  walk σ ["src"] = [Entry ["src"; "a.JPG"] 7 1 2 ".jpg" image] /\
  apply_filters (Environment0 := Examples.env) (walk σ ["src"])
    (Some (Filters None None None None (Some [".JPG"]) None)) = Ok [].
Proof.
  intros σ. split; [reflexivity|].
  rewrite <- (file_types_filter_is_case_sensitive unit Examples.env σ ["src"]
                (Filters None None None None (Some [".JPG"]) None) [".JPG"]
                (List.filter (fun f => member (extension f) [".JPG"]) (walk σ ["src"]))).
  - reflexivity.
  - reflexivity.
  - repeat constructor. discriminate.
  - reflexivity.
Defined.

(** ** binary64 on the values [format_size] meets *)

Section Binary64Facts.

Import Literal.

Lemma round_half_even_exact (p q : Z) : 0 < q -> round_half_even (p * q) q = p.
Proof.
  intros Hq. unfold round_half_even.
  rewrite Z.div_mul by lia. rewrite Z.mod_mul by lia.
  destruct (Z.ltb_spec (2 * 0) q); [reflexivity|lia].
Qed.

Lemma round_half_even_one (p : Z) : round_half_even p 1 = p.
Proof. rewrite <- (Z.mul_1_r p) at 1. apply round_half_even_exact. lia. Qed.

Lemma round_half_even_scale (c p q : Z) :
  0 < c -> 0 < q -> round_half_even (c * p) (c * q) = round_half_even p q.
Proof.
  intros Hc Hq. unfold round_half_even.
  rewrite Z.div_mul_cancel_l by lia. rewrite Z.mul_mod_distr_l by lia.
  destruct (Z.ltb_spec (2 * (p mod q)) q), (Z.ltb_spec (2 * (c * (p mod q))) (c * q));
    try reflexivity; try nia.
  destruct (Z.ltb_spec q (2 * (p mod q))), (Z.ltb_spec (c * q) (2 * (c * (p mod q))));
    try reflexivity; nia.
Qed.

(** A significand of 53 bits over a power of two is represented as it
    is. *)
Lemma binary64_normal (a k : Z) :
  2 ^ 52 <= a < 2 ^ 53 -> 0 <= k <= 1074 -> binary64 a (2 ^ k) = Some (a, - k).
Proof.
  intros Ha Hk.
  assert (Hpow : 0 < 2 ^ k) by (apply Z.pow_pos_nonneg; lia).
  assert (Hla : Z.log2 a = 52) by (apply Z.log2_unique; lia).
  assert (Hlk : Z.log2 (2 ^ k) = k) by (apply Z.log2_pow2; lia).
  assert (Hup : reaches a (2 ^ k) (- k + 1) = false).
  { unfold reaches, scaled. destruct (Z.leb_spec 0 (- k + 1)).
    - apply Z.leb_gt.
      replace (2 ^ k * 2 ^ (- k + 1)) with 2
        by (rewrite <- Z.pow_add_r by lia; replace (k + (- k + 1)) with 1 by lia; reflexivity).
      lia.
    - apply Z.leb_gt.
      replace (2 ^ k) with (2 * 2 ^ (- (- k + 1)))
        by (rewrite <- Z.pow_succ_r by lia; f_equal; lia).
      assert (0 < 2 ^ (- (- k + 1))) by (apply Z.pow_pos_nonneg; lia). nia. }
  assert (Hat : reaches a (2 ^ k) (- k) = true).
  { unfold reaches, scaled. destruct (Z.leb_spec 0 (- k)).
    - apply Z.leb_le. replace k with 0 by lia. simpl. lia.
    - apply Z.leb_le. rewrite Z.opp_involutive. nia. }
  assert (Hround : (let '(n, d) := scaled a (2 ^ k) (- k) in round_half_even n d) = a).
  { unfold scaled. destruct (Z.leb_spec 0 (- k)).
    - replace k with 0 by lia. change (2 ^ 0 * 2 ^ (- 0)) with 1.
      apply round_half_even_one.
    - rewrite Z.opp_involutive. apply round_half_even_exact. exact Hpow. }
  unfold binary64. rewrite Hla, Hlk.
  replace (52 - k - 52) with (- k) by lia.
  rewrite Hup, Hat. rewrite Z.max_l by lia.
  destruct (scaled a (2 ^ k) (- k)) as [n d]. rewrite Hround.
  destruct (Z.ltb_spec 971 (- k)); [lia|].
  destruct (Z.eqb_spec (- k) 971); [lia|]. reflexivity.
Qed.

(** An integer below [2^53] converts exactly: its significand is the
    integer shifted to 53 bits. *)
Lemma binary64_int (n : Z) :
  0 < n < 2 ^ 53 ->
  binary64 n 1 = Some (n * 2 ^ (52 - Z.log2 n), Z.log2 n - 52) /\
  2 ^ 52 <= n * 2 ^ (52 - Z.log2 n) < 2 ^ 53 /\
  0 <= 52 - Z.log2 n <= 52.
Proof.
  intros Hn.
  pose proof (Z.log2_spec n ltac:(lia)) as [Hlo Hhi].
  pose proof (Z.log2_nonneg n) as Hl0.
  assert (Hl52 : Z.log2 n <= 52).
  { destruct (Z.le_gt_cases (Z.log2 n) 52) as [H|H]; [exact H|].
    assert (2 ^ 53 <= 2 ^ Z.log2 n) by (apply Z.pow_le_mono_r; lia). lia. }
  set (L := Z.log2 n) in *. set (s := 52 - L).
  assert (Hs : 0 <= s <= 52) by (unfold s; lia).
  assert (Hps : 0 < 2 ^ s) by (apply Z.pow_pos_nonneg; lia).
  assert (Hsplit : 2 ^ 52 = 2 ^ L * 2 ^ s)
    by (rewrite <- Z.pow_add_r by lia; f_equal; unfold s; lia).
  assert (Hsplit' : 2 ^ 53 = 2 ^ Z.succ L * 2 ^ s)
    by (rewrite <- Z.pow_add_r by lia; f_equal; unfold s; lia).
  assert (Hnorm : 2 ^ 52 <= n * 2 ^ s < 2 ^ 53).
  { rewrite Hsplit, Hsplit'. split; nia. }
  split; [|split; [exact Hnorm|exact Hs]].
  assert (Hup : reaches n 1 (- s + 1) = false).
  { unfold reaches, scaled. destruct (Z.leb_spec 0 (- s + 1)).
    - apply Z.leb_gt. destruct (Z.eq_dec s 0) as [Hs0|Hs0].
      + rewrite Hs0. simpl. rewrite Hs0 in Hnorm. simpl in Hnorm. lia.
      + replace s with 1 in * by lia. simpl. simpl in Hnorm. lia.
    - apply Z.leb_gt.
      assert (0 < 2 ^ (- (- s + 1))) by (apply Z.pow_pos_nonneg; lia).
      assert (2 ^ s = 2 * 2 ^ (- (- s + 1)))
        by (rewrite <- Z.pow_succ_r by lia; f_equal; lia).
      nia. }
  assert (Hat : reaches n 1 (- s) = true).
  { unfold reaches, scaled. destruct (Z.leb_spec 0 (- s)).
    - apply Z.leb_le. replace s with 0 in * by lia. simpl. simpl in Hnorm. lia.
    - apply Z.leb_le. rewrite Z.opp_involutive. lia. }
  assert (Hround : (let '(p, d) := scaled n 1 (- s) in round_half_even p d) = n * 2 ^ s).
  { unfold scaled. destruct (Z.leb_spec 0 (- s)).
    - replace s with 0 by lia. change (1 * 2 ^ (- 0)) with 1. change (2 ^ 0) with 1.
      rewrite Z.mul_1_r. apply round_half_even_one.
    - rewrite Z.opp_involutive. apply round_half_even_one. }
  unfold binary64. fold L. change (Z.log2 1) with 0.
  replace (L - 0 - 52) with (- s) by (unfold s; lia).
  rewrite Hup, Hat. rewrite Z.max_l by lia.
  destruct (scaled n 1 (- s)) as [p d]. rewrite Hround.
  destruct (Z.ltb_spec 971 (- s)); [lia|].
  destruct (Z.eqb_spec (- s) 971); [lia|].
  simpl. do 2 f_equal. unfold s. lia.
Qed.

End Binary64Facts.

(** ** [format_size] below [2^53] *)

Section FormatSizeFacts.

Import Literal.

(** The [float] a size below [2^53] has become after [j] divisions by
    1024: the same significand, the exponent lowered by [10 * j]. *)
Lemma pow_1024 (j : Z) : 0 <= j -> 1024 ^ j = 2 ^ (10 * j).
Proof. intros Hj. change 1024 with (2 ^ 10). rewrite <- Z.pow_mul_r by lia. reflexivity. Qed.

Lemma float_of_int_exact (n : Z) :
  0 < n < 2 ^ 53 ->
  float_of_int n
  = Ok (FFinite false (n * 2 ^ (52 - Z.log2 n)) (- (52 - Z.log2 n + 10 * 0))).
Proof.
  intros Hn. unfold float_of_int.
  destruct (Z.eqb_spec n 0); [lia|]. rewrite Z.abs_eq by lia.
  destruct (binary64_int n Hn) as [-> _].
  destruct (Z.ltb_spec n 0); [lia|]. do 2 f_equal. lia.
Qed.

Lemma fdiv_1024_exact (n j : Z) :
  0 < n < 2 ^ 53 -> 0 <= j <= 100 ->
  fdiv_1024 (FFinite false (n * 2 ^ (52 - Z.log2 n)) (- (52 - Z.log2 n + 10 * j)))
  = FFinite false (n * 2 ^ (52 - Z.log2 n)) (- (52 - Z.log2 n + 10 * (j + 1))).
Proof.
  intros Hn Hj. destruct (binary64_int n Hn) as (_ & Ha & Hs).
  set (s := 52 - Z.log2 n) in *. set (a := n * 2 ^ s) in *.
  unfold fdiv_1024. destruct (Z.eqb_spec a 0); [lia|].
  destruct (Z.leb_spec 10 (- (s + 10 * j))); [lia|].
  replace (10 - - (s + 10 * j)) with (s + 10 * (j + 1)) by lia.
  rewrite (binary64_normal a (s + 10 * (j + 1))) by lia. reflexivity.
Qed.

Lemma flt_1024_exact (n j : Z) :
  0 < n < 2 ^ 53 -> 1 <= j <= 100 ->
  flt_1024 (FFinite false (n * 2 ^ (52 - Z.log2 n)) (- (52 - Z.log2 n + 10 * j)))
  = (n <? 1024 ^ (j + 1)).
Proof.
  intros Hn Hj. destruct (binary64_int n Hn) as (_ & Ha & Hs).
  set (s := 52 - Z.log2 n) in *.
  unfold flt_1024. destruct (Z.leb_spec 0 (- (s + 10 * j))); [lia|].
  rewrite Z.opp_involutive.
  assert (Hps : 0 < 2 ^ s) by (apply Z.pow_pos_nonneg; lia).
  assert (Hsplit : 1024 * 2 ^ (s + 10 * j) = 2 ^ s * 1024 ^ (j + 1)).
  { rewrite (pow_1024 (j + 1)) by lia. change 1024 with (2 ^ 10).
    rewrite <- !Z.pow_add_r by lia. f_equal. lia. }
  rewrite Hsplit.
  destruct (Z.ltb_spec (n * 2 ^ s) (2 ^ s * 1024 ^ (j + 1))),
           (Z.ltb_spec n (1024 ^ (j + 1))); try reflexivity; nia.
Qed.

Lemma format_float_1f_positive (m e : Z) :
  format_float_1f (FFinite false m e)
  = one_decimal (if 0 <=? e then 10 * m * 2 ^ e else round_half_even (10 * m) (2 ^ (- e))).
Proof. reflexivity. Qed.

Lemma format_float_1f_exact (n j : Z) :
  0 < n < 2 ^ 53 -> 0 <= j <= 100 ->
  format_float_1f
    (FFinite false (n * 2 ^ (52 - Z.log2 n)) (- (52 - Z.log2 n + 10 * j)))
  = one_decimal (round_half_even (10 * n) (1024 ^ j)).
Proof.
  intros Hn Hj. destruct (binary64_int n Hn) as (_ & Ha & Hs).
  set (s := 52 - Z.log2 n) in *.
  assert (Hps : 0 < 2 ^ s) by (apply Z.pow_pos_nonneg; lia).
  assert (Hpj : 0 < 1024 ^ j) by (apply Z.pow_pos_nonneg; lia).
  rewrite format_float_1f_positive. f_equal.
  destruct (Z.leb_spec 0 (- (s + 10 * j))).
  - replace s with 0 in * by lia. replace j with 0 in * by lia.
    change (- (0 + 10 * 0)) with 0. change (2 ^ 0) with 1. change (1024 ^ 0) with 1.
    rewrite round_half_even_one. lia.
  - rewrite Z.opp_involutive.
    replace (2 ^ (s + 10 * j)) with (2 ^ s * 1024 ^ j)
      by (rewrite (pow_1024 j) by lia; rewrite <- Z.pow_add_r by lia; reflexivity).
    replace (10 * (n * 2 ^ s)) with (2 ^ s * (10 * n)) by lia.
    apply round_half_even_scale; assumption.
Qed.

End FormatSizeFacts.

(** For a size below [2^53], [format_size] shows the size in the largest
    of the units B, KB, MB, GB, TB that it reaches (TB for everything from
    [1024^4] on), divided by that unit and rounded to one decimal, ties to
    even: the binary64 arithmetic of the loop is exact on this range. The
    unit is chosen before the rounding, so a size just below a unit shows
    as 1024.0 of the unit below. *)
Theorem format_size_rounds_to_one_decimal (n : Z) :
  0 <= n < 2 ^ 53 ->
  format_size n
  = Ok (one_decimal (Literal.round_half_even (10 * n) (1024 ^ unit_index n))
        +:+ " " +:+ unit_name (unit_index n)).
Proof.
  intros Hn. destruct (Z.eq_dec n 0) as [->|Hn0]; [reflexivity|].
  assert (Hpos : 0 < n < 2 ^ 53) by lia.
  pose proof (float_of_int_exact n Hpos) as Hfloat.
  pose proof (fdiv_1024_exact n 0 Hpos ltac:(lia)) as Hd0.
  pose proof (fdiv_1024_exact n 1 Hpos ltac:(lia)) as Hd1.
  pose proof (fdiv_1024_exact n 2 Hpos ltac:(lia)) as Hd2.
  pose proof (fdiv_1024_exact n 3 Hpos ltac:(lia)) as Hd3.
  pose proof (flt_1024_exact n 1 Hpos ltac:(lia)) as Hc1.
  pose proof (flt_1024_exact n 2 Hpos ltac:(lia)) as Hc2.
  pose proof (flt_1024_exact n 3 Hpos ltac:(lia)) as Hc3.
  pose proof (format_float_1f_exact n 0 Hpos ltac:(lia)) as Hf0.
  pose proof (format_float_1f_exact n 1 Hpos ltac:(lia)) as Hf1.
  pose proof (format_float_1f_exact n 2 Hpos ltac:(lia)) as Hf2.
  pose proof (format_float_1f_exact n 3 Hpos ltac:(lia)) as Hf3.
  pose proof (format_float_1f_exact n 4 Hpos ltac:(lia)) as Hf4.
  change (0 + 1) with 1 in Hd0. change (1 + 1) with 2 in *.
  change (2 + 1) with 3 in *. change (3 + 1) with 4 in *.
  set (s := 52 - Z.log2 n) in *. set (a := n * 2 ^ s) in *.
  unfold format_size, unit_index. cbn [format_loop lt_1024 div_1024 format_1f].
  rewrite Hfloat.
  destruct (Z.ltb_spec n 1024).
  { cbn [mbind result_bind]. rewrite Hf0. reflexivity. }
  cbn [mbind result_bind lt_1024 div_1024 format_1f]. rewrite Hd0, Hc1.
  destruct (Z.ltb_spec n (1024 ^ 2)).
  { rewrite Hf1. reflexivity. }
  cbn [mbind result_bind lt_1024 div_1024 format_1f]. rewrite Hd1, Hc2.
  destruct (Z.ltb_spec n (1024 ^ 3)).
  { rewrite Hf2. reflexivity. }
  cbn [mbind result_bind lt_1024 div_1024 format_1f]. rewrite Hd2, Hc3.
  destruct (Z.ltb_spec n (1024 ^ 4)).
  { rewrite Hf3. reflexivity. }
  cbn [mbind result_bind lt_1024 div_1024 format_1f]. rewrite Hd3, Hf4. reflexivity.
Qed.

Lemma format_size_rounds_to_one_decimal_witness :
  format_size 1280 = Ok "1.2 KB" /\ format_size 1048575 = Ok "1024.0 KB".
Proof.
  split.
  - rewrite (format_size_rounds_to_one_decimal 1280); [reflexivity|lia].
  - rewrite (format_size_rounds_to_one_decimal 1048575); [reflexivity|lia].
Defined.

(** ** A number of bytes with the suffix B *)

Section ByteSuffixFacts.

Import Text Literal.

Lemma digit_value_range (c : ascii) : is_digit c = true -> 0 <= digit_value c <= 9.
Proof.
  unfold is_digit, digit_value. intros [H1 H2]%andb_prop.
  apply N.leb_le in H1, H2. lia.
Qed.

Lemma fold_digits_nonneg (l : list ascii) (acc : Z) :
  Forall (fun c => is_digit c = true) l -> 0 <= acc ->
  0 <= fold_left (fun acc d => 10 * acc + d) (map digit_value l) acc.
Proof.
  intros Hall. revert acc. induction Hall as [|c l Hc _ IH]; intros acc Hacc; simpl.
  - exact Hacc.
  - apply IH. pose proof (digit_value_range c Hc). lia.
Qed.

Lemma number_of_nonneg (l : list ascii) :
  Forall (fun c => is_digit c = true) l -> 0 <= number_of (map digit_value l).
Proof. intros Hall. apply fold_digits_nonneg; [exact Hall|lia]. Qed.

(** [float] of a string of digits that writes a number below [2^53]. *)
Lemma pyfloat_digits (l : list ascii) :
  l <> [] -> Forall (fun c => is_digit c = true) l ->
  pyfloat l = Some (decimal false (number_of (map digit_value l)) 0).
Proof.
  intros Hne Hall. unfold pyfloat.
  rewrite (strip_chars_digits l Hall), (upper_chars_digits l Hall).
  destruct l as [|c l]; [congruence|].
  apply Forall_cons in Hall as [Hc Hall].
  assert (Hsign : sign (c :: l) = (false, c :: l)).
  { unfold sign. destruct (bool_decide (c = "-"%char)) eqn:Hm.
    - apply bool_decide_eq_true in Hm. subst c. discriminate Hc.
    - destruct (bool_decide (c = "+"%char)) eqn:Hp; [|reflexivity].
      apply bool_decide_eq_true in Hp. subst c. discriminate Hc. }
  rewrite Hsign.
  rewrite (bool_decide_eq_false_2 (c :: l = chars "INF"))
    by (intros [= -> _]; discriminate Hc).
  rewrite (bool_decide_eq_false_2 (c :: l = chars "INFINITY"))
    by (intros [= -> _]; discriminate Hc).
  rewrite (bool_decide_eq_false_2 (c :: l = chars "NAN"))
    by (intros [= -> _]; discriminate Hc).
  cbn [orb].
  assert (Hnum : number (c :: l) = Some (map digit_value (c :: l), [], [])).
  { unfold number, digitpart. rewrite Hc, (digits_tail_digits l Hall). reflexivity. }
  rewrite Hnum. rewrite app_nil_r. reflexivity.
Qed.

(** The product with the multiplier [1] and the conversion back to
    [int] give the number again. *)
Lemma int_of_float_decimal (n : Z) :
  0 <= n < 2 ^ 53 -> int_of_float (fmul_int (decimal false n 0) 1) = Ok n.
Proof.
  intros Hn. unfold decimal. destruct (Z.eqb_spec n 0) as [->|Hn0]; [reflexivity|].
  change (0 <=? 0) with true. cbv iota. change (10 ^ 0) with 1. rewrite Z.mul_1_r.
  destruct (binary64_int n ltac:(lia)) as (-> & Ha & Hs).
  set (s := 52 - Z.log2 n) in *. set (a := n * 2 ^ s) in *.
  replace (Z.log2 n - 52) with (- s) by (unfold s; lia).
  unfold fmul_int. destruct (Z.eqb_spec a 0); [lia|].
  rewrite Z.mul_1_r.
  assert (Hps : 0 < 2 ^ s) by (apply Z.pow_pos_nonneg; lia).
  destruct (Z.leb_spec 0 (- s)).
  - assert (Hs0 : s = 0) by lia. rewrite Hs0. change (- 0) with 0. change (2 ^ 0) with 1.
    rewrite Z.mul_1_r.
    destruct (binary64_int a ltac:(lia)) as (-> & _ & _).
    assert (Hla : Z.log2 a = 52) by (apply Z.log2_unique; lia).
    rewrite Hla. change (52 - 52) with 0. change (2 ^ 0) with 1. rewrite Z.mul_1_r.
    unfold int_of_float. change (0 <=? 0) with true. cbv iota.
    change (2 ^ 0) with 1. f_equal. unfold a. rewrite Hs0. change (2 ^ 0) with 1. lia.
  - rewrite Z.opp_involutive. rewrite (binary64_normal a s) by lia.
    unfold int_of_float. destruct (Z.leb_spec 0 (- s)); [lia|].
    rewrite Z.opp_involutive. f_equal. unfold a. apply Z.div_mul. lia.
Qed.

End ByteSuffixFacts.

(** A string of digits followed by B or b is read as that number of
    bytes, exactly, as long as the number is below [2^53] (the digits go
    through [float]). Together with the plain integers these are the size
    strings that [parse_size] reads as written. *)
Theorem parse_size_reads_a_byte_count (l : list ascii) (c : ascii) :
  l <> [] ->
  Forall (fun c => Text.is_digit c = true) l ->
  c ∈ ["B"; "b"]%char ->
  Literal.number_of (map Text.digit_value l) < 2 ^ 53 ->
  parse_size (Text.text (l ++ [c])) = Ok (Literal.number_of (map Text.digit_value l)).
Proof.
  intros Hne Hall Hc Hlt.
  pose proof (number_of_nonneg l Hall) as Hpos.
  assert (Hstr : Text.strip_chars (Text.upper_chars (Text.chars (Text.text (l ++ [c]))))
                 = l ++ ["B"%char]).
  { rewrite chars_text. unfold Text.upper_chars. rewrite map_app.
    fold (Text.upper_chars l). rewrite (upper_chars_digits l Hall).
    assert (Hup : map Text.upper_char [c] = ["B"%char]).
    { apply elem_of_cons in Hc as [->|Hc]; [reflexivity|].
      apply list_elem_of_singleton in Hc. subst c. reflexivity. }
    rewrite Hup. rewrite strip_chars_snoc by reflexivity.
    rewrite (lstrip_digits l Hall). reflexivity. }
  unfold parse_size, parse_size_outcome. rewrite Hstr.
  assert (Hsuffix : try_suffixes (l ++ ["B"%char]) multipliers
                    = Returned (Ok (Literal.number_of (map Text.digit_value l)))).
  { unfold multipliers. cbn [try_suffixes].
    assert (Hends : Text.endswith (l ++ ["B"%char]) (Text.chars "B") = true).
    { unfold Text.endswith. apply bool_decide_eq_true_2.
      rewrite length_app. simpl.
      replace (length l + 1 - 1)%nat with (length l) by lia.
      apply drop_app_length. }
    assert (Hchop : Text.chop (l ++ ["B"%char]) (Text.chars "B") = l).
    { unfold Text.chop. rewrite length_app. simpl.
      replace (length l + 1 - 1)%nat with (length l) by lia.
      apply take_app_length. }
    rewrite Hends, Hchop, (pyfloat_digits l Hne Hall).
    rewrite int_of_float_decimal by lia. reflexivity. }
  rewrite Hsuffix. reflexivity.
Qed.

Lemma parse_size_reads_a_byte_count_witness : parse_size "2048b" = Ok 2048.
Proof.
  apply (parse_size_reads_a_byte_count (Text.chars "2048") "b"%char).
  - discriminate.
  - repeat constructor.
  - apply elem_of_cons. right. apply elem_of_cons. left. reflexivity.
  - reflexivity.
Defined.

(** ** The binary suffixes, in general *)

(** Whatever precedes it, a suffix KB, MB, GB or TB in any letter case
    sends [parse_size] to the invalid-format branch: the "B" entry of the
    table is tried first, what is left is no number, and the result is
    [0]. *)
Theorem parse_size_rejects_binary_suffixes (number suffix : string) :
  Text.upper suffix ∈ ["KB"; "MB"; "GB"; "TB"] ->
  parse_size_outcome (number +:+ suffix) = Invalid /\
  parse_size (number +:+ suffix) = Ok 0.
Proof. intros Hsuffix. apply parse_size_binary_suffix_invalid. exact Hsuffix. Qed.

Lemma parse_size_rejects_binary_suffixes_witness :
  parse_size_outcome ("250" +:+ "Mb") = Invalid /\ parse_size ("250" +:+ "Mb") = Ok 0.
Proof.
  apply (parse_size_rejects_binary_suffixes "250" "Mb").
  vm_compute. apply elem_of_cons. right. apply elem_of_cons. left. reflexivity.
Defined.

(** ** Witnesses *)

Lemma get_media_metadata_by_extension_witness :
  get_media_metadata ["photos"; "clip.MOV"] = video.
Proof.
  destruct (get_media_metadata_by_extension ["photos"; "clip.MOV"])
    as [[Hext _]|[[_ Htype]|[Hext _]]].
  - reflexivity.
  - exfalso. vm_compute in Hext.
    repeat (apply elem_of_cons in Hext as [Hext|Hext]; [discriminate|]). inversion Hext.
  - exact Htype.
  - exfalso. vm_compute in Hext.
    repeat (apply elem_of_cons in Hext as [Hext|Hext]; [discriminate|]). inversion Hext.
Defined.

Lemma copy_twice_existing_sources_witness :
  let run := copy_files_parallel (Environment0 := Examples.env) ResumeExample.selected
               ["out"] true None ResumeExample.σ0 in
  copy_files_parallel (Environment0 := Examples.env) ResumeExample.selected
    ["out"] true None (snd run) = (Ok (2%nat, []), snd run).
Proof.
  intros run.
  destruct (copy_twice_existing_sources unit Examples.env Examples.env_laws
              ResumeExample.selected ["out"] true None ResumeExample.σ0 (snd run) 2 [])
    as [_ Hagain].
  - reflexivity.
  - intros e He.
    repeat (apply elem_of_cons in He as [->|He]; [split; [reflexivity|discriminate]|]).
    inversion He.
  - vm_compute. reflexivity.
  - exact Hagain.
Defined.

(** ** What the scan of the source folders collects *)

Section ScanKeys.

Context {rng : Type} `{!Environment rng}.

Lemma dict_set_absent folder files (folder_files : list (Path.t * list entry)) :
  folder ∉ folder_files.*1 -> dict_set folder files folder_files = folder_files ++ [(folder, files)].
Proof.
  induction folder_files as [|[k v] ff IH]; intros Hnot; [reflexivity|].
  cbn [dict_set]. rewrite bool_decide_eq_false_2.
  - rewrite IH; [reflexivity|]. intros Hin. apply Hnot. csimpl. right. exact Hin.
  - intros ->. apply Hnot. csimpl. left.
Qed.

Lemma dict_set_NoDup folder files (folder_files : list (Path.t * list entry)) :
  NoDup folder_files.*1 -> NoDup (dict_set folder files folder_files).*1.
Proof.
  induction folder_files as [|[k v] ff IH]; csimpl; intros Hnd.
  - apply NoDup_singleton.
  - apply NoDup_cons in Hnd as [Hnot Hnd].
    destruct (decide (k = folder)) as [->|Hne].
    + rewrite bool_decide_eq_true_2 by reflexivity. csimpl.
      apply NoDup_cons. split; assumption.
    + rewrite bool_decide_eq_false_2 by exact Hne. csimpl.
      apply NoDup_cons. split; [|apply IH, Hnd].
      rewrite dict_set_keys. intros [->|Hin]; [congruence|contradiction].
Qed.

(** One folder added to what was collected. *)
Lemma collected_step folder files acc (rest : list Path.t) :
  NoDup (folder_files acc).*1 ->
  let acc' := Scanned (dict_set folder files (folder_files acc))
                      (all_files_data acc ++ files) in
  NoDup (folder_files acc').*1 /\
  (forall k, k ∈ (folder_files acc').*1 <-> k = folder \/ k ∈ (folder_files acc).*1) /\
  (folder ∉ (folder_files acc).*1 ->
   all_files_data acc = concat (folder_files acc).*2 ->
   all_files_data acc' = concat (folder_files acc').*2).
Proof.
  intros Hnd. cbv zeta. cbn [folder_files all_files_data].
  split; [apply dict_set_NoDup, Hnd|]. split; [intros k; apply dict_set_keys|].
  intros Hnot Hall. rewrite (dict_set_absent _ _ _ Hnot), Hall.
  rewrite fmap_app, concat_app. csimpl. rewrite app_nil_r. reflexivity.
Qed.

Lemma scan_inline_collects filters use_cache :
  forall folders acc σ sc σ',
    scan_inline filters use_cache folders acc σ = (Ok sc, σ') ->
    NoDup (folder_files acc).*1 ->
    NoDup (folder_files sc).*1 /\
    (forall k, k ∈ (folder_files sc).*1 <-> k ∈ (folder_files acc).*1 \/ k ∈ folders) /\
    (NoDup folders ->
     (forall k, k ∈ folders -> k ∉ (folder_files acc).*1) ->
     all_files_data acc = concat (folder_files acc).*2 ->
     all_files_data sc = concat (folder_files sc).*2).
Proof.
  induction folders as [|folder folders IH]; intros acc σ sc σ'; cbn [scan_inline].
  - intros [= <- <-] Hnd. split; [exact Hnd|]. split; [|auto].
    intros k. rewrite elem_of_nil. tauto.
  - destruct (collect_media_files_optimized folder filters use_cache σ)
      as [[files|e] σ1] eqn:Hc.
    2:{ erewrite io_bind_raise by exact Hc. discriminate. }
    erewrite io_bind_ok by exact Hc. intros Hrun Hnd.
    destruct (collected_step folder files acc folders Hnd) as (Hnd1 & Hkeys1 & Hall1).
    destruct (IH _ _ _ _ Hrun Hnd1) as (Hnd' & Hkeys' & Hall').
    split; [exact Hnd'|]. split.
    + intros k. rewrite Hkeys', Hkeys1, elem_of_cons. tauto.
    + intros Hfolders Hfresh Hall. apply NoDup_cons in Hfolders as [Hnotin Hfolders].
      apply Hall'; [exact Hfolders| |].
      * intros k Hk Hin. apply Hkeys1 in Hin as [->|Hin]; [contradiction|].
        apply (Hfresh k); [right; exact Hk|exact Hin].
      * apply Hall1; [|exact Hall]. apply Hfresh. left.
Qed.

Lemma scan_parallel_collects filters use_cache :
  forall futures acc σ sc σ',
    scan_parallel filters use_cache futures acc σ = (Ok sc, σ') ->
    NoDup (folder_files acc).*1 ->
    NoDup (folder_files sc).*1 /\
    (forall k, k ∈ (folder_files sc).*1 -> k ∈ (folder_files acc).*1 \/ k ∈ futures) /\
    (NoDup futures ->
     (forall k, k ∈ futures -> k ∉ (folder_files acc).*1) ->
     all_files_data acc = concat (folder_files acc).*2 ->
     all_files_data sc = concat (folder_files sc).*2).
Proof.
  induction futures as [|folder futures IH]; intros acc σ sc σ'; cbn [scan_parallel].
  - intros [= <- <-] Hnd. split; [exact Hnd|]. split; [auto|auto].
  - destruct (collect_media_files_optimized folder filters use_cache σ)
      as [[files|e] σ1] eqn:Hc.
    + erewrite io_bind_ok;
        [|erewrite try_except_ok; [reflexivity|erewrite io_bind_ok by exact Hc; reflexivity]].
      intros Hrun Hnd.
      destruct (collected_step folder files acc futures Hnd) as (Hnd1 & Hkeys1 & Hall1).
      destruct (IH _ _ _ _ Hrun Hnd1) as (Hnd' & Hkeys' & Hall').
      split; [exact Hnd'|]. split.
      * intros k Hk. destruct (Hkeys' k Hk) as [Hin|Hin].
        -- apply Hkeys1 in Hin as [->|Hin]; [right; left|left; exact Hin].
        -- right. right. exact Hin.
      * intros Hfutures Hfresh Hall. apply NoDup_cons in Hfutures as [Hnotin Hfutures].
        apply Hall'; [exact Hfutures| |].
        -- intros k Hk Hin. apply Hkeys1 in Hin as [->|Hin]; [contradiction|].
           apply (Hfresh k); [right; exact Hk|exact Hin].
        -- apply Hall1; [|exact Hall]. apply Hfresh. left.
    + erewrite io_bind_ok;
        [|erewrite try_except_raise; [reflexivity|erewrite io_bind_raise by exact Hc; reflexivity]].
      intros Hrun Hnd.
      destruct (IH _ _ _ _ Hrun Hnd) as (Hnd' & Hkeys' & Hall').
      split; [exact Hnd'|]. split.
      * intros k Hk. destruct (Hkeys' k Hk) as [Hin|Hin]; [left; exact Hin|right; right; exact Hin].
      * intros Hfutures Hfresh Hall. apply NoDup_cons in Hfutures as [Hnotin Hfutures].
        apply Hall'; [exact Hfutures| |exact Hall].
        intros k Hk. apply Hfresh. right. exact Hk.
Qed.

End ScanKeys.

(** The scan of the source folders fills a dictionary with one key for
    each source folder scanned, holding that folder's entries, and a list
    of all entries. The keys are distinct source folders; a single source
    folder is always a key (on the pool, a folder whose scan raised is
    left out); and when the source folders are distinct, the list of all
    entries is the concatenation of the dictionary's values in its order,
    so both selections see the same entries. *)
Theorem scan_all_collects_per_folder
    (rng : Type) (E : Environment rng) (L : EnvironmentLaws rng)
    (source_folders : list Path.t) (filters : option filters) (use_cache : bool)
    (σ σ' : fs) (sc : scanned) :
  scan_all source_folders filters use_cache σ = (Ok sc, σ') ->
  NoDup (folder_files sc).*1 /\
  (forall k, k ∈ (folder_files sc).*1 -> k ∈ source_folders) /\
  ((length source_folders <= 1)%nat ->
   forall k, k ∈ source_folders -> k ∈ (folder_files sc).*1) /\
  (length (folder_files sc) <= length source_folders)%nat /\
  (NoDup source_folders -> all_files_data sc = concat (folder_files sc).*2).
Proof.
  intros Hscan.
  pose proof (scan_all_folder_count source_folders filters use_cache σ sc σ' Hscan) as Hcount.
  unfold scan_all in Hscan.
  destruct (bool_decide (1 < length source_folders)%nat) eqn:Hmany.
  - apply bool_decide_eq_true in Hmany.
    destruct (scan_parallel_collects _ _ _ _ _ _ _ Hscan (NoDup_nil_2 : NoDup ([] : list Path.t)))
      as (Hnd & Hkeys & Hall).
    split; [exact Hnd|]. split; [|split; [lia|split; [exact Hcount|]]].
    + intros k Hk. destruct (Hkeys k Hk) as [Hin|Hin]; [inversion Hin|].
      rewrite (as_completed_perm _ source_folders) in Hin. exact Hin.
    + intros Hsrc. apply Hall; [|intros k _ Hin; inversion Hin|reflexivity].
      rewrite (as_completed_perm _ source_folders). exact Hsrc.
  - destruct (scan_inline_collects _ _ _ _ _ _ _ Hscan (NoDup_nil_2 : NoDup ([] : list Path.t)))
      as (Hnd & Hkeys & Hall).
    split; [exact Hnd|]. split; [|split; [|split; [exact Hcount|]]].
    + intros k Hk. apply Hkeys in Hk as [Hin|Hin]; [inversion Hin|exact Hin].
    + intros _ k Hk. apply Hkeys. right. exact Hk.
    + intros Hsrc. apply Hall; [exact Hsrc|intros k _ Hin; inversion Hin|reflexivity].
Qed.

Lemma scan_all_collects_per_folder_witness :
  let σ : fs := {[ [] := Dir 0; ["a"] := Dir 5; ["b"] := Dir 5;
                   ["a"; "x.jpg"] := Examples.media 7; ["b"; "y.png"] := Examples.media 9 ]} in
  let scan := scan_all (Environment0 := Examples.env) [["a"]; ["b"]] None false σ in
  exists sc, fst scan = Ok sc /\ all_files_data sc = concat (folder_files sc).*2.
Proof.
  intros σ scan.
  destruct scan as [[sc|e] σ'] eqn:Hscan; [|discriminate Hscan].
  exists sc. split; [reflexivity|].
  destruct (scan_all_collects_per_folder unit Examples.env Examples.env_laws
              [["a"]; ["b"]] None false σ σ' sc Hscan) as (_ & _ & _ & _ & Hall).
  apply Hall. repeat constructor; intros Hin;
    repeat (apply elem_of_cons in Hin as [Hin|Hin]; [discriminate|]); inversion Hin.
Defined.

(** ** Where a file is copied to *)

Section DestinationFacts.

Lemma find_path_some (file_path : Path.t) (selected : list entry) (e : entry) :
  e ∈ selected -> path e = file_path ->
  exists f, List.find (fun f => bool_decide (path f = file_path)) selected = Some f /\
            path f = file_path.
Proof.
  intros Hin Hpath.
  destruct (List.find (fun f => bool_decide (path f = file_path)) selected) as [f|] eqn:Hfind.
  - exists f. split; [reflexivity|]. apply find_some in Hfind as [_ Hf].
    apply bool_decide_eq_true in Hf. exact Hf.
  - exfalso. apply list_elem_of_In in Hin.
    pose proof (find_none _ _ Hfind e Hin) as Hno. simpl in Hno.
    apply bool_decide_eq_false in Hno. contradiction.
Qed.

End DestinationFacts.

(** The resolved destination of a file depends on its own path only.
    Without [preserve_structure] it is the destination folder with the
    file's name. With it, for a file among the selected ones whose parent
    folder has a name, it is the destination folder, then the name of the
    immediate parent folder, then the file's name: nothing above the
    parent is kept, so two selected files that agree on their last two
    components resolve to the same destination. *)
Theorem destination_keeps_the_parent_name_only
    (dest_path : Path.t) (selected : list entry) :
  (forall p, destination_of p dest_path false selected = Path.join dest_path (Path.name p)) /\
  (forall e, e ∈ selected ->
     Path.name (Path.parent (path e)) <> "" ->
     destination_of (path e) dest_path true selected
     = Path.join (Path.join dest_path (Path.name (Path.parent (path e))))
                 (Path.name (path e))) /\
  (forall e, e ∈ selected ->
     Path.name (Path.parent (path e)) = "" ->
     destination_of (path e) dest_path true selected
     = Path.join dest_path (Path.name (path e))) /\
  (forall e1 e2 above1 above2 folder name,
     e1 ∈ selected -> e2 ∈ selected ->
     folder <> "" ->
     path e1 = above1 ++ [folder; name] ->
     path e2 = above2 ++ [folder; name] ->
     destination_of (path e1) dest_path true selected
     = destination_of (path e2) dest_path true selected).
Proof.
  assert (Hkeep : forall e, e ∈ selected ->
            Path.name (Path.parent (path e)) <> "" ->
            destination_of (path e) dest_path true selected
            = Path.join (Path.join dest_path (Path.name (Path.parent (path e))))
                        (Path.name (path e))).
  { intros e Hin Hname. unfold destination_of, dest_subfolder.
    destruct (find_path_some (path e) selected e Hin eq_refl) as (f & -> & Hf).
    rewrite Hf. rewrite bool_decide_eq_false_2 by exact Hname. reflexivity. }
  split; [reflexivity|]. split; [exact Hkeep|]. split.
  - intros e Hin Hname. unfold destination_of, dest_subfolder.
    destruct (find_path_some (path e) selected e Hin eq_refl) as (f & -> & Hf).
    rewrite Hf. rewrite bool_decide_eq_true_2 by exact Hname. reflexivity.
  - intros e1 e2 above1 above2 folder name Hin1 Hin2 Hfolder Hp1 Hp2.
    assert (Hparts : forall above,
              Path.name (Path.parent (above ++ [folder; name])) = folder /\
              Path.name (above ++ [folder; name]) = name).
    { intros above. unfold Path.name, Path.parent.
      replace (above ++ [folder; name]) with ((above ++ [folder]) ++ [name])
        by (rewrite <- app_assoc; reflexivity).
      rewrite removelast_last, !last_last. auto. }
    rewrite (Hkeep e1 Hin1), (Hkeep e2 Hin2).
    + rewrite Hp1, Hp2.
      destruct (Hparts above1) as [-> ->]. destruct (Hparts above2) as [-> ->]. reflexivity.
    + rewrite Hp2. destruct (Hparts above2) as [-> _]. exact Hfolder.
    + rewrite Hp1. destruct (Hparts above1) as [-> _]. exact Hfolder.
Qed.

Lemma destination_keeps_the_parent_name_only_witness :
  let e1 := Examples.jpg ["2023"; "trip"] "img.jpg" 5 in
  let e2 := Examples.jpg ["2024"; "trip"] "img.jpg" 6 in
  destination_of (path e1) ["dst"] true [e1; e2] = ["dst"; "trip"; "img.jpg"] /\
  destination_of (path e2) ["dst"] true [e1; e2] = ["dst"; "trip"; "img.jpg"].
Proof.
  intros e1 e2.
  destruct (destination_keeps_the_parent_name_only ["dst"] [e1; e2]) as (_ & Hkeep & _).
  split.
  - rewrite (Hkeep e1); [reflexivity|left|discriminate].
  - rewrite (Hkeep e2); [reflexivity|right; left|discriminate].
Defined.

(** ** A run into a fresh destination *)

Section FlatRun.

Context {rng : Type} `{!Environment rng}.

(** *** Media names *)

Lemma is_media_name (p q : Path.t) : Path.name p = Path.name q -> is_media p = is_media q.
Proof. unfold is_media, Path.suffix. intros ->. reflexivity. Qed.

Lemma is_media_suffix (p : Path.t) : is_media p = true -> Path.suffix p <> "".
Proof. unfold is_media. intros H Hs. rewrite Hs in H. discriminate H. Qed.

Lemma is_media_named (p : Path.t) : is_media p = true -> Path.name p <> "".
Proof.
  intros H Hn. apply (is_media_suffix p H). unfold Path.suffix. rewrite Hn. reflexivity.
Qed.

Lemma join_is_media (dest_path : Path.t) (name : string) :
  name <> "" -> is_media (Path.join dest_path name) = is_media [name].
Proof. intros Hn. apply is_media_name. rewrite (name_join _ _ Hn). reflexivity. Qed.

(** The flat destination of a media file is a media file in the
    destination folder. *)
Lemma flat_destination_media (p dest_path : Path.t) (selected : list entry) :
  is_media p = true ->
  is_media (destination_of p dest_path false selected) = true /\
  Path.parent (destination_of p dest_path false selected) = dest_path.
Proof.
  intros H. pose proof (is_media_named p H) as Hn.
  change (destination_of p dest_path false selected) with (Path.join dest_path (Path.name p)).
  split; [|apply parent_join, Hn].
  rewrite <- H. apply is_media_name. apply name_join, Hn.
Qed.

(** *** Nodes that appear *)

Lemma create_file_is_dir (d : Path.t) (f : file_node) (σ : fs) (p : Path.t) :
  σ !! d = None -> is_dir (create d (File f) σ) p = is_dir σ p.
Proof.
  intros Hd. unfold create, is_dir at 1.
  destruct (decide (p = d)) as [->|Hne].
  - rewrite lookup_insert_eq. unfold is_dir. rewrite Hd. reflexivity.
  - rewrite lookup_insert_ne by congruence.
    destruct (touch_parent_lookup d p σ) as [->|(_ & Hdir & ->)]; [reflexivity|].
    symmetry. exact Hdir.
Qed.

Lemma checkpoint_is_dir resume_file total pr σ p :
  is_dir (snd (checkpoint resume_file total pr σ)) p = is_dir σ p.
Proof.
  unfold checkpoint. destruct resume_file as [r|]; [|reflexivity].
  apply try_write_file_is_dir.
Qed.

(** *** The work list of a fresh destination *)

Lemma remaining_files_fresh dest_path selected todo σ :
  (forall e, e ∈ todo ->
     exists_ σ (destination_of (path e) dest_path false selected) = false) ->
  remaining_files ∅ dest_path false selected todo σ = (Ok todo, σ).
Proof.
  induction todo as [|e todo IH]; intros Hfresh; cbn [remaining_files]; [reflexivity|].
  rewrite (io_bind_ok _ _ _ _ _ (get_destination_path_id _ _ false _ σ I)).
  rewrite io_bind_get.
  rewrite (io_bind_ok _ _ _ _ _ (IH ltac:(intros e' He'; apply Hfresh; right; exact He'))).
  rewrite (Hfresh e) by left.
  rewrite bool_decide_eq_false_2 by set_solver. reflexivity.
Qed.

(** *** What stays free *)

Lemma create_keeps_free (d q : Path.t) (n : node) (σ : fs) :
  q <> d -> σ !! q = None -> create d n σ !! q = None.
Proof.
  intros Hne Hq. unfold create. rewrite lookup_insert_ne by congruence.
  destruct (touch_parent_lookup d q σ) as [->|(_ & Hdir & _)]; [exact Hq|].
  unfold is_dir in Hdir. rewrite Hq in Hdir. discriminate.
Qed.

Lemma checkpoint_keeps_free (r q : Path.t) total pr σ :
  q <> r -> σ !! q = None -> snd (checkpoint (Some r) total pr σ) !! q = None.
Proof.
  intros Hne Hq. unfold checkpoint, save_operation_state.
  destruct (try_write_file_wrote r (ResumeJson total (elements (copied_files pr)) now) σ q)
    as [->|[[-> _]|(_ & Hdir & _)]]; [exact Hq|congruence|].
  unfold is_dir in Hdir. rewrite Hq in Hdir. discriminate.
Qed.

(** *** The loop over the futures, when nothing stands in the way *)

(** Media files with pairwise distinct names, copied flat into a folder
    where these names are free: every one is copied under its own name. *)
Lemma flat_copy_loop dest_path (r : Path.t) selected n :
  is_media r = false ->
  forall futures i pr σ,
    NoDup (map (fun e => Path.name (path e)) futures) ->
    (forall e, e ∈ futures ->
       copy_ready σ dest_path false selected e /\ is_media (path e) = true /\
       exists_ σ (destination_of (path e) dest_path false selected) = false) ->
    exists pr' σ',
      copy_loop dest_path false (Some r) selected n i pr futures σ = (Ok pr', σ') /\
      errors pr' = errors pr /\
      copied_count pr' = (copied_count pr + length futures)%nat /\
      (forall p, is_dir σ' p = is_dir σ p) /\
      keeps_files (Some r) σ σ' /\
      forall e, e ∈ futures ->
        exists f,
          σ !! path e = Some (File f) /\
          σ' !! destination_of (path e) dest_path false selected = Some (copy_of f).
Proof.
  intros Hr. induction futures as [|e futures IH]; intros i pr σ Hnames Hready;
    cbn [copy_loop].
  - exists pr, σ. split; [reflexivity|]. split; [reflexivity|]. split; [simpl; lia|].
    split; [reflexivity|]. split; [apply keeps_files_refl|].
    intros e He. inversion He.
  - destruct (Hready e ltac:(left)) as ((Hf & Hs & Hd & Hdir) & Hmedia & Hfree).
    apply is_file_lookup in Hf as [f Hf].
    set (d := destination_of (path e) dest_path false selected) in *.
    destruct (copy_single_file_returns (path e) dest_path false selected σ f
                Hf Hs Hd Hdir) as (d' & σ1 & Hc & Hres & Hσ1).
    fold d in Hres. rewrite (resolve_conflict_unused σ d Hfree) in Hres.
    injection Hres as <-.
    apply not_exists_lookup in Hfree.
    destruct (flat_destination_media (path e) dest_path selected Hmedia) as [Hdm _].
    fold d in Hdm.
    assert (Hext : extends σ σ1) by (rewrite Hσ1; apply create_extends, Hfree).
    set (pr1 := Progress ({[d]} ∪ copied_files pr) (S (copied_count pr)) (errors pr)).
    set (save := if bool_decide (i mod 10 = 0)%nat || bool_decide (i = n)
                 then checkpoint (Some r) (length selected) pr1 else mret tt).
    assert (Hsave : exists σ2, save σ1 = (Ok tt, σ2) /\
                      keeps_files (Some r) σ1 σ2 /\ persists σ1 σ2 /\
                      (forall p, is_dir σ2 p = is_dir σ1 p) /\
                      forall q, q <> r -> σ1 !! q = None -> σ2 !! q = None).
    { unfold save. destruct (_ || _).
      - pose proof (checkpoint_ok (Some r) (length selected) pr1 σ1) as Hok.
        pose proof (checkpoint_keeps_files (Some r) (length selected) pr1 σ1) as Hk.
        pose proof (checkpoint_persists (Some r) (length selected) pr1 σ1) as Hp.
        pose proof (checkpoint_is_dir (Some r) (length selected) pr1 σ1) as Hdirs.
        pose proof (fun q => checkpoint_keeps_free r q (length selected) pr1 σ1) as Hfr.
        destruct (checkpoint (Some r) (length selected) pr1 σ1) as [r2 σ2].
        simpl in *. subst r2. exists σ2. auto.
      - exists σ1. split; [reflexivity|].
        split; [apply keeps_files_refl|]. split; [apply persists_refl|]. auto. }
    destruct Hsave as (σ2 & Hsave & Hk2 & Hp2 & Hdirs2 & Hfree2).
    assert (Hp : persists σ σ2)
      by (eapply persists_trans; [apply extends_persists, Hext|exact Hp2]).
    assert (Hk : keeps_files (Some r) σ σ2)
      by (eapply keeps_files_trans; [apply extends_keeps_files, Hext|exact Hk2]).
    assert (Hnot_r : forall p, is_media p = true -> p <> r) by (intros p Hp' ->; congruence).
    apply NoDup_cons in Hnames as [Hname Hnames].
    destruct (IH (S i) pr1 σ2 Hnames)
      as (pr' & σ' & Hloop & Herr & Hcount & Hdirs & Hk' & Hcopies).
    { intros e' He'. destruct (Hready e' ltac:(right; exact He')) as (Hrd & Hm & Hfr).
      split; [eapply copy_ready_persists; eassumption|]. split; [exact Hm|].
      apply not_exists_lookup. apply not_exists_lookup in Hfr.
      destruct (flat_destination_media (path e') dest_path selected Hm) as [Hdm' _].
      apply Hfree2; [apply Hnot_r, Hdm'|].
      rewrite Hσ1. apply create_keeps_free; [|exact Hfr].
      intros Heq. apply Hname.
      change (Path.join dest_path (Path.name (path e'))
              = Path.join dest_path (Path.name (path e))) in Heq.
      apply join_inj_name in Heq; [|apply is_media_named, Hm|apply is_media_named, Hmedia].
      rewrite <- Heq. apply list_elem_of_In, in_map_iff. exists e'.
      split; [reflexivity|apply list_elem_of_In, He']. }
    exists pr', σ'. split; [|split; [|split; [|split; [|split]]]].
    + erewrite io_bind_ok by exact Hc. fold pr1. fold save.
      erewrite io_bind_ok by exact Hsave. exact Hloop.
    + rewrite Herr. reflexivity.
    + rewrite Hcount. simpl. lia.
    + intros p. rewrite Hdirs, Hdirs2, Hσ1. apply create_file_is_dir, Hfree.
    + eapply keeps_files_trans; eassumption.
    + intros e' He'. apply elem_of_cons in He' as [->|He'].
      * exists f. split; [exact Hf|]. fold d.
        apply Hk'; [intros [= Heq]; apply (Hnot_r d Hdm Heq)|].
        apply Hk2; [intros [= Heq]; apply (Hnot_r d Hdm Heq)|].
        rewrite Hσ1. apply create_lookup.
      * destruct (Hcopies e' He') as (f' & Hsrc & Hcopy).
        exists f'. split; [|exact Hcopy].
        destruct (Hready e' ltac:(right; exact He')) as ((Hf' & _) & Hm & _).
        apply is_file_lookup in Hf' as [f0 Hf0].
        assert (Hf2 : σ2 !! path e' = Some (File f0)).
        { apply Hk; [|exact Hf0]. intros [= Heq]. apply (Hnot_r _ Hm Heq). }
        congruence.
Qed.

(** *** The copy into a fresh destination *)

Lemma flat_copy_files_parallel `{!EnvironmentLaws rng} selected dest_path (r : Path.t) σ :
  is_media r = false ->
  is_dir σ [] = true ->
  dirs_ready σ [] dest_path ->
  exists_ σ r = false ->
  NoDup (map (fun e => Path.name (path e)) selected) ->
  (forall e, e ∈ selected -> is_file σ (path e) = true /\ is_media (path e) = true) ->
  (forall e, e ∈ selected ->
     exists_ σ (destination_of (path e) dest_path false selected) = false) ->
  exists σ',
    copy_files_parallel selected dest_path false (Some r) σ
    = (Ok (length selected, []), σ') /\
    (forall p, is_dir σ' p = is_dir σ p) /\
    keeps_files (Some r) σ σ' /\
    forall e, e ∈ selected ->
      exists f,
        σ !! path e = Some (File f) /\
        σ' !! destination_of (path e) dest_path false selected = Some (copy_of f).
Proof.
  intros Hr Hroot Hdest Hres Hnames Hsrc Hfresh. unfold copy_files_parallel.
  erewrite io_bind_ok by exact (makedirs_ready_id [] dest_path σ Hdest).
  rewrite io_bind_get.
  assert (Hledger : load_ledger σ (Some r) = ∅) by (unfold load_ledger; rewrite Hres; reflexivity).
  rewrite Hledger.
  rewrite (io_bind_ok _ _ _ _ _ (remaining_files_fresh dest_path selected selected σ Hfresh)).
  destruct selected as [|t todo] eqn:Hsel.
  { exists σ. split; [reflexivity|]. split; [reflexivity|]. split; [apply keeps_files_refl|].
    intros e He. inversion He. }
  rewrite <- Hsel in *.
  destruct (flat_copy_loop dest_path r selected (length selected) Hr
              (as_completed selected) 1%nat (Progress ∅ (base.size (∅ : gset Path.t)) []) σ)
    as (pr' & σ' & Hloop & Herr & Hcount & Hdirs & Hk & Hcopies).
  { rewrite (as_completed_perm _ selected). exact Hnames. }
  { intros e He. rewrite (as_completed_perm _ selected) in He.
    destruct (Hsrc e He) as [Hf Hm]. split; [|split; [exact Hm|apply Hfresh, He]].
    apply copy_ready_intro; [exact Hroot|exact Hdest|exact Hf|apply is_media_named, Hm|exact I]. }
  exists σ'. split; [|split; [exact Hdirs|split; [exact Hk|]]].
  - rewrite Hsel at 1. rewrite <- Hsel.
    erewrite io_bind_ok by exact Hloop.
    rewrite Herr, Hcount. cbn [copied_count errors].
    rewrite size_empty, (Permutation_length (as_completed_perm _ selected)). reflexivity.
  - intros e He. apply Hcopies. rewrite (as_completed_perm _ selected). exact He.
Qed.

(** *** The selection log *)

Lemma try_write_keeps_files (p : Path.t) (d : payload) (σ : fs) :
  keeps_files (Some p) σ (snd (try_except (write_file p d) (fun _ => mret tt) σ)).
Proof.
  intros q f Hne Hq.
  destruct (try_write_file_wrote p d σ q) as [Heq|[[-> _]|(_ & Hd & _)]].
  - rewrite Heq. exact Hq.
  - congruence.
  - unfold is_dir in Hd. rewrite Hq in Hd. discriminate.
Qed.

Lemma save_selection_log_effect selected dest_path st filters σ :
  is_dir σ (Path.join dest_path log_name) = false ->
  is_dir σ dest_path = true ->
  exists σ',
    save_selection_log selected dest_path st filters σ = (Ok tt, σ') /\
    log_files <$> load_operation_state σ' (Path.join dest_path log_name)
    = Some (map path selected) /\
    keeps_files (Some (Path.join dest_path log_name)) σ σ' /\
    forall p, is_dir σ' p = is_dir σ p.
Proof.
  intros Hlog Hdest.
  pose proof (save_selection_log_files selected dest_path st filters σ) as Hfiles.
  cbv zeta in Hfiles.
  assert (Hparent : Path.parent (Path.join dest_path log_name) = dest_path)
    by (apply parent_join; discriminate).
  unfold save_selection_log in *.
  set (doc := LogJson _ _ _ _ _ _) in *.
  pose proof (try_write_keeps_files (Path.join dest_path log_name) doc σ) as Hk.
  pose proof (try_write_file_is_dir (Path.join dest_path log_name) doc σ) as Hdirs.
  assert (Hwritten : is_file (snd (try_except (write_file (Path.join dest_path log_name) doc)
                                              (fun _ => mret tt) σ))
                             (Path.join dest_path log_name) = true).
  { unfold try_except, write_file. unfold is_dir in Hlog.
    destruct (σ !! Path.join dest_path log_name) as [[m|f]|] eqn:Hl; [discriminate| |].
    - simpl. unfold is_file. rewrite lookup_insert_eq. reflexivity.
    - rewrite Hparent, Hdest. simpl. unfold is_file. rewrite create_lookup. reflexivity. }
  destruct (try_except (write_file (Path.join dest_path log_name) doc) (fun _ => mret tt) σ)
    as [res σ'] eqn:Hrun.
  assert (Hres : res = Ok tt).
  { revert Hrun. unfold try_except.
    destruct (write_file (Path.join dest_path log_name) doc σ) as [[[]|e] σ0];
      intros [= <- _]; reflexivity. }
  subst res. simpl in *. exists σ'. split; [reflexivity|]. auto.
Qed.

End FlatRun.

(** A run that copies flat into a destination folder, for selected media
    files with pairwise distinct names that are free in the destination
    and with no resume file left over: the operation returns the number of
    selected entries; every selected source is still there, unchanged, and
    the destination holds a copy of it under its own name; the selection
    log lists the selected paths; the resume file is gone again; and no
    directory was made. The hypotheses speak of the state the scan
    leaves. *)
Theorem fresh_flat_run_copies_every_selected_file
    (rng : Type) (E : Environment rng) (L : EnvironmentLaws rng) (g : rng) (c : config)
    (σ σ1 : fs) (sc : scanned) (selected : list entry) :
  let dest_path := destination_folder c in
  let resume := Path.join dest_path resume_name in
  let log := Path.join dest_path log_name in
  dry_run c = false ->
  preserve_structure c = false ->
  resume_file c = None ->
  exists_ σ dest_path = true ->
  scan_all (source_folders c) (cfg_filters c) (use_cache c) σ = (Ok sc, σ1) ->
  display_statistics (source_folders c) (folder_files sc) = Ok tt ->
  all_files_data sc <> [] ->
  select g sc (source_folders c) (num_files c) (target_size c) (balanced c) = Ok selected ->
  is_dir σ1 [] = true ->
  dirs_ready σ1 [] dest_path ->
  exists_ σ1 resume = false ->
  is_dir σ1 log = false ->
  NoDup (map (fun e => Path.name (path e)) selected) ->
  (forall e, e ∈ selected -> is_file σ1 (path e) = true /\ is_media (path e) = true) ->
  (forall e, e ∈ selected ->
     exists_ σ1 (Path.join dest_path (Path.name (path e))) = false) ->
  exists σ',
    randomly_select_and_copy_files g c σ = (Ok (length selected), σ') /\
    (forall e, e ∈ selected ->
       exists f,
         σ1 !! path e = Some (File f) /\
         σ' !! path e = Some (File f) /\
         σ' !! Path.join dest_path (Path.name (path e)) = Some (copy_of f)) /\
    log_files <$> load_operation_state σ' log = Some (map path selected) /\
    exists_ σ' resume = false /\
    (forall p, is_dir σ' p = is_dir σ1 p).
Proof.
  intros dest_path resume log Hdry Hflat Hresume Hexists Hscan Hshow Hfound Hselect
         Hroot Hdest Hfree Hlog Hnames Hsrc Hfresh.
  assert (Hdest_dir : is_dir σ1 dest_path = true).
  { destruct (decide (dest_path = [])) as [Hnil|Hne]; [rewrite Hnil; exact Hroot|].
    apply (dirs_ready_last σ1 [] dest_path Hdest Hne). }
  assert (Hres_media : is_media resume = false)
    by (unfold resume; rewrite join_is_media by discriminate; reflexivity).
  assert (Hlog_media : is_media log = false)
    by (unfold log; rewrite join_is_media by discriminate; reflexivity).
  assert (Hlog_res : log <> resume).
  { unfold log, resume. intros Heq.
    apply join_inj_name in Heq; [discriminate Heq|discriminate|discriminate]. }
  destruct (flat_copy_files_parallel selected dest_path resume σ1
              Hres_media Hroot Hdest Hfree Hnames Hsrc Hfresh)
    as (σ2 & Hcopy & Hdirs2 & Hk2 & Hcopies).
  destruct (save_selection_log_effect selected dest_path (get_file_stats selected)
              (cfg_filters c) σ2)
    as (σ3 & Hsave & Hlogged & Hk3 & Hdirs3).
  { fold log. rewrite Hdirs2. exact Hlog. }
  { rewrite Hdirs2. exact Hdest_dir. }
  fold log in Hlogged, Hk3.
  assert (Hclean : exists σ4,
            (if exists_ σ3 resume && bool_decide (([] : list Path.t) = [])
             then try_except (unlink resume) (fun _ => mret tt) else mret tt) σ3
            = (Ok tt, σ4) /\
            (forall p, is_dir σ4 p = is_dir σ3 p) /\
            is_file σ4 resume = false /\
            forall q f, q <> resume -> σ3 !! q = Some (File f) -> σ4 !! q = Some (File f)).
  { destruct (exists_ σ3 resume) eqn:Hex; simpl.
    - destruct (try_unlink_effect resume σ3) as (σ4 & Hrun & [Hd _] & Hgone & Hkeep).
      exists σ4. auto.
    - exists σ3. split; [reflexivity|]. split; [reflexivity|]. split; [|auto].
      apply not_exists_lookup in Hex. unfold is_file. rewrite Hex. reflexivity. }
  destruct Hclean as (σ4 & Hclean & Hdirs4 & Hgone & Hk4).
  assert (Hnot_res : forall p, is_media p = true -> p <> resume) by (intros p Hp ->; congruence).
  assert (Hnot_log : forall p, is_media p = true -> p <> log) by (intros p Hp ->; congruence).
  assert (Hkeep : forall p f, is_media p = true ->
            σ2 !! p = Some (File f) -> σ4 !! p = Some (File f)).
  { intros p f Hp Hf. apply Hk4; [apply Hnot_res, Hp|].
    apply Hk3; [|exact Hf]. intros [= Heq]. apply (Hnot_log p Hp Heq). }
  exists σ4. split; [|split; [|split; [|split]]].
  - unfold randomly_select_and_copy_files. fold dest_path. rewrite Hexists.
    cbn [negb andb]. unfold select_and_copy. fold dest_path.
    rewrite Hresume. cbn [default]. fold resume.
    erewrite io_bind_ok by exact Hscan.
    rewrite Hshow. erewrite io_bind_ok by reflexivity.
    destruct (all_files_data sc) as [|x l]; [congruence|].
    rewrite Hselect. erewrite io_bind_ok by reflexivity.
    rewrite Hdry, Hflat.
    erewrite io_bind_ok by exact Hcopy. cbv beta iota.
    erewrite io_bind_ok by exact Hsave.
    rewrite io_bind_get.
    erewrite io_bind_ok by exact Hclean. reflexivity.
  - intros e He. destruct (Hcopies e He) as (f & Hf & Hd).
    destruct (Hsrc e He) as [_ Hm].
    destruct (flat_destination_media (path e) dest_path selected Hm) as [Hdm _].
    exists f. split; [exact Hf|]. split.
    + apply Hkeep; [exact Hm|]. apply Hk2; [|exact Hf].
      intros [= Heq]. apply (Hnot_res _ Hm Heq).
    + apply (Hkeep _ _ Hdm Hd).
  - assert (Hsame : σ4 !! log = σ3 !! log).
    { destruct (σ3 !! log) as [[m|f]|] eqn:Hl.
      - unfold load_operation_state in Hlogged. rewrite Hl in Hlogged. discriminate.
      - apply Hk4; [exact Hlog_res|exact Hl].
      - unfold load_operation_state in Hlogged. rewrite Hl in Hlogged. discriminate. }
    unfold load_operation_state in *. rewrite Hsame. exact Hlogged.
  - destruct (exists_ σ4 resume) eqn:Hex; [|reflexivity].
    apply exists_cases in Hex as [Hd|Hf]; [|congruence].
    rewrite Hdirs4, Hdirs3, Hdirs2 in Hd.
    apply not_exists_lookup in Hfree. unfold is_dir in Hd. rewrite Hfree in Hd. discriminate.
  - intros p. rewrite Hdirs4, Hdirs3, Hdirs2. reflexivity.
Qed.

Lemma fresh_flat_run_copies_every_selected_file_witness :
  let σ : fs := {[ [] := Dir 0; ["src"] := Dir 5; ["src"; "a.jpg"] := Examples.media 7;
                   ["src"; "sub"] := Dir 5; ["src"; "sub"; "b.png"] := Examples.media 9;
                   ["dst"] := Dir 5 ]} in
  let c := Config [["src"]] ["dst"] 2 None false false false None None false in
  exists σ',
    randomly_select_and_copy_files (Environment0 := Examples.env) tt c σ = (Ok 2%nat, σ') /\
    is_file σ' ["dst"; "a.jpg"] = true /\ is_file σ' ["dst"; "b.png"] = true /\
    exists_ σ' ["dst"; resume_name] = false.
Proof.
  intros σ c.
  pose (selected := [Entry ["src"; "a.jpg"] 7 1 2 ".jpg" image;
                     Entry ["src"; "sub"; "b.png"] 9 1 2 ".png" image]).
  destruct (fresh_flat_run_copies_every_selected_file unit Examples.env Examples.env_laws
              tt c σ σ (Scanned [(["src"], selected)] selected) selected)
    as (σ' & Hrun & Hcopies & _ & Hres & _).
  - reflexivity.
  - reflexivity.
  - reflexivity.
  - reflexivity.
  - vm_compute. reflexivity.
  - reflexivity.
  - discriminate.
  - vm_compute. reflexivity.
  - reflexivity.
  - simpl. split; [reflexivity|exact I].
  - reflexivity.
  - reflexivity.
  - vm_compute. repeat constructor; intros Hin;
      repeat (apply elem_of_cons in Hin as [Hin|Hin]; [discriminate|]); inversion Hin.
  - intros e He. vm_compute in He.
    repeat (apply elem_of_cons in He as [->|He]; [split; reflexivity|]). inversion He.
  - intros e He. vm_compute in He.
    repeat (apply elem_of_cons in He as [->|He]; [reflexivity|]). inversion He.
  - exists σ'. split; [exact Hrun|]. split; [|split; [|exact Hres]].
    + destruct (Hcopies (Entry ["src"; "a.jpg"] 7 1 2 ".jpg" image)) as (f & _ & _ & Hd).
      * vm_compute. apply elem_of_cons. auto.
      * unfold is_file. change (σ' !! ["dst"; "a.jpg"] = Some (copy_of (Environment0 := Examples.env) f)) in Hd.
        rewrite Hd. reflexivity.
    + destruct (Hcopies (Entry ["src"; "sub"; "b.png"] 9 1 2 ".png" image))
        as (f & _ & _ & Hd).
      * vm_compute. apply elem_of_cons. right. apply elem_of_cons. auto.
      * unfold is_file. change (σ' !! ["dst"; "b.png"] = Some (copy_of (Environment0 := Examples.env) f)) in Hd.
        rewrite Hd. reflexivity.
Defined.

(** ** A destination that is a file *)

Section DestinationFile.

Context {rng : Type} `{!Environment rng}.

(** [mkdir(parents=True, exist_ok=True)] on a path that is a regular
    file raises, whatever else is there. *)
Lemma makedirs_onto_file (rest : list string) :
  forall base σ,
    rest <> [] ->
    is_file σ (base ++ rest) = true ->
    fst (makedirs base rest σ) = Raise OSError.
Proof.
  induction rest as [|c rest IH]; intros base σ Hne Hfile; [congruence|].
  cbn [makedirs]. destruct rest as [|c' rest].
  - apply is_file_lookup in Hfile as [f Hf]. rewrite Hf. reflexivity.
  - replace (base ++ c :: c' :: rest) with ((base ++ [c]) ++ c' :: rest) in Hfile
      by (rewrite <- app_assoc; reflexivity).
    destruct (σ !! (base ++ [c])) as [[m|f]|] eqn:Hq.
    + apply IH; [discriminate|exact Hfile].
    + reflexivity.
    + apply IH; [discriminate|].
      apply is_file_lookup in Hfile as [f Hf]. apply is_file_lookup. exists f.
      pose proof (create_extends (base ++ [c]) (Dir now) σ Hq
                    ((base ++ [c]) ++ c' :: rest)) as Hext.
      rewrite Hf in Hext. exact Hext.
Qed.

Lemma scan_frame_is_file srcs σ σ' p :
  scan_frame srcs σ σ' -> is_file σ p = true -> is_file σ' p = true.
Proof.
  intros Hframe Hp. destruct (Hframe p) as [Heq|[(_ & _ & _ & Hf)|(_ & Hd & _)]].
  - unfold is_file in *. rewrite Heq. exact Hp.
  - exact Hf.
  - exfalso. eapply file_not_dir; eassumption.
Qed.

End DestinationFile.

(** The guard at the head of the operation tests whether the destination
    exists, not whether it is a directory. When the destination path is a
    regular file, a run that is no dry run and has selected something
    does not answer [0]: after the scan and the selection,
    [copy_files_parallel] raises [OSError] from its own [mkdir], before any
    file is copied, and the exception leaves the operation. *)
Theorem destination_that_is_a_file_raises
    (rng : Type) (E : Environment rng) (L : EnvironmentLaws rng) (g : rng) (c : config)
    (σ σ1 : fs) (sc : scanned) (selected : list entry) :
  is_dir σ [] = true ->
  is_file σ (destination_folder c) = true ->
  dry_run c = false ->
  scan_all (source_folders c) (cfg_filters c) (use_cache c) σ = (Ok sc, σ1) ->
  display_statistics (source_folders c) (folder_files sc) = Ok tt ->
  all_files_data sc <> [] ->
  select g sc (source_folders c) (num_files c) (target_size c) (balanced c) = Ok selected ->
  fst (copy_files_parallel selected (destination_folder c) (preserve_structure c)
         (Some (default (Path.join (destination_folder c) resume_name) (resume_file c))) σ1)
  = Raise OSError /\
  fst (randomly_select_and_copy_files g c σ) = Raise OSError /\
  no_new_file σ1 (snd (randomly_select_and_copy_files g c σ)).
Proof.
  intros Hroot Hfile Hdry Hscan Hshow Hfound Hselect.
  assert (Hfile1 : is_file σ1 (destination_folder c) = true).
  { pose proof (scan_all_frame (source_folders c) (cfg_filters c) (use_cache c) σ) as Hframe.
    rewrite Hscan in Hframe. simpl in Hframe.
    eapply scan_frame_is_file; eassumption. }
  assert (Hne : destination_folder c <> []).
  { intros Hnil. rewrite Hnil in Hfile. exact (file_not_dir σ [] Hfile Hroot). }
  pose proof (makedirs_onto_file (destination_folder c) [] σ1 Hne Hfile1) as Hmk.
  pose proof (makedirs_no_new_file [] (destination_folder c) σ1) as Hnew.
  destruct (makedirs [] (destination_folder c) σ1) as [r σ2] eqn:Hrun.
  simpl in Hmk, Hnew. subst r.
  assert (Hcopy : forall resume,
            copy_files_parallel selected (destination_folder c) (preserve_structure c)
              resume σ1 = (Raise OSError, σ2)).
  { intros resume. unfold copy_files_parallel.
    erewrite io_bind_raise by exact Hrun. reflexivity. }
  split; [rewrite Hcopy; reflexivity|].
  assert (Htop : randomly_select_and_copy_files g c σ = (Raise OSError, σ2)).
  { unfold randomly_select_and_copy_files.
    assert (Hex : exists_ σ (destination_folder c) = true)
      by (apply exists_cases; right; exact Hfile).
    rewrite Hex. cbn [negb andb]. unfold select_and_copy.
    erewrite io_bind_ok by exact Hscan.
    rewrite Hshow. erewrite io_bind_ok by reflexivity.
    destruct (all_files_data sc) as [|x l]; [congruence|].
    rewrite Hselect. erewrite io_bind_ok by reflexivity.
    rewrite Hdry. erewrite io_bind_raise by apply Hcopy. reflexivity. }
  rewrite Htop. split; [reflexivity|exact Hnew].
Qed.

Lemma destination_that_is_a_file_raises_witness :
  let σ : fs := {[ [] := Dir 0; ["src"] := Dir 5; ["src"; "a.jpg"] := Examples.media 7;
                   ["dst"] := Examples.media 1 ]} in
  let c := Config [["src"]] ["dst"] 1 None false false false None None false in
  fst (randomly_select_and_copy_files (Environment0 := Examples.env) tt c σ) = Raise OSError.
Proof.
  intros σ c.
  destruct (destination_that_is_a_file_raises unit Examples.env Examples.env_laws tt c σ σ
              (Scanned [(["src"], [Entry ["src"; "a.jpg"] 7 1 2 ".jpg" image])]
                       [Entry ["src"; "a.jpg"] 7 1 2 ".jpg" image])
              [Entry ["src"; "a.jpg"] 7 1 2 ".jpg" image]) as (_ & Htop & _).
  - reflexivity.
  - reflexivity.
  - reflexivity.
  - vm_compute. reflexivity.
  - reflexivity.
  - discriminate.
  - reflexivity.
  - exact Htop.
Defined.

(** ** Where the selected entries come from *)

Section SelectionPool.

Context {rng : Type} `{!Environment rng}.

Lemma apply_filters_elem files filters kept e :
  apply_filters files filters = Ok kept -> e ∈ kept -> e ∈ files.
Proof.
  unfold apply_filters. destruct filters as [fl|]; [|intros [= <-]; auto].
  destruct (is_empty_dict fl); [intros [= <-]; auto|].
  destruct (by_min_size fl files) as [l1|] eqn:E1; simpl; [|discriminate].
  destruct (by_max_size fl l1) as [l2|] eqn:E2; simpl; [|discriminate].
  destruct (by_date_from fl l2) as [l3|] eqn:E3; simpl; [|discriminate].
  destruct (by_date_to fl l3) as [l4|] eqn:E4; simpl; [|discriminate].
  intros [= <-].
  destruct (by_min_size_keeps _ _ _ E1) as (P1 & -> & _).
  destruct (by_max_size_keeps _ _ _ E2) as (P2 & -> & _).
  destruct (by_date_from_keeps _ _ _ E3) as (P3 & -> & _).
  destruct (by_date_to_keeps _ _ _ E4) as (P4 & -> & _).
  destruct (by_file_types_keeps fl
              (List.filter P4 (List.filter P3 (List.filter P2 (List.filter P1 files)))))
    as (P5 & HE5 & _).
  destruct (by_media_types_keeps fl
              (by_file_types fl
                 (List.filter P4 (List.filter P3 (List.filter P2 (List.filter P1 files))))))
    as (P6 & HE6 & _).
  rewrite HE6, HE5, !elem_of_List_filter. tauto.
Qed.

(** *** The scan *)

Lemma elem_of_dict_set folder files (folder_files : list (Path.t * list entry)) k v :
  (k, v) ∈ dict_set folder files folder_files ->
  (k, v) = (folder, files) \/ (k, v) ∈ folder_files.
Proof.
  induction folder_files as [|[k0 v0] ff IH]; cbn [dict_set].
  - intros Hin%list_elem_of_singleton. left. exact Hin.
  - destruct (bool_decide (k0 = folder)) eqn:Hk.
    + apply bool_decide_eq_true in Hk as ->.
      intros [Hin|Hin]%elem_of_cons; [left; exact Hin|right; right; exact Hin].
    + intros [Hin|Hin]%elem_of_cons; [right; rewrite Hin; left|].
      destruct (IH Hin) as [Heq|Hff]; [left; exact Heq|right; right; exact Hff].
Qed.

Lemma pool_inv_step (P : entry -> Prop) folder files acc :
  pool_inv P acc -> (forall e, e ∈ files -> P e) ->
  pool_inv P (Scanned (dict_set folder files (folder_files acc))
                      (all_files_data acc ++ files)).
Proof.
  intros [Hall Hvalues] Hfiles. split; cbn [all_files_data folder_files].
  - intros e [He|He]%elem_of_app; auto.
  - intros k v e Hin He. apply elem_of_app.
    destruct (elem_of_dict_set _ _ _ _ _ Hin) as [[= -> ->]|Hff]; [right; exact He|].
    left. apply (Hvalues k v e Hff He).
Qed.

Section Scan.

Variables (filters : option filters) (use_cache : bool).
Variables (I : fs -> Prop) (P : entry -> Prop) (folders : list Path.t).

Hypothesis collect_keeps : forall folder σ,
  I σ -> folder ∈ folders ->
  I (snd (collect_media_files_optimized folder filters use_cache σ)) /\
  forall files e,
    fst (collect_media_files_optimized folder filters use_cache σ) = Ok files ->
    e ∈ files -> P e.

Lemma scan_inline_pool :
  forall todo acc σ sc σ',
    scan_inline filters use_cache todo acc σ = (Ok sc, σ') ->
    (forall k, k ∈ todo -> k ∈ folders) -> I σ -> pool_inv P acc -> pool_inv P sc.
Proof.
  induction todo as [|folder todo IH]; intros acc σ sc σ'; cbn [scan_inline].
  - intros [= <- <-] _ _ Hacc. exact Hacc.
  - intros Hrun Hsub Hσ Hacc.
    destruct (collect_keeps folder σ Hσ (Hsub folder ltac:(left))) as [Hσ1 Hfiles].
    destruct (collect_media_files_optimized folder filters use_cache σ)
      as [[files|e] σ1] eqn:Hc.
    2:{ erewrite io_bind_raise in Hrun by exact Hc. discriminate. }
    erewrite io_bind_ok in Hrun by exact Hc.
    apply (IH _ _ _ _ Hrun); [intros k Hk; apply Hsub; right; exact Hk|exact Hσ1|].
    apply pool_inv_step; [exact Hacc|]. intros e. apply Hfiles. reflexivity.
Qed.

Lemma scan_parallel_pool :
  forall todo acc σ sc σ',
    scan_parallel filters use_cache todo acc σ = (Ok sc, σ') ->
    (forall k, k ∈ todo -> k ∈ folders) -> I σ -> pool_inv P acc -> pool_inv P sc.
Proof.
  induction todo as [|folder todo IH]; intros acc σ sc σ'; cbn [scan_parallel].
  - intros [= <- <-] _ _ Hacc. exact Hacc.
  - intros Hrun Hsub Hσ Hacc.
    destruct (collect_keeps folder σ Hσ (Hsub folder ltac:(left))) as [Hσ1 Hfiles].
    destruct (collect_media_files_optimized folder filters use_cache σ)
      as [[files|e] σ1] eqn:Hc.
    + erewrite io_bind_ok in Hrun;
        [|erewrite try_except_ok; [reflexivity|erewrite io_bind_ok by exact Hc; reflexivity]].
      apply (IH _ _ _ _ Hrun); [intros k Hk; apply Hsub; right; exact Hk|exact Hσ1|].
      apply pool_inv_step; [exact Hacc|]. intros e0. apply Hfiles. reflexivity.
    + erewrite io_bind_ok in Hrun;
        [|erewrite try_except_raise; [reflexivity|erewrite io_bind_raise by exact Hc; reflexivity]].
      apply (IH _ _ _ _ Hrun); [intros k Hk; apply Hsub; right; exact Hk|exact Hσ1|exact Hacc].
Qed.

End Scan.

Lemma scan_all_pool `{!EnvironmentLaws rng} (filters : option filters) (use_cache : bool)
    (I : fs -> Prop) (P : entry -> Prop) (source_folders : list Path.t) σ sc σ' :
  (forall folder σ,
     I σ -> folder ∈ source_folders ->
     I (snd (collect_media_files_optimized folder filters use_cache σ)) /\
     forall files e,
       fst (collect_media_files_optimized folder filters use_cache σ) = Ok files ->
       e ∈ files -> P e) ->
  scan_all source_folders filters use_cache σ = (Ok sc, σ') ->
  I σ -> pool_inv P sc.
Proof.
  intros Hcollect Hscan Hσ. unfold scan_all in Hscan.
  assert (Hnil : pool_inv P (Scanned [] [])).
  { split; cbn [all_files_data folder_files]; intros *; intros Hin; inversion Hin. }
  destruct (bool_decide (1 < length source_folders)%nat).
  - apply (scan_parallel_pool filters use_cache I P source_folders Hcollect _ _ _ _ _ Hscan);
      [|exact Hσ|exact Hnil].
    intros k Hk. rewrite (as_completed_perm _ source_folders) in Hk. exact Hk.
  - apply (scan_inline_pool filters use_cache I P source_folders Hcollect _ _ _ _ _ Hscan);
      [auto|exact Hσ|exact Hnil].
Qed.

(** Without the cache, what a folder contributes was found by the walk
    of that folder. *)
Lemma collect_no_cache_walk folder (filters : option filters) σ files e :
  fst (collect_media_files_optimized folder filters false σ) = Ok files ->
  e ∈ files -> e ∈ walk σ folder.
Proof.
  unfold collect_media_files_optimized. destruct (is_dir σ folder); cbn [negb fst].
  - apply apply_filters_elem.
  - intros [= <-] He. inversion He.
Qed.

(** *** The selections *)

Hypothesis sample_elem : forall g l k e, e ∈ (random_sample g l k).1 -> e ∈ l.
Hypothesis shuffle_elem : forall g l e, e ∈ (random_shuffle g l).1 -> e ∈ l.

Lemma sample_draws g population k picked g' e :
  sample g population k = Ok (picked, g') -> e ∈ picked -> e ∈ population.
Proof.
  unfold sample. destruct (_ || _); [discriminate|]. intros [= Hs] He.
  apply (sample_elem g population (Z.to_nat k)). rewrite Hs. exact He.
Qed.

Lemma balanced_pass_draws base :
  forall (dict : list (Path.t * list entry)) g remaining picks g' e,
    balanced_pass g base remaining dict = Ok (picks, g') ->
    e ∈ concat picks -> exists k v, (k, v) ∈ dict /\ e ∈ v.
Proof.
  induction dict as [|[folder files] dict IH];
    intros g remaining picks g' e; cbn [balanced_pass].
  - intros [= <- <-] He. inversion He.
  - destruct files as [|f files].
    + destruct (balanced_pass g base remaining dict) as [[picks1 g1]|] eqn:Hp;
        cbn [mbind result_bind]; [|discriminate].
      intros [= <- <-] He. cbn [concat app] in He.
      destruct (IH _ _ _ _ _ Hp He) as (k & v & Hin & Hv).
      exists k, v. split; [right; exact Hin|exact Hv].
    + set (pool := f :: files) in *.
      destruct (sample g pool _) as [[picked g1]|] eqn:Hs;
        cbn [mbind result_bind]; [|discriminate].
      destruct (balanced_pass g1 base _ dict) as [[picks1 g2]|] eqn:Hp;
        cbn [mbind result_bind]; [|discriminate].
      intros [= <- <-] He. cbn [concat] in He. apply elem_of_app in He as [He|He].
      * exists folder, pool. split; [left|]. apply (sample_draws _ _ _ _ _ _ Hs He).
      * destruct (IH _ _ _ _ _ Hp He) as (k & v & Hin & Hv).
        exists k, v. split; [right; exact Hin|exact Hv].
Qed.

Lemma top_up_draws g num_files all_files_data selected_files selected g' e :
  top_up g num_files all_files_data selected_files = Ok (selected, g') ->
  e ∈ selected -> e ∈ selected_files \/ e ∈ all_files_data.
Proof.
  unfold top_up. destruct (_ <? _); [|intros [= <- <-]; auto].
  destruct (List.filter _ all_files_data) as [|r remaining_files] eqn:Hrem;
    [intros [= <- <-]; auto|].
  destruct (sample g (r :: remaining_files) _) as [[additional g1]|] eqn:Hs;
    cbn [mbind result_bind]; [|discriminate].
  intros [= <- <-] [He|He]%elem_of_app; [left; exact He|right].
  apply (sample_draws _ _ _ _ _ _ Hs) in He. rewrite <- Hrem in He.
  apply elem_of_List_filter in He as [He _]. exact He.
Qed.

Lemma select_by_count_draws g num_files balanced source_count folder_files
    all_files_data selected g' e :
  (forall k v e, (k, v) ∈ folder_files -> e ∈ v -> e ∈ all_files_data) ->
  select_by_count g num_files balanced source_count folder_files all_files_data
  = Ok (selected, g') ->
  e ∈ selected -> e ∈ all_files_data.
Proof.
  intros Hvalues. unfold select_by_count. destruct (balanced && _).
  - destruct (balanced_pass g _ _ folder_files) as [[picks g1]|] eqn:Hp;
      cbn [mbind result_bind]; [|discriminate].
    intros Htop He. destruct (top_up_draws _ _ _ _ _ _ _ Htop He) as [Hin|Hin]; [|exact Hin].
    destruct (balanced_pass_draws _ _ _ _ _ _ _ Hp Hin) as (k & v & Hkv & Hv).
    apply (Hvalues k v e Hkv Hv).
  - apply sample_draws.
Qed.

Lemma select_balanced_size_draws target_bytes files_data selected e :
  select_balanced_size target_bytes files_data = Ok selected ->
  e ∈ selected -> e ∈ files_data.
Proof.
  unfold select_balanced_size. destruct (floordiv _ _) as [size_per_folder|];
    cbn [mbind result_bind]; [|discriminate].
  intros [= <-] He. apply list_elem_of_In, in_concat in He as (l & Hl & He).
  apply in_map_iff in Hl as ([k v] & <- & Hkv).
  apply list_elem_of_In in He, Hkv.
  apply folder_groups_partition in Hkv as [-> _].
  eapply elem_of_sublist in He; [|apply greedy_sublist].
  rewrite sorted_by_size_perm in He.
  apply elem_of_List_filter in He as [He _]. exact He.
Qed.

Lemma select_by_total_size_draws g files_data target_size_str balanced selected g' e :
  select_by_total_size g files_data target_size_str balanced = Ok (selected, g') ->
  e ∈ selected -> e ∈ files_data.
Proof.
  unfold select_by_total_size. destruct (parse_size _) as [target_bytes|];
    cbn [mbind result_bind]; [|discriminate].
  destruct balanced.
  - destruct (select_balanced_size target_bytes files_data) as [l|] eqn:Hb;
      cbn [mbind result_bind]; [|discriminate].
    intros [= <- <-]. apply (select_balanced_size_draws _ _ _ _ Hb).
  - destruct (random_shuffle g files_data) as [shuffled g1] eqn:Hs.
    intros [= <- <-] He. eapply elem_of_sublist in He; [|apply greedy_sublist].
    apply (shuffle_elem g files_data). rewrite Hs. exact He.
Qed.

Lemma select_draws g sc source_folders num_files target_size balanced selected e :
  (forall k v e, (k, v) ∈ folder_files sc -> e ∈ v -> e ∈ all_files_data sc) ->
  select g sc source_folders num_files target_size balanced = Ok selected ->
  e ∈ selected -> e ∈ all_files_data sc.
Proof.
  intros Hvalues. unfold select. destruct (given_str target_size) as [s|].
  - destruct (select_by_total_size g (all_files_data sc) s balanced) as [[l g1]|] eqn:Hsel;
      cbn [mbind result_bind]; [|discriminate].
    intros [= <-]. apply (select_by_total_size_draws _ _ _ _ _ _ _ Hsel).
  - destruct (select_by_count g num_files balanced _ _ _) as [[l g1]|] eqn:Hsel;
      cbn [mbind result_bind]; [|discriminate].
    intros [= <-]. apply (select_by_count_draws _ _ _ _ _ _ _ _ _ Hvalues Hsel).
Qed.

End SelectionPool.

(** Nothing is selected that the scan did not collect. With
    [random.sample] and [random.shuffle] returning entries of the list
    they are given, every entry selected, by count or by size, balanced or
    not, is in the list of all entries the scan built; and when the scan
    did not use the cache, it is the entry of a media file that the walk
    of one of the source folders found in the file system as it was. *)
Theorem selected_files_come_from_the_scan
    (rng : Type) (E : Environment rng) (L : EnvironmentLaws rng) (g : rng)
    (source_folders : list Path.t) (filters : option filters) (use_cache : bool)
    (num_files : Z) (target_size : option string) (balanced : bool)
    (σ σ1 : fs) (sc : scanned) (selected : list entry) :
  (forall g l k e, e ∈ (random_sample g l k).1 -> e ∈ l) ->
  (forall g l e, e ∈ (random_shuffle g l).1 -> e ∈ l) ->
  scan_all source_folders filters use_cache σ = (Ok sc, σ1) ->
  select g sc source_folders num_files target_size balanced = Ok selected ->
  forall e, e ∈ selected ->
    e ∈ all_files_data sc /\
    (use_cache = false ->
     exists folder f,
       folder ∈ source_folders /\ e ∈ walk σ folder /\
       σ !! path e = Some (File f) /\ folder `prefix_of` path e /\
       is_media (path e) = true).
Proof.
  intros Hsample Hshuffle Hscan Hselect e He.
  assert (Hvalues : pool_inv (fun _ => True) sc).
  { apply (scan_all_pool filters use_cache (fun _ => True) (fun _ => True)
             source_folders σ sc σ1); auto. }
  assert (Hin : e ∈ all_files_data sc)
    by (apply (select_draws Hsample Hshuffle _ _ _ _ _ _ _ _ (proj2 Hvalues) Hselect He)).
  split; [exact Hin|]. intros Hcache. subst use_cache.
  assert (Hwalk : pool_inv (fun e => exists folder, folder ∈ source_folders /\
                                       e ∈ walk σ folder) sc).
  { apply (scan_all_pool filters false (fun s => s = σ) _ source_folders σ sc σ1);
      [|exact Hscan|reflexivity].
    intros folder s -> Hfolder. split; [apply collect_no_cache|].
    intros files e0 Hfiles He0. exists folder. split; [exact Hfolder|].
    apply (collect_no_cache_walk folder filters σ files e0 Hfiles He0). }
  destruct (proj1 Hwalk e Hin) as (folder & Hfolder & Hfound).
  pose proof Hfound as Hfound'.
  apply elem_of_walk in Hfound' as (p & f & Hp & Hpre & _ & Hmedia & ->).
  exists folder, f. auto.
Qed.

Lemma selected_files_come_from_the_scan_witness :
  let σ : fs := {[ [] := Dir 0; ["a"] := Dir 5; ["b"] := Dir 5;
                   ["a"; "x.jpg"] := Examples.media 7; ["b"; "y.png"] := Examples.media 9 ]} in
  let e := Entry ["a"; "x.jpg"] 7 1 2 ".jpg" image in
  exists folder, folder ∈ [["a"]; ["b"]] /\ e ∈ walk σ folder.
Proof.
  intros σ e.
  destruct (scan_all (Environment0 := Examples.env) [["a"]; ["b"]] None false σ)
    as [[sc|x] σ1] eqn:Hscan; [|discriminate Hscan].
  destruct (selected_files_come_from_the_scan unit Examples.env Examples.env_laws tt
              [["a"]; ["b"]] None false 1 None true σ σ1 sc [e]) with (e := e)
    as [_ Hwalk].
  - intros g l k x Hx. eapply elem_of_sublist; [exact Hx|apply sublist_take].
  - intros g l x Hx. exact Hx.
  - exact Hscan.
  - vm_compute in Hscan. injection Hscan as <- <-. vm_compute. reflexivity.
  - left.
  - destruct (Hwalk eq_refl) as (folder & f & Hfolder & Hfound & _).
    exists folder. split; assumption.
Defined.

(** ** Balanced selection by count, when every folder holds enough *)

Section ExactShares.

Context {rng : Type} `{!Environment rng} `{!EnvironmentLaws rng}.

Lemma balanced_pass_exact base :
  0 <= base ->
  forall (dict : list (Path.t * list entry)) g remaining,
    0 <= remaining ->
    (forall k v, (k, v) ∈ dict -> base + 1 <= Z.of_nat (length v)) ->
    exists picks g',
      balanced_pass g base remaining dict = Ok (picks, g') /\
      length picks = length dict /\
      (forall i picked, picks !! i = Some picked ->
         Z.of_nat (length picked) = base + (if Z.of_nat i <? remaining then 1 else 0)) /\
      Z.of_nat (length (concat picks))
      = base * Z.of_nat (length dict) + Z.min remaining (Z.of_nat (length dict)).
Proof.
  intros Hbase.
  induction dict as [|[folder files] dict IH]; intros g remaining Hrem Hsize.
  - exists [], g. split; [reflexivity|]. split; [reflexivity|]. split.
    + intros i picked Hi. rewrite lookup_nil in Hi. discriminate.
    + simpl. lia.
  - pose proof (Hsize folder files ltac:(left)) as Hfiles.
    destruct files as [|f files]; [simpl in Hfiles; lia|].
    set (pool := f :: files) in *.
    set (take := Z.min (base + (if 0 <? remaining then 1 else 0))
                       (Z.of_nat (length pool))).
    assert (Htake : take = base + (if 0 <? remaining then 1 else 0)).
    { subst take. destruct (0 <? remaining); lia. }
    destruct (sample_ok g pool take) as (picked & g1 & Hs & Hpicked).
    { rewrite Htake. destruct (0 <? remaining); lia. }
    set (remaining' := if 0 <? remaining then remaining - 1 else remaining).
    assert (Hrem' : 0 <= remaining').
    { subst remaining'. destruct (Z.ltb_spec 0 remaining); lia. }
    destruct (IH g1 remaining' Hrem') as (picks & g' & Hp & Hlen & Hshare & Htotal).
    { intros k v Hkv. apply (Hsize k v). right. exact Hkv. }
    exists (picked :: picks), g'.
    change (balanced_pass g base remaining ((folder, pool) :: dict))
      with ('(picked, g1) ← sample g pool take;
            '(picks, g2) ← balanced_pass g1 base remaining' dict;
            Ok (picked :: picks, g2)).
    rewrite Hs. cbn [mbind result_bind]. rewrite Hp. cbn [mbind result_bind].
    split; [reflexivity|]. split; [simpl; rewrite Hlen; reflexivity|]. split.
    + intros [|i] picked0; cbn [lookup list_lookup].
      * intros [= <-]. rewrite Hpicked, Htake. reflexivity.
      * intros Hi. rewrite (Hshare i picked0 Hi). subst remaining'.
        destruct (Z.ltb_spec 0 remaining);
          destruct (Z.ltb_spec (Z.of_nat i) (remaining - 1));
          destruct (Z.ltb_spec (Z.of_nat (S i)) remaining);
          destruct (Z.ltb_spec (Z.of_nat i) remaining); lia.
    + cbn [concat]. rewrite length_app, Nat2Z.inj_add, Htotal, Hpicked, Htake.
      change (length ((folder, pool) :: dict)) with (S (length dict)).
      subst remaining'. destruct (Z.ltb_spec 0 remaining); lia.
Qed.

End ExactShares.

(** Balanced selection by count is exact when every folder holds enough.
    For a count [n] that the scan can meet and a dictionary with one list
    for each of the [N] source folders, each holding more than the floor
    of [n / N] entries, the selection takes the floor plus one from each
    of the first [n mod N] folders in the order of the dictionary, the
    floor from the others, and [n] entries in all: the top-up adds
    nothing. *)
Theorem balanced_count_is_exact_when_folders_suffice
    (rng : Type) (E : Environment rng) (L : EnvironmentLaws rng) (g : rng) (n : Z)
    (folder_files : list (Path.t * list entry)) (all_files_data : list entry) :
  let N := length folder_files in
  0 <= n <= Z.of_nat (length all_files_data) ->
  (0 < N)%nat ->
  (forall k v, (k, v) ∈ folder_files -> n / Z.of_nat N + 1 <= Z.of_nat (length v)) ->
  exists picks g',
    balanced_pass g (n / Z.of_nat N) (n mod Z.of_nat N) folder_files = Ok (picks, g') /\
    select_by_count g n true N folder_files all_files_data = Ok (concat picks, g') /\
    length picks = N /\
    (forall i picked, picks !! i = Some picked ->
       Z.of_nat (length picked)
       = n / Z.of_nat N + (if Z.of_nat i <? n mod Z.of_nat N then 1 else 0)) /\
    Z.of_nat (length (concat picks)) = n.
Proof.
  intros N Hn HN Hsize.
  assert (Hbase : 0 <= n / Z.of_nat N) by (apply Z.div_pos; lia).
  pose proof (Z.mod_pos_bound n (Z.of_nat N) ltac:(lia)) as Hmod.
  destruct (balanced_pass_exact (n / Z.of_nat N) Hbase folder_files g (n mod Z.of_nat N)
              ltac:(lia) Hsize) as (picks & g' & Hp & Hlen & Hshare & Htotal).
  fold N in Htotal, Hlen.
  assert (Hall : Z.of_nat (length (concat picks)) = n).
  { rewrite Htotal. pose proof (Z.div_mod n (Z.of_nat N) ltac:(lia)). lia. }
  exists picks, g'. split; [exact Hp|]. split; [|split; [exact Hlen|split; [exact Hshare|exact Hall]]].
  unfold select_by_count, clamp_count.
  destruct (Z.ltb_spec (Z.of_nat (length all_files_data)) n); [lia|].
  destruct (Z.ltb_spec 0 (Z.of_nat N)); [|lia]. cbn [andb].
  rewrite Hp. cbn [mbind result_bind]. unfold top_up.
  destruct (Z.ltb_spec (Z.of_nat (length (concat picks))) n); [lia|reflexivity].
Qed.

Lemma balanced_count_is_exact_when_folders_suffice_witness :
  let a := [Examples.jpg ["a"] "1.jpg" 5; Examples.jpg ["a"] "2.jpg" 5;
            Examples.jpg ["a"] "3.jpg" 5] in
  let b := [Examples.jpg ["b"] "4.jpg" 5; Examples.jpg ["b"] "5.jpg" 5;
            Examples.jpg ["b"] "6.jpg" 5] in
  exists picks,
    select_by_count (Environment0 := Examples.env) tt 3 true 2
      [(["a"], a); (["b"], b)] (a ++ b) = Ok (concat picks, tt) /\
    length <$> picks = [2%nat; 1%nat].
Proof.
  intros a b.
  destruct (balanced_count_is_exact_when_folders_suffice unit Examples.env Examples.env_laws
              tt 3 [(["a"], a); (["b"], b)] (a ++ b))
    as (picks & g' & Hp & Hsel & _).
  - simpl. lia.
  - simpl. lia.
  - intros k v Hin.
    repeat (apply elem_of_cons in Hin as [[= -> ->]|Hin]; [vm_compute; discriminate|]).
    inversion Hin.
  - exists picks. destruct g'. split; [exact Hsel|].
    vm_compute in Hp. injection Hp as <-. reflexivity.
Defined.

(** ** The entries of a scan without the cache *)

Section FreshPool.

Context {rng : Type} `{!Environment rng}.

Lemma collect_fresh_entries folder (filters : option filters) σ :
  match collect_media_files_optimized folder filters false σ with
  | (Ok files, σ') => files = fresh_entries filters σ folder /\ σ' = σ
  | (Raise _, σ') => fresh_entries filters σ folder = [] /\ σ' = σ
  end.
Proof.
  unfold collect_media_files_optimized, fresh_entries.
  destruct (is_dir σ folder); cbn [negb]; [|auto].
  destruct (apply_filters (walk σ folder) filters); auto.
Qed.

Lemma scan_inline_fresh (filters : option filters) :
  forall todo acc σ sc σ',
    scan_inline filters false todo acc σ = (Ok sc, σ') ->
    all_files_data sc = all_files_data acc ++ flat_map (fresh_entries filters σ) todo.
Proof.
  induction todo as [|folder todo IH]; intros acc σ sc σ'; cbn [scan_inline flat_map].
  - intros [= <- <-]. rewrite app_nil_r. reflexivity.
  - pose proof (collect_fresh_entries folder filters σ) as Hc.
    destruct (collect_media_files_optimized folder filters false σ)
      as [[files|e] σ1] eqn:Hrun; destruct Hc as [Hfiles ->].
    + erewrite io_bind_ok by exact Hrun. intros Hscan.
      rewrite (IH _ _ _ _ Hscan). cbn [all_files_data].
      rewrite Hfiles, <- app_assoc. reflexivity.
    + erewrite io_bind_raise by exact Hrun. discriminate.
Qed.

Lemma scan_parallel_fresh (filters : option filters) :
  forall todo acc σ sc σ',
    scan_parallel filters false todo acc σ = (Ok sc, σ') ->
    all_files_data sc = all_files_data acc ++ flat_map (fresh_entries filters σ) todo.
Proof.
  induction todo as [|folder todo IH]; intros acc σ sc σ'; cbn [scan_parallel flat_map].
  - intros [= <- <-]. rewrite app_nil_r. reflexivity.
  - pose proof (collect_fresh_entries folder filters σ) as Hc.
    destruct (collect_media_files_optimized folder filters false σ)
      as [[files|e] σ1] eqn:Hrun; destruct Hc as [Hfiles ->].
    + erewrite io_bind_ok;
        [|erewrite try_except_ok; [reflexivity|erewrite io_bind_ok by exact Hrun; reflexivity]].
      intros Hscan. rewrite (IH _ _ _ _ Hscan). cbn [all_files_data].
      rewrite Hfiles, <- app_assoc. reflexivity.
    + erewrite io_bind_ok;
        [|erewrite try_except_raise; [reflexivity|erewrite io_bind_raise by exact Hrun; reflexivity]].
      intros Hscan. rewrite (IH _ _ _ _ Hscan), Hfiles. reflexivity.
Qed.

End FreshPool.

(** Without the cache, the list of all entries is, up to the order in
    which the folders were scanned, the chain over the source folders as
    they are listed of what each contributes: what [apply_filters] leaves
    of its walk. A source folder listed twice contributes twice, although
    the dictionary holds it once; a folder that is not a directory
    contributes nothing, and neither does a folder whose scan raised on
    the pool. A single folder is scanned inline, and the list is its
    contribution. *)
Theorem uncached_scan_chains_the_folders_as_listed
    (rng : Type) (E : Environment rng) (L : EnvironmentLaws rng)
    (source_folders : list Path.t) (filters : option filters)
    (σ σ' : fs) (sc : scanned) :
  scan_all source_folders filters false σ = (Ok sc, σ') ->
  all_files_data sc ≡ₚ flat_map (fresh_entries filters σ) source_folders /\
  ((length source_folders <= 1)%nat ->
   all_files_data sc = flat_map (fresh_entries filters σ) source_folders) /\
  (forall folder, source_folders = [folder; folder] ->
   all_files_data sc = fresh_entries filters σ folder ++ fresh_entries filters σ folder /\
   (folder_files sc).*1 `sublist_of` [folder]).
Proof.
  intros Hscan.
  pose proof (scan_all_folder_count source_folders filters false σ sc σ' Hscan) as Hcount.
  assert (Hkeys : NoDup (folder_files sc).*1 /\
                  forall k, k ∈ (folder_files sc).*1 -> k ∈ source_folders).
  { unfold scan_all in Hscan. destruct (bool_decide (1 < length source_folders)%nat).
    - destruct (scan_parallel_collects _ _ _ _ _ _ _ Hscan
                  (NoDup_nil_2 : NoDup ([] : list Path.t))) as (Hnd & Hk & _).
      split; [exact Hnd|]. intros k Hin. destruct (Hk k Hin) as [Hnil|Hin']; [inversion Hnil|].
      rewrite (as_completed_perm _ source_folders) in Hin'. exact Hin'.
    - destruct (scan_inline_collects _ _ _ _ _ _ _ Hscan
                  (NoDup_nil_2 : NoDup ([] : list Path.t))) as (Hnd & Hk & _).
      split; [exact Hnd|]. intros k Hin. apply Hk in Hin as [Hnil|Hin]; [inversion Hnil|exact Hin]. }
  unfold scan_all in Hscan.
  destruct (bool_decide (1 < length source_folders)%nat) eqn:Hmany.
  - apply bool_decide_eq_true in Hmany. apply scan_parallel_fresh in Hscan.
    cbn [all_files_data app] in Hscan.
    split; [|split; [lia|]].
    + rewrite Hscan. apply Permutation_flat_map, as_completed_perm.
    + intros folder ->. split.
      * rewrite Hscan.
        pose proof (as_completed_perm _ [folder; folder]) as Hperm.
        destruct (as_completed [folder; folder]) as [|a [|b [|c l]]] eqn:Has;
          try (apply Permutation_length in Hperm; discriminate Hperm).
        assert (Ha : a = folder).
        { assert (Hin : a ∈ [folder; folder]) by (rewrite <- Hperm; left).
          apply elem_of_cons in Hin as [->|Hin]; [reflexivity|].
          apply list_elem_of_singleton in Hin. exact Hin. }
        assert (Hb : b = folder).
        { assert (Hin : b ∈ [folder; folder]) by (rewrite <- Hperm; right; left).
          apply elem_of_cons in Hin as [->|Hin]; [reflexivity|].
          apply list_elem_of_singleton in Hin. exact Hin. }
        subst a b. cbn [flat_map]. rewrite app_nil_r. reflexivity.
      * destruct Hkeys as [Hnd Hk].
        destruct ((folder_files sc).*1) as [|k1 [|k2 rest]].
        -- apply sublist_nil_l.
        -- assert (Hin : k1 = folder).
           { specialize (Hk k1 ltac:(left)).
             apply elem_of_cons in Hk as [->|Hk]; [reflexivity|].
             apply list_elem_of_singleton in Hk. exact Hk. }
           subst k1. reflexivity.
        -- exfalso. apply NoDup_cons in Hnd as [Hnot _]. apply Hnot.
           assert (H1 : k1 = folder).
           { specialize (Hk k1 ltac:(left)).
             apply elem_of_cons in Hk as [->|Hk]; [reflexivity|].
             apply list_elem_of_singleton in Hk. exact Hk. }
           assert (H2 : k2 = folder).
           { specialize (Hk k2 ltac:(right; left)).
             apply elem_of_cons in Hk as [->|Hk]; [reflexivity|].
             apply list_elem_of_singleton in Hk. exact Hk. }
           subst. left.
  - apply bool_decide_eq_false in Hmany. apply scan_inline_fresh in Hscan.
    cbn [all_files_data app] in Hscan.
    split; [rewrite Hscan; reflexivity|]. split; [intros _; exact Hscan|].
    intros folder ->. simpl in Hmany. lia.
Qed.

Lemma uncached_scan_chains_the_folders_as_listed_witness :
  let σ : fs := {[ [] := Dir 0; ["a"] := Dir 5; ["a"; "x.jpg"] := Examples.media 7 ]} in
  let e := Entry ["a"; "x.jpg"] 7 1 2 ".jpg" image in
  exists sc,
    fst (scan_all (Environment0 := Examples.env) [["a"]; ["a"]] None false σ) = Ok sc /\
    all_files_data sc = [e; e].
Proof.
  intros σ e.
  destruct (scan_all (Environment0 := Examples.env) [["a"]; ["a"]] None false σ)
    as [[sc|x] σ1] eqn:Hscan; [|discriminate Hscan].
  exists sc. split; [reflexivity|].
  destruct (uncached_scan_chains_the_folders_as_listed unit Examples.env Examples.env_laws
              [["a"]; ["a"]] None σ σ1 sc Hscan) as (_ & _ & Htwice).
  destruct (Htwice ["a"] eq_refl) as [-> _]. reflexivity.
Defined.

(** ** Two workers and one name *)

Section Race.

Context {rng : Type} `{!Environment rng}.

Lemma free_worker_count (max_workers : nat) (tasks : list (entry * task)) :
  (length (List.filter (fun et : entry * task => is_running et.2) tasks) < max_workers)%nat ->
  free_worker max_workers tasks = true.
Proof. intros Hlen. unfold free_worker. apply bool_decide_eq_true, Hlen. Qed.

Lemma collect_result_plain (resume_file : option Path.t) (selected : list entry)
    (n i : nat) (pr : progress) (file_path d : Path.t) (σ : fs) :
  (i mod 10 <> 0)%nat -> i <> n ->
  collect_result resume_file selected n i pr file_path (Some d) σ
  = (Ok (Progress ({[d]} ∪ copied_files pr) (S (copied_count pr)) (errors pr)), σ).
Proof.
  intros Hmod Hn. unfold collect_result.
  rewrite (bool_decide_eq_false_2 _ Hmod), (bool_decide_eq_false_2 _ Hn). reflexivity.
Qed.

Lemma collect_result_last (resume_file : option Path.t) (selected : list entry)
    (n : nat) (pr : progress) (file_path d : Path.t) (σ : fs) :
  collect_result resume_file selected n n pr file_path (Some d) σ
  = (Ok (Progress ({[d]} ∪ copied_files pr) (S (copied_count pr)) (errors pr)),
     snd (checkpoint resume_file (length selected)
            (Progress ({[d]} ∪ copied_files pr) (S (copied_count pr)) (errors pr)) σ)).
Proof.
  unfold collect_result. rewrite (bool_decide_eq_true_2 (n = n) eq_refl), orb_true_r.
  pose proof (checkpoint_ok resume_file (length selected)
                (Progress ({[d]} ∪ copied_files pr) (S (copied_count pr)) (errors pr)) σ) as Hok.
  unfold mbind, io_bind.
  destruct (checkpoint _ _ _ σ) as [res σ']. cbn [fst snd] in *. subst res. reflexivity.
Qed.

End Race.

(** The test [dest_file.exists()] and the copy that follows it are two
    steps, and the pool lets another worker move between them. With two
    workers or more and two queued sources of the same name whose
    destination is free, there is a schedule in which both calls find the
    name unused before either writes: both report the same destination,
    the pool counts two copies and no error, the file there is the copy
    of the second source, and no other file is made, the resume file
    apart. The copy of the first source is lost. *)
Theorem same_name_copies_can_overwrite
    (rng : Type) (E : Environment rng) (σ : fs) (e1 e2 : entry) (f1 f2 : file_node)
    (dest_path : Path.t) (resume_file : option Path.t) (selected : list entry)
    (ledger : gset Path.t) (max_workers : nat) :
  let dest_file := Path.join dest_path (Path.name (path e1)) in
  (2 <= max_workers)%nat ->
  Path.name (path e1) = Path.name (path e2) ->
  Path.name (path e1) <> "" ->
  σ !! path e1 = Some (File f1) ->
  σ !! path e2 = Some (File f2) ->
  dirs_ready σ [] dest_path ->
  is_dir σ dest_path = true ->
  exists_ σ dest_file = false ->
  resume_file <> Some dest_file ->
  exists p,
    pool_run dest_path false resume_file selected max_workers
             [0; 1; 0; 1; 0; 1; 0; 1; 0; 1]%nat (pool_start σ ledger [e1; e2]) = Some p /\
    pool_tasks p = [(e1, Collected (Some dest_file)); (e2, Collected (Some dest_file))] /\
    copied_count (pool_progress p) = (base.size ledger + 2)%nat /\
    errors (pool_progress p) = [] /\
    pool_fs p !! dest_file = Some (copy_of f2) /\
    forall q, is_file (pool_fs p) q = true ->
              q = dest_file \/ Some q = resume_file \/ is_file σ q = true.
Proof.
  intros d Hw Hname Hne H1 H2 Hdirs Hdir Hfree Hres.
  assert (Hnone : σ !! d = None) by (apply not_exists_lookup, Hfree).
  assert (Hparent : Path.parent d = dest_path) by (apply parent_join, Hne).
  assert (G1 : get_destination_path (path e1) dest_path false selected σ = (Ok d, σ))
    by reflexivity.
  assert (G2 : get_destination_path (path e2) dest_path false selected σ = (Ok d, σ)).
  { change (get_destination_path (path e2) dest_path false selected σ)
      with (Ok (Path.join dest_path (Path.name (path e2))), σ).
    rewrite <- Hname. reflexivity. }
  assert (M : mkdir_parents (Path.parent d) σ = (Ok tt, σ)).
  { rewrite Hparent. apply makedirs_ready_id, Hdirs. }
  assert (Hnd : is_dir σ d = false) by (unfold is_dir; rewrite Hnone; reflexivity).
  set (σ1 := create d (copy_of f1) σ).
  assert (C1 : copy2 (path e1) d σ = (Ok tt, σ1)).
  { unfold copy2. rewrite H1, Hnd, Hnone, Hparent, Hdir.
    rewrite bool_decide_eq_false_2 by (intros Heq; rewrite Heq in Hnone; congruence).
    reflexivity. }
  assert (Hext : extends σ σ1) by (apply create_extends, Hnone).
  assert (H2' : σ1 !! path e2 = Some (File f2)).
  { specialize (Hext (path e2)). rewrite H2 in Hext. exact Hext. }
  assert (Hd1 : σ1 !! d = Some (copy_of f1)) by apply create_lookup.
  set (σ2 := <[d := copy_of f2]> σ1).
  assert (C2 : copy2 (path e2) d σ1 = (Ok tt, σ2)).
  { unfold copy2. rewrite H2'.
    assert (Hnd1 : is_dir σ1 d = false) by (unfold is_dir; rewrite Hd1; reflexivity).
    rewrite Hnd1, Hd1.
    rewrite bool_decide_eq_false_2 by (intros Heq; rewrite Heq in Hnone; congruence).
    reflexivity. }
  set (pr0 := Progress ledger (base.size ledger) []).
  set (pr1 := Progress ({[d]} ∪ ledger) (S (base.size ledger)) []).
  set (pr2 := Progress ({[d]} ∪ ({[d]} ∪ ledger)) (S (S (base.size ledger))) []).
  set (σ3 := snd (checkpoint resume_file (length selected) pr2 σ2)).
  exists (Pool σ3 [(e1, Collected (Some d)); (e2, Collected (Some d))] pr2 2).
  split; [|split; [reflexivity|split; [unfold pr2; cbn [pool_progress copied_count]; lia|
    split; [reflexivity|split]]]].
  - unfold pool_start. cbn [map pool_run].
    (* both calls are taken and resolve their destination *)
    unfold pool_exec at 1. cbn [pool_tasks pool_fs lookup list_lookup is_queued andb].
    rewrite free_worker_count by (cbn [List.filter is_running snd length]; lia). cbn [negb worker_step]. rewrite G1.
    cbn [settle insert list_insert pool_progress pool_taken].
    unfold pool_exec at 1. cbn [pool_tasks pool_fs lookup list_lookup is_queued andb].
    rewrite free_worker_count by (cbn [List.filter is_running snd length]; lia). cbn [negb worker_step]. rewrite G2.
    cbn [settle insert list_insert pool_progress pool_taken].
    (* both make the parent directory *)
    unfold pool_exec at 1. cbn [pool_tasks pool_fs lookup list_lookup is_queued andb
                                worker_step]. rewrite M.
    cbn [settle insert list_insert pool_progress pool_taken].
    unfold pool_exec at 1. cbn [pool_tasks pool_fs lookup list_lookup is_queued andb
                                worker_step]. rewrite M.
    cbn [settle insert list_insert pool_progress pool_taken].
    (* both find the name unused *)
    unfold pool_exec at 1. cbn [pool_tasks pool_fs lookup list_lookup is_queued andb
                                worker_step]. rewrite Hfree.
    cbn [insert list_insert pool_progress pool_taken].
    unfold pool_exec at 1. cbn [pool_tasks pool_fs lookup list_lookup is_queued andb
                                worker_step]. rewrite Hfree.
    cbn [insert list_insert pool_progress pool_taken].
    (* both write *)
    unfold pool_exec at 1. cbn [pool_tasks pool_fs lookup list_lookup is_queued andb
                                worker_step]. rewrite C1.
    cbn [settle insert list_insert pool_progress pool_taken].
    unfold pool_exec at 1. cbn [pool_tasks pool_fs lookup list_lookup is_queued andb
                                worker_step]. rewrite C2.
    cbn [settle insert list_insert pool_progress pool_taken].
    (* the main thread takes both results *)
    unfold pool_exec at 1. cbn [pool_tasks pool_fs lookup list_lookup pool_progress
                                pool_taken length].
    rewrite collect_result_plain by (simpl; lia).
    cbn [insert list_insert pool_progress pool_taken copied_files copied_count errors].
    unfold pool_exec at 1. cbn [pool_tasks pool_fs lookup list_lookup pool_progress
                                pool_taken length].
    rewrite collect_result_last.
    cbn [insert list_insert copied_files copied_count errors]. reflexivity.
  - cbn [pool_fs].
    assert (Hd2 : σ2 !! d = Some (copy_of f2)) by apply lookup_insert_eq.
    destruct resume_file as [r|]; [|exact Hd2].
    pose proof (checkpoint_keeps_files (Some r) (length selected) pr2 σ2) as Hk.
    apply Hk; [congruence|exact Hd2].
  - intros q Hq. cbn [pool_fs] in Hq.
    destruct (decide (q = d)) as [->|Hqd]; [auto|]. right.
    assert (Hback : is_file σ2 q = true -> is_file σ q = true).
    { unfold σ2, σ1, create, is_file. rewrite lookup_insert_ne by congruence.
      rewrite lookup_insert_ne by congruence.
      destruct (touch_parent_lookup d q σ) as [->|(_ & Hdq & ->)]; [auto|discriminate]. }
    destruct resume_file as [r|]; [|right; apply Hback, Hq].
    destruct (decide (q = r)) as [->|Hqr]; [left; reflexivity|]. right. apply Hback.
    unfold σ3, checkpoint, save_operation_state in Hq.
    destruct (try_write_file_wrote r (ResumeJson (length selected)
                                        (elements (copied_files pr2)) now) σ2 q)
      as [Heq|[[-> _]|(_ & _ & Hdq)]].
    + unfold is_file in *. rewrite Heq in Hq. exact Hq.
    + congruence.
    + exfalso. exact (file_not_dir _ q Hq Hdq).
Qed.

Lemma same_name_copies_can_overwrite_witness :
  exists p,
    pool_run (Environment0 := Examples.env) ["dst"] false (Some ["dst"; resume_name])
             ResumeExample.selected 4 [0; 1; 0; 1; 0; 1; 0; 1; 0; 1]%nat
             (pool_start CollisionExample.σ2 ∅ ResumeExample.selected) = Some p /\
    copied_count (pool_progress p) = 2%nat /\
    pool_fs p !! ["dst"; "a.jpg"] = Some (File (FileNode 9 100 2 (Media 9))) /\
    is_file (pool_fs p) ["dst"; "a_1.jpg"] = false.
Proof.
  destruct (same_name_copies_can_overwrite unit Examples.env CollisionExample.σ2
              (Entry ["src"; "a.jpg"] 7 1 2 ".jpg" image)
              (Entry ["src"; "sub"; "a.jpg"] 9 1 2 ".jpg" image)
              (FileNode 7 1 2 (Media 7)) (FileNode 9 1 2 (Media 9))
              ["dst"] (Some ["dst"; resume_name]) ResumeExample.selected ∅ 4%nat)
    as (p & Hrun & _ & Hcount & _ & Hthere & Honly).
  - lia.
  - reflexivity.
  - discriminate.
  - reflexivity.
  - reflexivity.
  - split; [reflexivity|exact I].
  - reflexivity.
  - reflexivity.
  - discriminate.
  - exists p. split; [exact Hrun|]. split; [exact Hcount|]. split; [exact Hthere|].
    destruct (is_file (pool_fs p) ["dst"; "a_1.jpg"]) eqn:Hf; [|reflexivity].
    destruct (Honly _ Hf) as [Heq|[Heq|Hsrc]]; discriminate.
Defined.

